(* ===== verification/_CoqProject ===== *)
-Q . S2P
Prelude.v
Errors.v
Text.v
ProtocolStructs.v
Vec.v
Headers.v
TimeoutConfig.v
IO.v
Method.v
Common.v
Duet.v
Follows.v
Transport.v
ServerTL.v
Morphism.v
ServerTLS.v
ProtocolHandler.v
Ping.v
Runtime.v
Threads.v
Locks.v
Schedule.v
Scripted.v
ConnectionHandler.v
Server.v
Permits.v
ClientTL.v
ClientTLS.v
Concurrency.v
Capacity.v
ClientState.v
GivenUp.v
EndToEnd.v
EchoServers.v
ExampleServers.v
EchoHandler.v
Codec.v
Equivalence.v
KeepAlive.v
Serving.v
InFlight.v
ServerRun.v
Lines.v
Parties.v
FullStack.v
Pinged.v
ExampleClients.v
HighLevel.v
Greeter.v
