(* ===== verification/Prelude.v ===== *)
(** * wagonet: a verification development

    wagonet is a small request/response protocol over TCP and TLS.  A client sends
    an eight-byte header (a command and a payload size) and waits for a one-byte
    acknowledgement before it sends the payload; the server answers with a status
    header, waits for a one-byte acknowledgement and sends its payload.  Command 0
    is a keep-alive ping, answered inside the server's transport.  This development
    models the library crate, [src/src/], and most of the programs of
    [src/examples/], and proves what makes them correct.

    ** How the program is modelled

    An [async] function is a program of type [io E A] ([IO]): a tree of events
    ([Vis]), one per call that leaves the crate, and of [tokio::time::timeout]
    scopes ([Timeout]).  The events are grouped by where the call goes: [netE]
    (reads and writes of a stream), [clockE] (sleeping and the clock), [lockE] (the
    mutexes shared with the ping task), [taskE] (spawning and aborting it), [connE]
    (connecting, socket options, TLS), [watchE] and [sessionE] (the shutdown channel
    and the TLS acceptor) and [serverE] (listener, semaphore, spawned connections).
    A function with [&mut self] and [Result] is a [method] ([Method]): the state is
    threaded through, [?] is [question] or [await_q], and an error keeps the changes
    made so far.  What the outside world does is never fixed: it is a [handler] that
    answers events, given the clock and the deadline in force ([exec]), and theorems
    quantify over handlers under the laws they need ([HandlerLaws]: the clock does
    not go back, a deadline is kept, nothing hangs under a deadline; [RuntimeLaws]:
    what a sleep, the clock, a spawn and an abort do).  [Scripted] has concrete
    handlers, on which the witnesses are evaluated.

    Two more views of a program serve the wire-level theorems ([Duet]).  A [Party] is
    a type of events of which some are on a connection and the others local, with the
    answers they may get in a local state: the client's cells and mutexes, the shutdown
    signal of a server task, whatever a command handler awaits.  [acts p l t Q] says
    that [p], from the local state [l], reads and writes exactly the marks of the trace
    [t] (bytes, and the end of the stream), however the network cuts its input and
    whatever its local events answer, and ends in [Q]; [follows] is the case without a
    local state ([Follows] has its rules).  A deadline is met unless [Deadlines] says that
    it fires, when its program waits and nothing is on its way to it: the action [Lapse].
    Two programs run against each other over
    two queues of marks, one event at a time in any order; [converses] says that every
    run is finite, that it can always go on to an end, and that it only stops at the
    end expected.  Steps of the two parties commute, so that it is enough to find one
    schedule that brings their traces to an end ([duet_completes]); two programs that
    act out the two views of one dialogue have one ([duet]).

    A client makes more than one connection: without keep-alive, after a refusal, or
    when it is told to ([Lines]).  A [Caller] is a type of events of which some are on
    numbered lines, some dial a new one or drop one, and the rest are local; [plays]
    is [acts] over the moves on all its lines.  The client runs against one task per
    line, one event at a time in any order, and [settles] says that every run is
    finite, can go on to an end, and stops only at the end expected of the client and
    of every task; [lines_complete] and [lines_dialogues] reduce it to one schedule, or
    one dialogue, per line.

    Integers are [N] with the conversions of the code written out ([as_u32],
    [u32_to_be_bytes]); bytes are [Byte.byte]; a [Vec<u8>] keeps its capacity
    ([Vec]), because the buffers are reserved up front and must not grow; a
    [Duration] and an [Instant] count nanoseconds.

    Threads are programs run in turns ([Threads]): a pool of them, the shared cells
    with the mutexes in front of them, and steps that let any thread do its next
    event, any timeout fire, and any [abort] land between two events.  [Locks] is the
    discipline that the crate's programs keep, read off their trees, and [Schedule]
    an executable scheduler whose runs are runs of the pool.

    ** The files and the code they model (under [src/src/], but for the examples)

    - [Prelude]: results, machine integers and the shared tactics; [Errors]: the
      error types ([lib.rs]); [Vec]: the growth and reservation of [Vec<u8>];
      [IO], [Method]: the monads above.
    - [ProtocolStructs]: [protocol_structs.rs], commands and status codes.
      [Headers]: [request_header.rs] and [response_header.rs].
      [TimeoutConfig]: [timeout_config.rs], with the [Debug] form of a duration
      that its errors contain.
      [Common]: [common.rs], the reader of whole frames.
    - [Transport]: the trait of [transport.rs] as a class, and [TransportSpec], the
      contract that a transport owes [ProtocolHandler].  [ServerTL] ([server_tl.rs])
      and [ServerTLS] ([server_tls.rs]) are its two instances; [Serving] adds
      [Box<dyn Transport>].  [ServerTLS] is proved through [Morphism]: a map of
      states under which two methods do the same.
    - [ProtocolHandler]: [protocol_handler.rs] and the trait of
      [protocol_command_handler.rs], over any transport and any handler, which may
      await events of its own.
    - [ConnectionHandler]: [connection_handler.rs].  [select!] is [select_changed]:
      the event [NextChange] foretells when the shutdown channel changes, the other
      arm runs under that deadline, and what a cancelled call has left in [self] is
      up to the environment ([Leftover]).
    - [Server]: [server.rs], its setters, the accept loop and the drain.
    - [Ping]: [ping.rs], [PingState] as a set of cells behind mutexes, the two halves
      of a ping on the wire and the body of the background loop ([iteration]).
      [Runtime] has the effect of its operations when no other task holds a lock
      ([alone]).
    - [ClientTL] ([client_tl.rs]) and [ClientTLS] ([client_tls.rs]): the clients.
    - [Parties]: the clients' calls on the lines of [Lines], and the connection task
      of the server at the end of one, with the rules of both.  [FullStack]: the public
      calls of both clients as a class ([ClientApi]), and the task that [Server] spawns
      for an accepted stream.
    - [EchoServers]: the request loops of [examples/transport/], [simple_server.rs],
      [tls_server.rs], [ping_example.rs] and [ping_tls_example.rs]; [ExampleServers]:
      how those get their connections and how these end.  [ExampleClients]: the programs
      [simple_client.rs], [tls_client.rs] and [no_answer_mode.rs] of the same directory,
      with what they print.  [EchoHandler]:
      the command handler of [examples/framework/high_level_server.rs] and, as a step
      relation, all the handlers of a server over the counter they share.  [HighLevel]:
      the server that its [main] configures, and [high_level_client.rs].  [InFlight]
      has the slow handler of [examples/framework/shutdown_example.rs].  [Greeter]:
      the typed example of [examples/prost/], its handler and its two programs; the
      encoder and decoder of [prost] are the class [Message].  [Text] has what they use
      of Rust's strings.

    ** What the theorems show

    - [FullStack]: the whole system.  A program makes any number of requests through
      the public calls of either client, with or without keep-alive, and disconnects,
      against the tasks its server spawns for its connections and any handlers, also
      such as await or refuse: all end well, over as many connections as the
      specification [attended] says, and the program has got what local calls of the
      handlers would give ([client_server_session]).
    - [Pinged]: calls and keep-alive pings on one connection, in any order: the calls
      are answered, every ping succeeds, and its last deadline, which waits for bytes
      that only an old server sends, fires ([pinged_session]).
    - [EndToEnd]: the exchanges on a connection, over any transport: a session of
      requests ([session_transparent]); a request is handled once and answered,
      whatever its outcome ([request_delivered_tl], [request_delivered_tls]); and what
      happens to pings, to requests over the limit, to responses that are not
      acknowledged and to requests in no-answer mode, after which the next call fails
      ([no_answer_breaks_the_next_call]).
    - [ClientState]: the clients against any environment: what a request does to the
      connection and to the ping task on every path, that connecting ends in time,
      and the effect of the setters, [disconnect] and the no-answer guard.
    - [Concurrency]: a client's calls next to the ping tasks they start, in any
      interleaving.  Bytes are only read and written by the thread that holds the
      stream, so requests and pings never mix ([wire_is_exclusive]); nothing can
      deadlock, because the mutexes are taken in one order ([never_deadlocks]); and a
      reconnect can cut a ping of the old task ([reconnect_can_cut_a_ping]).
      [GivenUp]: what a request leaves behind that its caller drops.
    - [Permits]: permits and sessions add up to [max_connections] at all times, and a
      full server does not see its shutdown.
    - [Capacity]: the buffers never outgrow what was reserved.
    - [Codec]: round trips and exactness of the headers, the status codes and the
      frame reader.
    - [Equivalence]: the TLS connection types do what the TCP types do, and where
      their errors differ.
    - [KeepAlive]: what a ping accepts, what a turn of the ping task does, and how
      late a ping can come ([ping_comes_in_time]).
    - [Serving]: sessions under a shutdown and without one, the drain, and the
      connections and servers that never start.  [InFlight]: a shutdown cuts a request
      in flight.  [ServerRun]: [run] as a whole stops
      within the drain timeout after the shutdown signal.
    - [EchoServers]: the request loops echo.  [ExampleServers]: the servers stop at the
      first ping, which fails ([example_servers_stop_at_a_ping]).  [ExampleClients]: the
      example clients print the echoes and end well, against the example servers
      ([example_programs]), of which [simple_server] ends with its first client; the
      client in no-answer mode fails at its second message.  [EchoHandler]: the
      statistics are exact whatever the other connections do.  [HighLevel]: the client
      of the framework example works, over three connections, of which the second is
      there because the first one does not survive a refusal
      ([high_level_programs]).
      [Greeter]: the typed handler is total on what decodes and its answers are
      well typed ([greeter_typed]), and the two programs work end to end for every
      codec that keeps its promise ([prost_programs]).

    ** Fuel

    [Common.read_loop] runs with as many turns as bytes are asked for, and
    [read_loop_fuel] shows that more change nothing.  [connect_loop] has ten attempts
    and the turn that leaves the loop.  The connection loop, the accept loop and the
    ping loop do not end by themselves: their models run for a number of turns and
    say whether they have ended; the theorems hold for every number, and
    [session_stops_at_shutdown] and [server_stops_after_shutdown] give one that is
    enough: a turn per nanosecond until the signal.

    ** What is not modelled

    Logging; panics (an [unwrap] of an example ends its task like an error); the
    [ToBytes], [FromBytes] and [PingStream] traits, which nothing in the crate calls;
    TLS itself ([native_tls]: its acceptor and connector are events, a TLS stream is
    a stream) and the tokio runtime; [str::to_uppercase] beyond ASCII (the class
    [Text.Casing]); [prost], a third-party package; of the examples, the making of
    certificates, the Ctrl+C tasks, [main] of [shutdown_example.rs], and the clients of
    [ping_example.rs] and [ping_tls_example.rs], which sleep while the ping task works:
    what their pings meet is [example_servers_stop_at_a_ping].

    The theorems over [Duet] and [Lines] are about runs in which no deadline fires and
    no connection fails to come about: those over a [handler] have the deadlines and
    the failures, those of [Threads] and [Ping] the ping task.  A shared counter of an
    example's handlers is, for the theorems about one client, what each connection finds
    in it; [stats_are_exact] has the connections that share it.  The theorems of
    [ClientState] and [KeepAlive] take a call as undisturbed by the other thread
    ([alone]); those of [Concurrency] do not. *)
From stdpp Require Export base tactics list numbers strings option.
From Stdlib Require Export Strings.Byte.
From Stdlib Require Import ZifyN ZifyNat ZifyBool.
From stdpp Require Import options.

Declare Scope wagonet_scope.
Delimit Scope wagonet_scope with wag.
Open Scope wagonet_scope.

(** * Results: [std::result::Result] *)

Inductive result (A E : Type) : Type :=
| Ok (a : A)
| Err (e : E).
Arguments Ok {_ _} _.
Arguments Err {_ _} _.

Definition is_ok {A E} (r : result A E) : bool :=
  match r with Ok _ => true | Err _ => false end.

Definition result_map {A B E} (f : A → B) (r : result A E) : result B E :=
  match r with Ok a => Ok (f a) | Err e => Err e end.

Definition result_map_err {A E F} (f : E → F) (r : result A E) : result A F :=
  match r with Ok a => Ok a | Err e => Err (f e) end.

(** [Option::is_none]. *)
Definition is_none {A} (o : option A) : bool :=
  match o with None => true | Some _ => false end.

#[export] Instance result_eq_dec `{EqDecision A, EqDecision E} : EqDecision (result A E).
Proof. solve_decision. Defined.

(** * Machine integers

    Unsigned integers are [N]; [u8] is the 256-element type [byte], so a byte
    string is a [list byte] and needs no range hypothesis. *)

#[export] Instance byte_eq_dec : EqDecision byte := Byte.byte_eq_dec.

Abbreviation u32_modulus := (4294967296%N).
Abbreviation usize_max := (18446744073709551615%N).
Abbreviation isize_max := (9223372036854775807%N).

(** [x as u32] for a wider unsigned [x]. *)
Definition as_u32 (x : N) : N := (x mod u32_modulus)%N.
(** [x as u8]. *)
Definition as_u8 (x : N) : byte := default x00 (Byte.of_N (x mod 256)%N).
(** [a.saturating_sub(b)] is truncated subtraction, [N.sub]. *)
Definition saturating_sub (a b : N) : N := (a - b)%N.

(** [u32::to_be_bytes] and [u32::from_be_bytes]. *)
Definition u32_to_be_bytes (x : N) : list byte :=
  [as_u8 (N.shiftr x 24); as_u8 (N.shiftr x 16); as_u8 (N.shiftr x 8); as_u8 x].

Definition u32_from_be_bytes (bs : list byte) : N :=
  fold_left (λ acc b, (256 * acc + Byte.to_N b)%N) bs 0%N.

(** Length of a byte string as a [usize]. *)
Definition len {A} (l : list A) : N := N.of_nat (length l).

Lemma byte_to_N_lt (b : byte) : (Byte.to_N b < 256)%N.
Proof. pose proof (Byte.to_N_bounded b). lia. Qed.

Lemma to_N_as_u8 (x : N) : Byte.to_N (as_u8 x) = (x mod 256)%N.
Proof.
  unfold as_u8. destruct (Byte.of_N (x mod 256)) as [b|] eqn:Hb; simpl.
  - by apply Byte.to_of_N.
  - apply Byte.of_N_None_iff in Hb. pose proof (N.mod_upper_bound x 256). lia.
Qed.

Lemma as_u8_to_N (b : byte) : as_u8 (Byte.to_N b) = b.
Proof.
  unfold as_u8. rewrite N.mod_small by apply byte_to_N_lt.
  by rewrite Byte.of_to_N.
Qed.

Lemma byte_to_N_inj (a b : byte) : Byte.to_N a = Byte.to_N b → a = b.
Proof. intros H. by rewrite <-(as_u8_to_N a), H, as_u8_to_N. Qed.

Lemma length_u32_to_be_bytes x : length (u32_to_be_bytes x) = 4.
Proof. done. Qed.

Lemma u32_from_to_be_bytes (x : N) :
  (x < u32_modulus)%N → u32_from_be_bytes (u32_to_be_bytes x) = x.
Proof.
  intros Hx. unfold u32_from_be_bytes, u32_to_be_bytes. cbn [fold_left].
  rewrite !to_N_as_u8, !N.shiftr_div_pow2.
  change (2 ^ 24)%N with 16777216%N. change (2 ^ 16)%N with 65536%N.
  change (2 ^ 8)%N with 256%N. zify. Z.div_mod_to_equations. lia.
Qed.

Lemma u32_from_be_bytes_4 a b c d :
  u32_from_be_bytes [a; b; c; d] =
  (16777216 * Byte.to_N a + 65536 * Byte.to_N b + 256 * Byte.to_N c + Byte.to_N d)%N.
Proof. unfold u32_from_be_bytes. cbn [fold_left]. lia. Qed.

Lemma u32_from_be_bytes_lt (bs : list byte) :
  length bs = 4 → (u32_from_be_bytes bs < u32_modulus)%N.
Proof.
  destruct bs as [|a [|b [|c [|d [|]]]]]; try discriminate. intros _.
  rewrite u32_from_be_bytes_4.
  pose proof (byte_to_N_lt a). pose proof (byte_to_N_lt b).
  pose proof (byte_to_N_lt c). pose proof (byte_to_N_lt d). lia.
Qed.

Lemma u32_to_from_be_bytes (bs : list byte) :
  length bs = 4 → u32_to_be_bytes (u32_from_be_bytes bs) = bs.
Proof.
  destruct bs as [|a [|b [|c [|d [|]]]]]; try discriminate. intros _.
  rewrite u32_from_be_bytes_4. unfold u32_to_be_bytes.
  pose proof (byte_to_N_lt a). pose proof (byte_to_N_lt b).
  pose proof (byte_to_N_lt c). pose proof (byte_to_N_lt d).
  repeat f_equal; apply byte_to_N_inj; rewrite to_N_as_u8, ?N.shiftr_div_pow2;
    change (2 ^ 24)%N with 16777216%N; change (2 ^ 16)%N with 65536%N;
    change (2 ^ 8)%N with 256%N; zify; Z.div_mod_to_equations; lia.
Qed.

Lemma as_u32_small x : (x < u32_modulus)%N → as_u32 x = x.
Proof. apply N.mod_small. Qed.

Lemma as_u32_lt x : (as_u32 x < u32_modulus)%N.
Proof. by apply N.mod_lt. Qed.

(** * Byte strings *)

Lemma len_app {A} (l k : list A) : len (l ++ k) = (len l + len k)%N.
Proof. unfold len. rewrite length_app. lia. Qed.

Lemma len_nil {A} : len (@nil A) = 0%N.
Proof. done. Qed.

Lemma len_replicate {A} n (x : A) : len (replicate n x) = N.of_nat n.
Proof. unfold len. by rewrite length_replicate. Qed.

Lemma to_nat_len {A} (l : list A) : N.to_nat (len l) = length l.
Proof. unfold len. lia. Qed.

(** * Automation *)

Create HintDb wagonet.
#[export] Hint Resolve byte_to_N_lt as_u32_lt u32_from_be_bytes_lt : wagonet.
Create Rewrite HintDb wagonet_len.
#[export] Hint Rewrite @len_app @len_nil @len_replicate @to_nat_len
  @length_u32_to_be_bytes : wagonet_len.

(** Open every pair, existential and conjunction of the context. *)
Ltac dest :=
  repeat match goal with
  | H : ∃ _, _ |- _ => destruct H
  | H : _ ∧ _ |- _ => destruct H
  | p : (_ * _)%type |- _ => destruct p
  end.

(** Turn the boolean comparisons of the code into propositions. *)
Ltac breflect :=
  repeat match goal with
  | H : context [(?a <? ?b)%N] |- _ => destruct (N.ltb_spec a b)
  | H : context [(?a <=? ?b)%N] |- _ => destruct (N.leb_spec a b)
  | H : context [(?a =? ?b)%N] |- _ => destruct (N.eqb_spec a b)
  | |- context [(?a <? ?b)%N] => destruct (N.ltb_spec a b)
  | |- context [(?a <=? ?b)%N] => destruct (N.leb_spec a b)
  | |- context [(?a =? ?b)%N] => destruct (N.eqb_spec a b)
  end; try done; try lia.

(** Case analysis on the scrutinee of the outermost [match] of the goal. *)
Ltac case_goal :=
  match goal with |- context [match ?x with _ => _ end] => destruct x eqn:? end.
