(* ===== verification/Errors.v ===== *)
(** The unified error type of the crate ([src/src/lib.rs], [enum Error]), the
    conversions the [?] operator and [.into()] apply, and [is_disconnect].

    [std::io::Error] is its [ErrorKind]; the only kind the crate inspects is
    [UnexpectedEof], every other one is [OtherIo] with an arbitrary code.
    [native_tls::Error] is an opaque value of another package, kept as a code.
    A [Box<dyn Error + Send + Sync>] holds what the crate puts into one: an
    [Error] of its own, an I/O error, a TLS error or a string. *)
From S2P Require Import Prelude.
From stdpp Require Import pretty options.

Inductive io_error :=
| UnexpectedEof
| OtherIo (code : N).

Inductive tls_error := TlsError (code : N).

Inductive Error :=
| Io (e : io_error)
| ETimeout (msg : string)
| Tls (e : tls_error)
| Protocol (msg : string)
| BufferOverflow (expected limit : N)
| NotConnected
| ConnectionClosed
| ConnectionClosedMidFrame (received expected : N)
| ResponseError (status : byte)
| Config (msg : string)
| Other (e : BoxError)
| Msg (msg : string)
with BoxError :=
| BoxedError (e : Error)
| BoxedIo (e : io_error)
| BoxedTls (e : tls_error)
| BoxedStr (msg : string).

Abbreviation Result A := (result A Error).
Abbreviation BoxResult A := (result A BoxError).

Definition is_disconnect (e : Error) : bool :=
  match e with
  | ConnectionClosed | ConnectionClosedMidFrame _ _ => true
  | _ => false
  end.

(** [impl From<..> for Error], as a class: [into] is [.into()] and the
    conversion of [?]. *)
Class Into (A B : Type) := into : A → B.

#[export] Instance error_of_error : Into Error Error := λ e, e.
#[export] Instance error_of_io : Into io_error Error := Io.
#[export] Instance error_of_tls : Into tls_error Error := Tls.
#[export] Instance error_of_str : Into string Error := Msg.
#[export] Instance error_of_box : Into BoxError Error := Other.

(** [tokio::time::error::Elapsed]; the crate itself maps it to a message of its own. *)
Inductive elapsed := Elapsed.
#[export] Instance error_of_elapsed : Into elapsed Error := λ _, ETimeout "operation timed out".

(** The standard library's [From<E> for Box<dyn Error + Send + Sync>]. *)
#[export] Instance box_of_error : Into Error BoxError := BoxedError.
#[export] Instance box_of_io : Into io_error BoxError := BoxedIo.
#[export] Instance box_of_str : Into string BoxError := BoxedStr.
#[export] Instance box_of_box : Into BoxError BoxError := λ e, e.

#[export] Instance io_error_eq_dec : EqDecision io_error.
Proof. solve_decision. Defined.
#[export] Instance tls_error_eq_dec : EqDecision tls_error.
Proof. solve_decision. Defined.

Lemma Error_BoxError_eq_dec :
  (∀ e1 e2 : Error, {e1 = e2} + {e1 ≠ e2}) *
  (∀ b1 b2 : BoxError, {b1 = b2} + {b1 ≠ b2}).
Proof.
  split; [fix IH 1 with (IHb (b1 b2 : BoxError) {struct b1} : {b1 = b2} + {b1 ≠ b2})
         |fix IHb 1 with (IH (e1 e2 : Error) {struct e1} : {e1 = e2} + {e1 ≠ e2})];
  decide equality;
  match goal with
  | |- {?a = ?b :> Error} + {_} => apply IH
  | |- {?a = ?b :> BoxError} + {_} => apply IHb
  | |- {?a = ?b} + {_} => exact (decide (a = b))
  end.
Defined.
#[export] Instance Error_eq_dec : EqDecision Error := fst Error_BoxError_eq_dec.
#[export] Instance BoxError_eq_dec : EqDecision BoxError := snd Error_BoxError_eq_dec.

(** What a caller that matches on the variants of [Error] learns from a boxed
    error: nothing. *)
Lemma is_disconnect_box (b : BoxError) : is_disconnect (into b) = false.
Proof. done. Qed.

(** Decimal rendering, as [format!("{}", n)] does. *)
Definition show (n : N) : string := pretty n.
