(* ===== verification/Text.v ===== *)
(** Text as the examples use it: a Rust [String] is its UTF-8 bytes.

    [from_utf8_lossy] is [String::from_utf8_lossy] of the standard library, with its
    scanner; [Casing] is [str::to_uppercase], whose tables are Unicode's: what it
    does to ASCII is all that is said of it. *)
From S2P Require Import Prelude Errors.
From Stdlib Require Import Strings.String.
From stdpp Require Import pretty options.

(** The bytes of a literal or of a formatted string. *)
Definition bytes_of (s : string) : list byte := list_byte_of_string s.

Definition within (lo hi : N) (b : option byte) : bool :=
  match b with Some b => (lo <=? Byte.to_N b)%N && (Byte.to_N b <=? hi)%N | None => false end.

(** A continuation byte. *)
Definition continues : option byte → bool := within 128 191.

(** The second bytes of the characters of three and of four bytes. *)
Definition second_of_three (b0 b1 : option byte) : bool :=
  (within 224 224 b0 && within 160 191 b1) || (within 225 236 b0 && continues b1)
  || (within 237 237 b0 && within 128 159 b1) || (within 238 239 b0 && continues b1).
Definition second_of_four (b0 b1 : option byte) : bool :=
  (within 240 240 b0 && within 144 191 b1) || (within 241 243 b0 && continues b1)
  || (within 244 244 b0 && within 128 143 b1).

(** The scanner's step: how many bytes the next character takes and whether it is
    one; if not, they are the longest prefix of a character. *)
Definition utf8_next (bs : list byte) : nat * bool :=
  let b0 := bs !! 0 in let b1 := bs !! 1 in let b2 := bs !! 2 in let b3 := bs !! 3 in
  if within 0 127 b0 then (1, true)
  else if within 194 223 b0 then if continues b1 then (2, true) else (1, false)
  else if within 224 239 b0 then
    if second_of_three b0 b1
    then if continues b2 then (3, true) else (2, false)
    else (1, false)
  else if within 240 244 b0 then
    if second_of_four b0 b1
    then if continues b2 then if continues b3 then (4, true) else (3, false) else (2, false)
    else (1, false)
  else (1, false).

(** U+FFFD, the replacement character. *)
Definition replacement : list byte := [xef; xbf; xbd].

Fixpoint lossy_loop (fuel : nat) (bs : list byte) : list byte :=
  match fuel, bs with
  | S fuel, _ :: _ =>
    let (n, ok) := utf8_next bs in
    (if ok then take n bs else replacement) ++ lossy_loop fuel (drop n bs)
  | _, _ => []
  end.

Definition from_utf8_lossy (bs : list byte) : list byte := lossy_loop (length bs) bs.

(** What a [String] may hold. *)
Inductive is_utf8 : list byte → Prop :=
| utf8_nil : is_utf8 []
| utf8_char n bs : utf8_next bs = (n, true) → is_utf8 (drop n bs) → is_utf8 bs.

(** * The scanner *)

Lemma continues_length (bs : list byte) i : continues (bs !! i) = true → i < length bs.
Proof. intros H. apply lookup_lt_is_Some. destruct (bs !! i); [eauto|done]. Qed.

Lemma second_of_three_length b0 (bs : list byte) i :
  second_of_three b0 (bs !! i) = true → i < length bs.
Proof.
  unfold second_of_three. intros H. apply lookup_lt_is_Some. destruct (bs !! i); [eauto|].
  simpl in H. by rewrite !andb_false_r in H.
Qed.

Lemma second_of_four_length b0 (bs : list byte) i :
  second_of_four b0 (bs !! i) = true → i < length bs.
Proof.
  unfold second_of_four. intros H. apply lookup_lt_is_Some. destruct (bs !! i); [eauto|].
  simpl in H. by rewrite !andb_false_r in H.
Qed.

(** Every step consumes something, never more than there is. *)
Lemma utf8_next_length bs n ok :
  utf8_next bs = (n, ok) → bs ≠ [] → 0 < n ≤ length bs.
Proof.
  intros H Hbs. assert (0 < length bs) by (destruct bs; [done|simpl; lia]).
  unfold utf8_next in H. repeat (case_match; try discriminate); simplify_eq;
    repeat match goal with
    | E : continues _ = true |- _ => apply continues_length in E
    | E : second_of_three _ _ = true |- _ => apply second_of_three_length in E
    | E : second_of_four _ _ = true |- _ => apply second_of_four_length in E
    end; lia.
Qed.

(** A character is recognised whatever follows it. *)
Lemma utf8_next_prefix bs n rest :
  utf8_next bs = (n, true) → utf8_next (take n bs ++ rest) = (n, true).
Proof.
  intros H.
  assert (Hl : ∀ i, i < n → (take n bs ++ rest) !! i = bs !! i).
  { intros i Hi. destruct (decide (bs = [])) as [->|Hbs]; [by cbv in H; simplify_eq|].
    pose proof (utf8_next_length _ _ _ H Hbs).
    rewrite lookup_app_l by (rewrite length_take; lia). by apply lookup_take_lt. }
  unfold utf8_next in H.
  repeat (case_match; try discriminate); simplify_eq; unfold utf8_next;
    repeat match goal with
    | |- context [(_ ++ _) !! ?i] => rewrite (Hl i) by lia
    | E : _ = true |- _ => rewrite E
    | E : _ = false |- _ => rewrite E
    end; done.
Qed.

Lemma lossy_loop_enough fuel bs :
  length bs ≤ fuel → lossy_loop fuel bs = from_utf8_lossy bs.
Proof.
  unfold from_utf8_lossy. remember (length bs) as m eqn:Hm. revert bs fuel Hm.
  induction (lt_wf m) as [m _ IH]. intros bs fuel -> Hf.
  destruct bs as [|b bs]; [by destruct fuel|]. destruct fuel as [|fuel]; [simpl in *; lia|].
  cbn [lossy_loop length]. destruct (utf8_next (b :: bs)) as [n ok] eqn:Hn.
  apply utf8_next_length in Hn as [Hpos Hle]; [|done]. f_equal.
  assert (length (drop n (b :: bs)) < length (b :: bs)) by (rewrite length_drop; lia).
  rewrite (IH (length (drop n (b :: bs)))) by (done || simpl in *; lia).
  symmetry. apply (IH (length (drop n (b :: bs)))); done || simpl in *; lia.
Qed.

Lemma from_utf8_lossy_step bs n ok :
  bs ≠ [] → utf8_next bs = (n, ok) →
  from_utf8_lossy bs = (if ok then take n bs else replacement) ++ from_utf8_lossy (drop n bs).
Proof.
  intros Hbs Hn. pose proof (utf8_next_length _ _ _ Hn Hbs).
  unfold from_utf8_lossy at 1. destruct bs as [|b bs]; [done|]. cbn [length lossy_loop].
  rewrite Hn, lossy_loop_enough; [done|]. rewrite length_drop. simpl in *. lia.
Qed.

(** Reasoning character by character. *)
Lemma utf8_ind (P : list byte → Prop) :
  P [] → (∀ bs n ok, bs ≠ [] → utf8_next bs = (n, ok) → P (drop n bs) → P bs) → ∀ bs, P bs.
Proof.
  intros H0 Hs bs. induction (Wf_nat.well_founded_ltof _ length bs) as [bs _ IH].
  destruct (decide (bs = [])) as [->|Hbs]; [done|].
  destruct (utf8_next bs) as [n ok] eqn:Hn. pose proof (utf8_next_length _ _ _ Hn Hbs).
  apply (Hs _ n ok); [done..|]. apply IH. unfold Wf_nat.ltof. rewrite length_drop. lia.
Qed.

Lemma is_utf8_cons n bs : utf8_next bs = (n, true) → bs ≠ [].
Proof. by intros H ->. Qed.

(** Text goes through unchanged. *)
Lemma from_utf8_lossy_text bs : is_utf8 bs → from_utf8_lossy bs = bs.
Proof.
  induction 1 as [|n bs Hn _ IH]; [done|].
  rewrite (from_utf8_lossy_step bs n true), IH by eauto using is_utf8_cons. apply take_drop.
Qed.

Lemma is_utf8_app bs bs' : is_utf8 bs → is_utf8 bs' → is_utf8 (bs ++ bs').
Proof.
  intros H H'. induction H as [|n bs Hn _ IH]; [done|].
  pose proof (utf8_next_length _ _ _ Hn (is_utf8_cons _ _ Hn)).
  eapply (utf8_char n).
  - rewrite <-(take_drop n bs), <-(assoc_L (++)). by apply utf8_next_prefix.
  - rewrite drop_app_le by lia. done.
Qed.

Lemma is_utf8_ascii bs : Forall (λ b, Byte.to_N b < 128)%N bs → is_utf8 bs.
Proof.
  induction 1 as [|b bs Hb _ IH]; [constructor|]. apply (utf8_char 1); [|done].
  unfold utf8_next, within. cbn [lookup list_lookup].
  destruct (N.leb_spec 0 (Byte.to_N b)), (N.leb_spec (Byte.to_N b) 127); done || lia.
Qed.

(** The result is text, whatever the bytes. *)
(** Decimal numbers are text. *)
Lemma is_utf8_show n : is_utf8 (bytes_of (show n)).
Proof.
  apply is_utf8_ascii.
  assert (∀ x s, Forall (λ b, Byte.to_N b < 128)%N (bytes_of s) →
    Forall (λ b, Byte.to_N b < 128)%N (bytes_of (pretty_N_go x s))) as Hgo.
  { intros x. induction (N.lt_wf_0 x) as [x _ IH]. intros s Hs.
    destruct (decide (x = 0)%N) as [->|Hx]; [by rewrite pretty_N_go_0|].
    rewrite pretty_N_go_step by lia. apply IH; [apply N.div_lt; lia|].
    constructor; [|done]. unfold pretty_N_char. by repeat case_match. }
  unfold show, pretty, pretty_N. case_decide; [by repeat constructor|]. by apply Hgo.
Qed.

(** A number below ten to the [k] has at most [k] digits. *)
Lemma len_show (k : nat) n : (n < 10 ^ N.of_nat (S k))%N → (len (bytes_of (show n)) <= N.of_nat (S k))%N.
Proof.
  assert (∀ k x s, (x < 10 ^ N.of_nat k)%N →
    (len (bytes_of (pretty_N_go x s)) <= N.of_nat k + len (bytes_of s))%N) as Hgo.
  { clear. intros k. induction k as [|k IH]; intros x s Hx.
    - simpl in Hx. assert (x = 0)%N as -> by lia. rewrite pretty_N_go_0. lia.
    - destruct (decide (x = 0)%N) as [->|Hx0]; [rewrite pretty_N_go_0; lia|].
      rewrite pretty_N_go_step by lia. etrans; [apply IH|].
      + rewrite Nat2N.inj_succ, N.pow_succ_r' in Hx. apply N.Div0.div_lt_upper_bound. lia.
      + unfold len. match goal with |- context [length (bytes_of (String ?c ?s))] => change (length (bytes_of (String c s))) with (S (length (bytes_of s))) end. lia. }
  intros Hn. unfold show, pretty, pretty_N. case_decide; [unfold len; simpl; lia|].
  etrans; [by apply (Hgo (S k))|]. unfold len. simpl. lia.
Qed.

Lemma bytes_of_app s t : bytes_of (s +:+ t) = bytes_of s ++ bytes_of t.
Proof. induction s as [|c s IH]; [done|]. exact (f_equal (cons _) IH). Qed.

Lemma from_utf8_lossy_is_utf8 bs : is_utf8 (from_utf8_lossy bs).
Proof.
  induction bs as [|bs n ok Hbs Hn IH] using utf8_ind; [constructor|].
  rewrite (from_utf8_lossy_step bs n ok) by done. apply is_utf8_app; [|done].
  destruct ok; [|by apply (utf8_char 3); [|constructor]].
  apply (utf8_char n).
  - rewrite <-(app_nil_r (take n bs)). by apply utf8_next_prefix.
  - rewrite drop_ge; [constructor|]. rewrite length_take. lia.
Qed.

Lemma length_from_utf8_lossy bs : length (from_utf8_lossy bs) ≤ 3 * length bs.
Proof.
  induction bs as [|bs n ok Hbs Hn IH] using utf8_ind; [done|].
  pose proof (utf8_next_length _ _ _ Hn Hbs).
  rewrite (from_utf8_lossy_step bs n ok), length_app by done. rewrite length_drop in IH.
  destruct ok; rewrite ?length_take; simpl; lia.
Qed.

(** * Upper case *)

(** [str::to_uppercase] on a string's bytes. *)
Class Casing := {
  to_uppercase : list byte → list byte;
  to_uppercase_ascii bs : Forall (λ b, Byte.to_N b < 128)%N bs →
    to_uppercase bs =
      map (λ b, let n := Byte.to_N b in
        if (97 <=? n)%N && (n <=? 122)%N then as_u8 (n - 32) else b) bs;
}.
