(* ===== verification/ProtocolStructs.v ===== *)
(** Command and status codes ([src/src/protocol_structs.rs]). *)
From S2P Require Import Prelude.
From stdpp Require Import options.

Inductive Command := Ping.

Definition u32_of_command (c : Command) : N := match c with Ping => 0%N end.

Inductive ResponseStatus :=
| Unknown
| StatusOk
| Finish
| StatusError
| DatabaseError
| InvalidCommand
| InvalidData
| InvalidDataSize
| InvalidDataFormat
| InvalidDataValue
| InvalidDomain
| InvalidRequest
| InvalidResponse
| InvalidSignature.

#[export] Instance ResponseStatus_eq_dec : EqDecision ResponseStatus.
Proof. solve_decision. Defined.

(** The discriminants of [#[repr(u8)] enum ResponseStatus]. *)
Definition u8_of_status (s : ResponseStatus) : byte :=
  match s with
  | Unknown => x00
  | StatusOk => x01
  | Finish => x02
  | StatusError => x03
  | DatabaseError => x04
  | InvalidCommand => x05
  | InvalidData => x06
  | InvalidDataSize => x07
  | InvalidDataFormat => x08
  | InvalidDataValue => x09
  | InvalidDomain => x0a
  | InvalidRequest => x0b
  | InvalidResponse => x0c
  | InvalidSignature => x0d
  end.

Definition u32_of_status (s : ResponseStatus) : N := Byte.to_N (u8_of_status s).

(** [strum]'s [FromRepr]: the variant with the given discriminant. *)
Definition from_repr (v : byte) : option ResponseStatus :=
  match v with
  | x00 => Some Unknown
  | x01 => Some StatusOk
  | x02 => Some Finish
  | x03 => Some StatusError
  | x04 => Some DatabaseError
  | x05 => Some InvalidCommand
  | x06 => Some InvalidData
  | x07 => Some InvalidDataSize
  | x08 => Some InvalidDataFormat
  | x09 => Some InvalidDataValue
  | x0a => Some InvalidDomain
  | x0b => Some InvalidRequest
  | x0c => Some InvalidResponse
  | x0d => Some InvalidSignature
  | _ => None
  end.

Definition status_of_u8 (v : byte) : ResponseStatus := default Unknown (from_repr v).

(** [status as u8] truncates before the lookup. *)
Definition status_of_u32 (v : N) : ResponseStatus := default Unknown (from_repr (as_u8 v)).

Lemma from_repr_u8_of_status s : from_repr (u8_of_status s) = Some s.
Proof. by destruct s. Qed.

Lemma from_repr_Some v s : from_repr v = Some s → u8_of_status s = v.
Proof. by destruct v; intros [= <-]. Qed.

Lemma u8_of_status_inj s1 s2 : u8_of_status s1 = u8_of_status s2 → s1 = s2.
Proof.
  intros H. apply (f_equal from_repr) in H.
  rewrite !from_repr_u8_of_status in H. by injection H.
Qed.
