(* ===== verification/Vec.v ===== *)
(** The byte buffers ([Vec<u8>]) the connections reuse, with their capacity.

    The crate reserves a buffer once and promises that no later [resize] within
    the limit allocates, so the model keeps the capacity next to the contents.
    Growth follows the standard library: a request that does not fit reallocates
    to the larger of twice the capacity, the needed size and 8.  Whether the
    allocator can serve a capacity is a parameter, [alloc_ok]. *)
From S2P Require Import Prelude.
From stdpp Require Import options.

(** The allocator: whether a buffer of the given capacity can be obtained. *)
Class Allocator := alloc_ok : N → bool.

Module Vec.

Record t := mk { data : list byte; cap : N }.

Definition with_capacity (n : N) : t := mk [] n.
Definition len (v : t) : N := Prelude.len (data v).

Definition grow_amortized (v : t) (needed : N) : N :=
  N.max 8 (N.max (2 * cap v) needed).

(** Make room for [needed] bytes in total. *)
Definition reserve_total (v : t) (needed : N) : t :=
  if (needed <=? cap v)%N then v else mk (data v) (grow_amortized v needed).

Definition clear (v : t) : t := mk [] (cap v).

Definition extend_from_slice (bs : list byte) (v : t) : t :=
  let v := reserve_total v (len v + Prelude.len bs) in
  mk (data v ++ bs) (cap v).

Definition push (b : byte) (v : t) : t := extend_from_slice [b] v.

(** [v.resize(n, 0)]. *)
Definition resize (n : nat) (v : t) : t :=
  let v := reserve_total v (N.of_nat n) in
  mk (take n (data v) ++ replicate (n - length (data v)) x00) (cap v).

(** Overwrite the whole contents, as a read into [&mut v[..]] does. *)
Definition overwrite (bs : list byte) (v : t) : t := mk bs (cap v).

Inductive try_reserve_error := CapacityOverflow | AllocError.

(** [impl Display for TryReserveError]. *)
Definition show_try_reserve_error (e : try_reserve_error) : string :=
  "memory allocation failed" +:+
  match e with
  | CapacityOverflow => " because the computed capacity exceeded the collection's maximum"
  | AllocError => " because the memory allocator returned an error"
  end.

(** [v.try_reserve(additional)]; the vector is untouched on failure. *)
Definition try_reserve `{Allocator} (additional : N) (v : t) :
    t * result unit try_reserve_error :=
  if (additional <=? cap v - len v)%N then (v, Ok tt)
  else
    let needed := (len v + additional)%N in
    if (usize_max <? needed)%N then (v, Err CapacityOverflow)
    else
      let new_cap := grow_amortized v needed in
      if (isize_max <? new_cap)%N then (v, Err CapacityOverflow)
      else if alloc_ok new_cap then (mk (data v) new_cap, Ok tt)
      else (v, Err AllocError).

(** The length never exceeds the capacity. *)
Definition wf (v : t) : Prop := (len v <= cap v)%N.

Lemma reserve_total_fits v n : (n <= cap v)%N → reserve_total v n = v.
Proof. intros. unfold reserve_total. breflect. Qed.

Lemma cap_resize_fits n v : (N.of_nat n <= cap v)%N → cap (resize n v) = cap v.
Proof. intros. unfold resize. by rewrite reserve_total_fits. Qed.

Lemma cap_extend_fits bs v :
  (len v + Prelude.len bs <= cap v)%N → cap (extend_from_slice bs v) = cap v.
Proof. intros. unfold extend_from_slice. by rewrite reserve_total_fits. Qed.

Lemma len_extend bs v : len (extend_from_slice bs v) = (len v + Prelude.len bs)%N.
Proof. unfold extend_from_slice, reserve_total, len. case_match; simpl; by rewrite len_app. Qed.

(** Two appends that fit together leave the capacity alone. *)
Lemma cap_extend_fits2 bs cs v :
  (len v + Prelude.len bs + Prelude.len cs <= cap v)%N →
  cap (extend_from_slice cs (extend_from_slice bs v)) = cap v.
Proof.
  intros H. assert (cap (extend_from_slice bs v) = cap v) as Hc
    by (apply cap_extend_fits; lia).
  rewrite cap_extend_fits; [done|]. rewrite len_extend, Hc. lia.
Qed.

Lemma data_resize n v : length (data (resize n v)) = n.
Proof.
  unfold resize, reserve_total. case_match; simpl;
    rewrite length_app, length_take, length_replicate; lia.
Qed.

Lemma data_extend bs v : data (extend_from_slice bs v) = data v ++ bs.
Proof. unfold extend_from_slice, reserve_total. by case_match. Qed.

Lemma try_reserve_Ok `{Allocator} n v v' u :
  wf v → try_reserve n v = (v', Ok u) →
  data v' = data v ∧ (len v + n <= cap v')%N ∧ (cap v <= cap v')%N.
Proof.
  unfold wf, try_reserve, grow_amortized.
  intros Hv. repeat case_match; intros [= <- <-]; breflect; cbn [data cap]; split_and!; done || lia.
Qed.

Lemma try_reserve_Err `{Allocator} n v v' e : try_reserve n v = (v', Err e) → v' = v.
Proof. unfold try_reserve. repeat case_match; by intros [= <- <-]. Qed.

End Vec.
