(* ===== verification/Headers.v ===== *)
(** The two frame headers of the wire protocol and their codecs
    ([src/src/request_header.rs] and [src/src/response_header.rs]).

    [encode] appends to a [Vec<u8>]; [decode] works on a slice it advances, so
    the model returns the header together with the rest of the slice. *)
From S2P Require Import Prelude Errors Vec.
From stdpp Require Import options.

Module RequestHeader.

Record t := new { command : N; data_size : N }.

Definition REQUEST_HEADER_SIZE : nat := 8.
Definition encoded_len : nat := REQUEST_HEADER_SIZE.

(** The fields are [u32]. *)
Definition wf (h : t) : Prop := (command h < u32_modulus ∧ data_size h < u32_modulus)%N.

Definition encode (h : t) (buf : Vec.t) : Result Vec.t :=
  let buf := Vec.extend_from_slice (u32_to_be_bytes (command h)) buf in
  let buf := Vec.extend_from_slice (u32_to_be_bytes (data_size h)) buf in
  Ok buf.

Definition decode (buf : list byte) (max_data_size : N) : Result (t * list byte) :=
  if decide (length buf < REQUEST_HEADER_SIZE) then
    Err (Protocol "Not enough bytes to decode RequestHeader")
  else
    let command := u32_from_be_bytes (take 4 buf) in
    let data_size := u32_from_be_bytes (take 4 (drop 4 buf)) in
    if (max_data_size <? data_size)%N then Err (BufferOverflow data_size max_data_size)
    else Ok (new command data_size, drop REQUEST_HEADER_SIZE buf).

(** The eight bytes of a header on the wire. *)
Definition wire (h : t) : list byte :=
  u32_to_be_bytes (command h) ++ u32_to_be_bytes (data_size h).

Lemma request_length_wire h : length (wire h) = 8.
Proof. done. Qed.

Lemma request_encode_wire h buf :
  ∃ buf', encode h buf = Ok buf' ∧ Vec.data buf' = Vec.data buf ++ wire h.
Proof.
  eexists. split; [done|]. rewrite !Vec.data_extend. unfold wire. by rewrite (assoc_L (++)).
Qed.

Lemma request_encode_cap h buf buf' :
  (Vec.len buf + 8 <= Vec.cap buf)%N → encode h buf = Ok buf' → Vec.cap buf' = Vec.cap buf.
Proof.
  intros Hc [= <-]. apply Vec.cap_extend_fits2.
  change (len (u32_to_be_bytes _)) with 4%N. lia.
Qed.

Lemma request_decode_wire h rest max :
  wf h →
  decode (wire h ++ rest) max =
  if (max <? data_size h)%N then Err (BufferOverflow (data_size h) max)
  else Ok (h, rest).
Proof.
  intros [Hc Hd]. unfold decode. rewrite decide_False.
  2: { rewrite length_app, request_length_wire. unfold REQUEST_HEADER_SIZE. lia. }
  unfold wire. rewrite <-!(assoc_L (++)).
  rewrite (take_app_length' (u32_to_be_bytes (command h))) by done.
  rewrite (drop_app_length' (u32_to_be_bytes (command h))) by done.
  rewrite take_app_length' by done.
  rewrite !u32_from_to_be_bytes by done. by destruct h.
Qed.

Lemma request_decode_Ok bs max h rest :
  decode bs max = Ok (h, rest) →
  bs = wire h ++ rest ∧ wf h ∧ (data_size h <= max)%N.
Proof.
  unfold decode. case_decide as Hlen; [done|].
  unfold REQUEST_HEADER_SIZE in *.
  assert (length (take 4 bs) = 4) by (rewrite length_take; lia).
  assert (length (take 4 (drop 4 bs)) = 4) by (rewrite length_take, length_drop; lia).
  destruct (N.ltb_spec max (u32_from_be_bytes (take 4 (drop 4 bs)))); [done|].
  intros [= <- <-]. unfold wire, wf; cbn [command data_size].
  rewrite !u32_to_from_be_bytes by done.
  split; [|split; [auto with wagonet|done]].
  rewrite <-(assoc_L (++)).
  replace (drop 8 bs) with (drop 4 (drop 4 bs)) by (by rewrite drop_drop).
  by rewrite !take_drop.
Qed.

End RequestHeader.

Module ResponseHeader.

Record t := new { status : byte; data_size : N }.

Definition DEFAULT_RESPONSE_HEADER_SIZE : nat := 1.
Definition RESPONSE_HEADER_SIZE : nat := 5.

Definition encoded_len (is_default command_has_answer : bool) : nat :=
  if is_default then DEFAULT_RESPONSE_HEADER_SIZE
  else if command_has_answer then RESPONSE_HEADER_SIZE
  else DEFAULT_RESPONSE_HEADER_SIZE.

Definition wf (h : t) : Prop := (data_size h < u32_modulus)%N.

Definition encode (h : t) (buf : Vec.t) (is_default : bool) : Result Vec.t :=
  let buf := Vec.push (status h) buf in
  Ok (if negb is_default then Vec.extend_from_slice (u32_to_be_bytes (data_size h)) buf
      else buf).

Definition decode (buf : list byte) (is_default : bool) (max_data_size : N) :
    Result (t * list byte) :=
  match buf with
  | [] => Err (Protocol "Not enough bytes to decode ResponseHeader")
  | status :: _ =>
    if is_default then Ok (new status 0, drop DEFAULT_RESPONSE_HEADER_SIZE buf)
    else if decide (length buf < RESPONSE_HEADER_SIZE) then
      Err (Protocol "Not enough bytes to decode ResponseHeader")
    else
      let data_size := u32_from_be_bytes (take 4 (drop 1 buf)) in
      if (max_data_size <? data_size)%N then Err (BufferOverflow data_size max_data_size)
      else Ok (new status data_size, drop RESPONSE_HEADER_SIZE buf)
  end.

Definition wire (h : t) (is_default : bool) : list byte :=
  status h :: if is_default then [] else u32_to_be_bytes (data_size h).

Lemma response_length_wire h d : length (wire h d) = encoded_len d true.
Proof. by destruct d. Qed.

Lemma response_encode_wire h buf d :
  ∃ buf', encode h buf d = Ok buf' ∧ Vec.data buf' = Vec.data buf ++ wire h d.
Proof.
  eexists. split; [done|]. unfold wire, Vec.push. destruct d; cbn [negb].
  - by rewrite Vec.data_extend.
  - by rewrite !Vec.data_extend, <-(assoc_L (++)).
Qed.

Lemma response_encode_cap h buf d buf' :
  (Vec.len buf + 5 <= Vec.cap buf)%N → encode h buf d = Ok buf' → Vec.cap buf' = Vec.cap buf.
Proof.
  intros Hc [= <-]. unfold Vec.push. destruct d; simpl.
  - apply Vec.cap_extend_fits. change (len [_]) with 1%N. lia.
  - apply Vec.cap_extend_fits2. change (len (u32_to_be_bytes _)) with 4%N.
    change (len [_]) with 1%N. lia.
Qed.

Lemma decode_default s rest max :
  decode (s :: rest) true max = Ok (new s 0, rest).
Proof. unfold decode, DEFAULT_RESPONSE_HEADER_SIZE. simpl. by rewrite drop_0. Qed.

Lemma response_decode_wire h rest max :
  wf h →
  decode (wire h false ++ rest) false max =
  if (max <? data_size h)%N then Err (BufferOverflow (data_size h) max)
  else Ok (h, rest).
Proof.
  intros Hd. unfold decode, wire, RESPONSE_HEADER_SIZE.
  cbn [app]. rewrite decide_False.
  2: { cbn [length]. rewrite length_app, length_u32_to_be_bytes. lia. }
  cbn [drop]. rewrite drop_0, take_app_length', u32_from_to_be_bytes by done.
  rewrite drop_app_length' by done. by destruct h.
Qed.

Lemma response_decode_Ok bs max h rest :
  decode bs false max = Ok (h, rest) →
  bs = wire h false ++ rest ∧ wf h ∧ (data_size h <= max)%N.
Proof.
  unfold decode. destruct bs as [|s bs]; [done|].
  case_decide as Hlen; [done|]. unfold RESPONSE_HEADER_SIZE in *. cbn [length] in Hlen.
  cbn [drop]. rewrite drop_0.
  assert (length (take 4 bs) = 4) by (rewrite length_take; lia).
  destruct (N.ltb_spec max (u32_from_be_bytes (take 4 bs))); [done|].
  intros [= <- <-]. unfold wire, wf; cbn [status data_size]. rewrite u32_to_from_be_bytes by done.
  cbn [app]. rewrite take_drop. auto with wagonet.
Qed.

End ResponseHeader.

#[export] Hint Rewrite RequestHeader.request_length_wire ResponseHeader.response_length_wire : wagonet_len.
