(* ===== verification/TimeoutConfig.v ===== *)
(** Timeouts and their validation ([src/src/timeout_config.rs]).

    A [Duration] is its number of nanoseconds: [saturating_sub] is truncated
    subtraction, and [Duration / u32], which divides seconds and nanoseconds
    with the remainder carried over, is the quotient of the nanoseconds. *)
From S2P Require Import Prelude Errors.
From stdpp Require Import options.

Abbreviation Duration := N (only parsing).
(** A point on the monotonic clock, in nanoseconds. *)
Abbreviation Instant := N (only parsing).

Definition from_secs (s : N) : Duration := (s * 1000000000)%N.
Definition from_millis (ms : N) : Duration := (ms * 1000000)%N.
Definition ZERO : Duration := 0%N.

(** The fraction digits [Debug for Duration] prints: none once the rest is 0. *)
Fixpoint fmt_frac (fuel : nat) (frac divisor : N) : string :=
  match fuel with
  | O => ""
  | S fuel =>
    if (frac =? 0)%N then ""
    else show (frac / divisor) +:+ fmt_frac fuel (frac mod divisor) (divisor / 10)
  end.

Definition fmt_decimal (int frac divisor : N) (suffix : string) : string :=
  let digits := fmt_frac 9 frac divisor in
  show int +:+ (if String.eqb digits "" then "" else "." +:+ digits) +:+ suffix.

(** [format!("{:?}", d)]. *)
Definition debug_duration (d : Duration) : string :=
  if (1000000000 <=? d)%N then
    fmt_decimal (d / 1000000000) (d mod 1000000000) 100000000 "s"
  else if (1000000 <=? d)%N then fmt_decimal (d / 1000000) (d mod 1000000) 100000 "ms"
  else if (1000 <=? d)%N then fmt_decimal (d / 1000) (d mod 1000) 100 "µs"
  else fmt_decimal d 0 1 "ns".

Definition DEFAULT_CONNECT_TIMEOUT : Duration := from_secs 10.
Definition DEFAULT_READ_HEADER_TIMEOUT : Duration := from_secs 60.
Definition DEFAULT_READ_DATA_TIMEOUT : Duration := from_secs 60.
Definition DEFAULT_WRITE_TIMEOUT : Duration := from_secs 60.
Definition DEFAULT_KEEP_ALIVE_TIME : Duration := from_secs 30.
Definition DEFAULT_KEEP_ALIVE_INTERVAL : Duration := from_secs 10.
Definition DEFAULT_PING_INTERVAL : Duration := from_secs 30.
Definition DEFAULT_PING_WRITE_TIMEOUT : Duration := from_secs 5.
Definition DEFAULT_MAX_CONNECT_RETRIES : nat := 10.
Definition DEFAULT_CONNECT_RETRY_DELAY : Duration := from_secs 1.
Definition DEFAULT_CONNECT_TOTAL_TIMEOUT : Duration := from_secs 30.
Definition PING_CLAMP_SUBTRACTION : Duration := from_secs 1.
Definition PING_CLAMP_HALVE_THRESHOLD : Duration := from_millis 200.
Definition PING_CLAMP_HALVE_DIVISOR : N := 2.

Module KeepAliveConfig.
Record t := mk { time : Duration; interval : Duration }.
Definition default : t := mk DEFAULT_KEEP_ALIVE_TIME DEFAULT_KEEP_ALIVE_INTERVAL.
End KeepAliveConfig.

Module TimeoutConfig.

Record t := mk {
  connect : Duration;
  read_header : Duration;
  read_data : Duration;
  write : Duration;
  keep_alive : option KeepAliveConfig.t;
  connect_total : Duration;
  ping_write : Duration;
  ping_interval : Duration;
}.

Definition default : t := {|
  connect := DEFAULT_CONNECT_TIMEOUT;
  read_header := DEFAULT_READ_HEADER_TIMEOUT;
  read_data := DEFAULT_READ_DATA_TIMEOUT;
  write := DEFAULT_WRITE_TIMEOUT;
  keep_alive := None;
  connect_total := DEFAULT_CONNECT_TOTAL_TIMEOUT;
  ping_write := DEFAULT_PING_WRITE_TIMEOUT;
  ping_interval := DEFAULT_PING_INTERVAL;
|}.

(** [self.ping_interval = d]. *)
Definition set_ping_interval (d : Duration) (c : t) : t := {|
  connect := connect c; read_header := read_header c; read_data := read_data c;
  write := write c; keep_alive := keep_alive c; connect_total := connect_total c;
  ping_write := ping_write c; ping_interval := d;
|}.

Definition validate (c : t) : Result unit :=
  if (connect_total c =? ZERO)%N then
    Err (Config "connect_total must be greater than zero")
  else if (ping_write c =? ZERO)%N then
    Err (Config "ping_write must be greater than zero")
  else if (read_header c <=? ping_interval c)%N then
    Err (Config ("TimeoutConfig invariant violated: ping_interval ("
      +:+ debug_duration (ping_interval c) +:+ ") >= read_header ("
      +:+ debug_duration (read_header c) +:+ "). "
      +:+ "Pings may not prevent server-side connection timeout."))
  else Ok tt.

Definition with_ping_interval (interval : Duration) (c : t) : t :=
  let c := set_ping_interval interval c in
  if (read_header c <=? ping_interval c)%N then
    if (ZERO <? read_header c)%N then
      let clamped := saturating_sub (read_header c) PING_CLAMP_SUBTRACTION in
      set_ping_interval
        (if (clamped =? ZERO)%N && (PING_CLAMP_HALVE_THRESHOLD <=? read_header c)%N
         then (read_header c / PING_CLAMP_HALVE_DIVISOR)%N
         else clamped) c
    else set_ping_interval ZERO c
  else c.

Definition valid (c : t) : Prop := validate c = Ok tt.

Lemma validate_Ok c u :
  validate c = Ok u ↔
  connect_total c ≠ 0%N ∧ ping_write c ≠ 0%N ∧ (ping_interval c < read_header c)%N.
Proof. destruct u. unfold validate, ZERO. breflect; split; intros; dest; done || lia || auto. Qed.

Lemma validate_Err c e : validate c = Err e → ∃ m, e = Config m.
Proof. unfold validate. breflect; intros [= <-]; by eexists. Qed.

Lemma with_ping_interval_fields d c :
  set_ping_interval (ping_interval c) (with_ping_interval d c) = c.
Proof.
  unfold with_ping_interval. repeat case_match; by destruct c.
Qed.

Lemma with_ping_interval_read_header d c :
  read_header (with_ping_interval d c) = read_header c.
Proof. unfold with_ping_interval. repeat case_match; done. Qed.

Lemma with_ping_interval_lt d c :
  (0 < read_header c)%N →
  (ping_interval (with_ping_interval d c) < read_header c)%N.
Proof.
  intros Hh. unfold with_ping_interval, ZERO, saturating_sub, PING_CLAMP_SUBTRACTION,
    PING_CLAMP_HALVE_DIVISOR, from_secs; cbn [ping_interval read_header set_ping_interval].
  repeat (case_match; cbn [ping_interval read_header set_ping_interval]); breflect;
    zify; Z.div_mod_to_equations; lia.
Qed.

Lemma with_ping_interval_keeps d c :
  (d < read_header c)%N → ping_interval (with_ping_interval d c) = d.
Proof. intros. unfold with_ping_interval; cbn [ping_interval read_header set_ping_interval]. breflect. Qed.

(** A positive interval stays positive, so the ping task stays enabled, as soon
    as [read_header] reaches the halving threshold. *)
Lemma with_ping_interval_pos d c :
  (0 < d)%N → (PING_CLAMP_HALVE_THRESHOLD <= read_header c)%N →
  (0 < ping_interval (with_ping_interval d c))%N.
Proof.
  intros Hd Hh. unfold with_ping_interval, ZERO, saturating_sub, PING_CLAMP_SUBTRACTION,
    PING_CLAMP_HALVE_THRESHOLD, PING_CLAMP_HALVE_DIVISOR, from_secs, from_millis in *;
    cbn [ping_interval read_header set_ping_interval].
  repeat (case_match; cbn [ping_interval read_header set_ping_interval]);
    rewrite ?andb_true_iff, ?andb_false_iff in *; breflect; dest; breflect;
    zify; Z.div_mod_to_equations; lia.
Qed.

(** Below the threshold the clamp yields zero, which disables the pings. *)
Lemma with_ping_interval_disabled d c :
  (read_header c < PING_CLAMP_HALVE_THRESHOLD)%N → (read_header c <= d)%N →
  ping_interval (with_ping_interval d c) = 0%N.
Proof.
  intros Hh Hd. unfold with_ping_interval, ZERO, saturating_sub, PING_CLAMP_SUBTRACTION,
    PING_CLAMP_HALVE_THRESHOLD, from_secs, from_millis in *;
    cbn [ping_interval read_header set_ping_interval].
  repeat (case_match; cbn [ping_interval read_header set_ping_interval]);
    rewrite ?andb_true_iff, ?andb_false_iff in *; breflect; dest; breflect.
Qed.

End TimeoutConfig.
