(* ===== verification/IO.v ===== *)
(** Asynchronous programs as finite interaction trees.

    An [async fn] of the crate suspends at its [.await] points.  [io E A] is the
    tree of what it does there: [Vis e k] performs the event [e] and goes on with
    the answer, [Timeout d p k] is [tokio::time::timeout(d, p).await], whose
    answer is [None] when the deadline fires first (the future [p] is then
    dropped).  The trees are inductive: every modelled call performs finitely
    many events, and the loops that run forever are modelled by their bodies.

    The runtime and the operating system are not part of the crate.  [exec] runs
    a tree against an arbitrary [handler], which decides what every event
    answers, how long it takes and what becomes of the outside world; the class
    [HandlerLaws] states what the crate relies on, that time is monotone and that
    a deadline is kept. *)
From S2P Require Import Prelude Errors TimeoutConfig.
From stdpp Require Import options.

Inductive io (E : Type → Type) (A : Type) : Type :=
| Ret (a : A)
| Vis {X : Type} (e : E X) (k : X → io E A)
| Timeout {B : Type} (d : Duration) (p : io E B) (k : option B → io E A).
Arguments Ret {_ _} _.
Arguments Vis {_ _ _} _ _.
Arguments Timeout {_ _ _} _ _ _.

Fixpoint io_bind {E A B} (p : io E A) (f : A → io E B) : io E B :=
  match p with
  | Ret a => f a
  | Vis e k => Vis e (λ x, io_bind (k x) f)
  | Timeout d q k => Timeout d q (λ o, io_bind (k o) f)
  end.

#[export] Instance io_mret {E} : MRet (io E) := λ A a, Ret a.
#[export] Instance io_mbind {E} : MBind (io E) := λ A B f p, io_bind p f.
#[export] Instance io_fmap {E} : FMap (io E) := λ A B f p, io_bind p (λ a, Ret (f a)).

(** [tokio::time::timeout(d, p).await]. *)
Definition timeout {E A} (d : Duration) (p : io E A) : io E (option A) :=
  Timeout d p Ret.

(** Sums of event types and the injections between them. *)
Inductive sum1 (E F : Type → Type) (X : Type) : Type :=
| inl1 (e : E X)
| inr1 (f : F X).
Arguments inl1 {_ _ _} _.
Arguments inr1 {_ _ _} _.
Infix "+'" := sum1 (at level 60, right associativity) : type_scope.

Class Subevent (E F : Type → Type) := subevent : ∀ X, E X → F X.
Arguments subevent {_ _ _} [_] _.
Notation "E -< F" := (Subevent E F) (at level 92, left associativity) : type_scope.

#[export] Instance subevent_refl {E} : E -< E | 1 := λ X e, e.
#[export] Instance subevent_inl {E F G} `{!E -< F} : E -< F +' G | 2 :=
  λ X e, inl1 (subevent e).
#[export] Instance subevent_inr {E F G} `{!E -< G} : E -< F +' G | 3 :=
  λ X e, inr1 (subevent e).

(** No events: a program of [io voidE A] computes its answer on the spot. *)
Inductive voidE : Type → Type :=.

Definition trigger {E F X} `{!E -< F} (e : E X) : io F X := Vis (subevent e) Ret.

(** A program over [E] as one over the events [F] that include them. *)
Fixpoint lift {E F : Type → Type} `{!E -< F} {A} (p : io E A) : io F A :=
  match p with
  | Ret a => Ret a
  | Vis e k => Vis (subevent e) (λ x, lift (k x))
  | Timeout d q k => Timeout d (lift q) (λ o, lift (k o))
  end.

(** * Network and clock events *)

(** A handle on an open connection: [TcpStream], one of its split halves, or a
    TLS stream. *)
Abbreviation stream := N (only parsing).

Inductive netE : Type → Type :=
(** [AsyncReadExt::read] into a buffer of [n] bytes; no byte means end of file. *)
| Read (s : stream) (n : nat) : netE (result (list byte) io_error)
(** [AsyncReadExt::read_exact] into a buffer of [n] bytes. *)
| ReadExact (s : stream) (n : nat) : netE (result (list byte) io_error)
| WriteAll (s : stream) (bs : list byte) : netE (result unit io_error)
| Flush (s : stream) : netE (result unit io_error)
| Shutdown (s : stream) : netE (result unit io_error).

Inductive clockE : Type → Type :=
(** [tokio::time::sleep]. *)
| Sleep (d : Duration) : clockE unit
(** [Instant::now]. *)
| Now : clockE Instant.

(** * Running against an environment *)

Inductive outcome (A : Type) : Type :=
| Done (a : A)
(** The deadline of an enclosing [timeout] fired; the future is dropped. *)
| Elapsed
(** The event never completes and no deadline is set. *)
| Hang.
Arguments Done {_} _.
Arguments Elapsed {_}.
Arguments Hang {_}.

(** A handler answers an event, given the deadline in force, the clock and the
    state [W] of the outside world. *)
Definition handler (E : Type → Type) (W : Type) : Type :=
  ∀ X, E X → option Instant → Instant * W → outcome X * (Instant * W).

Definition min_limit (lim : option Instant) (d : Instant) : Instant :=
  match lim with Some l => N.min l d | None => d end.

(** Whether the deadline [d] of an inner [timeout] is the one that fires: the
    inner future is polled before the deadline of the outer one. *)
Definition inner_first (lim : option Instant) (d : Instant) : bool :=
  match lim with Some l => (d <=? l)%N | None => true end.

Fixpoint exec {E W A} (h : handler E W) (p : io E A) (lim : option Instant)
    (st : Instant * W) : outcome A * (Instant * W) :=
  match p with
  | Ret a => (Done a, st)
  | Vis e k =>
    match h _ e lim st with
    | (Done x, st') => exec h (k x) lim st'
    | (Elapsed, st') => (Elapsed, st')
    | (Hang, st') => (Hang, st')
    end
  | Timeout d q k =>
    let deadline := (st.1 + d)%N in
    match exec h q (Some (min_limit lim deadline)) st with
    | (Done b, st') => exec h (k (Some b)) lim st'
    | (Elapsed, st') =>
      if inner_first lim deadline then exec h (k None) lim st' else (Elapsed, st')
    | (Hang, st') => (Hang, st')
    end
  end.

(** The deadline has not passed yet. *)
Definition within (lim : option Instant) (t : Instant) : Prop :=
  match lim with Some l => (t <= l)%N | None => True end.

Class HandlerLaws {E W} (h : handler E W) : Prop := {
  handler_done X (e : E X) lim t w x t' w' :
    within lim t → h X e lim (t, w) = (Done x, (t', w')) → (t <= t')%N ∧ within lim t';
  handler_elapsed X (e : E X) lim t w t' w' :
    within lim t → h X e lim (t, w) = (Elapsed, (t', w')) → lim = Some t' ∧ (t <= t')%N;
  handler_hang X (e : E X) lim t w st' :
    h X e lim (t, w) = (Hang, st') → lim = None;
}.

Lemma exec_bind {E W A B} (h : handler E W) (p : io E A) (f : A → io E B) lim st :
  exec h (p ≫= f) lim st =
  match exec h p lim st with
  | (Done a, st') => exec h (f a) lim st'
  | (Elapsed, st') => (Elapsed, st')
  | (Hang, st') => (Hang, st')
  end.
Proof.
  unfold mbind, io_mbind. revert st.
  induction p as [|A X e k IH|A C d q _ k IH]; intros st; simpl; [done| |].
  - destruct (h X e lim st) as [[x| |] st']; [apply IH|done..].
  - destruct (exec h q _ st) as [[b| |] st']; [apply IH| |done].
    destruct (inner_first _ _); [apply IH|done].
Qed.

Lemma exec_trigger {E F W X} `{!E -< F} (h : handler F W) (e : E X) lim st :
  exec h (trigger e) lim st = h X (subevent e) lim st.
Proof. simpl. by destruct (h X (subevent e) lim st) as [[x| |] st']. Qed.

(** The part of a handler that answers the events [E]. *)
Definition restrict {E F W} `{!E -< F} (h : handler F W) : handler E W :=
  λ X e, h X (subevent e).

#[export] Instance restrict_laws {E F W} `{!E -< F} (h : handler F W) :
  HandlerLaws h → HandlerLaws (restrict h).
Proof.
  intros Hl. split; intros X e lim; unfold restrict.
  - intros t w x t' w'. apply handler_done.
  - intros t w t' w'. apply handler_elapsed.
  - intros t w st'. apply handler_hang.
Qed.

Lemma exec_lift {E F W A} `{!E -< F} (h : handler F W) (p : io E A) lim st :
  exec h (lift p) lim st = exec (restrict h) p lim st.
Proof.
  revert lim st. induction p as [A a|A X e k IH|A B d q IHq k IH]; intros lim st; simpl; [done| |].
  - unfold restrict. destruct (h _ _ lim st) as [[x| |] st']; [apply IH|done..].
  - rewrite IHq. destruct (exec (restrict h) q _ st) as [[b| |] st']; [apply IH| |done].
    destruct (inner_first _ _); [apply IH|done].
Qed.

(** What every answer of the outside world leads to: [io_post p Q] says that [p]
    can only answer values in [Q]. *)
Fixpoint io_post {E A} (p : io E A) : (A → Prop) → Prop :=
  match p with
  | Ret a => λ Q, Q a
  | Vis e k => λ Q, ∀ x, io_post (k x) Q
  | Timeout d q k => λ Q, io_post (k None) Q ∧ io_post q (λ b, io_post (k (Some b)) Q)
  end.

Lemma io_post_impl {E A} (p : io E A) (Q Q' : A → Prop) :
  (∀ a, Q a → Q' a) → io_post p Q → io_post p Q'.
Proof.
  revert Q Q'. induction p as [A a|A X e k IH|A B d q IHq k IH]; intros Q Q' HQ; simpl.
  - apply HQ.
  - intros H x. by eapply IH.
  - intros [H1 H2]. split; [by eapply IH|]. eapply IHq; [|done]. intros b. by eapply IH.
Qed.

Lemma io_post_bind {E A B} (p : io E A) (f : A → io E B) Q :
  io_post p (λ a, io_post (f a) Q) → io_post (io_bind p f) Q.
Proof.
  revert f Q. induction p as [A a|A X e k IH|A C d q IHq k IH]; intros f Q; simpl; [done| |].
  - intros H x. by apply IH.
  - intros [H1 H2]. split; [by apply IH|]. eapply io_post_impl; [|done]. intros b. by apply IH.
Qed.

Lemma io_post_lift {E F A} `{!E -< F} (p : io E A) Q :
  io_post p Q → io_post (lift (F := F) p) Q.
Proof.
  revert Q. induction p as [A a|A X e k IH|A B d q IHq k IH]; intros Q; simpl; [done|auto|].
  intros [H1 H2]. split; [auto|]. apply IHq. eapply io_post_impl; [|exact H2]. auto.
Qed.

Lemma io_post_exec {E W A} (h : handler E W) (p : io E A) Q lim st a st' :
  io_post p Q → exec h p lim st = (Done a, st') → Q a.
Proof.
  revert Q lim st a st'.
  induction p as [A a0|A X e k IH|A C d q IHq k IH]; intros Q lim st a st'; simpl.
  - by intros ? [= -> ->].
  - intros H. destruct (h X e lim st) as [[x| |] st1]; [|done..]. by eapply IH.
  - intros [H1 H2]. destruct (exec h q _ st) as [[b| |] st1] eqn:Hq; [| |done].
    + intros He. eapply IH; [|done]. by apply (IHq _ _ _ _ _ H2 Hq).
    + destruct (inner_first _ _); [|done]. by eapply IH.
Qed.

Section laws.
Context {E : Type → Type} {W : Type} (h : handler E W) `{!HandlerLaws h}.

(** What [exec] may do to the clock: [exec_post lim t o t'] relates the clock
    before and after, and the outcome. *)
Definition exec_post {A} (lim : option Instant) (t : Instant) (o : outcome A)
    (t' : Instant) : Prop :=
  (o ≠ Hang → (t <= t')%N) ∧
  match o with
  | Done _ => within lim t'
  | Elapsed => lim = Some t'
  | Hang => lim = None
  end.

Lemma within_min lim t d : within lim t → within (Some (min_limit lim (t + d))) t.
Proof. destruct lim; simpl; lia. Qed.

Lemma within_min_le lim t d t' : within (Some (min_limit lim (t + d))) t' → within lim t'.
Proof. destruct lim; simpl; lia. Qed.

Lemma exec_clock {A} (p : io E A) lim t w o t' w' :
  within lim t → exec h p lim (t, w) = (o, (t', w')) → exec_post lim t o t'.
Proof using All.
  revert lim t w o t' w'.
  induction p as [A a|A X e k IH|A C d q IHq k IH]; intros lim t w o t' w' Hw; simpl.
  - intros [= <- <- <-]. split; [lia|done].
  - destruct (h X e lim (t, w)) as [[x| |] [t1 w1]] eqn:He.
    + eapply handler_done in He as [Hle Hw1]; [|done..].
      intros Hk. eapply IH in Hk as [Hle' Hpost]; [|done].
      split; [intros Ho; specialize (Hle' Ho); lia|done].
    + eapply handler_elapsed in He as [-> Hle]; [|done..].
      intros [= <- <- <-]. by split.
    + intros [= <- <- <-]. apply handler_hang in He. by split.
  - destruct (exec h q _ (t, w)) as [[b| |] [t1 w1]] eqn:Hq;
      (eapply IHq in Hq as [Hle Hpost]; [|by apply within_min]).
    + intros Hk. eapply IH in Hk as [Hle' Hpost']; [|by eapply within_min_le].
      split; [intros Ho; specialize (Hle' Ho); specialize (Hle ltac:(done)); lia|done].
    + injection Hpost as Hpost. specialize (Hle ltac:(done)).
      destruct (inner_first lim (t + d)) eqn:Hin.
      * intros Hk. eapply IH in Hk as [Hle' Hpost'].
        -- split; [intros Ho; specialize (Hle' Ho); lia|done].
        -- destruct lim; simpl in *; [|done]. breflect.
      * intros [= <- <- <-]. split; [done|].
        destruct lim; simpl in *; [|done]. f_equal. breflect.
    + done.
Qed.

(** A call under a deadline comes back, and no later than the deadline. *)
Lemma exec_deadline {A} (p : io E A) l t w :
  (t <= l)%N →
  ∃ o t' w', exec h p (Some l) (t, w) = (o, (t', w')) ∧ o ≠ Hang ∧ (t <= t' <= l)%N.
Proof using All.
  intros Hl. destruct (exec h p (Some l) (t, w)) as [o [t' w']] eqn:He.
  exists o, t', w'. eapply exec_clock in He as [Hle Hpost]; [|done].
  destruct o; simpl in *; simplify_eq; split_and!; auto; try done; naive_solver lia.
Qed.

Lemma exec_timeout {A} d (p : io E A) t w :
  ∃ r t' w', exec h (timeout d p) None (t, w) = (Done r, (t', w')) ∧ (t <= t' <= t + d)%N.
Proof using All.
  destruct (exec_deadline p (t + d) t w) as ([a| |] & t' & w' & He & Ho & Hle); [lia|..];
    simpl; rewrite He; [by do 3 eexists|by do 3 eexists|done].
Qed.
End laws.
