(* ===== verification/Method.v ===== *)
(** Methods: state-passing programs that may fail.

    An [async fn f(&mut self, ..) -> Result<A, Er>] is a [method E S Er A], a
    function from the state of [self] to a program that answers the new state and
    the result.  [mbind] is the [?] operator; [attempt] keeps a result as a value
    for the code that matches on it. *)
From S2P Require Import Prelude Errors TimeoutConfig IO.
From stdpp Require Import options.

Definition method (E : Type → Type) (S Er A : Type) : Type :=
  S → io E (S * result A Er).

#[export] Instance method_mret {E S Er} : MRet (method E S Er) :=
  λ A a s, Ret (s, Ok a).
#[export] Instance method_mbind {E S Er} : MBind (method E S Er) :=
  λ A B f m s,
    io_bind (m s) (λ sr,
      match sr.2 with Ok a => f a sr.1 | Err e => Ret (sr.1, Err e) end).

Section operations.
Context {E : Type → Type} {S Er : Type}.

Definition gets {A} (f : S → A) : method E S Er A := λ s, Ret (s, Ok (f s)).
Definition modify (f : S → S) : method E S Er unit := λ s, Ret (f s, Ok tt).
(** [return Err(e.into())]. *)
Definition fail {A e} `{!Into e Er} (x : e) : method E S Er A :=
  λ s, Ret (s, Err (into x)).
(** [r?]. *)
Definition question {A e} `{!Into e Er} (r : result A e) : method E S Er A :=
  λ s, Ret (s, result_map_err into r).
(** [p.await]. *)
Definition await {A} (p : io E A) : method E S Er A :=
  io_bind p ∘ (λ s a, Ret (s, Ok a)).
(** [p.await?]. *)
Definition await_q {A e} `{!Into e Er} (p : io E (result A e)) : method E S Er A :=
  io_bind p ∘ (λ s r, Ret (s, result_map_err into r)).
(** The result of [m] as a value. *)
Definition attempt {A} (m : method E S Er A) : method E S Er (result A Er) :=
  λ s, io_bind (m s) (λ sr, Ret (sr.1, Ok sr.2)).
(** Change the error type, as [?] does between two functions. *)
Definition convert {Er' A} `{!Into Er Er'} (m : method E S Er A) : method E S Er' A :=
  λ s, io_bind (m s) (λ sr, Ret (sr.1, result_map_err into sr.2)).
End operations.

(** Run a method on a component of the state. *)
Definition zoom {E S T Er A} (view : S → T) (put : T → S → S) (m : method E T Er A) :
    method E S Er A :=
  λ s, io_bind (m (view s)) (λ tr, Ret (put tr.1 s, tr.2)).

(** The three outcomes of [timeout(d, io).await], an [Elapsed] error around the
    result of an I/O operation: the [match] with the arms [Ok(Ok(x))],
    [Ok(Err(e))] and [Err(_)]. *)
Definition timed {E S Er A e e'} `{!Into e Er, !Into e' Er} (d : Duration)
    (p : io E (result A e)) (on_elapsed : e') : method E S Er A :=
  r ← await (timeout d p);
  match r with
  | Some (Ok x) => mret x
  | Some (Err err) => fail err
  | None => fail on_elapsed
  end.

(** * Invariants of methods

    [keeps I m Q]: whatever the outside world answers, [m] keeps the invariant [I]
    of the state, on its error paths too, and what it answers satisfies [Q]. *)
Section keeps.
Context {E : Type → Type} {S Er : Type}.

Definition keeps {A} (I : S → Prop) (m : method E S Er A) (Q : A → Prop) : Prop :=
  ∀ s, I s → io_post (m s) (λ r, I r.1 ∧ ∀ a, r.2 = Ok a → Q a).

Definition any {A} (_ : A) : Prop := True.

Implicit Types I : S → Prop.

Lemma keeps_bind {A B} I (m : method E S Er A) (f : A → method E S Er B) Q Q' :
  keeps I m Q → (∀ a, Q a → keeps I (f a) Q') → keeps I (m ≫= f) Q'.
Proof.
  intros Hm Hf s Hs. apply io_post_bind. eapply io_post_impl; [|by apply Hm].
  intros [s' [a|e]] [HI HQ]; simpl in *; [by apply Hf; [apply HQ|]|done].
Qed.

Lemma keeps_mret {A} I (a : A) (Q : A → Prop) :
  Q a → keeps I (mret (M := method E S Er) a) Q.
Proof. intros HQ s HI. simpl. split; [done|]. by intros ? [= <-]. Qed.

Lemma keeps_gets {A} I (f : S → A) (Q : A → Prop) :
  (∀ s, I s → Q (f s)) → keeps I (gets f) Q.
Proof. intros HQ s HI. simpl. split; [done|]. intros ? [= <-]. auto. Qed.

Lemma keeps_modify I (f : S → S) Q :
  (∀ s, I s → I (f s)) → Q tt → keeps I (modify f) Q.
Proof. intros Hf HQ s HI. simpl. split; [by apply Hf|]. by intros [] _. Qed.

Lemma keeps_fail {A e} `{!Into e Er} I (x : e) Q : keeps (A := A) I (fail x) Q.
Proof. intros s HI. by split. Qed.

Lemma keeps_question {A e} `{!Into e Er} I (r : result A e) (Q : A → Prop) :
  (∀ a, r = Ok a → Q a) → keeps I (question r) Q.
Proof. intros HQ s HI. simpl. split; [done|]. destruct r; intros ? [= <-]. by apply HQ. Qed.

Lemma io_post_any {A} (p : io E A) : io_post p any.
Proof. induction p; simpl; [done|auto|]. split; [auto|]. eapply io_post_impl; eauto. Qed.

Lemma io_post_skip {A B} (p : io E A) (f : A → io E B) Q :
  (∀ a, io_post (f a) Q) → io_post (io_bind p f) Q.
Proof.
  intros Hf. apply io_post_bind. eapply io_post_impl; [|apply io_post_any]. auto.
Qed.

Lemma keeps_await {A} I (p : io E A) : keeps I (await p) any.
Proof.
  intros s HI. apply io_post_bind. eapply io_post_impl; [|apply io_post_any].
  intros a _. by split.
Qed.

Lemma keeps_await_q {A e} `{!Into e Er} I (p : io E (result A e)) : keeps I (await_q p) any.
Proof.
  intros s HI. apply io_post_bind. eapply io_post_impl; [|apply io_post_any].
  intros a _. by split.
Qed.

Lemma keeps_timed {A e e'} `{!Into e Er, !Into e' Er} I d (p : io E (result A e)) (x : e') :
  keeps I (timed d p x) any.
Proof.
  eapply keeps_bind; [apply keeps_await|]. intros [[a|err]|] _;
    [by apply keeps_mret|apply keeps_fail..].
Qed.

Lemma keeps_attempt {A} I (m : method E S Er A) Q : keeps I m Q → keeps I (attempt m) any.
Proof.
  intros Hm s HI. apply io_post_bind. eapply io_post_impl; [|by apply Hm].
  intros [s' r] [HI' _]. by split.
Qed.

Lemma keeps_any {A} I (m : method E S Er A) Q : keeps I m Q → keeps I m any.
Proof. intros Hm s HI. eapply io_post_impl; [|by apply Hm]. by intros r [? _]. Qed.

Lemma keeps_impl {A} I (m : method E S Er A) (Q Q' : A → Prop) :
  (∀ a, Q a → Q' a) → keeps I m Q → keeps I m Q'.
Proof. intros HQ Hm s HI. eapply io_post_impl; [|by apply Hm]. intros r [? ?]. split; auto. Qed.

(** A change of the state whose effect the next expression relies on. *)
Lemma keeps_modify_gets {A B} I (f : S → S) (g : S → A) (k : A → method E S Er B) Q Q' :
  (∀ s, I s → I (f s)) → (∀ s, I s → Q (g (f s))) → (∀ a, Q a → keeps I (k a) Q') →
  keeps I (modify f;; a ← gets g; k a) Q'.
Proof. intros Hf Hg Hk s HI. exact (Hk _ (Hg s HI) (f s) (Hf s HI)). Qed.

Lemma keeps_exec {W A} (h : handler E W) (m : method E S Er A) I Q s lim st s' r st' :
  keeps I m Q → I s → exec h (m s) lim st = (Done (s', r), st') → I s'.
Proof.
  intros Hm HI He. by destruct (io_post_exec h (m s) _ lim st (s', r) st' (Hm s HI) He).
Qed.
End keeps.

Lemma keeps_zoom {E S T Er A} (view : S → T) (put : T → S → S) (I : S → Prop) (J : T → Prop)
    (m : method E T Er A) Q :
  (∀ s, I s → J (view s)) → (∀ s t, I s → J t → I (put t s)) →
  keeps J m Q → keeps I (zoom view put m) Q.
Proof.
  intros Hv Hp Hm s HI. apply io_post_bind. eapply io_post_impl; [|by apply Hm, Hv].
  intros [t r] [HJ HQ]. split; [by apply Hp|done].
Qed.

Create HintDb keeps discriminated.
#[export] Hint Resolve keeps_fail keeps_await keeps_await_q keeps_timed : keeps.
