(* ===== verification/Common.v ===== *)
(** Stream operations and the shared frame reader ([src/src/common.rs]). *)
From S2P Require Import Prelude Errors TimeoutConfig IO.
From stdpp Require Import options.

Definition DEFAULT_MAX_BUFFER_SIZE : N := (10 * 1024 * 1024)%N.

Section operations.
Context {E : Type → Type} `{!netE -< E}.

Definition read (s : stream) (n : nat) : io E (result (list byte) io_error) :=
  trigger (Read s n).
Definition read_exact (s : stream) (n : nat) : io E (result (list byte) io_error) :=
  trigger (ReadExact s n).
Definition write_all (s : stream) (bs : list byte) : io E (result unit io_error) :=
  trigger (WriteAll s bs).
Definition flush (s : stream) : io E (result unit io_error) := trigger (Flush s).
Definition shutdown (s : stream) : io E (result unit io_error) := trigger (Shutdown s).

(** The error of a zero-byte read after [filled] of [expected] bytes. *)
Definition closed_error (filled expected : nat) : Error :=
  if decide (filled = 0) then ConnectionClosed
  else ConnectionClosedMidFrame (N.of_nat filled) (N.of_nat expected).

(** The [while filled < buf.len()] loop: [buf] holds the bytes read so far.
    Every turn that goes on adds a byte, so [n] turns are enough. *)
Fixpoint read_loop (fuel : nat) (s : stream) (n : nat) (buf : list byte) :
    io E (Result (list byte)) :=
  match fuel with
  | O => Ret (Ok buf)
  | S fuel =>
    if decide (length buf < n) then
      r ← read s (n - length buf);
      match r with
      | Err e => Ret (Err (into e))
      | Ok [] => Ret (Err (closed_error (length buf) n))
      | Ok bs => read_loop fuel s n (buf ++ bs)
      end
    else Ret (Ok buf)
  end.

(** Fill a buffer of [n] bytes; the answer is its contents. *)
Definition read_exact_or_closed (s : stream) (n : nat) : io E (Result (list byte)) :=
  read_loop n s n [].

(** The fuel is enough: more of it changes nothing. *)
Lemma read_loop_fuel s n fuel fuel' buf :
  n - length buf ≤ fuel → fuel ≤ fuel' →
  ∀ {W} (h : handler E W) lim st,
  exec h (read_loop fuel' s n buf) lim st = exec h (read_loop fuel s n buf) lim st.
Proof.
  revert fuel' buf. induction fuel as [|fuel IH]; intros fuel' buf Hf Hle W h lim st.
  - destruct fuel' as [|fuel']; simpl; [done|]. by rewrite decide_False by lia.
  - destruct fuel' as [|fuel']; [lia|]. simpl. case_decide; [|done]. simpl.
    destruct (h _ _ _ _) as [[[[|b bs]|e]| |] st']; simpl; try done.
    apply IH; [|lia]. rewrite length_app. simpl. lia.
Qed.
End operations.
