(* ===== verification/Duet.v ===== *)
(** Two programs at the ends of one connection.

    The connection is a pair of FIFO queues, which is what TCP gives the crate while
    no error occurs: bytes arrive in order, are neither lost nor duplicated, a [read]
    returns any non-empty prefix of what has arrived, and a shut down half ends with
    the mark [Eof].  What a program does besides, to its locks, its clock or its
    tasks, is local to it: the class [Party] says which of its events are on the
    connection and what the others may answer.  [step] interleaves the two programs
    in every possible way.  No deadline fires but those of the client that [Deadlines]
    names, and they only when the client waits with nothing on its way to it; that is an
    action too, [Lapse].

    To reason about all interleavings at once, [acts p l t Q] says that [p], from the
    local state [l], does exactly the actions [t] on the connection, however the
    network cuts its input and whatever its local events answer, and ends with an
    answer and a local state in [Q].  When some schedule brings the actions of two
    programs to an end, every run of the two ends there: steps of the two commute
    ([duet_completes]).  This holds of two programs that act out the two views of one
    dialogue ([duet]): they cannot deadlock or diverge. *)
From S2P Require Import Prelude Errors TimeoutConfig IO Method Common.
From stdpp Require Import relations options.

(** What travels: bytes, and the end of the stream. *)
Inductive mark := Data (b : byte) | Eof.

#[export] Instance mark_eq_dec : EqDecision mark.
Proof. solve_decision. Defined.

Abbreviation data bs := (map Data bs).

(** * Steps *)

(** [net_answer e q x q' o]: with [q] waiting to be read, [e] may answer [x],
    leave [q'] and write [o].  The end of the stream is there for one read: the
    crate does not read a connection again after it. *)
Definition net_answer {X} (e : netE X) :
    list mark → X → list mark → list mark → Prop :=
  match e in netE X return list mark → X → list mark → list mark → Prop with
  | Read _ n => λ q x q' o,
      o = [] ∧ ((∃ c, x = Ok c ∧ q = data c ++ q' ∧ c ≠ [] ∧ length c ≤ n) ∨
                (x = Ok [] ∧ q = Eof :: q'))
  | ReadExact _ n => λ q x q' o,
      o = [] ∧ ((∃ c, x = Ok c ∧ q = data c ++ q' ∧ length c = n) ∨
                (∃ c, x = Err UnexpectedEof ∧ q = data c ++ Eof :: q' ∧ length c < n))
  | WriteAll _ bs => λ q x q' o, x = Ok tt ∧ q' = q ∧ o = data bs
  | Flush _ => λ q x q' o, x = Ok tt ∧ q' = q ∧ o = []
  | Shutdown _ => λ q x q' o, x = Ok tt ∧ q' = q ∧ o = [Eof]
  end.

(** Programs with events [E] over a local state [L]. *)
Class Party (E : Type → Type) (L : Type) := {
  (** The event on the connection, if it is one. *)
  wire : ∀ {X}, E X → option (netE X);
  (** What another event may answer, and make of the local state. *)
  local : ∀ {X}, E X → L → X → L → Prop;
}.

(** A program that only uses the connection. *)
#[export] Instance net_party : Party netE unit := {|
  wire _ e := Some e;
  local _ _ _ _ _ := False;
|}.

(** Events of which nothing is known but that they come to an end. *)
Definition quiet_party U : Party U unit := {|
  wire _ e := None;
  local _ _ l _ l' := l' = l;
|}.

(** A program of the connection that awaits such events besides. *)
#[export] Instance net_quiet_party {U} : Party (netE +' U) unit := {|
  wire _ e := match e with inl1 e => Some e | inr1 _ => None end;
  local _ _ l _ l' := l' = l;
|}.

(** The deadlines that fire, when the program waits and nothing is on its way to it.
    Other deadlines do not. *)
Class Deadlines := fires : Duration → bool.
#[export] Instance never : Deadlines := λ _, false.
Arguments fires _ _ /.
Arguments never _ /.

(** One step of one program. *)
Fixpoint pstep {D : Deadlines} {E L} `{!Party E L} {A} (p : io E A) (l : L) (q : list mark)
    (p' : io E A) (l' : L) (q' o : list mark) : Prop :=
  match p with
  | Ret _ => False
  | Vis e k =>
    match wire e with
    | Some e' => ∃ x, net_answer e' q x q' o ∧ p' = k x ∧ l' = l
    | None => ∃ x, local e l x l' ∧ p' = k x ∧ q' = q ∧ o = []
    end
  | Timeout d pb k =>
      (∃ b, pb = Ret b ∧ p' = k (Some b) ∧ l' = l ∧ q' = q ∧ o = []) ∨
      (∃ pb', pstep pb l q pb' l' q' o ∧ p' = Timeout d pb' k) ∨
      (fires d = true ∧ (∀ b, pb ≠ Ret b) ∧ (∀ pb' m r w, ¬ pstep pb l [] pb' m r w) ∧
       q = [] ∧ p' = k None ∧ l' = l ∧ q' = [] ∧ o = [])
  end.

(** It has begun, but cannot go on with nothing to read. *)
Definition waits {D : Deadlines} {E L} `{!Party E L} {A} (p : io E A) (l : L) : Prop :=
  (∀ a, p ≠ Ret a) ∧ ∀ p' l' q' o, ¬ pstep p l [] p' l' q' o.

(** Local states of the two parties, and what is on its way to each. *)
Record config {E1 L1 A E2 L2 B} := Conf {
  client : io E1 A;
  client_state : L1;
  server : io E2 B;
  server_state : L2;
  to_server : list mark;
  to_client : list mark;
}.
Arguments config : clear implicits.
Arguments Conf {_ _ _ _ _ _} _ _ _ _ _ _.

(** Only deadlines of the client fire: a ping has one that does when all is well. *)
Section machine.
Context {D : Deadlines} {E1 L1} `{!Party E1 L1} {E2 L2} `{!Party E2 L2} {A B : Type}.
Abbreviation conf := (config E1 L1 A E2 L2 B).

Inductive step : conf → conf → Prop :=
| step_client pc lc pc' lc' ps ls cs sc sc' o :
    pstep pc lc sc pc' lc' sc' o →
    step (Conf pc lc ps ls cs sc) (Conf pc' lc' ps ls (cs ++ o) sc')
| step_server pc lc ps ls ps' ls' cs cs' sc o :
    pstep (D := never) ps ls cs ps' ls' cs' o →
    step (Conf pc lc ps ls cs sc) (Conf pc lc ps' ls' cs' (sc ++ o)).

Definition start_with (p : io E1 A) (l : L1) (q : io E2 B) (k : L2) : conf := Conf p l q k [] [].
End machine.

(** * Termination: no program steps forever *)

Definition pstep_any {D : Deadlines} {E L} `{!Party E L} {A} (p' p : io E A) : Prop :=
  ∃ l q l' q' o, pstep p l q p' l' q' o.

Lemma pstep_acc {D : Deadlines} {E L} `{!Party E L} {A} (p : io E A) : Acc pstep_any p.
Proof.
  induction p as [A a|A X e k IH|A C d pb IHp k IH].
  - constructor. by intros p' (l & q & l' & q' & o & ?).
  - constructor. intros p' (l & q & l' & q' & o & Hs). simpl in Hs.
    destruct (wire e); destruct Hs as (x & _ & -> & _); apply IH.
  - clear -IHp IH. induction IHp as [pb _ IHp]. constructor.
    intros p' (l & q & l' & q' & o & [(b & -> & -> & _)|[(pb' & Hs & ->)|(_ & _ & _ & _ & -> & _)]]);
      [apply IH| |apply IH].
    apply IHp. by exists l, q, l', q', o.
Qed.

Lemma duet_terminates {D : Deadlines} {E1 L1 E2 L2 A B} `{!Party E1 L1, !Party E2 L2}
    (c : config E1 L1 A E2 L2 B) : sn step c.
Proof.
  destruct c as [pc lc ps ls cs sc]. revert lc ps ls cs sc.
  induction (pstep_acc pc) as [pc _ IHc]. intros lc ps.
  revert lc. induction (pstep_acc (D := never) ps) as [ps Hps IHs]. intros lc ls cs sc.
  constructor. intros c' Hs. unfold flip in Hs.
  inversion Hs as [? ? pc' lc' ? ? ? ? sc' o Hp|? ? ? ? ps' ls' ? cs' ? o Hp]; subst.
  - apply IHc. by eexists _, _, _, _, _.
  - apply IHs. by eexists _, _, _, _, _.
Qed.

(** * Actions *)

(** A mark read or written by one party, or the lapse of a deadline. *)
Inductive act := In (m : mark) | Out (m : mark) | Lapse.

Abbreviation ins bs := (map (λ b, In (Data b)) bs).
Abbreviation outs bs := (map (λ b, Out (Data b)) bs).

(** The actions of a program over the connection, and what it answers in which
    local state. *)
Fixpoint acts {D : Deadlines} {E L} `{!Party E L} {A} (p : io E A) (l : L) (t : list act)
    (Q : A → L → Prop) : Prop :=
  match p with
  | Ret a => t = [] ∧ Q a l
  | Vis e k =>
    match wire e with
    | Some e' =>
      match e' in netE X return (X → list act → Prop) → Prop with
      | Read _ n => λ K, 0 < n ∧
          ((∃ bs t', t = ins bs ++ t' ∧ length bs = n ∧
              ∀ c bs', bs = c ++ bs' → c ≠ [] → K (Ok c) (ins bs' ++ t')) ∨
           (∃ t', t = In Eof :: t' ∧ K (Ok []) t'))
      | ReadExact _ n => λ K,
          (∃ bs t', t = ins bs ++ t' ∧ length bs = n ∧ K (Ok bs) t') ∨
          (∃ bs t', t = ins bs ++ In Eof :: t' ∧ length bs < n ∧ K (Err UnexpectedEof) t')
      | WriteAll _ bs => λ K, ∃ t', t = outs bs ++ t' ∧ K (Ok tt) t'
      | Flush _ => λ K, K (Ok tt) t
      | Shutdown _ => λ K, ∃ t', t = Out Eof :: t' ∧ K (Ok tt) t'
      end (λ x t', acts (k x) l t' Q)
    | None =>
      (∃ x l', local e l x l') ∧ ∀ x l', local e l x l' → acts (k x) l' t Q
    end
  | Timeout d pb k =>
      if fires d then ∃ t', t = Lapse :: t' ∧ waits pb l ∧ acts (k None) l t' Q
      else ∃ t1 t2, t = t1 ++ t2 ∧ acts pb l t1 (λ b l', acts (k (Some b)) l' t2 Q)
  end.

(** A program without a local state, and with one answer. *)
Definition follows {D : Deadlines} {E} `{!Party E unit} {A} (p : io E A) (t : list act) (a : A) : Prop :=
  acts p tt t (λ a' _, a' = a).

(** Whatever the events [p] awaits may answer, [p] answers [a]. *)
Definition answers {U A} (p : io U A) (a : A) : Prop := follows (Party0 := quiet_party U) p [] a.

Lemma ins_app bs cs : ins (bs ++ cs) = ins bs ++ ins cs.
Proof. apply map_app. Qed.
Lemma outs_app bs cs : outs (bs ++ cs) = outs bs ++ outs cs.
Proof. apply map_app. Qed.
Lemma map_In_data bs : map In (data bs) = ins bs.
Proof. by rewrite map_map. Qed.
Lemma map_Out_data bs : map Out (data bs) = outs bs.
Proof. by rewrite map_map. Qed.

Section acts.
Context {D : Deadlines} {E : Type → Type} {L : Type} `{!Party E L}.

Lemma acts_impl {A} (p : io E A) l t (Q Q' : A → L → Prop) :
  (∀ a l', Q a l' → Q' a l') → acts p l t Q → acts p l t Q'.
Proof.
  revert l t Q Q'. induction p as [A a0|A X e k IH|A C d pb IHp k IH];
    intros l t Q Q' HQ; simpl.
  - intros [-> Ha]. auto.
  - destruct (wire e) as [e'|].
    + destruct e'; simpl.
      * intros (Hn & [(bs & t' & -> & Hl & Hk)|(t' & -> & Hk)]); (split; [done|]);
          [left; exists bs, t'; split_and!; [done..|]; intros c bs' Hbs Hc|right; exists t'; split; [done|]];
          eapply IH; eauto.
      * intros [(bs & t' & -> & Hl & Hk)|(bs & t' & -> & Hl & Hk)]; [left|right];
          exists bs, t'; (split_and!; [done..|eapply IH; eauto]).
      * intros (t' & -> & Hk). exists t'. split; [done|]. eapply IH; eauto.
      * intros Hk. eapply IH; eauto.
      * intros (t' & -> & Hk). exists t'. split; [done|]. eapply IH; eauto.
    + intros [Hex Hk]. split; [done|]. intros x l' Hx. eapply IH; eauto.
  - destruct (D d).
    + intros (t' & -> & Hw & Hk). exists t'. split_and!; [done..|]. by eapply IH.
    + intros (t1 & t2 & -> & Hp). exists t1, t2. split; [done|].
      eapply IHp; [|exact Hp]. intros b l'. apply IH. exact HQ.
Qed.

Lemma acts_bind {A B} (p : io E A) (f : A → io E B) l t1 t2 Q :
  acts p l t1 (λ a l', acts (f a) l' t2 Q) → acts (io_bind p f) l (t1 ++ t2) Q.
Proof.
  revert l t1 f t2 Q.
  induction p as [A a0|A X e k IH|A C d pb IHp k IH]; intros l t1 f t2 Q; simpl.
  - by intros [-> Ha].
  - destruct (wire e) as [e'|].
    + destruct e'; simpl.
      * intros (Hn & [(bs & t' & -> & Hl & Hk)|(t' & -> & Hk)]); (split; [done|]); [left|right].
        -- exists bs, (t' ++ t2). split_and!; [by rewrite (assoc_L (++))|done|].
           intros c bs' Hbs Hc. rewrite (assoc_L (++)). eauto.
        -- exists (t' ++ t2). split; [done|]. eauto.
      * intros [(bs & t' & -> & Hl & Hk)|(bs & t' & -> & Hl & Hk)]; [left|right];
          exists bs, (t' ++ t2);
          (split_and!; [by rewrite <-(assoc_L (++))|done|eauto]).
      * intros (t' & -> & Hk). exists (t' ++ t2). split; [by rewrite (assoc_L (++))|eauto].
      * intros Hk. eauto.
      * intros (t' & -> & Hk). exists (t' ++ t2). split; [done|eauto].
    + intros [Hex Hk]. split; [done|]. intros x l' Hx. eauto.
  - destruct (D d).
    + intros (t' & -> & Hw & Hk). exists (t' ++ t2). split_and!; [done..|]. by apply IH.
    + intros (u1 & u2 & -> & Hp). exists u1, (u2 ++ t2).
      split; [by rewrite (assoc_L (++))|]. eapply acts_impl; [|exact Hp]. intros b l'. apply IH.
Qed.

(** A deadline that does not fire, and one that does. *)
Lemma acts_in_time {A} d (p : io E A) l t Q :
  fires d = false → acts p l t (λ a, Q (Some a)) → acts (timeout d p) l t Q.
Proof.
  intros Hd Hp. simpl in *. rewrite Hd. exists t, []. split; [by rewrite app_nil_r|].
  eapply acts_impl; [|exact Hp]. intros a l' Ha. by split.
Qed.

Lemma acts_lapse {A} d (p : io E A) l (Q : option A → L → Prop) :
  fires d = true → waits p l → Q None l → acts (timeout d p) l [Lapse] Q.
Proof. intros Hd Hw HQ. simpl in *. rewrite Hd. by exists []. Qed.

(** The queue [q] holds marks that [t] expects, and none where a deadline is to fire. *)
Definition agrees (q : list mark) (t : list act) : Prop :=
  (∀ ms t', t = map In ms ++ t' → q `prefix_of` ms ∨ ms `prefix_of` q) ∧
  (∀ t', t = Lapse :: t' → q = []).

Lemma agrees_app q t1 t2 : agrees q (t1 ++ t2) → agrees q t1.
Proof using Type.
  intros [H Hl]. split; [intros ms t' ->; apply (H ms (t' ++ t2)); by rewrite (assoc_L (++))|].
  intros t' ->. by apply (Hl (t' ++ t2)).
Qed.
End acts.

Lemma data_app_inv c q bs :
  data c ++ q `prefix_of` data bs ∨ data bs `prefix_of` data c ++ q →
  length c ≤ length bs → c `prefix_of` bs.
Proof.
  revert bs. induction c as [|b c IH]; intros bs H Hl; [apply prefix_nil|].
  destruct bs as [|b' bs]; [simpl in *; lia|]. simpl in *.
  assert (b = b' ∧ (data c ++ q `prefix_of` data bs ∨ data bs `prefix_of` data c ++ q)) as [-> H'].
  { destruct H as [H|H]; pose proof (prefix_cons_inv_1 _ _ _ _ H) as Hb;
      apply prefix_cons_inv_2 in H; split; auto; congruence. }
  apply prefix_cons, IH; [done|lia].
Qed.

(** What has come is all that is expected, and more. *)
Lemma prefix_inv q ms :
  q `prefix_of` ms ∨ ms `prefix_of` q → length ms ≤ length q → ∃ r : list mark, q = ms ++ r.
Proof.
  intros [H|H] Hl; [|exact H]. exists []. rewrite app_nil_r.
  by apply prefix_length_eq in H; [|lia].
Qed.

Lemma data_prefix_inv q bs :
  q `prefix_of` data bs ∨ data bs `prefix_of` q → length bs ≤ length q → ∃ r, q = data bs ++ r.
Proof. intros H Hl. apply (prefix_inv _ _ H). by rewrite length_map. Qed.

Lemma end_prefix_inv q bs :
  q `prefix_of` data bs ++ [Eof] ∨ data bs ++ [Eof] `prefix_of` q → length bs < length q →
  ∃ r, q = data bs ++ Eof :: r.
Proof.
  intros H Hl. destruct (prefix_inv _ _ H) as [r ->].
  { rewrite length_app, length_map. simpl. lia. }
  exists r. by rewrite <-(assoc_L (++)).
Qed.

Lemma data_Eof_absurd c q bs :
  data c ++ Eof :: q `prefix_of` data bs ∨ data bs `prefix_of` data c ++ Eof :: q →
  length c < length bs → False.
Proof.
  revert bs. induction c as [|b c IH]; intros [|b' bs] H Hl; simpl in *; try lia.
  - destruct H as [H|H]; by apply prefix_cons_inv_1 in H.
  - eapply (IH bs); [|lia]. destruct H as [H|H]; apply prefix_cons_inv_2 in H; auto.
Qed.

(** The end of the stream is after the same bytes for two that agree on it. *)
Lemma data_end_inv c q bs :
  data c ++ q `prefix_of` data bs ++ [Eof] ∨ data bs ++ [Eof] `prefix_of` data c ++ q →
  length c ≤ length bs ∧ (∀ q', q = Eof :: q' → c = bs).
Proof.
  revert bs. induction c as [|b c IH]; intros [|b' bs] H; simpl in *.
  - by split.
  - split; [lia|]. intros q' ->. destruct H as [H|H]; by apply prefix_cons_inv_1 in H.
  - destruct H as [H|H]; by apply prefix_cons_inv_1 in H.
  - assert (b = b' ∧ (data c ++ q `prefix_of` data bs ++ [Eof] ∨ data bs ++ [Eof] `prefix_of` data c ++ q))
      as [-> H'].
    { destruct H as [H|H]; pose proof (prefix_cons_inv_1 _ _ _ _ H) as Hb;
        apply prefix_cons_inv_2 in H; split; auto; congruence. }
    destruct (IH bs H') as [Hl Hq]. split; [lia|]. intros q' Hq'. f_equal. eauto.
Qed.

Section advance.

(** What a step did to the trace that is left. *)
Definition advance (t t' : list act) (q q' o : list mark) : Prop :=
  (o = [] ∧ ∃ c, q = c ++ q' ∧ t = map In c ++ t') ∨ (q' = q ∧ t = map Out o ++ t').

Lemma advance_nil t q : advance t t q q [].
Proof. by right. Qed.

Lemma advance_data c t q : advance (ins c ++ t) t (data c ++ q) q [].
Proof. left. split; [done|]. exists (data c). by rewrite map_In_data. Qed.

Lemma advance_app t t' u q q' o : advance t t' q q' o → advance (t ++ u) (t' ++ u) q q' o.
Proof.
  intros [(-> & c & -> & ->)|(-> & ->)]; [left; split; [done|]; exists c|right];
    by rewrite <-(assoc_L (++)).
Qed.

Lemma agrees_ins q bs t :
  agrees q (ins bs ++ t) → q `prefix_of` data bs ∨ data bs `prefix_of` q.
Proof. intros [H _]. apply (H _ t). by rewrite map_In_data. Qed.

Lemma agrees_Eof q t : agrees q (In Eof :: t) → q `prefix_of` [Eof] ∨ [Eof] `prefix_of` q.
Proof. intros [H _]. by apply (H [Eof] t). Qed.

Lemma map_In_end bs : map In (data bs ++ [Eof]) = ins bs ++ [In Eof].
Proof. by rewrite map_app, map_In_data. Qed.

Lemma agrees_end q bs t :
  agrees q (ins bs ++ In Eof :: t) → q `prefix_of` data bs ++ [Eof] ∨ data bs ++ [Eof] `prefix_of` q.
Proof. intros [H _]. apply (H _ t). by rewrite map_In_end, <-(assoc_L (++)). Qed.

Lemma advance_end c t q : advance (ins c ++ In Eof :: t) t (data c ++ Eof :: q) q [].
Proof.
  left. split; [done|]. exists (data c ++ [Eof]).
  by rewrite map_In_end, <-!(assoc_L (++)).
Qed.

(** The lapse of a deadline. *)
Definition lapses (t t' : list act) (q q' o : list mark) : Prop :=
  t = Lapse :: t' ∧ q = [] ∧ q' = [] ∧ o = [].
End advance.

Section steps.
Context {D : Deadlines} {E : Type → Type} {L : Type} `{!Party E L}.

(** A step of a program does the next actions of its trace. *)
Lemma acts_pstep_any {A} (p p' : io E A) l l' t Q q q' o :
  acts p l t Q → agrees q t → pstep p l q p' l' q' o →
  ∃ t', acts p' l' t' Q ∧ (advance t t' q q' o ∨ (∃ d, fires d = true) ∧ lapses t t' q q' o).
Proof.
  revert p' l l' t Q q q' o.
  induction p as [A a0|A X e k IH|A C d pb IHp k IH]; intros p' l l' t Q q q' o; simpl; [done| |].
  - destruct (wire e) as [e'|].
    + intros Ha Hag Hs.
      assert (∃ t', acts p' l' t' Q ∧ advance t t' q q' o) as (t' & ? & ?); [|by exists t'; auto].
      revert Ha Hag Hs. destruct e'; simpl; intros Ha Hag (x & Hx & -> & ->).
      * destruct Ha as (Hn & [(bs & t' & -> & Hl & Hk)|(t' & -> & Hk)]),
          Hx as (-> & [(c & -> & -> & Hc & Hcl)|(-> & ->)]).
        -- apply agrees_ins, data_app_inv in Hag as [bs' ->]; [|lia].
           exists (ins bs' ++ t'). split; [by eapply Hk|].
           rewrite ins_app, <-(assoc_L (++)). apply advance_data.
        -- apply agrees_ins, (data_Eof_absurd []) in Hag; [done|simpl; lia].
        -- destruct c as [|b c]; [done|]. apply agrees_Eof in Hag as [Hag|Hag];
             by apply prefix_cons_inv_1 in Hag.
        -- exists t'. split; [done|]. left. split; [done|]. by exists [Eof].
      * destruct Ha as [(bs & t' & -> & Hl & Hk)|(bs & t' & -> & Hl & Hk)],
          Hx as (-> & [(c & -> & -> & Hcl)|(c & -> & -> & Hcl)]).
        -- apply agrees_ins, data_app_inv in Hag as [bs' ->]; [|lia].
           rewrite length_app in Hl. destruct bs' as [|b bs']; [|simpl in *; lia].
           rewrite app_nil_r in *. exists t'. split; [done|]. apply advance_data.
        -- apply agrees_ins, data_Eof_absurd in Hag; [done|lia].
        -- apply agrees_end, data_end_inv in Hag as [? _]. lia.
        -- apply agrees_end, data_end_inv in Hag as [_ Hc]. rewrite (Hc _ eq_refl).
           exists t'. split; [done|apply advance_end].
      * destruct Ha as (t' & -> & Hk), Hx as (-> & -> & ->). exists t'. split; [done|].
        right. by rewrite map_Out_data.
      * destruct Hx as (-> & -> & ->). exists t. split; [done|apply advance_nil].
      * destruct Ha as (t' & -> & Hk), Hx as (-> & -> & ->). exists t'. split; [done|]. by right.
    + intros [_ Hk] Hag (x & Hx & -> & -> & ->). exists t. split; [auto|left; apply advance_nil].
  - destruct (D d) eqn:Hd.
    + intros (t' & -> & [Hw Hst] & Hk) [_ Hq] Hs. rewrite (Hq t' eq_refl) in Hs.
      destruct Hs as [(b & -> & _)|[(pb' & Hs & _)|(_ & _ & _ & _ & -> & -> & -> & ->)]];
        [by destruct (Hw b)|by destruct (Hst _ _ _ _ Hs)|].
      exists t'. split; [done|]. right. split; [by exists d|]. by split_and!; [|apply (Hq t')|..].
    + intros (t1 & t2 & -> & Hp) Hag [(b & -> & -> & -> & -> & ->)|[(pb' & Hs & ->)|(? & _)]]; [| |done].
      * destruct Hp as [-> Hk]. exists t2. split; [done|left; apply advance_nil].
      * eapply IHp in Hs as (t' & Hf & Hadv); [|done|by eapply agrees_app].
        exists (t' ++ t2). split; [simpl; rewrite Hd; by exists t', t2|].
        destruct Hadv as [Hadv|(Hf' & -> & -> & -> & ->)]; [left; by apply advance_app|by right].
Qed.

Definition stuck {A} (p : io E A) (l : L) (q : list mark) : Prop :=
  ∀ p' l' q' o, ¬ pstep p l q p' l' q' o.

(** What a program with a trace can do next: stop, step, or wait for more than is
    queued. *)
Lemma acts_cases {A} (p : io E A) l t Q q :
  acts p l t Q → agrees q t →
  (∃ a, p = Ret a ∧ t = [] ∧ Q a l) ∨ (∃ p' l' q' o, pstep p l q p' l' q' o) ∨
  (stuck p l q ∧ ∃ ms t', t = map In ms ++ t' ∧ length q < length ms).
Proof.
  unfold stuck. revert l t Q. induction p as [A a0|A X e k _|A C d pb IHp k _]; intros l t Q; simpl.
  - intros [-> Ha] _. left. by exists a0.
  - destruct (wire e) as [e'|].
    + destruct e'; simpl.
      * intros (Hn & Hr) _. right. destruct q as [|[b|] q].
        -- right. split.
           { intros p' l' q' o (x & (_ & [(c & _ & Hc & Hne & _)|(_ & ?)]) & _); [|done].
             by destruct c. }
           destruct Hr as [(bs & t' & -> & Hl & _)|(t' & -> & _)].
           ++ exists (data bs), t'. rewrite map_In_data, length_map. split; [done|simpl; lia].
           ++ exists [Eof], t'. split; [done|simpl; lia].
        -- left. do 5 eexists; split; [split; [done|]|done]. left. exists [b]. simpl. eauto with lia.
        -- left. do 5 eexists; split; [split; [done|]|done]. by right.
      * intros Hr Hag. right.
        destruct Hr as [(bs & t' & -> & Hl & _)|(bs & t' & -> & Hl & _)].
        -- destruct (decide (length q < n)); [right|left].
           ++ split.
              { intros p' l' q' o (x & (_ & [(c & _ & -> & Hc)|(c & _ & -> & Hc)]) & _).
                - rewrite length_app, length_map in *. lia.
                - apply agrees_ins, data_Eof_absurd in Hag; [done|lia]. }
              exists (data bs), t'. rewrite map_In_data, length_map. split; [done|lia].
           ++ apply agrees_ins, data_prefix_inv in Hag as [r ->]; [|lia].
              do 5 eexists; split; [split; [done|]|done]. left. by exists bs.
        -- destruct (decide (length q ≤ length bs)); [right|left].
           ++ split.
              { intros p' l' q' o (x & (_ & [(c & _ & -> & Hc)|(c & _ & -> & Hc)]) & _).
                - rewrite length_app, length_map in *. lia.
                - apply agrees_end, data_end_inv in Hag as [_ Hq]. rewrite (Hq _ eq_refl) in *.
                  rewrite length_app, length_map in *. simpl in *. lia. }
              exists (data bs ++ [Eof]), t'. rewrite map_In_end, length_app, length_map, <-(assoc_L (++)).
              split; [done|simpl; lia].
           ++ apply agrees_end, end_prefix_inv in Hag as [r ->]; [|lia].
              do 5 eexists; split; [split; [done|]|done]. right. by exists bs.
      * intros _ _. right; left. by do 5 eexists.
      * intros _ _. right; left. by do 5 eexists.
      * intros _ _. right; left. by do 5 eexists.
    + intros [(x & l' & Hx) _] _. right; left. do 5 eexists; split; [exact Hx|done].
  - destruct (D d) eqn:Hd.
    { intros (t' & -> & [Hw Hst] & _) [_ Hq]. right; left. do 4 eexists. right; right.
      rewrite (Hq t' eq_refl). by split_and!. }
    intros (t1 & t2 & -> & Hp) Hag. right.
    destruct (IHp l t1 _ Hp) as [(b & -> & -> & _)|[(pb' & l' & q' & o & Hs)|(Hst & ms & t' & -> & Hlt)]];
      [by eapply agrees_app|left|left|right].
    + do 4 eexists. left. by exists b.
    + do 4 eexists. right; left. by exists pb'.
    + split; [|exists ms, (t' ++ t2); by rewrite (assoc_L (++))].
      intros p' l' q' o [(b & -> & _)|[(pb' & Hs & _)|(? & _)]]; [|by eapply Hst|done].
      destruct Hp as [Hp _]. apply app_nil in Hp as [Hp _]. by destruct ms; [simpl in *; lia|].
Qed.
End steps.

(** Where no deadline fires. *)
Lemma acts_pstep {E L} `{!Party E L} {A} (p p' : io E A) l l' t Q q q' o :
  acts p l t Q → agrees q t → pstep p l q p' l' q' o →
  ∃ t', acts p' l' t' Q ∧ advance t t' q q' o.
Proof.
  intros Ha Hag Hs. destruct (acts_pstep_any _ _ _ _ _ _ _ _ _ Ha Hag Hs) as (t' & ? & [?|[[] _]]);
    [by exists t'|done].
Qed.

Lemma acts_timeout {E L} `{!Party E L} {A} d (p : io E A) l t Q :
  acts p l t (λ a, Q (Some a)) → acts (timeout d p) l t Q.
Proof. by apply acts_in_time. Qed.

(** * Dialogues *)

Inductive party := Client | Server.
Abbreviation dialogue := (list (party * mark)).

Definition tells (p : party) (ms : list mark) : dialogue := map (pair p) ms.
Definition says (p : party) (bs : list byte) : dialogue := tells p (data bs).
(** [p] shuts its half of the connection down. *)
Definition closes (p : party) : dialogue := tells p [Eof].

Definition act_client (m : party * mark) : act :=
  match m with (Client, m) => Out m | (Server, m) => In m end.
Definition act_server (m : party * mark) : act :=
  match m with (Client, m) => In m | (Server, m) => Out m end.

(** The dialogue as each party acts it. *)
Definition view_client (G : dialogue) : list act := map act_client G.
Definition view_server (G : dialogue) : list act := map act_server G.

Lemma view_client_app G H : view_client (G ++ H) = view_client G ++ view_client H.
Proof. apply map_app. Qed.
Lemma view_server_app G H : view_server (G ++ H) = view_server G ++ view_server H.
Proof. apply map_app. Qed.
Lemma view_client_tells_client ms : view_client (tells Client ms) = map Out ms.
Proof. unfold view_client, tells. by rewrite map_map. Qed.
Lemma view_client_tells_server ms : view_client (tells Server ms) = map In ms.
Proof. unfold view_client, tells. by rewrite map_map. Qed.
Lemma view_server_tells_client ms : view_server (tells Client ms) = map In ms.
Proof. unfold view_server, tells. by rewrite map_map. Qed.
Lemma view_server_tells_server ms : view_server (tells Server ms) = map Out ms.
Proof. unfold view_server, tells. by rewrite map_map. Qed.
Lemma view_client_says_client bs : view_client (says Client bs) = outs bs.
Proof. unfold says. by rewrite view_client_tells_client, map_Out_data. Qed.
Lemma view_client_says_server bs : view_client (says Server bs) = ins bs.
Proof. unfold says. by rewrite view_client_tells_server, map_In_data. Qed.
Lemma view_server_says_client bs : view_server (says Client bs) = ins bs.
Proof. unfold says. by rewrite view_server_tells_client, map_In_data. Qed.
Lemma view_server_says_server bs : view_server (says Server bs) = outs bs.
Proof. unfold says. by rewrite view_server_tells_server, map_Out_data. Qed.

Create Rewrite HintDb views.
#[export] Hint Rewrite view_client_app view_server_app view_client_says_client
  view_client_says_server view_server_says_client view_server_says_server : views.

(** * Schedules

    What the parties do on the connection, without the programs: one mark at a time,
    and a mark is read when it is the next in the queue. *)

Record traces := Traces {
  of_client : list act;
  of_server : list act;
  for_server : list mark;
  for_client : list mark;
}.

Inductive tstep : traces → traces → Prop :=
| tstep_client_out m t u cs sc : tstep (Traces (Out m :: t) u cs sc) (Traces t u (cs ++ [m]) sc)
| tstep_client_in m t u cs sc : tstep (Traces (In m :: t) u cs (m :: sc)) (Traces t u cs sc)
| tstep_server_out m t u cs sc : tstep (Traces t (Out m :: u) cs sc) (Traces t u cs (sc ++ [m]))
| tstep_server_in m t u cs sc : tstep (Traces t (In m :: u) (m :: cs) sc) (Traces t u cs sc)
(** A deadline of the client fires when neither party can go on. *)
| tstep_client_lapse t u cs :
    (∀ m u', u ≠ Out m :: u') → (∀ m u' cs', u = In m :: u' → cs ≠ m :: cs') →
    tstep (Traces (Lapse :: t) u cs []) (Traces t u cs []).

(** The actions [w] are done, or begin with a read. *)
Definition at_rest (w : list act) : Prop := ∀ a t, w = a :: t → ∃ m, a = In m.

Lemma at_rest_in m t : at_rest (In m :: t).
Proof. intros a t' [= <- <-]. by exists m. Qed.

(** Some schedule gets the client to its end, with [l] left unread, and the server up
    to its actions [w], at rest. *)
Definition completes (l : list mark) (w : list act) (c : traces) : Prop :=
  rtc tstep c (Traces [] w [] l) ∧ at_rest w.

Lemma tstep_diamond c c1 c2 :
  tstep c c1 → tstep c c2 → c1 = c2 ∨ ∃ c3, tstep c1 c3 ∧ tstep c2 c3.
Proof.
  intros H1 H2. destruct H1; inversion H2; subst; simpl;
    first [by left|right; eexists; split; by constructor|naive_solver].
Qed.

Lemma tstep_final l w c : at_rest w → ¬ tstep (Traces [] w [] l) c.
Proof. intros Hw. inversion 1; subst. by destruct (Hw _ _ eq_refl). Qed.

(** Then every schedule does: a step taken early is one of those to take. *)
Lemma completes_step l w c c' : completes l w c → tstep c c' → completes l w c'.
Proof.
  intros [Hc Hw] Hs'. split; [|done]. remember (Traces [] w [] l) as f.
  revert c' Heqf Hs'. induction Hc as [f|c c2 f Hs Hc IH]; intros c' -> Hs'.
  - by apply tstep_final in Hs'.
  - destruct (tstep_diamond _ _ _ Hs Hs') as [<-|(c3 & H2 & H3)]; [done|].
    eapply rtc_l; [exact H3|]. by apply IH.
Qed.

Lemma completes_steps l w c c' : rtc tstep c c' → completes l w c → completes l w c'.
Proof. induction 1; eauto using completes_step. Qed.

Lemma tsteps_client_out o t u cs sc :
  rtc tstep (Traces (map Out o ++ t) u cs sc) (Traces t u (cs ++ o) sc).
Proof.
  revert cs. induction o as [|m o IH]; intros cs; simpl; [by rewrite app_nil_r|].
  eapply rtc_l; [constructor|]. rewrite (cons_middle m cs o), (assoc_L (++)). apply IH.
Qed.

Lemma tsteps_client_in c t u cs sc :
  rtc tstep (Traces (map In c ++ t) u cs (c ++ sc)) (Traces t u cs sc).
Proof. induction c; simpl; [done|]. eapply rtc_l; [constructor|done]. Qed.

Lemma tsteps_server_out o t u cs sc :
  rtc tstep (Traces t (map Out o ++ u) cs sc) (Traces t u cs (sc ++ o)).
Proof.
  revert sc. induction o as [|m o IH]; intros sc; simpl; [by rewrite app_nil_r|].
  eapply rtc_l; [constructor|]. rewrite (cons_middle m sc o), (assoc_L (++)). apply IH.
Qed.

Lemma tsteps_server_in c t u cs sc :
  rtc tstep (Traces t (map In c ++ u) (c ++ cs) sc) (Traces t u cs sc).
Proof. induction c; simpl; [done|]. eapply rtc_l; [constructor|done]. Qed.

(** Bytes to the server, and from it. *)
Lemma tsteps_to_server bs t u sc :
  rtc tstep (Traces (outs bs ++ t) (ins bs ++ u) [] sc) (Traces t u [] sc).
Proof.
  rewrite <-map_Out_data, <-map_In_data. etrans; [apply tsteps_client_out|].
  rewrite <-(app_nil_r ([] ++ _)). apply tsteps_server_in.
Qed.

Lemma tsteps_sent bs t u cs sc :
  rtc tstep (Traces t (outs bs ++ u) cs sc) (Traces t u cs (sc ++ data bs)).
Proof. rewrite <-map_Out_data. apply tsteps_server_out. Qed.

Lemma tsteps_received bs t u cs sc :
  rtc tstep (Traces (ins bs ++ t) u cs (data bs ++ sc)) (Traces t u cs sc).
Proof. rewrite <-map_In_data. apply tsteps_client_in. Qed.

(** What is on its way to a party is what it expects. *)
Lemma agrees_cons m q t : agrees q t → agrees (m :: q) (In m :: t).
Proof.
  intros [H _]. split; [|done]. intros [|m' ms] t' [=]; subst; [right; apply prefix_nil|].
  destruct (H ms t' eq_refl); [left|right]; by apply prefix_cons.
Qed.

Lemma agrees_snoc m q t : agrees (q ++ [m]) t → agrees q t.
Proof.
  intros [H Hl]. split; [|intros t' Ht; by destruct (app_nil q [m]) as [[-> _] _]; [by eapply Hl|]].
  intros ms t' Ht. destruct (H ms t' Ht) as [Hp|Hp].
  - left. etrans; [|exact Hp]. by apply prefix_app_r.
  - eapply prefix_weak_total; [|exact Hp]. by apply prefix_app_r.
Qed.

Lemma agrees_out q m t : agrees q (Out m :: t).
Proof. split; [|done]. intros [|m' ms] t' [=]. right. apply prefix_nil. Qed.

Lemma agrees_lapse t : agrees [] (Lapse :: t).
Proof. split; [|done]. intros ms t' _. left. apply prefix_nil. Qed.

Lemma agrees_end_of_trace q : agrees q [].
Proof. split; [|done]. intros [|m ms] t' [=]. right. apply prefix_nil. Qed.

Lemma agrees_nothing w : agrees [] w.
Proof. split; [|done]. intros ms t' _. left. apply prefix_nil. Qed.

#[local] Hint Resolve agrees_cons agrees_snoc agrees_out agrees_lapse agrees_end_of_trace
  agrees_nothing : core.

Lemma completes_agrees l w c :
  completes l w c →
  agrees (for_client c) (of_client c) ∧ agrees (for_server c) (of_server c).
Proof.
  intros [Hc _]. remember (Traces [] w [] l) as f.
  induction Hc as [f|c c2 f Hs Hc IH]; subst.
  - by split; simpl.
  - destruct (IH eq_refl) as [Hcl Hse]. clear IH Hc. destruct Hs; simpl in *; split; eauto.
Qed.

(** A party at its end, or in want of more than there is. *)
Definition hungry (q : list mark) (t : list act) : Prop :=
  ∃ ms t', t = map In ms ++ t' ∧ length q < length ms.

Lemma hungry_tail m q t : hungry (m :: q) (In m :: t) → hungry q t.
Proof.
  intros ([|m' ms] & t' & [=] & Hl); simpl in Hl; [lia|]. subst. exists ms, t'. split; [done|lia].
Qed.

Lemma hungry_out q m t : ¬ hungry q (Out m :: t).
Proof. intros ([|m' ms] & t' & [=] & Hl). simpl in Hl. lia. Qed.

Lemma hungry_lapse q t : ¬ hungry q (Lapse :: t).
Proof. intros ([|m' ms] & t' & [=] & Hl). simpl in Hl. lia. Qed.

(** Who wants more will not get it from a party that does not write any more. *)
Lemma completes_client_waits l w c :
  completes l w c → hungry (for_client c) (of_client c) →
  of_server c = [] ∨ hungry (for_server c) (of_server c) → False.
Proof.
  intros [Hc _]. remember (Traces [] w [] l) as f.
  induction Hc as [f|c c2 f Hs Hc IH]; subst.
  - intros ([|m ms] & t & Ht & Hl) _; [simpl in Hl; lia|done].
  - specialize (IH eq_refl).
    destruct Hs; simpl in *; intros Hcl Hse;
      try (by first [apply hungry_out in Hcl|apply hungry_lapse in Hcl]); (destruct Hse as [Hse|Hse]; [try done; eauto using hungry_tail|]);
      try (by apply hungry_out in Hse); eauto using hungry_tail.
Qed.

Lemma completes_server_waits l w t cs sc :
  completes l w (Traces [] t cs sc) → hungry cs t → sc = l ∧ t = map In cs ++ w ∧ w ≠ [].
Proof.
  intros [Hc _]. remember (Traces [] t cs sc) as c eqn:Hcd.
  remember (Traces [] w [] l) as f. revert t cs sc Hcd.
  induction Hc as [f|c c2 f Hs Hc IH]; intros t cs sc -> Hh; simplify_eq.
  - split_and!; [done..|]. intros ->. destruct Hh as ([|m ms] & t' & Ht & Hl); simpl in *; [lia|done].
  - inversion Hs; subst; [by apply hungry_out in Hh|].
    destruct (IH eq_refl _ _ _ eq_refl) as (-> & -> & Hw); [by eapply hungry_tail|done].
Qed.

Lemma completes_done l w cs sc :
  completes l w (Traces [] [] cs sc) → w = [] ∧ cs = [] ∧ sc = l.
Proof. intros [Hc _]. inversion Hc as [|? c' ? Hs]; subst; [done|inversion Hs]. Qed.

(** A deadline that lapses before its time: the other party goes on as far as it would
    have. *)
Lemma completes_client_lapse l w t u cs :
  completes l w (Traces (Lapse :: t) u cs []) → completes l w (Traces t u cs []).
Proof.
  intros [Hc Hw]. split; [|done].
  assert (∀ c, rtc tstep c (Traces [] w [] l) → ∀ u cs sc, c = Traces (Lapse :: t) u cs sc →
    rtc tstep (Traces t u cs sc) (Traces [] w [] l) ∧ sc = []) as H; [|by eapply H].
  clear u cs Hc. intros c Hc. remember (Traces [] w [] l) as f.
  induction Hc as [f|c c2 f Hs Hc IH]; intros u cs sc ->; [done|].
  specialize (IH Heqf). inversion Hs; subst.
  - destruct (IH _ _ _ eq_refl) as [_ Hsc]. by destruct sc.
  - destruct (IH _ _ _ eq_refl) as [Hr ->]. split; [|done]. eapply rtc_l; [constructor|exact Hr].
  - done.
Qed.

(** The two views of one dialogue complete; the client may stop reading early, and
    the server may want to go on. *)
Lemma completes_dialogue G tc l w :
  tc ++ map In l = view_client G → at_rest w →
  completes l w (Traces tc (view_server G ++ w) [] []).
Proof.
  intros Ht Hw. split; [|done]. revert Ht.
  enough (∀ l0, tc = [] ∨ l0 = [] → tc ++ map In l = view_client G →
    rtc tstep (Traces tc (view_server G ++ w) [] l0) (Traces [] w [] (l0 ++ l)))
    as H by (apply (H []); by right).
  revert tc l. induction G as [|[[] m] G IH]; intros tc l l0 Hl0 Ht; simpl in *.
  - apply app_nil in Ht as [-> ->%map_eq_nil]. by rewrite app_nil_r.
  - destruct tc as [|a tc]; [by destruct l|]. simplify_eq/=. destruct Hl0 as [?| ->]; [done|].
    eapply rtc_l; [constructor|]. eapply rtc_l; [constructor|]. apply IH; [by right|done].
  - destruct tc as [|a tc]; simplify_eq/=.
    + destruct l as [|m' l]; simplify_eq/=. eapply rtc_l; [constructor|].
      rewrite (cons_middle m l0 l), (assoc_L (++)). apply IH; [by left|done].
    + destruct Hl0 as [?| ->]; [done|].
      eapply rtc_l; [constructor|]. eapply rtc_l; [constructor|]. apply IH; [by right|done].
Qed.

Lemma completes_client l w t t' u cs sc sc' o :
  completes l w (Traces t u cs sc) → advance t t' sc sc' o →
  completes l w (Traces t' u (cs ++ o) sc').
Proof.
  intros Hc [(-> & c & -> & ->)|(-> & ->)]; [rewrite app_nil_r|]; eapply completes_steps, Hc;
    [apply tsteps_client_in|apply tsteps_client_out].
Qed.

Lemma completes_client_any l w t t' u cs sc sc' o (P : Prop) :
  completes l w (Traces t u cs sc) → advance t t' sc sc' o ∨ P ∧ lapses t t' sc sc' o →
  completes l w (Traces t' u (cs ++ o) sc').
Proof.
  intros Hc [Ha|(_ & -> & -> & -> & ->)]; [by eapply completes_client|].
  rewrite app_nil_r. by apply completes_client_lapse.
Qed.

Lemma completes_server l w t u u' cs cs' sc o :
  completes l w (Traces t u cs sc) → advance u u' cs cs' o →
  completes l w (Traces t u' cs' (sc ++ o)).
Proof.
  intros Hc [(-> & c & -> & ->)|(-> & ->)]; [rewrite app_nil_r|]; eapply completes_steps, Hc;
    [apply tsteps_server_in|apply tsteps_server_out].
Qed.

(** * Conversations *)

Section talk.
Context {D : Deadlines} {E1 L1} `{!Party E1 L1} {E2 L2} `{!Party E2 L2} {A B : Type}.
Context (Qa : A → L1 → Prop) (Qb : B → L2 → Prop) (l : list mark) (w : list act).
Abbreviation conf := (config E1 L1 A E2 L2 B).

(** The invariant of a conversation. *)
Definition talking (c : conf) : Prop :=
  ∃ tc ts, acts (client c) (client_state c) tc Qa ∧
    acts (D := never) (server c) (server_state c) ts Qb ∧
    completes l w (Traces tc ts (to_server c) (to_client c)).

(** Its end: the client has answered and left [l] unread.  The server has answered,
    if nothing is left for it to do, or else it waits, with [w] to do. *)
Definition ended (c : conf) : Prop :=
  (∃ a, client c = Ret a ∧ Qa a (client_state c)) ∧ to_client c = l ∧
  if decide (w = []) then (∃ b, server c = Ret b ∧ Qb b (server_state c)) ∧ to_server c = []
  else stuck (D := never) (server c) (server_state c) (to_server c) ∧
       acts (D := never) (server c) (server_state c) (map In (to_server c) ++ w) Qb.

Lemma talking_step c c' : talking c → step c c' → talking c'.
Proof.
  intros (tc & ts & Hfc & Hfs & Hc) Hs. pose proof (completes_agrees _ _ _ Hc) as [Hac Has].
  destruct Hs as [pc lc pc' lc' ps ls cs sc sc' o Hp|pc lc ps ls ps' ls' cs cs' sc o Hp]; simpl in *.
  - eapply acts_pstep_any in Hp as (t' & Hf' & Hadv); [|done..].
    exists t', ts. split_and!; [done..|]. by eapply completes_client_any.
  - eapply acts_pstep in Hp as (t' & Hf' & Hadv); [|done..].
    exists tc, t'. split_and!; [done..|]. by eapply completes_server.
Qed.

Lemma stuck_nf a lc ps ls cs sc : stuck (D := never) ps ls cs → nf step (Conf (Ret a) lc ps ls cs sc : conf).
Proof. intros Hst [c Hs]. inversion Hs; subst; [done|by eapply Hst]. Qed.

(** A conversation is over or goes on. *)
Lemma talking_progress c : talking c → (nf step c ∧ ended c) ∨ red step c.
Proof.
  destruct c as [pc lc ps ls cs sc]. intros (tc & ts & Hfc & Hfs & Hc); simpl in *.
  pose proof (completes_agrees _ _ _ Hc) as [Hac Has].
  destruct (acts_cases pc lc tc Qa sc Hfc Hac) as [(a & -> & -> & Ha)|[(p' & l' & q' & o & Hs)|(_ & Hh)]];
    [|right; eexists; by apply step_client|];
  (destruct (acts_cases (D := never) ps ls ts Qb cs Hfs Has) as [(b & -> & -> & Hb)|[(p' & l' & q' & o & Hs)|(Hst & Hh')]];
    [|right; eexists; by apply step_server|]).
  - left. split; [by apply stuck_nf; intros ? ? ? ? []|].
    apply completes_done in Hc as (-> & -> & ->). split_and!; [by exists a|done|].
    rewrite decide_True by done. split; [by exists b|done].
  - left. split; [by apply stuck_nf|].
    apply completes_server_waits in Hc as (-> & -> & Hw); [|done].
    split_and!; [by exists a|done|]. by rewrite decide_False.
  - destruct (completes_client_waits _ _ _ Hc Hh). by left.
  - destruct (completes_client_waits _ _ _ Hc Hh). by right.
Qed.

(** What can be said of every run from [c]: it is finite; wherever it has got, it can
    get to an end; and if it can go no further, that is the end. *)
Definition converses (c : conf) : Prop :=
  sn step c ∧
  (∀ c', rtc step c c' → ∃ f, rtc step c' f ∧ nf step f ∧ ended f) ∧
  (∀ c', rtc step c c' → nf step c' → ended c').

Lemma talking_converses c : talking c → converses c.
Proof.
  intros Htalk.
  assert (Hinv : ∀ c', rtc step c c' → talking c').
  { intros c' Hs. induction Hs; eauto using talking_step. }
  split_and!; [apply duet_terminates| |].
  - intros c' Hc'%Hinv. clear Htalk Hinv. pose proof (duet_terminates c') as Hsn.
    induction Hsn as [c' _ IH]. destruct (talking_progress c' Hc') as [[Hnf He]|[c'' Hs]].
    + by exists c'.
    + destruct (IH c'' Hs) as (f & Hf & Hend); [by eapply talking_step|].
      exists f. split; [by eapply rtc_l|done].
  - intros c' Hc'%Hinv Hnf. by destruct (talking_progress c' Hc') as [[_ ?]|?].
Qed.

(** Two programs whose actions complete by some schedule. *)
Lemma duet_completes (p : io E1 A) lc (q : io E2 B) ls tc ts :
  acts p lc tc Qa → acts (D := never) q ls ts Qb → completes l w (Traces tc ts [] []) →
  converses (start_with p lc q ls).
Proof. intros Hp Hq Hc. apply talking_converses. by exists tc, ts. Qed.

(** Two programs that act out the two views of one dialogue. *)
Lemma duet (p : io E1 A) lc (q : io E2 B) ls G tc ts :
  acts p lc tc Qa → tc ++ map In l = view_client G → acts (D := never) q ls ts Qb →
  ts = view_server G ++ w → at_rest w →
  converses (start_with p lc q ls).
Proof.
  intros Hp Ht Hq -> Hw. eapply duet_completes; [exact Hp|exact Hq|by apply completes_dialogue].
Qed.
End talk.

(** ** Between programs without a local state *)

Section plain.
Context {E1 E2 : Type → Type} `{!Party E1 unit, !Party E2 unit} {A B : Type}.

Definition start (p : io E1 A) (q : io E2 B) : config E1 unit A E2 unit B :=
  start_with p tt q tt.

(** Every run of the conversation ends with the answers [a] and [b], the client having
    left the bytes [l] unread. *)
Definition delivers (c : config E1 unit A E2 unit B) (a : A) (b : B) (l : list byte) : Prop :=
  converses (λ a' _, a' = a) (λ b' _, b' = b) (data l) [] c.

Lemma duet_delivers (p : io E1 A) (q : io E2 B) (G : dialogue) tc a b l :
  follows p tc a → tc ++ ins l = view_client G → follows q (view_server G) b →
  delivers (start p q) a b l.
Proof.
  intros Hp Ht Hq.
  eapply (duet _ _ _ _ _ _ _ _ G); [exact Hp| |exact Hq|by rewrite app_nil_r|done].
  by rewrite map_In_data.
Qed.
End plain.
