(* ===== verification/Follows.v ===== *)
(** Proof rules for [follows]: one per building block of the crate's methods, and
    the tactics [fstep] and [fdone] that apply them. *)
From S2P Require Import Prelude Errors TimeoutConfig IO Method Common Duet.
From stdpp Require Import options.

(** The connection events of a larger set are those of [netE]. *)
Class OnWire (E : Type → Type) (L : Type) `{!Party E L, !netE -< E} : Prop :=
  wire_net : ∀ X (e : netE X), wire (subevent e) = Some e.

#[export] Instance net_on_wire : OnWire netE unit.
Proof. done. Qed.

Lemma acts_lift {E L} `{OnWire E L} {A} (p : io netE A) l t Q :
  acts p tt t (λ a _, Q a l) → acts (lift p) l t Q.
Proof.
  revert t Q. induction p as [A a0|A X e k IH|A B d q IHq k IH]; intros t Q; simpl; [done| |].
  - rewrite wire_net. destruct e; simpl.
    + intros (Hn & [(bs & t' & -> & Hl & Hk)|(t' & -> & Hk)]); (split; [done|]);
        [left; exists bs, t'|right; exists t']; eauto 10.
    + intros [(bs & t' & -> & Hl & Hk)|(bs & t' & -> & Hl & Hk)]; [left|right]; exists bs, t'; auto.
    + intros (t' & -> & Hk). exists t'. auto.
    + auto.
    + intros (t' & -> & Hk). exists t'. auto.
  - intros (t1 & t2 & -> & Hq). exists t1, t2. split; [done|]. apply IHq.
    eapply acts_impl; [|exact Hq]. intros b []. apply IH.
Qed.

(** A program that does nothing on the connection, followed by one that may. *)
Lemma acts_then {E L A B} `{!Party E L} (p : io E A) (f : A → io E B) l t Q :
  acts p l [] (λ a l', acts (f a) l' t Q) → acts (p ≫= f) l t Q.
Proof. apply (acts_bind p f l [] t). Qed.

(** An event that is not on the connection. *)
Lemma acts_local {E L X} `{!Party E L} (e : E X) l (Q : X → L → Prop) :
  wire e = None → (∃ x l', local e l x l') → (∀ x l', local e l x l' → Q x l') →
  acts (Vis e Ret) l [] Q.
Proof. intros Hw Hex HQ. simpl. rewrite Hw. split; [done|]. intros x l' Hx. split; eauto. Qed.

(** A program of the connection with one answer, inside a larger one. *)
Lemma acts_follows {E L} `{OnWire E L} {A} (p : io netE A) l t a Q :
  follows p t a → Q a l → acts (lift p) l t Q.
Proof.
  intros Hp HQ. apply acts_lift. eapply acts_impl; [|exact Hp]. by intros a' l' ->.
Qed.

(** Events of a larger set whose answers the program is not to depend on. *)
Class Quiet (U E : Type → Type) (L : Type) `{!Party E L, !U -< E} : Prop := {
  quiet_wire X (e : U X) : wire (subevent e) = None;
  quiet_local X (e : U X) l x l' : local (subevent e) l x l' ↔ l' = l;
}.

#[export] Instance net_quiet_on_wire {U} : OnWire (netE +' U) unit.
Proof. done. Qed.
#[export] Instance net_quiet_quiet {U} : Quiet U (netE +' U) unit.
Proof. by split. Qed.

Lemma acts_quiet {U E L} `{Quiet U E L} {A} (p : io U A) l t Q :
  acts (Party0 := quiet_party U) p tt t (λ a _, Q a l) → acts (lift p) l t Q.
Proof.
  revert t Q. induction p as [A a0|A X e k IH|A B d q IHq k IH]; intros t Q; simpl; [done| |].
  - rewrite quiet_wire. intros [(x & [] & _) Hk]. split.
    + exists x, l. by apply quiet_local.
    + intros y l' ->%quiet_local. apply IH. by apply (Hk y tt).
  - intros (t1 & t2 & -> & Hq). exists t1, t2. split; [done|]. apply IHq.
    eapply acts_impl; [|exact Hq]. intros b []. apply IH.
Qed.

Lemma acts_answers {U E L} `{Quiet U E L} {A} (p : io U A) l a (Q : A → L → Prop) :
  answers p a → Q a l → acts (lift p) l [] Q.
Proof.
  intros Hp HQ. apply acts_quiet. eapply acts_impl; [|exact Hp]. by intros a' l' ->.
Qed.

Lemma answers_ret {U A} (a : A) : answers (Ret a : io U A) a.
Proof. done. Qed.

(** * Programs without a local state *)

Section follows.
Context {E : Type → Type} `{!Party E unit}.

Lemma follows_impl {A} (p : io E A) t a (Q : A → unit → Prop) :
  follows p t a → Q a tt → acts p tt t Q.
Proof. intros Hp HQ. eapply acts_impl; [|exact Hp]. by intros a' [] ->. Qed.

Lemma follows_ret {A} (a : A) : follows (Ret a : io E A) [] a.
Proof. done. Qed.

Lemma follows_eq {A} (p : io E A) t t' a : follows p t a → t = t' → follows p t' a.
Proof using Type. by intros ? <-. Qed.

Lemma follows_res {A} (p : io E A) t a a' : follows p t a → a = a' → follows p t a'.
Proof using Type. by intros ? <-. Qed.

Lemma follows_io_bind {A B} (p : io E A) (f : A → io E B) t1 t2 a b :
  follows p t1 a → follows (f a) t2 b → follows (io_bind p f) (t1 ++ t2) b.
Proof. intros Hp Hf. apply acts_bind. by apply (follows_impl _ _ _ _ Hp). Qed.

Lemma follows_bind {A B} (p : io E A) (f : A → io E B) t1 t2 a b :
  follows p t1 a → follows (f a) t2 b → follows (p ≫= f) (t1 ++ t2) b.
Proof. apply follows_io_bind. Qed.

Lemma follows_timeout {A} d (p : io E A) t a :
  follows p t a → follows (timeout d p) t (Some a).
Proof. intros Hp. apply acts_timeout. by apply (follows_impl _ _ _ _ Hp). Qed.

Lemma follows_lift `{!netE -< E, !OnWire E unit} {A} (p : io netE A) t a :
  follows p t a → follows (lift p : io E A) t a.
Proof. intros Hp. by apply (acts_follows _ _ _ _ _ Hp). Qed.

Lemma follows_answers {U} `{!U -< E, !Quiet U E unit} {A} (p : io U A) a :
  answers p a → follows (lift p : io E A) [] a.
Proof. intros Hp. by eapply acts_answers. Qed.
End follows.

(** * Stream operations *)

Lemma follows_write_all s bs : follows (write_all s bs : io netE _) (outs bs) (Ok tt).
Proof. exists []. by rewrite app_nil_r. Qed.

Lemma follows_flush s : follows (flush s : io netE _) [] (Ok tt).
Proof. done. Qed.

Lemma follows_shutdown s : follows (shutdown s : io netE _) [Out Eof] (Ok tt).
Proof. by exists []. Qed.

Lemma follows_read_exact s n bs :
  length bs = n → follows (read_exact s n : io netE _) (ins bs) (Ok bs).
Proof. intros. left. exists bs, []. by rewrite app_nil_r. Qed.

(** The end of the stream before all the bytes have come. *)
Lemma follows_read_exact_Eof s n bs :
  length bs < n → follows (read_exact s n : io netE _) (ins bs ++ [In Eof]) (Err UnexpectedEof).
Proof. intros. right. by exists bs, []. Qed.

Lemma follows_read_loop s fuel n buf bs :
  length buf + length bs = n → length bs ≤ fuel →
  follows (read_loop fuel s n buf : io netE _) (ins bs) (Ok (buf ++ bs)).
Proof.
  unfold follows. revert buf bs. induction fuel as [|fuel IH]; intros buf bs Hn Hf; simpl.
  - destruct bs; simpl in *; [|lia]. by rewrite app_nil_r.
  - case_decide; [|destruct bs; simpl in *; [by rewrite app_nil_r|lia]].
    simpl. split; [lia|]. left. exists bs, []. rewrite app_nil_r. split_and!; [done|lia|].
    intros [|b c] bs' -> Hc; [done|]. rewrite app_nil_r, (assoc_L (++)).
    apply IH; rewrite !length_app in *; simpl in *; lia.
Qed.

(** The end of the stream instead of a frame. *)
Lemma follows_read_closed s n :
  0 < n → follows (read_exact_or_closed s n : io netE _) [In Eof] (Err ConnectionClosed).
Proof.
  intros Hn. destruct n as [|n]; [lia|]. unfold follows, read_exact_or_closed. simpl.
  split; [lia|]. right. by exists [].
Qed.

(** The frame reader consumes exactly its frame, whatever the segmentation. *)
Lemma follows_read_exact_or_closed s n bs :
  length bs = n → follows (read_exact_or_closed s n : io netE _) (ins bs) (Ok bs).
Proof. intros <-. by apply (follows_read_loop s _ _ [] bs). Qed.

(** * Methods *)

Section methods.
Context {E : Type → Type} `{!Party E unit} {S Er : Type}.
Implicit Types s : S.

Lemma follows_mbind {A B} (m : method E S Er A) (f : A → method E S Er B) s t1 t2 s1 a r :
  follows (m s) t1 (s1, Ok a) → follows (f a s1) t2 r → follows ((m ≫= f) s) (t1 ++ t2) r.
Proof. intros Hm Hf. eapply follows_io_bind; [done|]. done. Qed.

Lemma follows_mbind_err {A B} (m : method E S Er A) (f : A → method E S Er B) s t1 s1 e :
  follows (m s) t1 (s1, Err e) → follows ((m ≫= f) s) t1 (s1, Err e).
Proof. intros Hm. rewrite <-(app_nil_r t1). eapply follows_io_bind; [done|]. done. Qed.

Lemma follows_mret {A} s (a : A) :
  follows (mret (M := method E S Er) a s) [] (s, Ok a).
Proof. done. Qed.

Lemma follows_gets {A} s (f : S → A) :
  follows (gets (Er := Er) f s) [] (s, Ok (f s)).
Proof. done. Qed.

Lemma follows_modify s (f : S → S) : follows (modify (Er := Er) f s) [] (f s, Ok tt).
Proof. done. Qed.

Lemma follows_fail {A e} `{!Into e Er} s (x : e) :
  follows (fail (A := A) x s) [] (s, Err (into x)).
Proof. done. Qed.

Lemma follows_question_Ok {A e} `{!Into e Er} s (r : result A e) a :
  r = Ok a → follows (question r s) [] (s, Ok a).
Proof. by intros ->. Qed.

Lemma follows_question_Err {A e} `{!Into e Er} s (r : result A e) x :
  r = Err x → follows (question r s) [] (s, Err (into x)).
Proof. by intros ->. Qed.

Lemma follows_await {A} (p : io E A) t a s :
  follows p t a → follows (await (Er := Er) p s) t (s, Ok a).
Proof. intros. rewrite <-(app_nil_r t). by eapply follows_io_bind. Qed.

Lemma follows_await_q {A e} `{!Into e Er} (p : io E (result A e)) t a s :
  follows p t (Ok a) → follows (await_q p s) t (s, Ok a).
Proof. intros. rewrite <-(app_nil_r t). by eapply follows_io_bind. Qed.

Lemma follows_attempt {A} (m : method E S Er A) t s s' r :
  follows (m s) t (s', r) → follows (attempt m s) t (s', Ok r).
Proof. intros. rewrite <-(app_nil_r t). by eapply follows_io_bind. Qed.

Lemma follows_convert {Er' A} `{!Into Er Er'} (m : method E S Er A) t s s' r :
  follows (m s) t (s', r) → follows (convert m s) t (s', result_map_err into r).
Proof. intros. rewrite <-(app_nil_r t). by eapply follows_io_bind. Qed.

Lemma follows_timed_Ok {A e e'} `{!Into e Er, !Into e' Er} d
    (p : io E (result A e)) (m : e') t a s :
  follows p t (Ok a) → follows (timed d p m s) t (s, Ok a).
Proof.
  intros Hp. unfold timed. rewrite <-(app_nil_r t).
  eapply follows_mbind; [by apply follows_await, follows_timeout|apply follows_mret].
Qed.

Lemma follows_timed_Err {A e e'} `{!Into e Er, !Into e' Er} d
    (p : io E (result A e)) (m : e') t x s :
  follows p t (Err x) → follows (timed d p m s) t (s, Err (into x)).
Proof.
  intros Hp. unfold timed. rewrite <-(app_nil_r t).
  eapply follows_mbind; [by apply follows_await, follows_timeout|apply follows_fail].
Qed.
End methods.

Create HintDb follows discriminated.
#[export] Hint Resolve follows_ret follows_write_all follows_flush follows_mret follows_gets
  follows_modify follows_fail follows_await
  follows_await_q follows_timed_Ok : follows.

(** Run the head of a chain of binds by the rule that fits it. *)
Ltac fstep := eapply follows_mbind; [solve [eauto with follows]|cbv beta iota].
Ltac fsteps := repeat fstep.
(** The same for a read of the bytes [bs], whose number [len_tac] checks. *)
Ltac fread bs len_tac :=
  eapply follows_mbind;
  [apply follows_timed_Ok;
   first [apply (follows_read_exact_or_closed _ _ bs)|apply (follows_read_exact _ _ bs)]; len_tac
  |cbv beta iota].
(** The same for a decoding step that the equation [lem] computes. *)
Ltac fdecode lem := eapply follows_mbind; [apply follows_question_Ok, lem|cbv beta iota].
Ltac fdecode_err lem :=
  eapply follows_res; [eapply follows_mbind_err, follows_question_Err, lem|reflexivity].
(** The same for a call with a specification [lem]. *)
Ltac fcall lem := eapply follows_mbind; [apply lem|cbv beta iota].
(** Prove [follows p t a] through a trace found by the rules. *)
Ltac fstart := eapply follows_eq.
Ltac ftrace := rewrite ?app_nil_r, ?app_nil_l, <-?(assoc_L (++)); done.
(** Close a chain, up to conversion of the final state. *)
Ltac fend :=
  eapply follows_res;
  [first [apply follows_mret|apply follows_modify|apply follows_fail|apply follows_gets]|reflexivity].

#[global] Arguments follows : simpl never.
