(* ===== verification/Transport.v ===== *)
(** The connection interface of the server framework ([src/src/transport.rs],
    [trait Transport]).

    [Transport T] is the operations; [TransportSpec T] is the contract its
    documentation states, as the byte-level protocol each operation follows.  The
    protocol handler is verified against the contract; [ServerTL] and [ServerTLS]
    implement it. *)
From S2P Require Import Prelude Errors ProtocolStructs Headers IO Method Duet.
From stdpp Require Import options.

Class Transport (T : Type) := {
  read_command : method netE T Error (option (N * N));
  receive_data : N → method netE T Error (list byte);
  send_response : byte → option (list byte) → method netE T Error unit;
  shutdown : method netE T Error unit;
}.

(** The response frame header: one byte without a payload slot ([None]), five
    bytes otherwise, even for an empty payload. *)
Definition response_frame (status : byte) (data : option (list byte)) : list byte :=
  ResponseHeader.wire
    (ResponseHeader.new status (match data with Some d => as_u32 (len d) | None => 0%N end))
    (match data with Some _ => false | None => true end).

Class TransportSpec (T : Type) `{Transport T} := {
  (** The largest request payload the transport accepts. *)
  limit : T → N;

  (** A request header is acknowledged with one status byte. *)
  read_command_request t h :
    RequestHeader.wf h → RequestHeader.command h ≠ 0%N →
    (RequestHeader.data_size h <= limit t)%N →
    ∃ t', limit t' = limit t ∧
      follows (read_command t) (view_server (says Client (RequestHeader.wire h) ++
                                             says Server [x01]))
        (t', Ok (Some (RequestHeader.command h, RequestHeader.data_size h)));

  (** A keep-alive ping is answered inside the transport. *)
  read_command_ping t :
    ∃ t', limit t' = limit t ∧
      follows (read_command t) (view_server
        (says Client (RequestHeader.wire (RequestHeader.new 0 0)) ++ says Server [x01]))
        (t', Ok None);

  (** A ping that announces a payload is a protocol violation. *)
  read_command_bad_ping t n :
    (0 < n < u32_modulus)%N → (n <= limit t)%N →
    ∃ t', limit t' = limit t ∧
      follows (read_command t) (view_server
        (says Client (RequestHeader.wire (RequestHeader.new 0 n)) ++ says Server [x07]))
        (t', Err (Protocol "Ping must have data_size=0"));

  (** An oversized request ends the call before anything is allocated or sent. *)
  read_command_oversized t h :
    RequestHeader.wf h → (limit t < RequestHeader.data_size h)%N →
    ∃ t', limit t' = limit t ∧
      follows (read_command t) (view_server (says Client (RequestHeader.wire h)))
        (t', Err (BufferOverflow (RequestHeader.data_size h) (limit t)));

  (** A peer that has closed its half between two requests is reported as such. *)
  read_command_closed t :
    ∃ t', limit t' = limit t ∧
      follows (read_command t) (view_server (closes Client)) (t', Err ConnectionClosed);

  receive_data_payload t bs :
    (len bs <= limit t)%N →
    ∃ t', limit t' = limit t ∧
      follows (receive_data (len bs) t) (view_server (says Client bs)) (t', Ok bs);

  (** A response is sent in two parts, the second one once the client has
      acknowledged the first. *)
  send_response_acked t status data :
    ∃ t', limit t' = limit t ∧
      follows (send_response status data t) (view_server
        (says Server (response_frame status data) ++ says Client [x01] ++
         says Server (default [] data)))
        (t', Ok tt);

  send_response_refused t status data ack :
    ack ≠ x01 →
    ∃ t', limit t' = limit t ∧
      follows (send_response status data t) (view_server
        (says Server (response_frame status data) ++ says Client [ack]))
        (t', Err (Msg "Receiving response status is not OK"));
}.
