(* ===== verification/ServerTL.v ===== *)
(** The plain TCP server connection ([src/src/server_tl.rs]). *)
From S2P Require Import Prelude Errors ProtocolStructs Vec Headers TimeoutConfig IO Method Common.
From S2P Require Import Duet Follows Transport.
From stdpp Require Import options.

Module ServerTL.

Record t := mk {
  reader : stream;
  writer : stream;
  buffer : Vec.t;
  max_buffer_size : N;
  timeout_config : TimeoutConfig.t;
}.

Definition with_buffer (f : Vec.t → Vec.t) (s : t) : t :=
  mk (reader s) (writer s) (f (buffer s)) (max_buffer_size s) (timeout_config s).

Definition new (reader writer : stream) : t :=
  mk reader writer (Vec.with_capacity DEFAULT_MAX_BUFFER_SIZE) DEFAULT_MAX_BUFFER_SIZE
    TimeoutConfig.default.

Definition set_max_buffer_size `{Allocator} (max_buffer_size : N) (s : t) : t * Result unit :=
  let limit := if (0 <? max_buffer_size)%N then max_buffer_size else DEFAULT_MAX_BUFFER_SIZE in
  let additional := saturating_sub limit (Vec.len (buffer s)) in
  match Vec.try_reserve additional (buffer s) with
  | (_, Err e) =>
    (s, Err (Config ("max_buffer_size " +:+ show limit
      +:+ " cannot be reserved on this system: " +:+ Vec.show_try_reserve_error e)))
  | (buffer, Ok _) =>
    (mk (reader s) (writer s) buffer limit (timeout_config s), Ok tt)
  end.

Definition set_timeout_config (c : TimeoutConfig.t) (s : t) : t :=
  mk (reader s) (writer s) (buffer s) (max_buffer_size s) c.

Definition send_response_header (status : byte) (data_size : N) (is_default : bool)
    (timeout : Duration) : method netE t Error unit :=
  modify (with_buffer Vec.clear);;
  let res_header := ResponseHeader.new status data_size in
  encoded ← gets (λ s, ResponseHeader.encode res_header (buffer s) is_default);
  buf ← question encoded;
  modify (with_buffer (λ _, buf));;
  s ← gets id;
  timed timeout (write_all (writer s) (Vec.data (buffer s))) "Sending response header timeout";;
  await_q (flush (writer s));;
  modify (with_buffer Vec.clear).

Definition receive_response_header (is_default : bool) :
    method netE t Error ResponseHeader.t :=
  let result_buf_len := ResponseHeader.encoded_len is_default true in
  modify (with_buffer (Vec.resize result_buf_len));;
  s ← gets id;
  bytes ← timed (TimeoutConfig.read_header (timeout_config s))
    (read_exact (reader s) (length (Vec.data (buffer s))))
    "Timeout waiting for response header";
  modify (with_buffer (Vec.overwrite bytes));;
  decoded ← gets (λ s,
    ResponseHeader.decode (Vec.data (buffer s)) is_default (max_buffer_size s));
  res_header ← question decoded;
  modify (with_buffer Vec.clear);;
  mret res_header.1.

Definition read_command : method netE t Error (option (N * N)) :=
  modify (with_buffer (Vec.resize RequestHeader.encoded_len));;
  s ← gets id;
  bytes ← timed (TimeoutConfig.read_header (timeout_config s))
    (read_exact_or_closed (reader s) (length (Vec.data (buffer s))))
    "Timeout waiting for request header";
  modify (with_buffer (Vec.overwrite bytes));;
  decoded ← gets (λ s, RequestHeader.decode (Vec.data (buffer s)) (max_buffer_size s));
  req_header ← question decoded;
  let req_header := req_header.1 in
  modify (with_buffer Vec.clear);;
  let data_size := RequestHeader.data_size req_header in
  if (RequestHeader.command req_header =? u32_of_command Ping)%N then
    if negb (data_size =? 0)%N then
      send_response_header x07 0 true (TimeoutConfig.ping_write (timeout_config s));;
      fail (Protocol "Ping must have data_size=0")
    else
      send_response_header x01 0 true (TimeoutConfig.ping_write (timeout_config s));;
      mret None
  else if (max_buffer_size s <? data_size)%N then
    send_response_header x07 0 true (TimeoutConfig.write (timeout_config s));;
    fail "Data size exceeds maximum allowed buffer size"
  else
    send_response_header x01 0 true (TimeoutConfig.write (timeout_config s));;
    mret (Some (RequestHeader.command req_header, RequestHeader.data_size req_header)).

(** A close before the first payload byte is still inside the frame. *)
Definition mid_frame (buf_size : N) (e : Error) : Error :=
  match e with
  | ConnectionClosed => ConnectionClosedMidFrame 0 buf_size
  | other => other
  end.

Definition receive_data (buf_size : N) : method netE t Error (list byte) :=
  s ← gets id;
  if (max_buffer_size s <? buf_size)%N then fail "Invalid data size"
  else
    modify (with_buffer (Vec.resize (N.to_nat buf_size)));;
    s ← gets id;
    r ← await (timeout (TimeoutConfig.read_data (timeout_config s))
                 (read_exact_or_closed (reader s) (length (Vec.data (buffer s)))));
    match r with
    | Some (Ok bytes) =>
      modify (with_buffer (Vec.overwrite bytes));;
      res ← gets (λ s, Vec.data (buffer s));
      modify (with_buffer Vec.clear);;
      mret res
    | Some (Err e) => fail (mid_frame buf_size e)
    | None => fail "Timeout waiting for data"
    end.

Definition send_data (status : byte) (buf : option (list byte)) : method netE t Error unit :=
  let data_size := match buf with Some buf => len buf | None => 0%N end in
  let is_default := match buf with None => true | Some _ => false end in
  s ← gets id;
  send_response_header status (as_u32 data_size) is_default
    (TimeoutConfig.write (timeout_config s));;
  res_header ← receive_response_header true;
  if negb (bool_decide (ResponseHeader.status res_header = x01)) then
    fail "Receiving response status is not OK"
  else
    match buf with
    | Some buf =>
      timed (TimeoutConfig.write (timeout_config s)) (write_all (writer s) buf)
        "Timeout sending data"
    | None => mret tt
    end;;
    await_q (flush (writer s));;
    modify (with_buffer Vec.clear).

(** [impl Transport for ServerTL]. *)
Definition transport_read_command : method netE t Error (option (N * N)) :=
  r ← read_command; mret (prod_map id as_u32 <$> r).

Definition transport_shutdown : method netE t Error unit :=
  s ← gets id; await_q (flush (writer s)).

#[global] Instance transport : Transport t := {|
  Transport.read_command := transport_read_command;
  Transport.receive_data := receive_data;
  Transport.send_response := send_data;
  Transport.shutdown := transport_shutdown;
|}.


(** * The byte-level behaviour of the operations *)

(** The buffer after a response header was sent from it. *)
Definition sent (status : byte) (size : N) (d : bool) (b : Vec.t) : Vec.t :=
  match ResponseHeader.encode (ResponseHeader.new status size) (Vec.clear b) d with
  | Ok b => Vec.clear b
  | Err _ => b
  end.

(** The buffer after a frame of [n] bytes was read into it. *)
Definition received (n : nat) (b : Vec.t) : Vec.t := Vec.clear (Vec.resize n b).

Lemma follows_send_response_header status size d timeout s :
  follows (send_response_header status size d timeout s)
    (outs (ResponseHeader.wire (ResponseHeader.new status size) d))
    (with_buffer (sent status size d) s, Ok tt).
Proof.
  destruct (ResponseHeader.response_encode_wire (ResponseHeader.new status size)
    (Vec.clear (buffer s)) d) as (b & He & Hd).
  replace (with_buffer (sent status size d) s) with (with_buffer (λ _, Vec.clear b) s)
    by (unfold with_buffer, sent; by rewrite He).
  unfold send_response_header. fstart.
  { fstep. fstep. fdecode He. fsteps. fend. }
  simpl. rewrite Hd. ftrace.
Qed.

Lemma follows_receive_response_header a s :
  follows (receive_response_header true s) (ins [a])
    (with_buffer (received 1) s, Ok (ResponseHeader.new a 0)).
Proof.
  unfold receive_response_header. fstart.
  { fsteps. fread [a] ltac:(symmetry; apply Vec.data_resize). fsteps.
    fdecode ResponseHeader.decode_default. fsteps. fend. }
  ftrace.
Qed.

Lemma decode_header h max :
  RequestHeader.wf h → (RequestHeader.data_size h <= max)%N →
  RequestHeader.decode (RequestHeader.wire h) max = Ok (h, []).
Proof.
  intros Hwf Hle. rewrite <-(app_nil_r (RequestHeader.wire h)).
  rewrite RequestHeader.request_decode_wire by done. breflect.
Qed.

Lemma decode_header_oversized h max :
  RequestHeader.wf h → (max < RequestHeader.data_size h)%N →
  RequestHeader.decode (RequestHeader.wire h) max =
    Err (BufferOverflow (RequestHeader.data_size h) max).
Proof.
  intros Hwf Hlt. rewrite <-(app_nil_r (RequestHeader.wire h)).
  rewrite RequestHeader.request_decode_wire by done. breflect.
Qed.

(** The read that opens [read_command]. *)
Ltac read_header h :=
  unfold read_command; fsteps;
  fread (RequestHeader.wire h) ltac:(symmetry; apply Vec.data_resize); fsteps.

(** The state after [read_command] has answered with a status byte. *)
Definition answered (status : byte) : t → t :=
  with_buffer (λ b, sent status 0 true (received 8 b)).

Lemma follows_read_command_request s h :
  RequestHeader.wf h → RequestHeader.command h ≠ 0%N →
  (RequestHeader.data_size h <= max_buffer_size s)%N →
  follows (read_command s) (ins (RequestHeader.wire h) ++ outs [x01])
    (answered x01 s, Ok (Some (RequestHeader.command h, RequestHeader.data_size h))).
Proof.
  intros Hwf Hc Hle. fstart.
  { read_header h. fdecode (decode_header h _ Hwf Hle). fsteps. simpl.
    destruct (N.eqb_spec (RequestHeader.command h) 0) as [?|_]; [done|].
    destruct (N.ltb_spec (max_buffer_size s) (RequestHeader.data_size h)); [lia|].
    fcall follows_send_response_header. fend. }
  ftrace.
Qed.

Lemma follows_read_command_ping s :
  follows (read_command s)
    (ins (RequestHeader.wire (RequestHeader.new 0 0)) ++ outs [x01])
    (answered x01 s, Ok None).
Proof.
  fstart.
  { read_header (RequestHeader.new 0 0). fdecode decode_header; [done|simpl; lia|].
    fsteps. cbn [fst RequestHeader.command RequestHeader.data_size u32_of_command negb N.eqb].
    fcall follows_send_response_header. fend. }
  ftrace.
Qed.

Lemma follows_read_command_bad_ping s n :
  (0 < n < u32_modulus)%N → (n <= max_buffer_size s)%N →
  follows (read_command s)
    (ins (RequestHeader.wire (RequestHeader.new 0 n)) ++ outs [x07])
    (answered x07 s, Err (Protocol "Ping must have data_size=0")).
Proof.
  intros Hn Hle. fstart.
  { read_header (RequestHeader.new 0 n).
    fdecode decode_header; [by split; simpl; lia|done|].
    fsteps. cbn [fst RequestHeader.command RequestHeader.data_size u32_of_command N.eqb].
    destruct (N.eqb_spec n 0); [lia|].
    fcall follows_send_response_header. fend. }
  ftrace.
Qed.

Lemma follows_read_command_oversized s h :
  RequestHeader.wf h → (max_buffer_size s < RequestHeader.data_size h)%N →
  follows (read_command s) (ins (RequestHeader.wire h))
    (with_buffer (λ b, Vec.overwrite (RequestHeader.wire h) (Vec.resize 8 b)) s,
     Err (BufferOverflow (RequestHeader.data_size h) (max_buffer_size s))).
Proof.
  intros Hwf Hlt. fstart.
  { read_header h. fdecode_err (decode_header_oversized h _ Hwf Hlt). }
  ftrace.
Qed.

Lemma follows_read_command_closed s :
  follows (read_command s) [In Eof]
    (with_buffer (Vec.resize 8) s, Err ConnectionClosed).
Proof.
  fstart.
  { unfold read_command. fsteps. eapply follows_res.
    - eapply follows_mbind_err. eapply follows_timed_Err, follows_read_closed.
      cbn [id]. unfold with_buffer. cbn [buffer].
      rewrite Vec.data_resize. unfold RequestHeader.encoded_len, RequestHeader.REQUEST_HEADER_SIZE. lia.
    - reflexivity. }
  ftrace.
Qed.

Lemma follows_receive_data s bs :
  (len bs <= max_buffer_size s)%N →
  follows (receive_data (len bs) s) (ins bs)
    (with_buffer (received (length bs)) s, Ok bs).
Proof.
  intros Hle. unfold receive_data. fstart.
  { fsteps. simpl. destruct (N.ltb_spec (max_buffer_size s) (len bs)); [lia|]. fsteps.
    eapply follows_mbind.
    { apply follows_await, follows_timeout, (follows_read_exact_or_closed _ _ bs).
      rewrite to_nat_len. symmetry; apply Vec.data_resize. }
    cbv beta iota. fsteps. rewrite to_nat_len. fend. }
  ftrace.
Qed.

(** The end of the stream instead of the payload. *)
Lemma follows_receive_data_closed s size :
  (0 < size <= max_buffer_size s)%N →
  ∃ g e, follows (receive_data size s) [In Eof] (with_buffer g s, Err e).
Proof.
  intros [Hpos Hle]. eexists _, _. unfold receive_data. fstart.
  { fsteps. simpl. destruct (N.ltb_spec (max_buffer_size s) size); [lia|]. fsteps.
    eapply follows_mbind.
    { apply follows_await, follows_timeout, follows_read_closed.
      pose proof (Vec.data_resize (N.to_nat size) (buffer s)) as Hl. cbn [id with_buffer buffer]. lia. }
    cbv beta iota. fend. }
  ftrace.
Qed.

Lemma follows_send_data_refused s status data ack :
  ack ≠ x01 →
  ∃ g, follows (send_data status data s) (outs (response_frame status data) ++ ins [ack])
    (with_buffer g s, Err (Msg "Receiving response status is not OK")).
Proof.
  intros Hack. eexists (λ b, received 1 (sent _ _ _ b)). fstart.
  { unfold send_data. fstep. fcall follows_send_response_header.
    fcall follows_receive_response_header. rewrite bool_decide_false by done. fend. }
  unfold response_frame. destruct data; ftrace.
Qed.

Lemma follows_send_data s status data :
  ∃ g, follows (send_data status data s)
    (outs (response_frame status data) ++ ins [x01] ++ outs (default [] data))
    (with_buffer g s, Ok tt).
Proof.
  exists (λ b, Vec.clear (received 1 (sent status
    (as_u32 match data with Some d => len d | None => 0 end)
    match data with Some _ => false | None => true end b))).
  destruct data as [data|]; fstart.
  1, 3: unfold send_data; fstep; fcall follows_send_response_header;
    fcall follows_receive_response_header; rewrite bool_decide_true by done; cbn [negb];
    fsteps; fend.
  all: unfold response_frame; ftrace.
Qed.

Lemma follows_transport_read s tr s' r :
  follows (read_command s) tr (s', r) →
  follows (transport_read_command s) tr (s', result_map (fmap (prod_map id as_u32)) r).
Proof.
  intros H. unfold transport_read_command. destruct r as [r|e].
  - rewrite <-(app_nil_r tr). eapply follows_mbind; [done|]. fend.
  - by apply follows_mbind_err.
Qed.

(** [ServerTL] keeps the contract of [Transport]. *)
Ltac read_command_case lem :=
  eexists; (split; [|autorewrite with views;
    eapply follows_res; [apply follows_transport_read, lem; done|
      simpl; rewrite ?as_u32_small by (done || lia); reflexivity]]); done.

#[global] Program Instance transport_spec : TransportSpec t := {|
  limit := max_buffer_size;
|}.
Next Obligation.
  intros s h [Hc Hd] Hc0 Hle. read_command_case (follows_read_command_request s h).
Qed.
Next Obligation. intros s. read_command_case (follows_read_command_ping s). Qed.
Next Obligation.
  intros s n Hn Hle. read_command_case (follows_read_command_bad_ping s n).
Qed.
Next Obligation.
  intros s h Hwf Hlt. read_command_case (follows_read_command_oversized s h).
Qed.
Next Obligation.
  intros s. eexists. split; [|by apply (follows_transport_read _ _ _ _ (follows_read_command_closed s))].
  done.
Qed.
Next Obligation.
  intros s bs Hle. eexists. split; [|autorewrite with views; by apply follows_receive_data]. done.
Qed.
Next Obligation.
  intros s status data. destruct (follows_send_data s status data) as (g & Hf).
  exists (with_buffer g s). by autorewrite with views.
Qed.
Next Obligation.
  intros s status data ack Hack.
  destruct (follows_send_data_refused s status data ack Hack) as (g & Hf).
  exists (with_buffer g s). by autorewrite with views.
Qed.

End ServerTL.
