(* ===== verification/Morphism.v ===== *)
(** Methods that do the same I/O on different state types.

    [morph view m m'] says that the tree of [m] is the tree of [m'] with the final
    state seen through [view]: the same events in the same order, the same
    deadlines and the same results.  The plain and the TLS variants of the
    transports are compared this way. *)
From S2P Require Import Prelude Errors TimeoutConfig IO Method Duet Follows.
From Stdlib Require Import FunctionalExtensionality.
From stdpp Require Import options.

Definition io_map {E A B} (f : A → B) (p : io E A) : io E B := io_bind p (λ a, Ret (f a)).

Lemma io_map_ret {E A B} (f : A → B) (a : A) : io_map (E := E) f (Ret a) = Ret (f a).
Proof. done. Qed.

Lemma io_bind_assoc {E A B C} (p : io E A) (f : A → io E B) (g : B → io E C) :
  io_bind (io_bind p f) g = io_bind p (λ a, io_bind (f a) g).
Proof.
  revert f g. induction p as [A a|A X e k IH|A D d q _ k IH]; intros f g; simpl; [done|..];
    f_equal; extensionality x; apply IH.
Qed.

Lemma io_bind_map {E A B C} (p : io E A) (f : A → B) (g : B → io E C) :
  io_bind (io_map f p) g = io_bind p (λ a, g (f a)).
Proof. unfold io_map. by rewrite io_bind_assoc. Qed.

Lemma acts_io_map {A B} (f : A → B) (p : io netE A) l t (Q : A → unit → Prop) Q' :
  (∀ a l', Q' (f a) l' → Q a l') → acts (io_map f p) l t Q' → acts p l t Q.
Proof.
  unfold io_map. intros HQ. revert l t Q HQ.
  induction p as [A a0|A X e k IH|A C d q _ k IH]; intros l t Q HQ; simpl.
  - intros [-> Ha]. auto.
  - destruct e; simpl.
    + intros (Hn & [(bs & t' & -> & Hl & Hk)|(t' & -> & Hk)]); (split; [done|]);
        [left; exists bs, t'|right; exists t']; eauto 10.
    + intros [(bs & t' & -> & Hl & Hk)|(bs & t' & -> & Hl & Hk)]; [left|right]; exists bs, t'; eauto.
    + intros (t' & -> & Hk). exists t'. eauto.
    + eauto.
    + intros (t' & -> & Hk). exists t'. eauto.
  - intros (t1 & t2 & -> & Hq). exists t1, t2. split; [done|].
    eapply acts_impl; [|exact Hq]. intros b l'. by apply IH.
Qed.

Lemma follows_io_map {A B} (f : A → B) (p : io netE A) t a :
  (∀ a', f a' = f a → a' = a) → follows (io_map f p) t (f a) → follows p t a.
Proof. intros Hinj. apply acts_io_map. intros a' _. apply Hinj. Qed.

Section morph.
Context {E : Type → Type} {S T Er : Type} (view : S → T).

Definition morph_at {A} (m : method E S Er A) (m' : method E T Er A) (s : S) : Prop :=
  io_map (prod_map view id) (m s) = m' (view s).

Definition morph {A} (m : method E S Er A) (m' : method E T Er A) : Prop :=
  ∀ s, morph_at m m' s.

Lemma morph_mret {A} (a : A) : morph (mret a) (mret a).
Proof using Type. done. Qed.

Lemma morph_fail {A e} `{!Into e Er} (x : e) : morph (A := A) (fail x) (fail x).
Proof using Type. done. Qed.

Lemma morph_question {A e} `{!Into e Er} (r : result A e) :
  morph (question r) (question r).
Proof using Type. done. Qed.

Lemma morph_gets {A} (f : S → A) (f' : T → A) :
  (∀ s, f s = f' (view s)) → morph (gets f) (gets f').
Proof using Type. intros Hf s. unfold morph_at, gets. by rewrite <-Hf. Qed.

Lemma morph_modify f f' :
  (∀ s, view (f s) = f' (view s)) → morph (modify f) (modify f').
Proof using Type. intros Hf s. unfold morph_at, modify. by rewrite <-Hf. Qed.

Lemma morph_await {A} (p : io E A) : morph (await p) (await p).
Proof using Type. intros s. unfold morph_at, await, io_map. simpl. by rewrite io_bind_assoc. Qed.

Lemma morph_await_q {A e} `{!Into e Er} (p : io E (result A e)) :
  morph (await_q p) (await_q p).
Proof using Type. intros s. unfold morph_at, await_q, io_map. simpl. by rewrite io_bind_assoc. Qed.

Lemma morph_bind_at {A B} (m : method E S Er A) m' (f : A → method E S Er B) f' s :
  morph_at m m' s → (∀ a, morph (f a) (f' a)) → morph_at (m ≫= f) (m' ≫= f') s.
Proof using Type.
  unfold morph, morph_at, mbind, method_mbind. intros <- Hf.
  unfold io_map. rewrite !io_bind_assoc. f_equal. extensionality sr.
  destruct sr as [s' [a|e]]; simpl; [apply Hf|done].
Qed.

Lemma morph_bind {A B} (m : method E S Er A) m' (f : A → method E S Er B) f' :
  morph m m' → (∀ a, morph (f a) (f' a)) → morph (m ≫= f) (m' ≫= f').
Proof using Type. intros Hm Hf s. apply morph_bind_at; [apply Hm|done]. Qed.

Lemma morph_at_of_morph {A} (m : method E S Er A) m' s : morph m m' → morph_at m m' s.
Proof using Type. intros Hm. apply Hm. Qed.

(** The local copy of [self] a method takes. *)
Lemma morph_self {B} (f : S → method E S Er B) f' :
  (∀ s, morph_at (f s) (f' (view s)) s) → morph (gets id ≫= f) (gets id ≫= f').
Proof using Type. intros Hf s. apply Hf. Qed.

Lemma morph_timed {A e e'} `{!Into e Er, !Into e' Er} d (p : io E (result A e)) (x : e') :
  morph (timed d p x) (timed d p x).
Proof using Type.
  apply morph_bind; [apply morph_await|]. intros [[a|err]|]; by intros s.
Qed.

Lemma morph_follows {A} `{!Inj (=) (=) view} (m : method netE S Er A) s s' t r (p : io netE _) :
  io_map (prod_map view id) (m s) = p → follows p t (view s', r) → follows (m s) t (s', r).
Proof using Type.
  intros <- Hf. apply (follows_io_map (prod_map view id)); [|done].
  intros [s0 r0] [= Hs ->]. apply (inj view) in Hs. by subst.
Qed.
End morph.

(** * The same I/O up to error values

    [alike view m m'] compares methods with different error types: the same events
    and deadlines, failure on the same occasions, and the same answers. *)

Definition forget {A Er} (r : result A Er) : option A :=
  match r with Ok a => Some a | Err _ => None end.

Section alike.
Context {E : Type → Type} {S T Er Er' : Type} (view : S → T).

Definition alike_at {A} (m : method E S Er A) (m' : method E T Er' A) (s : S) : Prop :=
  io_map (prod_map view forget) (m s) = io_map (prod_map id forget) (m' (view s)).

Definition alike {A} (m : method E S Er A) (m' : method E T Er' A) : Prop :=
  ∀ s, alike_at m m' s.

Lemma alike_mret {A} (a : A) : alike (mret a) (mret a).
Proof using Type. done. Qed.

Lemma alike_fail {A e e'} `{!Into e Er, !Into e' Er'} (x : e) (x' : e') :
  alike (A := A) (fail x) (fail x').
Proof using Type. done. Qed.

Lemma alike_question {A e} `{!Into e Er, !Into e Er'} (r : result A e) :
  alike (question r) (question r).
Proof using Type. intros s. by destruct r. Qed.

Lemma alike_gets {A} (f : S → A) (f' : T → A) :
  (∀ s, f s = f' (view s)) → alike (gets f) (gets f').
Proof using Type. intros Hf s. unfold alike_at, gets. by rewrite <-Hf. Qed.

Lemma alike_modify f f' :
  (∀ s, view (f s) = f' (view s)) → alike (modify f) (modify f').
Proof using Type. intros Hf s. unfold alike_at, modify, io_map. simpl. by rewrite <-Hf. Qed.

Lemma alike_await {A} (p : io E A) : alike (await p) (await p).
Proof using Type. intros s. unfold alike_at, await, io_map. simpl. by rewrite !io_bind_assoc. Qed.

Lemma alike_await_q {A e} `{!Into e Er, !Into e Er'} (p : io E (result A e)) :
  alike (await_q p) (await_q p).
Proof using Type.
  intros s. unfold alike_at, await_q, io_map. simpl. rewrite !io_bind_assoc.
  f_equal. extensionality r. by destruct r.
Qed.

(** How the rest of a method goes on from what is compared. *)
Definition resume {A B} (f : A → method E T Er' B) (r : T * option A) : io E (T * option B) :=
  match r.2 with
  | Some a => io_map (prod_map id forget) (f a r.1)
  | None => Ret (r.1, None)
  end.

Lemma alike_bind_at {A B} (m : method E S Er A) m' (f : A → method E S Er B) f' s :
  alike_at m m' s → (∀ a, alike (f a) (f' a)) → alike_at (m ≫= f) (m' ≫= f') s.
Proof using Type.
  unfold alike, alike_at, mbind, method_mbind. intros Hm Hf.
  trans (io_bind (io_map (prod_map view forget) (m s)) (resume f')).
  - unfold io_map. rewrite !io_bind_assoc. f_equal. extensionality sr.
    destruct sr as [s' [a|e]]; simpl; [apply Hf|done].
  - rewrite Hm. unfold io_map. rewrite !io_bind_assoc. f_equal. extensionality sr.
    by destruct sr as [s' [a|e]].
Qed.

Lemma alike_bind {A B} (m : method E S Er A) m' (f : A → method E S Er B) f' :
  alike m m' → (∀ a, alike (f a) (f' a)) → alike (m ≫= f) (m' ≫= f').
Proof using Type. intros Hm Hf s. apply alike_bind_at; [apply Hm|done]. Qed.

Lemma alike_self {B} (f : S → method E S Er B) f' :
  (∀ s, alike_at (f s) (f' (view s)) s) → alike (gets id ≫= f) (gets id ≫= f').
Proof using Type. intros Hf s. apply Hf. Qed.

Lemma alike_timed {A e e1 e2} `{!Into e Er, !Into e Er', !Into e1 Er, !Into e2 Er'} d
    (p : io E (result A e)) (x : e1) (x' : e2) : alike (timed d p x) (timed d p x').
Proof using Type.
  apply alike_bind; [apply alike_await|]. intros [[a|err]|]; by intros s.
Qed.

Lemma alike_convert {A Er1} `{!Into Er1 Er} (m : method E S Er1 A) (m' : method E T Er' A) s :
  io_map (prod_map view forget) (m s) = io_map (prod_map id forget) (m' (view s)) →
  alike_at (convert m) m' s.
Proof using Type.
  unfold alike_at, convert. intros <-. unfold io_map. rewrite !io_bind_assoc.
  f_equal. extensionality sr. by destruct sr as [s' [a|e]].
Qed.

(** A successful protocol of one is a successful protocol of the other. *)
Lemma alike_follows {A} `{!Inj (=) (=) view} (m : method netE S Er A) (m' : method netE T Er' A)
    s s' t (a : A) :
  io_map (prod_map view forget) (m s) = io_map (prod_map id forget) (m' (view s)) →
  follows (io_map (prod_map id forget) (m' (view s))) t (view s', Some a) →
  follows (m s) t (s', Ok a).
Proof using Type.
  intros <- Hf. apply (follows_io_map (prod_map view forget)); [|done].
  intros [s0 [a0|e0]] [=]; subst. f_equal. by apply (inj view).
Qed.
End alike.

Lemma alike_zoom {E S T V Er Er' A} (view : S → T) (get : S → V) put (get' : T → V) put'
    (m : method E V Er A) (m' : method E V Er' A) s :
  get s = get' (view s) → (∀ v, view (put v s) = put' v (view s)) →
  alike_at id m m' (get s) → alike_at view (zoom get put m) (zoom get' put' m') s.
Proof.
  unfold alike_at, zoom. intros Hg Hp Hm. rewrite <-Hg.
  unfold io_map in *. rewrite !io_bind_assoc.
  set (K := λ r : V * option A, Ret (E := E) (put' r.1 (view s), r.2)).
  apply (f_equal (λ p, io_bind p K)) in Hm. rewrite !io_bind_assoc in Hm.
  etrans; [|etrans; [exact Hm|]]; f_equal; extensionality sr; destruct sr as [v r]; simpl;
    unfold K; simpl; by rewrite ?Hp.
Qed.

Lemma follows_map {A B} (f : A → B) (p : io netE A) t a :
  follows p t a → follows (io_map f p) t (f a).
Proof. intros Hp. rewrite <-(app_nil_r t). by eapply follows_io_bind. Qed.

(** * Invariants through a view *)

Lemma io_post_map {E A B} (f : A → B) (p : io E A) (Q : B → Prop) :
  io_post (io_map f p) Q ↔ io_post p (λ a, Q (f a)).
Proof.
  unfold io_map. revert f Q. induction p as [A a|A X e k IH|A C d q _ k IH]; intros f Q; simpl;
    [done| |].
  - split; intros H x; by apply IH, H.
  - rewrite IH. apply and_iff_compat_l. split; apply io_post_impl; intros b; apply IH.
Qed.

Lemma keeps_morph {E S T Er A} (view : S → T) (m : method E S Er A) m' (I : T → Prop) Q :
  morph view m m' → keeps I m' Q → keeps (λ s, I (view s)) m Q.
Proof.
  intros Hm Hk s Hs. pose proof (Hk _ Hs) as H. rewrite <-(Hm s) in H.
  by apply io_post_map in H.
Qed.

Lemma keeps_alike {E S T Er Er' A} (view : S → T) (m : method E S Er A)
    (m' : method E T Er' A) (I : T → Prop) Q :
  alike view m m' → keeps I m' Q → keeps (λ s, I (view s)) m Q.
Proof.
  intros Hm Hk s Hs. pose proof (Hk _ Hs) as H.
  assert (io_post (io_map (prod_map id forget) (m' (view s)))
    (λ r, I r.1 ∧ ∀ a, r.2 = Some a → Q a)) as H'.
  { apply io_post_map. eapply io_post_impl; [|exact H]. intros [t [a|e]] [HI HQ]; simpl in *;
      (split; [done|]); intros ? [=]; subst; by apply HQ. }
  rewrite <-(Hm s) in H'. apply io_post_map in H'.
  eapply io_post_impl; [|exact H']. intros [t r] [HI HQ]; simpl in *. split; [done|].
  intros a ->. by apply HQ.
Qed.

Create HintDb morph discriminated.
#[export] Hint Resolve morph_mret morph_fail morph_question morph_await morph_await_q
  morph_timed : morph.
