(* ===== verification/ServerTLS.v ===== *)
(** The TLS server connection ([src/src/server_tls.rs]).

    The handshake is the caller's; a [ServerTLS] works over the resulting stream.
    Every operation is shown to do the I/O of its [ServerTL] counterpart
    ([morph]), so the contract of [Transport] carries over. *)
From S2P Require Import Prelude Errors ProtocolStructs Vec Headers TimeoutConfig IO Method Common.
From S2P Require Import Duet Follows Transport ServerTL Morphism.
From stdpp Require Import options.

Module ServerTLS.

Record t := mk {
  tls_stream : stream;
  buffer : Vec.t;
  max_buffer_size : N;
  timeout_config : TimeoutConfig.t;
}.

Definition with_buffer (f : Vec.t → Vec.t) (s : t) : t :=
  mk (tls_stream s) (f (buffer s)) (max_buffer_size s) (timeout_config s).

Definition new (tls_stream : stream) : t :=
  mk tls_stream (Vec.with_capacity DEFAULT_MAX_BUFFER_SIZE) DEFAULT_MAX_BUFFER_SIZE
    TimeoutConfig.default.

Definition set_max_buffer_size `{Allocator} (max_buffer_size : N) (s : t) : t * Result unit :=
  let limit := if (0 <? max_buffer_size)%N then max_buffer_size else DEFAULT_MAX_BUFFER_SIZE in
  let additional := saturating_sub limit (Vec.len (buffer s)) in
  match Vec.try_reserve additional (buffer s) with
  | (_, Err e) =>
    (s, Err (Config ("max_buffer_size " +:+ show limit
      +:+ " cannot be reserved on this system: " +:+ Vec.show_try_reserve_error e)))
  | (buffer, Ok _) =>
    (mk (tls_stream s) buffer limit (timeout_config s), Ok tt)
  end.

Definition set_timeout_config (c : TimeoutConfig.t) (s : t) : t :=
  mk (tls_stream s) (buffer s) (max_buffer_size s) c.

Definition send_response_header (status : byte) (data_size : N) (is_default : bool)
    (timeout : Duration) : method netE t Error unit :=
  modify (with_buffer Vec.clear);;
  let res_header := ResponseHeader.new status data_size in
  encoded ← gets (λ s, ResponseHeader.encode res_header (buffer s) is_default);
  buf ← question encoded;
  modify (with_buffer (λ _, buf));;
  s ← gets id;
  timed timeout (write_all (tls_stream s) (Vec.data (buffer s))) "Sending response header timeout";;
  await_q (flush (tls_stream s));;
  modify (with_buffer Vec.clear).

Definition receive_response_header (is_default : bool) :
    method netE t Error ResponseHeader.t :=
  let result_buf_len := ResponseHeader.encoded_len is_default true in
  modify (with_buffer (Vec.resize result_buf_len));;
  s ← gets id;
  bytes ← timed (TimeoutConfig.read_header (timeout_config s))
    (read_exact (tls_stream s) (length (Vec.data (buffer s))))
    "Timeout waiting for response header";
  modify (with_buffer (Vec.overwrite bytes));;
  decoded ← gets (λ s,
    ResponseHeader.decode (Vec.data (buffer s)) is_default (max_buffer_size s));
  res_header ← question decoded;
  modify (with_buffer Vec.clear);;
  mret res_header.1.

Definition read_command : method netE t Error (option (N * N)) :=
  modify (with_buffer (Vec.resize RequestHeader.encoded_len));;
  s ← gets id;
  bytes ← timed (TimeoutConfig.read_header (timeout_config s))
    (read_exact_or_closed (tls_stream s) (length (Vec.data (buffer s))))
    "Timeout waiting for request header";
  modify (with_buffer (Vec.overwrite bytes));;
  decoded ← gets (λ s, RequestHeader.decode (Vec.data (buffer s)) (max_buffer_size s));
  req_header ← question decoded;
  let req_header := req_header.1 in
  modify (with_buffer Vec.clear);;
  let data_size := RequestHeader.data_size req_header in
  if (RequestHeader.command req_header =? u32_of_command Ping)%N then
    if negb (data_size =? 0)%N then
      send_response_header x07 0 true (TimeoutConfig.ping_write (timeout_config s));;
      fail (Protocol "Ping must have data_size=0")
    else
      send_response_header x01 0 true (TimeoutConfig.ping_write (timeout_config s));;
      mret None
  else if (max_buffer_size s <? data_size)%N then
    send_response_header x07 0 true (TimeoutConfig.write (timeout_config s));;
    fail "Data size exceeds maximum allowed buffer size"
  else
    send_response_header x01 0 true (TimeoutConfig.write (timeout_config s));;
    mret (Some (RequestHeader.command req_header, RequestHeader.data_size req_header)).

(** A close before the first payload byte is still inside the frame. *)
Definition mid_frame (buf_size : N) (e : Error) : Error :=
  match e with
  | ConnectionClosed => ConnectionClosedMidFrame 0 buf_size
  | other => other
  end.

Definition receive_data (buf_size : N) : method netE t Error (list byte) :=
  s ← gets id;
  if (max_buffer_size s <? buf_size)%N then fail "Invalid data size"
  else
    modify (with_buffer (Vec.resize (N.to_nat buf_size)));;
    s ← gets id;
    r ← await (timeout (TimeoutConfig.read_data (timeout_config s))
                 (read_exact_or_closed (tls_stream s) (length (Vec.data (buffer s)))));
    match r with
    | Some (Ok bytes) =>
      modify (with_buffer (Vec.overwrite bytes));;
      res ← gets (λ s, Vec.data (buffer s));
      modify (with_buffer Vec.clear);;
      mret res
    | Some (Err e) => fail (mid_frame buf_size e)
    | None => fail "Timeout waiting for data"
    end.

Definition send_data (status : byte) (buf : option (list byte)) : method netE t Error unit :=
  let data_size := match buf with Some buf => len buf | None => 0%N end in
  let is_default := match buf with None => true | Some _ => false end in
  s ← gets id;
  send_response_header status (as_u32 data_size) is_default
    (TimeoutConfig.write (timeout_config s));;
  res_header ← receive_response_header true;
  if negb (bool_decide (ResponseHeader.status res_header = x01)) then
    fail "Receiving response status is not OK"
  else
    match buf with
    | Some buf =>
      timed (TimeoutConfig.write (timeout_config s)) (write_all (tls_stream s) buf)
        "Timeout sending data"
    | None => mret tt
    end;;
    await_q (flush (tls_stream s));;
    modify (with_buffer Vec.clear).

(** [impl Transport for ServerTLS]. *)
Definition transport_read_command : method netE t Error (option (N * N)) :=
  r ← read_command; mret (prod_map id as_u32 <$> r).

Definition transport_shutdown : method netE t Error unit :=
  s ← gets id; await_q (flush (tls_stream s)).

(** * The TCP connection over the same stream *)

Definition as_tl (s : t) : ServerTL.t :=
  ServerTL.mk (tls_stream s) (tls_stream s) (buffer s) (max_buffer_size s) (timeout_config s).

#[export] Instance as_tl_inj : Inj (=) (=) as_tl.
Proof. intros [] [] [=]. by subst. Qed.

Abbreviation same_io m m' := (morph as_tl m m').

(** Show the fields of [as_tl s] as those of [s]. *)
Ltac view_fields :=
  repeat match goal with
  | |- context [ServerTL.max_buffer_size (as_tl ?s)] =>
    change (ServerTL.max_buffer_size (as_tl s)) with (max_buffer_size s)
  end.

(** Follow two methods of the same shape in step. *)
Ltac same_step :=
  first
    [ solve [auto with morph] | apply morph_mret | apply morph_fail | apply morph_question | apply morph_await
    | apply morph_await_q | apply morph_timed
    | apply morph_modify; done | apply morph_gets; done
    | apply morph_self; intros; cbv zeta; view_fields
    | apply morph_bind; [|intros; cbv zeta]
    | apply morph_bind_at; [|intros; cbv zeta]
    | match goal with |- morph_at _ _ _ _ => apply morph_at_of_morph end
    | case_match ].
Ltac same_body := repeat (same_step || assumption).

Lemma send_response_header_same status size d timeout :
  same_io (send_response_header status size d timeout)
    (ServerTL.send_response_header status size d timeout).
Proof. unfold send_response_header, ServerTL.send_response_header. same_body. Qed.
#[local] Hint Resolve send_response_header_same : morph.

Lemma receive_response_header_same d :
  same_io (receive_response_header d) (ServerTL.receive_response_header d).
Proof. unfold receive_response_header, ServerTL.receive_response_header. same_body. Qed.

#[local] Hint Resolve receive_response_header_same : morph.

Lemma read_command_same : same_io read_command ServerTL.read_command.
Proof. unfold read_command, ServerTL.read_command. same_body. Qed.

Lemma receive_data_same n : same_io (receive_data n) (ServerTL.receive_data n).
Proof. unfold receive_data, ServerTL.receive_data. same_body. Qed.

Lemma send_data_same status buf : same_io (send_data status buf) (ServerTL.send_data status buf).
Proof. unfold send_data, ServerTL.send_data. same_body. Qed.

Lemma transport_read_command_same :
  same_io transport_read_command ServerTL.transport_read_command.
Proof.
  unfold transport_read_command, ServerTL.transport_read_command.
  apply morph_bind; [apply read_command_same|]. intros r. apply morph_mret.
Qed.

Lemma transport_shutdown_same : same_io transport_shutdown ServerTL.transport_shutdown.
Proof. unfold transport_shutdown, ServerTL.transport_shutdown. same_body. Qed.

(** A protocol of the TCP connection is one of the TLS connection. *)
Lemma same_follows {A} (m : method netE t Error A) m' s g tr r :
  same_io m m' → follows (m' (as_tl s)) tr (ServerTL.with_buffer g (as_tl s), r) →
  follows (m s) tr (with_buffer g s, r).
Proof. intros Hm Hf. eapply (morph_follows as_tl); [apply Hm|done]. Qed.

(** [ServerTLS] keeps the contract of [Transport]. *)
#[global] Instance transport : Transport t := {|
  Transport.read_command := transport_read_command;
  Transport.receive_data := receive_data;
  Transport.send_response := send_data;
  Transport.shutdown := transport_shutdown;
|}.

Ltac tls_case same lem :=
  eexists; (split; [|autorewrite with views; eapply same_follows; [apply same|];
    eapply follows_res; [apply ServerTL.follows_transport_read, lem; done|
      simpl; rewrite ?as_u32_small by (done || lia); reflexivity]]); done.

#[global] Program Instance transport_spec : TransportSpec t := {|
  limit := max_buffer_size;
|}.
Next Obligation.
  intros s h [Hc Hd] Hc0 Hle.
  tls_case transport_read_command_same (ServerTL.follows_read_command_request (as_tl s) h).
Qed.
Next Obligation.
  intros s. tls_case transport_read_command_same (ServerTL.follows_read_command_ping (as_tl s)).
Qed.
Next Obligation.
  intros s n Hn Hle.
  tls_case transport_read_command_same (ServerTL.follows_read_command_bad_ping (as_tl s) n).
Qed.
Next Obligation.
  intros s h Hwf Hlt.
  tls_case transport_read_command_same (ServerTL.follows_read_command_oversized (as_tl s) h).
Qed.
Next Obligation.
  intros s. eexists. split; [|eapply same_follows; [apply transport_read_command_same|
    by apply (ServerTL.follows_transport_read _ _ _ _ (ServerTL.follows_read_command_closed (as_tl s)))]].
  done.
Qed.
Next Obligation.
  intros s bs Hle. exists (with_buffer (ServerTL.received (length bs)) s). split; [done|].
  autorewrite with views.
  by eapply same_follows, ServerTL.follows_receive_data; [apply receive_data_same|].
Qed.
Next Obligation.
  intros s status data. destruct (ServerTL.follows_send_data (as_tl s) status data) as (g & Hf).
  exists (with_buffer g s). autorewrite with views. split; [done|].
  eapply same_follows; [apply send_data_same|done].
Qed.
Next Obligation.
  intros s status data ack Hack.
  destruct (ServerTL.follows_send_data_refused (as_tl s) status data ack Hack) as (g & Hf).
  exists (with_buffer g s). autorewrite with views. split; [done|].
  eapply same_follows; [apply send_data_same|done].
Qed.

End ServerTLS.
