(* ===== verification/ProtocolHandler.v ===== *)
(** The request-response loop body of the server framework
    ([src/src/protocol_handler.rs]) over any [Transport], with the user's command
    handler ([src/src/protocol_command_handler.rs]) as an interface.

    The theorems use only the contract [TransportSpec], so they hold for the TCP
    and for the TLS connection. *)
From S2P Require Import Prelude Errors ProtocolStructs Headers IO Method Common Duet Follows.
From S2P Require Import Transport.
From stdpp Require Import options.

(** [trait ProtocolCommandHandler]: the user's [run], an [async] function of its
    private state, the command and the payload that may await events [U]; a handler
    that awaits nothing has [U = voidE]. *)
Class ProtocolCommandHandler (U : Type → Type) (H : Type) := {
  run : H → N → list byte → io U (H * Result (ResponseStatus * list byte));
}.
#[export] Hint Mode ProtocolCommandHandler - ! : typeclass_instances.

Module ProtocolHandler.

Record t (T H : Type) := new { transport : T; command_handler : H }.
Arguments new {_ _} _ _.
Arguments transport {_ _} _.
Arguments command_handler {_ _} _.

Section handler.
Context {E U : Type → Type} {T H : Type} `{Transport T} `{ProtocolCommandHandler U H}.
Context `{!netE -< E, !U -< E}.

(** A call on [self.transport]. *)
Definition on_transport {A} (m : method netE T Error A) : method E (t T H) Error A :=
  zoom transport (λ tr p, new tr (command_handler p)) (λ tr, lift (m tr)).

(** [self.command_handler.run(command, data).await], its result as a value. *)
Definition on_handler (command : N) (data : list byte) :
    method E (t T H) Error (Result (ResponseStatus * list byte)) := λ p,
  r ← lift (run (command_handler p) command data);
  Ret (new (transport p) r.1, Ok r.2).

Definition handle_next : method E (t T H) Error bool :=
  info ← on_transport read_command;
  match info with
  | None => mret true
  | Some (command, data_size) =>
    data ← on_transport (receive_data data_size);
    r ← on_handler command data;
    match r with
    | Ok (status, response_data) =>
      on_transport (send_response (u8_of_status status) (Some response_data));;
      if bool_decide (status = Finish) then mret false else mret true
    | Err _ =>
      attempt (on_transport (send_response (u8_of_status StatusError) (Some [])));;
      mret true
    end
  end.

End handler.

(** * What a request is answered with *)

(** The status and the payload the client is sent for the handler's result. *)
Definition reply_status (r : Result (ResponseStatus * list byte)) : byte :=
  match r with Ok (status, _) => u8_of_status status | Err _ => u8_of_status StatusError end.
Definition reply_payload (r : Result (ResponseStatus * list byte)) : list byte :=
  match r with Ok (_, payload) => payload | Err _ => [] end.
(** Whether the session goes on. *)
Definition keeps_open (r : Result (ResponseStatus * list byte)) : bool :=
  match r with Ok (status, _) => negb (bool_decide (status = Finish)) | Err _ => true end.

(** The dialogue of one request: header, acknowledgement, payload; response
    header, acknowledgement, payload. *)
Definition request_dialogue (h : RequestHeader.t) (data : list byte)
    (r : Result (ResponseStatus * list byte)) : dialogue :=
  says Client (RequestHeader.wire h) ++ says Server [x01] ++ says Client data ++
  says Server (response_frame (reply_status r) (Some (reply_payload r))) ++
  says Client [x01] ++ says Server (reply_payload r).

Section wire.
Context {E U : Type → Type} {T H : Type} `{TransportSpec T} `{ProtocolCommandHandler U H}.
Context `{!netE -< E, !U -< E, !Party E unit, !OnWire E unit, !Quiet U E unit}.
Implicit Types (tr : T) (hd : H).

Abbreviation on_transport := (on_transport (E := E)).
Abbreviation on_handler := (on_handler (E := E)).
Abbreviation handle_next := (handle_next (E := E)).

Lemma follows_on_transport {A} (m : method netE T Error A) tr hd g t' r :
  follows (m tr) g (t', r) →
  follows (on_transport m (new tr hd)) g (new t' hd, r).
Proof using Type*.
  intros Hm. unfold ProtocolHandler.on_transport, zoom. rewrite <-(app_nil_r g).
  eapply follows_io_bind; [by apply follows_lift|]. done.
Qed.

(** A handler that answers in the end. *)
Lemma follows_on_handler command data tr hd hd' r :
  answers (run hd command data) (hd', r) →
  follows (on_handler command data (new tr hd)) [] (new tr hd', Ok r).
Proof using Type*.
  intros Hrun. unfold ProtocolHandler.on_handler.
  eapply (follows_bind _ _ [] []); [by apply follows_answers|done].
Qed.

(** One request is read, handled once by the user's handler and answered. *)
Lemma follows_handle_next tr hd h data hd' r :
  RequestHeader.wf h → RequestHeader.command h ≠ 0%N →
  RequestHeader.data_size h = len data → (len data <= limit tr)%N →
  answers (run hd (RequestHeader.command h) data) (hd', r) →
  ∃ tr', limit tr' = limit tr ∧
  follows (handle_next (new tr hd)) (view_server (request_dialogue h data r))
    (new tr' hd', Ok (keeps_open r)).
Proof using Type*.
  intros Hwf Hc Hsize Hlim Hrun.
  destruct (read_command_request tr h) as (t1 & Hl1 & Hf1); [done|done|by rewrite Hsize|].
  destruct (receive_data_payload t1 data) as (t2 & Hl2 & Hf2); [by rewrite Hl1|].
  destruct (send_response_acked t2 (reply_status r) (Some (reply_payload r)))
    as (t3 & Hl3 & Hf3).
  exists t3. split; [congruence|].
  unfold request_dialogue, ProtocolHandler.handle_next. fstart.
  { eapply follows_mbind; [by apply follows_on_transport|]. cbv beta iota. rewrite Hsize.
    eapply follows_mbind; [by apply follows_on_transport|].
    eapply follows_mbind; [by apply follows_on_handler|]. cbv beta iota.
    instantiate (1 := view_server (says Server (response_frame (reply_status r)
      (Some (reply_payload r))) ++ says Client [x01] ++ says Server (reply_payload r)) ++ []).
    destruct r as [[status payload]|e].
    - eapply follows_mbind; [by apply follows_on_transport|].
      cbn [keeps_open]. case_bool_decide; fend.
    - eapply follows_mbind; [by eapply follows_attempt, follows_on_transport|]. fend. }
  autorewrite with views. rewrite app_nil_r, <-!(assoc_L (++)). done.
Qed.

(** Pings never reach the handler and keep the session open. *)
Lemma follows_handle_next_ping tr hd :
  ∃ tr', limit tr' = limit tr ∧
  follows (handle_next (new tr hd))
    (view_server (says Client (RequestHeader.wire (RequestHeader.new 0 0)) ++
                  says Server [x01]))
    (new tr' hd, Ok true).
Proof using Type*.
  destruct (read_command_ping tr) as (t1 & Hl1 & Hf1). exists t1. split; [done|].
  unfold ProtocolHandler.handle_next. fstart.
  { eapply follows_mbind; [by apply follows_on_transport|]. fend. }
  ftrace.
Qed.

(** A failed [read_command] ends the call and the handler is not run. *)
Lemma follows_handle_next_fails tr hd g tr' e :
  follows (read_command tr) g (tr', Err e) →
  follows (handle_next (new tr hd)) g (new tr' hd, Err e).
Proof using Type*. intros Hf. by apply follows_mbind_err, follows_on_transport. Qed.
End wire.

End ProtocolHandler.
