(* ===== verification/Ping.v ===== *)
(** Keep-alive pings ([src/src/ping.rs]): the state a client shares with its
    background task, the two halves of a ping on the wire and the body of the
    task's loop.

    The shared state is a set of cells, one per [Arc<Mutex<..>>] of the code.  The
    programs lock, read, assign and unlock them by events, a guard's drop being an
    explicit [Unlock] where the code's scope ends, so the points at which another
    task can run are those of the code. *)
From S2P Require Import Prelude Errors ProtocolStructs Vec Headers TimeoutConfig IO Method Common.
From stdpp Require Import options.

Definition PING_CHECK_DIVISOR : N := 4.
Definition MIN_PING_CHECK_INTERVAL : Duration := from_millis 100.
Definition PING_OLD_FORMAT_READ_TIMEOUT : Duration := from_millis 10.

Module PingConfig.
Record t := mk { interval : Duration; enabled : bool }.
Definition default : t := mk DEFAULT_PING_INTERVAL true.
End PingConfig.

(** A [JoinHandle]. *)
Abbreviation task_id := N (only parsing).

(** The fields of [PingState], and the [stream] a client shares with the task. *)
Inductive cell : Type → Type :=
| CStream : cell (option stream)
| CLastActivity : cell Instant
| CInFlight : cell unit
| CTaskHandle : cell (option task_id)
| CShouldStop : cell bool
| CConfig : cell PingConfig.t
| CTimeoutConfig : cell TimeoutConfig.t.

Inductive lockE : Type → Type :=
(** [c.lock().await]: wait for the mutex; the answer is its contents. *)
| Lock {T} (c : cell T) : lockE T
(** [c.try_lock()]. *)
| TryLock {T} (c : cell T) : lockE (option T)
(** [*guard = v]. *)
| Put {T} (c : cell T) (v : T) : lockE unit
(** Drop of the guard. *)
| Unlock {T} (c : cell T) : lockE unit.

Inductive taskE : Type → Type :=
(** [tokio::spawn] of the ping loop. *)
| Spawn : taskE task_id
(** [handle.abort()]. *)
| Abort (t : task_id) : taskE unit.

(** Connection set-up: [TcpStream::connect], the [socket2] options, and the TLS
    connector with its handshake. *)
Inductive connE : Type → Type :=
| TcpConnect (address : string) : connE (result stream io_error)
| SetTcpKeepalive (s : stream) (time interval : Duration) : connE (result unit io_error)
| SetKeepalive (s : stream) (on : bool) : connE (result unit io_error)
| TlsBuild (accept_invalid_certs : bool) : connE (result unit tls_error)
| TlsConnect (domain : string) (s : stream) : connE (result stream tls_error).

(** What the outside world answers, and everything a client does. *)
Abbreviation osE := (netE +' clockE +' taskE +' connE).
Abbreviation clientE := (lockE +' osE).

Definition lock {T} (c : cell T) : io clientE T := trigger (Lock c).
Definition try_lock {T} (c : cell T) : io clientE (option T) := trigger (TryLock c).
Definition put {T} (c : cell T) (v : T) : io clientE unit := trigger (Put c v).
Definition unlock {T} (c : cell T) : io clientE unit := trigger (Unlock c).
Definition sleep (d : Duration) : io clientE unit := trigger (Sleep d).
Definition now : io clientE Instant := trigger Now.

(** [*c.lock().await] with the guard dropped at the end of the expression. *)
Definition load {T} (c : cell T) : io clientE T :=
  v ← lock c; unlock c;; mret v.
(** [*c.lock().await = v]. *)
Definition store {T} (c : cell T) (v : T) : io clientE unit :=
  lock c;; put c v;; unlock c.

Module PingState.

(** [touch_activity]. *)
Definition touch_activity : io clientE unit :=
  lock CLastActivity;; t ← now; put CLastActivity t;; unlock CLastActivity.

(** [Instant::elapsed] saturates at zero. *)
Definition elapsed_since_activity : io clientE Duration :=
  last ← lock CLastActivity; t ← now; unlock CLastActivity;; mret (saturating_sub t last).

Definition interval : io clientE Duration := PingConfig.interval <$> load CConfig.
Definition is_enabled : io clientE bool := PingConfig.enabled <$> load CConfig.

Definition acquire_in_flight : io clientE unit := lock CInFlight.
Definition try_acquire_in_flight_for_ping : io clientE (option unit) := try_lock CInFlight.

Definition set_should_stop (val : bool) : io clientE unit := store CShouldStop val.

Definition take_task_handle : io clientE (option task_id) :=
  h ← lock CTaskHandle; put CTaskHandle None;; unlock CTaskHandle;; mret h.

(** [start_ping_task]; the spawned task repeats [iteration]. *)
Definition start_ping_task : io clientE unit :=
  enabled ← is_enabled;
  if negb enabled then mret tt
  else
    store CShouldStop false;;
    handle ← trigger Spawn;
    lock CTaskHandle;; put CTaskHandle (Some handle);; unlock CTaskHandle.

(** [stop_ping_task]: neither lock is waited for. *)
Definition stop_ping_task : io clientE unit :=
  should_stop ← try_lock CShouldStop;
  match should_stop with
  | Some _ => put CShouldStop true;; unlock CShouldStop
  | None => mret tt
  end;;
  task_handle ← try_lock CTaskHandle;
  match task_handle with
  | Some h =>
    put CTaskHandle None;;
    match h with Some handle => trigger (Abort handle) | None => mret tt end;;
    unlock CTaskHandle
  | None => mret tt
  end.

End PingState.

(** * The ping on the wire *)

Section wire.
Context {E : Type → Type} `{!netE -< E}.

Definition send_ping_request_impl (writer : stream) : io E (Result unit) :=
  let request_header := RequestHeader.new (u32_of_command Ping) 0 in
  match RequestHeader.encode request_header
          (Vec.with_capacity (N.of_nat RequestHeader.encoded_len)) with
  | Err e => mret (Err e)
  | Ok buf =>
    r ← write_all writer (Vec.data buf);
    match r with
    | Err e => mret (Err (into e))
    | Ok _ => r ← flush writer; mret (result_map_err into r)
    end
  end.

(** One status byte, then, for servers of the old format, four more bytes that
    may come within 10 ms. *)
Definition receive_ping_response_impl (reader : stream) (read_header_timeout : Duration) :
    io E (Result unit) :=
  r ← timeout read_header_timeout (read_exact reader 1);
  match r with
  | None => mret (Err (ETimeout "Ping response header timeout"))
  | Some (Err UnexpectedEof) => mret (Err ConnectionClosed)
  | Some (Err e) => mret (Err (into e))
  | Some (Ok status_buf) =>
    let status := hd x00 status_buf in
    if negb (bool_decide (status = x01)) then mret (Err (ResponseError status))
    else
      r ← timeout PING_OLD_FORMAT_READ_TIMEOUT (read_exact reader 4);
      match r with
      | Some (Ok size_buf) =>
        let data_size := u32_from_be_bytes size_buf in
        if negb (data_size =? 0)%N then
          mret (Err (Protocol "ping response must have data_size 0"))
        else mret (Ok tt)
      | Some (Err e) => mret (Err (into e))
      | None => mret (Ok tt)
      end
  end.

(** The [async] block of the task: [send_ping_request_impl(..).await?], then
    [receive_ping_response_impl(..).await]. *)
Definition ping_exchange (stream_ref : stream) (read_header : Duration) : io E (Result unit) :=
  r ← send_ping_request_impl stream_ref;
  match r with
  | Err e => mret (Err e)
  | Ok _ => receive_ping_response_impl stream_ref read_header
  end.
End wire.

(** * The background task *)

Inductive flow := Continue | Break.

Definition check_interval (interval : Duration) : Duration :=
  let check_interval := (interval / PING_CHECK_DIVISOR)%N in
  if (check_interval <? MIN_PING_CHECK_INTERVAL)%N then MIN_PING_CHECK_INTERVAL
  else check_interval.

(** One turn of the loop of the spawned task. *)
Definition iteration : io clientE flow :=
  interval ← PingState.interval;
  sleep (check_interval interval);;
  stop ← load CShouldStop;
  if (stop : bool) then mret Break
  else
    elapsed ← PingState.elapsed_since_activity;
    current_interval ← PingState.interval;
    if (elapsed <? current_interval)%N then mret Continue
    else
      ping_guard ← try_lock CInFlight;
      match ping_guard with
      | None => mret Continue
      | Some _ =>
        stream_guard ← lock CStream;
        match stream_guard with
        | None =>
          unlock CInFlight;;
          store CShouldStop true;;
          unlock CStream;;
          mret Break
        | Some stream_ref =>
          read_header ← TimeoutConfig.read_header <$> load CTimeoutConfig;
          ping_result ← lift (ping_exchange (E := netE) stream_ref read_header);
          match ping_result with
          | Err _ =>
            put CStream None;;
            store CShouldStop true;;
            unlock CStream;; unlock CInFlight;;
            mret Break
          | Ok _ =>
            lock CLastActivity;; t ← now; put CLastActivity t;; unlock CLastActivity;;
            unlock CStream;; unlock CInFlight;;
            mret Continue
          end
        end
      end.

(** The [loop] of the spawned task, for [fuel] turns; the flag tells whether it has
    ended. *)
Fixpoint ping_loop (fuel : nat) : io clientE bool :=
  match fuel with
  | O => mret false
  | S fuel =>
    f ← iteration;
    match f with
    | Break => mret true
    | Continue => ping_loop fuel
    end
  end.

(** * The shared state as a store *)

Record shared := {
  s_stream : option stream;
  s_last_activity : Instant;
  s_in_flight : unit;
  s_task_handle : option task_id;
  s_should_stop : bool;
  s_config : PingConfig.t;
  s_timeout_config : TimeoutConfig.t;
}.

Definition get {T} (c : cell T) : shared → T :=
  match c in cell T return shared → T with
  | CStream => s_stream
  | CLastActivity => s_last_activity
  | CInFlight => s_in_flight
  | CTaskHandle => s_task_handle
  | CShouldStop => s_should_stop
  | CConfig => s_config
  | CTimeoutConfig => s_timeout_config
  end.

Definition set {T} (c : cell T) : T → shared → shared :=
  match c in cell T return T → shared → shared with
  | CStream => λ v s, Build_shared v (s_last_activity s) (s_in_flight s) (s_task_handle s)
      (s_should_stop s) (s_config s) (s_timeout_config s)
  | CLastActivity => λ v s, Build_shared (s_stream s) v (s_in_flight s) (s_task_handle s)
      (s_should_stop s) (s_config s) (s_timeout_config s)
  | CInFlight => λ v s, Build_shared (s_stream s) (s_last_activity s) v (s_task_handle s)
      (s_should_stop s) (s_config s) (s_timeout_config s)
  | CTaskHandle => λ v s, Build_shared (s_stream s) (s_last_activity s) (s_in_flight s) v
      (s_should_stop s) (s_config s) (s_timeout_config s)
  | CShouldStop => λ v s, Build_shared (s_stream s) (s_last_activity s) (s_in_flight s)
      (s_task_handle s) v (s_config s) (s_timeout_config s)
  | CConfig => λ v s, Build_shared (s_stream s) (s_last_activity s) (s_in_flight s)
      (s_task_handle s) (s_should_stop s) v (s_timeout_config s)
  | CTimeoutConfig => λ v s, Build_shared (s_stream s) (s_last_activity s) (s_in_flight s)
      (s_task_handle s) (s_should_stop s) (s_config s) v
  end.

(** [PingState::new], with the empty stream cell of a fresh client. *)
Definition PingState_new (config : PingConfig.t) (timeout_config : TimeoutConfig.t)
    (t : Instant) : shared := {|
  s_stream := None;
  s_last_activity := t;
  s_in_flight := tt;
  s_task_handle := None;
  s_should_stop := false;
  s_config := config;
  s_timeout_config := timeout_config;
|}.

(** No other task holds a lock: every lock is free when it is asked for.  This is
    the situation of a client whose ping task is not running, and of any of its
    calls between two turns of the task. *)
Definition lock_answer {X} (e : lockE X) (s : shared) : X * shared :=
  match e in lockE X return X * shared with
  | Lock c => (get c s, s)
  | TryLock c => (Some (get c s), s)
  | Put c v => (tt, set c v s)
  | Unlock c => (tt, s)
  end.

Definition alone {W} (h : handler osE W) : handler clientE (shared * W) :=
  λ X e lim st,
    match e with
    | inl1 e => let r := lock_answer e st.2.1 in (Done r.1, (st.1, (r.2, st.2.2)))
    | inr1 e => let r := h X e lim (st.1, st.2.2) in (r.1, (r.2.1, (st.2.1, r.2.2)))
    end.

#[export] Instance alone_laws {W} (h : handler osE W) : HandlerLaws h → HandlerLaws (alone h).
Proof.
  intros Hl. split; intros X [e|e] lim t [s w]; simpl.
  - intros x t' w' Hw [= <- <- <-]. split; [lia|done].
  - intros x t' w' Hw. destruct (h X e lim (t, w)) as [o [t1 w1]] eqn:He; simpl.
    intros [= -> <- <-]. by eapply handler_done.
  - done.
  - intros t' w' Hw. destruct (h X e lim (t, w)) as [o [t1 w1]] eqn:He; simpl.
    intros [= -> <- <-]. by eapply handler_elapsed.
  - done.
  - intros st'. destruct (h X e lim (t, w)) as [o [t1 w1]] eqn:He; simpl.
    intros [= -> _]. by eapply handler_hang.
Qed.
