(* ===== verification/Runtime.v ===== *)
(** Runs of a client whose locks are free.

    [alone h] runs a client's programs over the shared cells as a store; the
    lemmas here compute what the operations of [PingState] do to the cells.  The
    class [RuntimeLaws] states that the synchronous calls, those without an
    [.await], complete at once. *)
From S2P Require Import Prelude Errors TimeoutConfig IO Method Common Ping.
From stdpp Require Import options.

Class RuntimeLaws {W} (h : handler osE W) : Prop := {
  runtime_handler :: HandlerLaws h;
  runtime_now lim t w : h _ (subevent Now) lim (t, w) = (Done t, (t, w));
  runtime_spawn lim t w : ∃ id w', h _ (subevent Spawn) lim (t, w) = (Done id, (t, w'));
  runtime_abort id lim t w : ∃ w', h _ (subevent (Abort id)) lim (t, w) = (Done tt, (t, w'));
  runtime_tcp_keepalive s d i lim t w :
    ∃ r w', h _ (subevent (SetTcpKeepalive s d i)) lim (t, w) = (Done r, (t, w'));
  runtime_keepalive s b lim t w :
    ∃ r w', h _ (subevent (SetKeepalive s b)) lim (t, w) = (Done r, (t, w'));
  runtime_tls_build b lim t w :
    ∃ r w', h _ (subevent (TlsBuild b)) lim (t, w) = (Done r, (t, w'));
}.

(** The cells after [stop_ping_task]. *)
Definition stopped (s : shared) : shared := set CTaskHandle None (set CShouldStop true s).
(** The cells after [start_ping_task] spawned [task]. *)
Definition started (task : task_id) (s : shared) : shared :=
  set CTaskHandle (Some task) (set CShouldStop false s).

(** Run a chain of events the model answers itself. *)
Ltac run := cbn [exec io_bind mbind io_mbind mret io_mret fmap io_fmap trigger alone lock_answer
  fst snd subevent subevent_refl subevent_inl subevent_inr lock try_lock put unlock load store
  get set s_stream s_last_activity s_in_flight s_task_handle s_should_stop s_config
  s_timeout_config negb].

(** Rewrite with an equation about the handler. *)
Ltac law H :=
  pose proof H as Hlaw; cbv [subevent subevent_refl subevent_inl subevent_inr] in Hlaw |- *;
  rewrite Hlaw; clear Hlaw.

Section alone.
Context {W : Type} (h : handler osE W).

(** A program that only uses the network does not touch the cells. *)
Lemma exec_alone_net {A} (p : io netE A) lim t sh w :
  exec (alone h) (lift p) lim (t, (sh, w)) =
  let r := exec (restrict h) p lim (t, w) in (r.1, (r.2.1, (sh, r.2.2))).
Proof using Type.
  rewrite exec_lift. revert lim t w.
  induction p as [A a|A X e k IH|A B d q IHq k IH]; intros lim t w; simpl; [done| |].
  - unfold restrict. simpl. unfold subevent, subevent_inl, subevent_refl.
    destruct (h _ _ lim (t, w)) as [[x| |] [t1 w1]]; simpl; [apply IH|done..].
  - rewrite IHq. cbv zeta.
    destruct (exec (restrict h) q _ (t, w)) as [[b| |] [t1 w1]]; simpl; [apply IH| |done].
    destruct (inner_first _ _); [apply IH|done].
Qed.

Lemma exec_load {T} (c : cell T) lim t sh w :
  exec (alone h) (load c) lim (t, (sh, w)) = (Done (get c sh), (t, (sh, w))).
Proof using Type. done. Qed.

Lemma exec_store {T} (c : cell T) v lim t sh w :
  exec (alone h) (store c v) lim (t, (sh, w)) = (Done tt, (t, (set c v sh, w))).
Proof using Type. done. Qed.

Context `{!RuntimeLaws h}.

Lemma exec_stop_ping_task lim t sh w :
  ∃ w', exec (alone h) PingState.stop_ping_task lim (t, (sh, w)) =
        (Done tt, (t, (stopped sh, w'))).
Proof using All.
  unfold PingState.stop_ping_task. destruct sh as [st la u [task|] stop cfg tc].
  - destruct (runtime_abort task lim t w) as [w' Hw].
    exists w'. run. by law Hw.
  - by exists w.
Qed.

Lemma exec_touch_activity lim t sh w :
  exec (alone h) PingState.touch_activity lim (t, (sh, w)) =
  (Done tt, (t, (set CLastActivity t sh, w))).
Proof using All.
  unfold PingState.touch_activity, now. run.
  by law (runtime_now lim t w).
Qed.

Lemma exec_start_ping_task lim t sh w :
  if PingConfig.enabled (s_config sh) then
    ∃ task w', exec (alone h) PingState.start_ping_task lim (t, (sh, w)) =
      (Done tt, (t, (started task sh, w')))
  else exec (alone h) PingState.start_ping_task lim (t, (sh, w)) = (Done tt, (t, (sh, w))).
Proof using All.
  unfold PingState.start_ping_task, PingState.is_enabled. destruct (PingConfig.enabled _) eqn:He.
  - destruct (runtime_spawn lim t w) as (task & w' & Hw). exists task, w'.
    run. rewrite He. run. by law Hw.
  - run. by rewrite He.
Qed.
End alone.
