(* ===== verification/Threads.v ===== *)
(** Concurrent tasks over the shared cells of [Ping].

    A client's calls and its ping tasks are threads; the scheduler picks any of them
    for the next event.  A mutex is held by the guards a thread has taken and not
    dropped.  A timeout may fire at any moment: its future is dropped, and with it
    the guards taken inside.  An aborted task runs on until the runtime gets to drop
    it, at any later moment.  What the outside world answers is arbitrary. *)
From S2P Require Import Prelude Errors TimeoutConfig IO Common Ping.
From stdpp Require Import gmap options.

(** * The mutexes *)

Inductive mutex :=
| MStream | MLastActivity | MInFlight | MTaskHandle | MShouldStop | MConfig | MTimeoutConfig.

#[export] Instance mutex_eq_dec : EqDecision mutex.
Proof. solve_decision. Defined.

Definition mutex_of {T} (c : cell T) : mutex :=
  match c with
  | CStream => MStream
  | CLastActivity => MLastActivity
  | CInFlight => MInFlight
  | CTaskHandle => MTaskHandle
  | CShouldStop => MShouldStop
  | CConfig => MConfig
  | CTimeoutConfig => MTimeoutConfig
  end.

(** The order in which the code takes mutexes it waits for. *)
Definition rank (m : mutex) : nat :=
  match m with
  | MInFlight => 0
  | MStream => 1
  | MConfig => 2
  | MLastActivity | MTaskHandle | MShouldStop | MTimeoutConfig => 3
  end.

Definition release (m : mutex) (held : list mutex) : list mutex := filter (λ m', m' ≠ m) held.

(** * Threads *)

(** A program with the [timeout]s it has entered: a [Scope] remembers the mutexes
    that were held on entry. *)
Inductive code (A : Type) : Type :=
| Run (p : io clientE A)
| Scope {B : Type} (saved : list mutex) (c : code B) (k : option B → io clientE A).
Arguments Run {_} _.
Arguments Scope {_ _} _ _ _.

Inductive act :=
| Silent
| Wire {X : Type} (e : netE X) (x : X)
| Fired
| Spawned (id : task_id)
| Aborted (id : task_id).

(** One event of a thread that holds [held], next to [others], the mutexes held by
    the other threads. *)
Inductive cstep (others : mutex → Prop) :
    ∀ {A}, code A → list mutex → shared → act → code A → list mutex → shared → Prop :=
| step_lock A T (c : cell T) (k : T → io clientE A) held sh :
    ¬ others (mutex_of c) → mutex_of c ∉ held →
    cstep others (Run (Vis (inl1 (Lock c)) k)) held sh Silent
      (Run (k (get c sh))) (mutex_of c :: held) sh
| step_try_lock A T (c : cell T) (k : option T → io clientE A) held sh :
    ¬ others (mutex_of c) → mutex_of c ∉ held →
    cstep others (Run (Vis (inl1 (TryLock c)) k)) held sh Silent
      (Run (k (Some (get c sh)))) (mutex_of c :: held) sh
| step_try_lock_fails A T (c : cell T) (k : option T → io clientE A) held sh :
    others (mutex_of c) ∨ mutex_of c ∈ held →
    cstep others (Run (Vis (inl1 (TryLock c)) k)) held sh Silent (Run (k None)) held sh
| step_put A T (c : cell T) v (k : unit → io clientE A) held sh :
    cstep others (Run (Vis (inl1 (Put c v)) k)) held sh Silent (Run (k tt)) held (set c v sh)
| step_unlock A T (c : cell T) (k : unit → io clientE A) held sh :
    cstep others (Run (Vis (inl1 (Unlock c)) k)) held sh Silent
      (Run (k tt)) (release (mutex_of c) held) sh
| step_net A X (e : netE X) (k : X → io clientE A) x held sh :
    cstep others (Run (Vis (inr1 (inl1 e)) k)) held sh (Wire e x) (Run (k x)) held sh
| step_clock A X (e : clockE X) (k : X → io clientE A) x held sh :
    cstep others (Run (Vis (inr1 (inr1 (inl1 e))) k)) held sh Silent (Run (k x)) held sh
| step_spawn A (k : task_id → io clientE A) id held sh :
    cstep others (Run (Vis (inr1 (inr1 (inr1 (inl1 Spawn)))) k)) held sh (Spawned id)
      (Run (k id)) held sh
| step_abort A (k : unit → io clientE A) id held sh :
    cstep others (Run (Vis (inr1 (inr1 (inr1 (inl1 (Abort id))))) k)) held sh (Aborted id)
      (Run (k tt)) held sh
| step_conn A X (e : connE X) (k : X → io clientE A) x held sh :
    cstep others (Run (Vis (inr1 (inr1 (inr1 (inr1 e)))) k)) held sh Silent (Run (k x)) held sh
| step_enter A B d (q : io clientE B) (k : option B → io clientE A) held sh :
    cstep others (Run (Timeout d q k)) held sh Silent (Scope held (Run q) k) held sh
| step_inside A B saved (c c' : code B) (k : option B → io clientE A) held sh a held' sh' :
    cstep others c held sh a c' held' sh' →
    cstep others (Scope saved c k) held sh a (Scope saved c' k) held' sh'
| step_leave A B saved b (k : option B → io clientE A) held sh :
    cstep others (Scope saved (Run (Ret b)) k) held sh Silent (Run (k (Some b))) held sh
| step_fire A B saved (c : code B) (k : option B → io clientE A) held sh :
    cstep others (Scope saved c k) held sh Fired (Run (k None)) saved sh.

Record thread := Thread { t_code : code flow; t_held : list mutex; t_doomed : bool }.

Definition task : thread := Thread (Run iteration) [] false.

(** * The pool *)

Record pool := Pool { p_shared : shared; p_threads : gmap task_id thread }.

Definition others (i : task_id) (ts : gmap task_id thread) (m : mutex) : Prop :=
  map_Exists (λ j th, j ≠ i ∧ m ∈ t_held th) ts.

#[export] Instance others_dec i ts m : Decision (others i ts m).
Proof. apply _. Defined.

Definition doom (th : thread) : thread := Thread (t_code th) (t_held th) true.

(** What an event of a thread does to the others. *)
Definition effect (a : act) (ts : gmap task_id thread) : gmap task_id thread :=
  match a with
  | Spawned id => <[id := task]> ts
  | Aborted id => alter doom id ts
  | Silent | Wire _ _ | Fired => ts
  end.

Definition fresh_spawn (a : act) (ts : gmap task_id thread) : Prop :=
  match a with Spawned id => ts !! id = None | _ => True end.

Inductive pstep : pool → task_id → act → pool → Prop :=
| pool_step sh ts i c held dm a c' held' sh' :
    ts !! i = Some (Thread c held dm) →
    cstep (others i ts) c held sh a c' held' sh' → fresh_spawn a ts →
    pstep (Pool sh ts) i a (Pool sh' (effect a (<[i := Thread c' held' dm]> ts)))
(** The [loop] of a ping task. *)
| pool_again sh ts i held dm :
    ts !! i = Some (Thread (Run (Ret Continue)) held dm) →
    pstep (Pool sh ts) i Silent (Pool sh (<[i := Thread (Run iteration) held dm]> ts))
| pool_end sh ts i held dm :
    ts !! i = Some (Thread (Run (Ret Break)) held dm) →
    pstep (Pool sh ts) i Silent (Pool sh (delete i ts))
| pool_reap sh ts i c held :
    ts !! i = Some (Thread c held true) →
    pstep (Pool sh ts) i Silent (Pool sh (delete i ts)).

Inductive psteps : pool → list (task_id * act) → pool → Prop :=
| psteps_nil s : psteps s [] s
| psteps_cons s i a s1 tr s2 : pstep s i a s1 → psteps s1 tr s2 → psteps s ((i, a) :: tr) s2.

Definition reachable (s s' : pool) : Prop := ∃ tr, psteps s tr s'.

Lemma cstep_others {A} (P P' : mutex → Prop) (c c' : code A) held held' sh sh' a :
  (∀ m, P m ↔ P' m) → cstep P c held sh a c' held' sh' → cstep P' c held sh a c' held' sh'.
Proof. intros HP Hc. induction Hc; constructor; naive_solver. Qed.
