(* ===== verification/Locks.v ===== *)
(** The locking discipline: a program keeps it when it waits for mutexes in the order
    of [rank], assigns and drops only what it holds, reads and writes a stream only
    under the stream's mutex, and neither sleeps nor connects with a mutex held.

    [guarded] is a weakest precondition for it.  Threads that keep the discipline
    exclude each other from the wire and never deadlock. *)
From S2P Require Import Prelude Errors TimeoutConfig IO Common Ping Threads.
From stdpp Require Import gmap options.

(** * The discipline *)

Definition lock_ok {X} (e : lockE X) (base held : list mutex) :
    (X → list mutex → Prop) → Prop :=
  match e in lockE X return (X → list mutex → Prop) → Prop with
  | Lock c => λ K,
    Forall (λ m, rank m < rank (mutex_of c)) held ∧ ∀ v, K v (mutex_of c :: held)
  | TryLock c => λ K,
    (mutex_of c ∉ held) ∧ (∀ v, K (Some v) (mutex_of c :: held)) ∧ K None held
  | Put c v => λ K, (mutex_of c ∈ held) ∧ K tt held
  | Unlock c => λ K, (mutex_of c ∈ held) ∧ (mutex_of c ∉ base) ∧ K tt (release (mutex_of c) held)
  end.

Definition os_ok {X} (e : osE X) (held : list mutex) (K : X → list mutex → Prop) : Prop :=
  match e with
  | inl1 e => (MStream ∈ held) ∧ ∀ x, K x held
  | inr1 (inl1 e) =>
    match e in clockE X return (X → list mutex → Prop) → Prop with
    | Sleep _ => λ K, held = [] ∧ K tt held
    | Now => λ K, ∀ t, K t held
    end K
  | inr1 (inr1 (inl1 e)) => ∀ x, K x held
  | inr1 (inr1 (inr1 e)) => held = [] ∧ ∀ x, K x held
  end.

(** [guarded p base held Q]: run with the mutexes [held], of which [base] belong to
    the enclosing scope, [p] keeps the discipline and ends in [Q]. *)
Fixpoint guarded {A} (p : io clientE A) (base held : list mutex) :
    (A → list mutex → Prop) → Prop :=
  match p with
  | Ret a => λ Q, Q a held
  | Vis e k => λ Q,
    match e with
    | inl1 e => lock_ok e base held (λ x held', guarded (k x) base held' Q)
    | inr1 e => os_ok e held (λ x held', guarded (k x) base held' Q)
    end
  | Timeout d q k => λ Q,
    guarded (k None) base held Q ∧
    guarded q held held (λ b held', guarded (k (Some b)) base held' Q)
  end.

Lemma lock_ok_impl {X} (e : lockE X) base held (K K' : X → list mutex → Prop) :
  (∀ x held', K x held' → K' x held') → lock_ok e base held K → lock_ok e base held K'.
Proof. destruct e; simpl; naive_solver. Qed.

Lemma os_ok_impl {X} (e : osE X) held (K K' : X → list mutex → Prop) :
  (∀ x held', K x held' → K' x held') → os_ok e held K → os_ok e held K'.
Proof.
  destruct e as [e|[e|[e|e]]]; simpl; [naive_solver| |naive_solver..].
  destruct e; naive_solver.
Qed.

Lemma guarded_impl {A} (p : io clientE A) base held (Q Q' : A → list mutex → Prop) :
  (∀ a held', Q a held' → Q' a held') → guarded p base held Q → guarded p base held Q'.
Proof.
  revert base held Q Q'. induction p as [A a|A X e k IH|A B d q IHq k IH];
    intros base held Q Q' HQ; simpl; [by apply HQ| |].
  - destruct e as [e|e]; [apply lock_ok_impl|apply os_ok_impl]; intros x held'; by apply IH.
  - intros [Hn Hs]. split; [by eapply IH|]. eapply IHq; [|exact Hs]. intros b held'. by apply IH.
Qed.

Lemma guarded_bind {A B} (p : io clientE A) (f : A → io clientE B) base held Q :
  guarded p base held (λ a held', guarded (f a) base held' Q) → guarded (io_bind p f) base held Q.
Proof.
  revert base held f Q. induction p as [A a|A X e k IH|A C d q IHq k IH];
    intros base held f Q; simpl; [done| |].
  - destruct e as [e|e]; [apply lock_ok_impl|apply os_ok_impl]; intros x held'; by apply IH.
  - intros [Hn Hs]. split; [by apply IH|]. eapply guarded_impl; [|exact Hs]. intros b held'. by apply IH.
Qed.

(** I/O on the wire, in any form, under the mutex of the stream. *)
Lemma guarded_wire {A} (p : io netE A) base held Q :
  MStream ∈ held → (∀ a, Q a held) → guarded (lift p) base held Q.
Proof.
  intros Hs. revert base Q. induction p as [A a|A X e k IH|A B d q IHq k IH];
    intros base Q HQ; simpl; [done| |].
  - split; [done|]. intros x. by apply IH.
  - split; [by apply IH|]. apply IHq. intros b. by apply IH.
Qed.

(** * Threads that keep it *)

Fixpoint guarded_code {A} (c : code A) (base held : list mutex) :
    (A → list mutex → Prop) → Prop :=
  match c with
  | Run p => guarded p base held
  | Scope saved c k => λ Q,
    base ⊆ saved ∧ saved ⊆ held ∧ guarded (k None) base saved Q ∧
    guarded_code c saved held (λ b held', guarded (k (Some b)) base held' Q)
  end.

Definition ends_free (f : flow) (held : list mutex) : Prop := held = [].

Lemma elem_of_release m m' held : m ∈ release m' held ↔ m ≠ m' ∧ m ∈ held.
Proof. unfold release. by rewrite list_elem_of_filter. Qed.

(** A step keeps the discipline, takes only free mutexes and does I/O only under the
    mutex of the stream. *)
Lemma cstep_guarded {A} (oth : mutex → Prop) (c c' : code A) held held' sh sh' a base Q :
  cstep oth c held sh a c' held' sh' → guarded_code c base held Q → base ⊆ held →
  guarded_code c' base held' Q ∧ base ⊆ held' ∧ (∀ m, m ∈ held' → m ∈ held ∨ ¬ oth m) ∧
  (∀ X (e : netE X) x, a = Wire e x → MStream ∈ held).
Proof.
  intros Hst. revert base Q. induction Hst; intros base Q Hg Hb; simpl in Hg |- *.
  - destruct Hg as [_ Hg]. split_and!; [done|set_solver|set_solver|done].
  - destruct Hg as (_ & Hg & _). split_and!; [done|set_solver|set_solver|done].
  - destruct Hg as (_ & _ & Hg). split_and!; [done..|set_solver|done].
  - destruct Hg as [_ Hg]. split_and!; [done..|set_solver|done].
  - destruct Hg as (_ & Hnb & Hg). split_and!; [done|..|done].
    + intros m Hm. apply elem_of_release. set_solver.
    + intros m [_ Hm]%elem_of_release. by left.
  - destruct Hg as [Hw Hg]. split_and!; [done..|set_solver|done].
  - split_and!; [|done|set_solver|done]. destruct e; [by destruct Hg, x|done].
  - split_and!; [done..|set_solver|done].
  - split_and!; [done..|set_solver|done].
  - destruct Hg as [_ Hg]. split_and!; [done..|set_solver|done].
  - destruct Hg as [Hn Hs]. split_and!; [done..|set_solver|done].
  - destruct Hg as (Hbs & Hsh & Hn & Hg).
    destruct (IHHst _ _ Hg Hsh) as (Hg' & Hsh' & Hfree & Hw).
    split_and!; [done|done|done|done|set_solver|done|done].
  - destruct Hg as (Hbs & Hsh & Hn & Hg). split_and!; [done|set_solver|set_solver|done].
  - destruct Hg as (Hbs & Hsh & Hn & Hg). split_and!; [done|done|set_solver|done].
Qed.

(** * The operations of [PingState] *)

Definition above (held : list mutex) (m : mutex) : Prop := Forall (λ m', rank m' < rank m) held.

Lemma above_not_in held m : above held m → m ∉ held.
Proof. intros Hf Hin. eapply Forall_forall in Hf; [|exact Hin]. lia. Qed.

Lemma release_head m held : m ∉ held → release m (m :: held) = held.
Proof.
  intros Hm. unfold release. rewrite filter_cons_False by naive_solver.
  induction held as [|m' held IH]; [done|].
  rewrite filter_cons_True by set_solver. f_equal. apply IH. set_solver.
Qed.

Lemma guarded_load {T} (c : cell T) held Q :
  above held (mutex_of c) → (∀ v, Q v held) → guarded (load c) [] held Q.
Proof.
  intros Ha HQ. simpl. split; [done|]. intros v. rewrite release_head by by apply above_not_in.
  split_and!; [set_solver..|done].
Qed.

Lemma guarded_store {T} (c : cell T) v held Q :
  above held (mutex_of c) → Q tt held → guarded (store c v) [] held Q.
Proof.
  intros Ha HQ. simpl. split; [done|]. intros v'. rewrite release_head by by apply above_not_in.
  split_and!; [set_solver..|done].
Qed.

(** A call that starts and ends without a mutex; the hints know those that have been
    verified. *)
Definition no_locks {A} (_ : A) (held : list mutex) : Prop := held = [].

Create HintDb discipline.

(** Compute the mutexes that are left, and decide what is held. *)
Ltac compute_held :=
  repeat match goal with
  | |- context [release ?m ?l] =>
    let l' := eval vm_compute in (release m l) in change (release m l) with l'
  end.
Ltac held_side := solve [done | set_solver | repeat constructor; simpl; lia].

(** Follow a program event by event; [load] and [store] in one step, I/O on the wire
    as a block. *)
Ltac discipline :=
  compute_held;
  match goal with
  | |- guarded (io_bind _ _) _ _ _ => apply guarded_bind; discipline
  | |- guarded _ [] [] _ =>
    eapply guarded_impl; [|solve [auto with discipline nocore]];
    intros ? ? ->; discipline
  | |- guarded (mbind _ _) _ _ _ => apply guarded_bind; discipline
  | |- guarded (fmap _ _) _ _ _ => apply guarded_bind; discipline
  | |- guarded (load _) [] _ _ => apply guarded_load; [held_side|intros; discipline]
  | |- guarded (store _ _) [] _ _ => apply guarded_store; [held_side|discipline]
  | |- guarded (lift _) _ _ _ => apply guarded_wire; [held_side|intros; discipline]
  | |- guarded (Ret _) _ _ _ => cbn [guarded]; discipline
  | |- guarded (Timeout _ _ _) _ _ _ => cbn [guarded]; split; discipline
  | |- guarded (if ?b then _ else _) _ _ _ => destruct b; discipline
  | |- guarded (match ?b with _ => _ end) _ _ _ => destruct b; discipline
  | |- guarded (let _ := _ in _) _ _ _ => cbv zeta; discipline
  | |- guarded (Vis _ _) _ _ _ => cbn [guarded lock_ok os_ok subevent
      subevent_refl subevent_inl subevent_inr fst snd]; discipline
  | |- guarded ?p _ _ _ => let p' := eval red in p in change p with p'; discipline
  | |- _ ∧ _ => split; [try held_side|]; discipline
  | |- ∀ _, _ => intros; discipline
  | _ => try done
  end.

Lemma iteration_guarded : guarded iteration [] [] ends_free.
Proof. unfold iteration. discipline. Qed.

(** * Pools of such threads *)

Definition holds (s : pool) (i : task_id) (m : mutex) : Prop :=
  ∃ th, p_threads s !! i = Some th ∧ m ∈ t_held th.

Record pool_ok (s : pool) : Prop := {
  ok_guarded i th :
    p_threads s !! i = Some th → guarded_code (t_code th) [] (t_held th) ends_free;
  ok_exclusive i j m : holds s i m → holds s j m → i = j;
}.

(** Threads that were there, or hold nothing. *)
Lemma pool_ok_sub sh sh' ts ts' :
  pool_ok (Pool sh ts) →
  (∀ i th, ts' !! i = Some th →
     guarded_code (t_code th) [] (t_held th) ends_free ∧
     (t_held th = [] ∨ ∃ th0, ts !! i = Some th0 ∧ t_held th0 = t_held th)) →
  pool_ok (Pool sh' ts').
Proof.
  intros [Hg He] Hts. split; simpl.
  - intros i th Hi. by apply Hts in Hi as [? _].
  - intros i j m (th & Hi & Hm) (th' & Hj & Hm'). simpl in *.
    apply Hts in Hi as [_ [Hn|(th0 & Hi & Hh)]]; [rewrite Hn in Hm; set_solver|].
    apply Hts in Hj as [_ [Hn|(th0' & Hj & Hh')]]; [rewrite Hn in Hm'; set_solver|].
    apply (He i j m); [exists th0|exists th0']; simpl; by rewrite ?Hh, ?Hh'.
Qed.

Lemma holds_others sh i j ts m : holds (Pool sh ts) j m → j ≠ i → others i ts m.
Proof. intros (th & Hj & Hm) Hne. by exists j, th. Qed.

Lemma others_holds sh i ts m : others i ts m → ∃ j, j ≠ i ∧ holds (Pool sh ts) j m.
Proof. intros (j & th & Hj & Hne & Hm). exists j. split; [done|by exists th]. Qed.

Lemma pool_ok_effect sh a ts : pool_ok (Pool sh ts) → pool_ok (Pool sh (effect a ts)).
Proof.
  intros Hok. apply (pool_ok_sub sh sh ts); [done|]. pose proof (ok_guarded _ Hok) as Hg. simpl in Hg.
  destruct a as [|X e x| |id|id]; simpl; try (intros i th Hi; by eauto 8).
  - intros i th [[<- <-]|[Hne Hi]]%lookup_insert_Some; [|by eauto 8].
    split; [apply iteration_guarded|by left].
  - intros i th Hi. destruct (decide (i = id)) as [->|Hne].
    + rewrite lookup_alter_eq in Hi. destruct (ts !! id) as [th0|] eqn:H0; [|done].
      injection Hi as <-. split; [exact (Hg _ _ H0)|]. right. by exists th0.
    + rewrite lookup_alter_ne in Hi by done. by eauto 8.
Qed.

Lemma pstep_ok s i a s' : pool_ok s → pstep s i a s' → pool_ok s'.
Proof.
  intros Hok Hst. destruct Hst as [sh ts i c held dm a c' held' sh' Hi Hst _|sh ts i held dm Hi|
    sh ts i held dm Hi|sh ts i c held Hi]; pose proof (ok_guarded _ Hok _ _ Hi) as Hg; simpl in Hg.
  - destruct (cstep_guarded _ _ _ _ _ _ _ _ [] _ Hst Hg) as (Hg' & _ & Hfree & _); [set_solver|].
    apply pool_ok_effect. split; simpl.
    + intros j th [[<- <-]|[Hne Hj]]%lookup_insert_Some; [done|]. exact (ok_guarded _ Hok _ _ Hj).
    + assert (∀ j m, holds (Pool sh' (<[i:=Thread c' held' dm]> ts)) j m →
        (j = i ∧ m ∈ held') ∨ (j ≠ i ∧ holds (Pool sh ts) j m)) as Hcases.
      { intros j m (th & Hj & Hm). simpl in Hj.
        apply lookup_insert_Some in Hj as [[<- <-]|[Hne Hj]]; [by left|].
        right. split; [congruence|by exists th]. }
      assert (∀ j m, m ∈ held' → j ≠ i → holds (Pool sh ts) j m → False) as Hnew.
      { intros j m Hm Hne Hj. destruct (Hfree _ Hm) as [Hold|Hfr].
        - apply Hne. apply (ok_exclusive _ Hok _ _ m); [done|]. by exists (Thread c held dm).
        - by eapply Hfr, holds_others. }
      intros j k m [[-> Hj]|[Hnj Hj]]%Hcases [[-> Hk]|[Hnk Hk]]%Hcases; [done|..].
      * by destruct (Hnew _ _ Hj Hnk Hk).
      * by destruct (Hnew _ _ Hk Hnj Hj).
      * by apply (ok_exclusive _ Hok _ _ m).
  - apply (pool_ok_sub sh sh ts); [done|].
    intros j th [[<- <-]|[Hne Hj]]%lookup_insert_Some; simpl.
    + unfold ends_free in Hg. subst held. split; [apply iteration_guarded|by left].
    + split; [exact (ok_guarded _ Hok _ _ Hj)|eauto].
  - apply (pool_ok_sub sh sh ts); [done|]. intros j th [Hne Hj]%lookup_delete_Some.
    split; [exact (ok_guarded _ Hok _ _ Hj)|eauto].
  - apply (pool_ok_sub sh sh ts); [done|]. intros j th [Hne Hj]%lookup_delete_Some.
    split; [exact (ok_guarded _ Hok _ _ Hj)|eauto].
Qed.

Lemma reachable_ok s s' : reachable s s' → pool_ok s → pool_ok s'.
Proof. intros [tr Htr]. induction Htr; [done|]. eauto using pstep_ok. Qed.

(** I/O on the wire is done by the thread that holds the stream's mutex. *)
Lemma wire_holds s i X (e : netE X) x s' : pool_ok s → pstep s i (Wire e x) s' → holds s i MStream.
Proof.
  intros Hok Hst. inversion Hst as [sh ts i' c held dm a c' held' sh' Hi Hc Hf| | |]; subst.
  exists (Thread c held dm). split; [done|].
  eapply cstep_guarded in Hc as (_ & _ & _ & Hw); [by eapply Hw|exact (ok_guarded _ Hok _ _ Hi)|set_solver].
Qed.

(** * Progress *)

(** A thread has ended, or it can do its next event without a timeout firing, or it
    waits for a mutex above all it holds. *)
Lemma code_progress {A} (oth : mutex → Prop) `{!∀ m, Decision (oth m)} (c : code A) base held
    Q sh id :
  guarded_code c base held Q →
  (∃ a, c = Run (Ret a)) ∨
  (∃ a c' held' sh', cstep oth c held sh a c' held' sh' ∧ a ≠ Fired ∧
     ∀ id', a = Spawned id' → id' = id) ∨
  (∃ m, oth m ∧ above held m).
Proof.
  revert base Q. induction c as [A p|A B saved c IH k]; intros base Q Hg; simpl in Hg.
  - destruct p as [a|X e k|B d q k]; [by left; exists a|right|right; left].
    2: { exists Silent. do 3 eexists. split; [apply step_enter|done]. }
    destruct e as [e|[e|[e|[e|e]]]]; simpl in Hg.
    + destruct e as [T c|T c|T c v|T c].
      * destruct Hg as [Ha _]. destruct (decide (oth (mutex_of c))) as [Ho|Ho]; [by right; eauto|].
        left. exists Silent. do 3 eexists. split; [by apply step_lock, above_not_in|done].
      * destruct Hg as [Ha _]. left. exists Silent.
        destruct (decide (oth (mutex_of c))) as [Ho|Ho]; do 3 eexists;
          (split; [|done]); [by apply step_try_lock_fails; left|by apply step_try_lock].
      * left. exists Silent. do 3 eexists. split; [apply step_put|done].
      * left. exists Silent. do 3 eexists. split; [apply step_unlock|done].
    + assert (∃ x : X, True) as [x _] by (destruct e; by eexists (Err UnexpectedEof)).
      left. exists (Wire e x). do 3 eexists. split; [apply step_net|done].
    + assert (∃ x : X, True) as [x _] by (destruct e; [by exists tt|by exists 0%N]).
      left. exists Silent. do 3 eexists. split; [apply (step_clock _ _ _ _ _ x)|done].
    + destruct e as [|i]; left.
      * exists (Spawned id). do 3 eexists. split; [apply step_spawn|]. split; [done|congruence].
      * exists (Aborted i). do 3 eexists. split; [apply step_abort|done].
    + assert (∃ x : X, True) as [x _].
      { destruct e; first [by exists (Err UnexpectedEof)|by exists (Err (TlsError 0))]. }
      left. exists Silent. do 3 eexists. split; [apply (step_conn _ _ _ _ _ x)|done].
  - destruct Hg as (_ & _ & _ & Hg). right.
    destruct (IH _ _ Hg) as [[b ->]|[(a & c' & held' & sh' & Hc & Ha)|Hw]]; [..|by right]; left.
    + exists Silent. do 3 eexists. split; [apply step_leave|done].
    + exists a. do 3 eexists. split; [by apply step_inside|done].
Qed.

Lemma rank_bound m : rank m ≤ 3.
Proof. destruct m; simpl; lia. Qed.

(** From a thread, along the mutexes it waits for, to one that can go on.  The rank
    of the mutex grows on the way, so the way ends. *)
Lemma can_go_on n s i th :
  pool_ok s → p_threads s !! i = Some th →
  (∀ m, others i (p_threads s) m → above (t_held th) m → 4 ≤ rank m + n) →
  ∃ j a s', pstep s j a s' ∧ a ≠ Fired.
Proof.
  intros Hok. revert i th. induction n as [|n IH]; intros i [c held dm] Hi Hn; simpl in *.
  all: destruct (code_progress (others i (p_threads s)) c [] held ends_free (p_shared s)
    (fresh (dom (p_threads s)))) as [[f ->]|[(a & c' & held' & sh' & Hc & Ha & Hid)|(m & Ho & Hm)]];
    [exact (ok_guarded _ Hok _ _ Hi)| | |].
  all: destruct s as [sh ts]; simpl in *.
  1, 4: destruct f; do 3 eexists; split; [by eapply pool_again| |by eapply pool_end|]; done.
  1, 3: exists i, a; eexists; split; [|done]; eapply pool_step; [done..|];
    destruct a; try done; simpl; rewrite (Hid _ eq_refl); apply not_elem_of_dom, is_fresh.
  - pose proof (rank_bound m). specialize (Hn m Ho Hm). lia.
  - destruct (others_holds sh i ts m Ho) as (j & Hne & th & Hj & Hin). simpl in Hj.
    apply (IH j th Hj). intros m' Ho' Hm'. unfold above in Hm'.
    rewrite Forall_forall in Hm'. specialize (Hm' m Hin). specialize (Hn m Ho Hm). lia.
Qed.
