(* ===== verification/Schedule.v ===== *)
(** An executable scheduler for the threads of [Threads]: given a list of moves and
    the answers of the outside world, the run they make.  It only makes steps of the
    relation, so that a computed run is a run. *)
From S2P Require Import Prelude Errors TimeoutConfig IO Common Ping Threads.
From stdpp Require Import gmap options.

Section scheduler.
(** What the outside world answers. *)
Variable answer : ∀ X, osE X → X.

Definition lock_exec (oth : mutex → bool) {X A} (e : lockE X) (held : list mutex) (sh : shared) :
    (X → io clientE A) → option (act * code A * list mutex * shared) :=
  match e in lockE X return (X → io clientE A) → option (act * code A * list mutex * shared) with
  | Lock c => λ k,
    if oth (mutex_of c) || bool_decide (mutex_of c ∈ held) then None
    else Some (Silent, Run (k (get c sh)), mutex_of c :: held, sh)
  | TryLock c => λ k,
    if oth (mutex_of c) || bool_decide (mutex_of c ∈ held) then Some (Silent, Run (k None), held, sh)
    else Some (Silent, Run (k (Some (get c sh))), mutex_of c :: held, sh)
  | Put c v => λ k, Some (Silent, Run (k tt), held, set c v sh)
  | Unlock c => λ k, Some (Silent, Run (k tt), release (mutex_of c) held, sh)
  end.

Definition os_exec {X A} (e : osE X) (k : X → io clientE A) (held : list mutex) (sh : shared)
    (id : task_id) : act * code A * list mutex * shared :=
  match e with
  | inl1 e => λ k, let x := answer _ (inl1 e) in (Wire e x, Run (k x), held, sh)
  | inr1 (inr1 (inl1 e)) => λ k,
    match e in taskE X return (X → io clientE A) → act * code A * list mutex * shared with
    | Spawn => λ k, (Spawned id, Run (k id), held, sh)
    | Abort j => λ k, (Aborted j, Run (k tt), held, sh)
    end k
  | e => λ k, (Silent, Run (k (answer _ e)), held, sh)
  end k.

(** The next event of a thread; [id] names the task it may spawn. *)
Fixpoint cexec (oth : mutex → bool) (id : task_id) {A} (c : code A) (held : list mutex)
    (sh : shared) : option (act * code A * list mutex * shared) :=
  match c with
  | Run (Ret _) => None
  | Run (Vis e k) =>
    match e with
    | inl1 e => λ k, lock_exec oth e held sh k
    | inr1 e => λ k, Some (os_exec e k held sh id)
    end k
  | Run (Timeout d q k) => Some (Silent, Scope held (Run q) k, held, sh)
  | Scope saved c k =>
    match c with
    | Run (Ret b) => λ _ k, Some (Silent, Run (k (Some b)), held, sh)
    | _ => λ inner k,
      match inner with
      | Some (a, c', held', sh') => Some (a, Scope saved c' k, held', sh')
      | None => None
      end
    end (cexec oth id c held sh) k
  end.

(** The scheduler's moves: the next event of a thread, with a name for a task it
    spawns, or the end of an aborted task. *)
Inductive move := Go (i : task_id) (id : task_id) | Reap (i : task_id).

Definition pexec (s : pool) (m : move) : option (task_id * act * pool) :=
  let ts := p_threads s in
  match m with
  | Go i id =>
    match ts !! i with
    | Some (Thread (Run (Ret Continue)) held dm) =>
      Some (i, Silent, Pool (p_shared s) (<[i := Thread (Run iteration) held dm]> ts))
    | Some (Thread (Run (Ret Break)) held dm) => Some (i, Silent, Pool (p_shared s) (delete i ts))
    | Some (Thread c held dm) =>
      match cexec (λ m, bool_decide (others i ts m)) id c held (p_shared s) with
      | Some (a, c', held', sh') =>
        if match a with Spawned id => is_none (ts !! id) | _ => true end then
          Some (i, a, Pool sh' (effect a (<[i := Thread c' held' dm]> ts)))
        else None
      | None => None
      end
    | None => None
    end
  | Reap i =>
    match ts !! i with
    | Some (Thread _ _ true) => Some (i, Silent, Pool (p_shared s) (delete i ts))
    | _ => None
    end
  end.

Fixpoint schedule (s : pool) (ms : list move) : option (list (task_id * act) * pool) :=
  match ms with
  | [] => Some ([], s)
  | m :: ms =>
    match pexec s m with
    | Some (i, a, s1) =>
      match schedule s1 ms with
      | Some (tr, s2) => Some ((i, a) :: tr, s2)
      | None => None
      end
    | None => None
    end
  end.

(** * It makes steps *)

Lemma lock_exec_sound oth {X A} (e : lockE X) (k : X → io clientE A) held sh a c' held' sh' :
  lock_exec oth e held sh k = Some (a, c', held', sh') →
  cstep (λ m, oth m = true) (Run (Vis (inl1 e) k)) held sh a c' held' sh'.
Proof using Type.
  destruct e as [T c|T c|T c v|T c]; simpl; [| |intros [= <- <- <- <-]; constructor..];
    destruct (oth (mutex_of c)) eqn:Ho, (bool_decide_reflect (mutex_of c ∈ held)); simpl;
    try done; intros [= <- <- <- <-]; constructor; (congruence || tauto || done).
Qed.

Lemma os_exec_sound oth {X A} (e : osE X) (k : X → io clientE A) held sh id :
  let '(a, c', held', sh') := os_exec e k held sh id in
  cstep oth (Run (Vis (inr1 e) k)) held sh a c' held' sh'.
Proof using Type.
  destruct e as [e|[e|[e|e]]]; simpl; [constructor|constructor| |constructor].
  destruct e; constructor.
Qed.

Lemma cexec_sound oth id {A} (c : code A) held sh a c' held' sh' :
  cexec oth id c held sh = Some (a, c', held', sh') →
  cstep (λ m, oth m = true) c held sh a c' held' sh'.
Proof using Type.
  revert c' held' sh'. induction c as [A p|A B saved c IH k]; intros c' held' sh'.
  - destruct p as [x|X [e|e] k|B d q k]; simpl; [done|apply lock_exec_sound| |].
    + pose proof (os_exec_sound (λ m, oth m = true) e k held sh id) as Hs.
      destruct (os_exec e k held sh id) as [[[??]?]?]. by intros [= <- <- <- <-].
    + intros [= <- <- <- <-]. constructor.
  - intros Hc. assert ((∃ b, c = Run (Ret b)) ∨ match cexec oth id c held sh with
      | Some (a, c', held', sh') => Some (a, Scope saved c' k, held', sh')
      | None => None end = Some (a, c', held', sh')) as [[b ->]|Hi].
    { destruct c as [[]|]; simpl in *; eauto. }
    + simpl in Hc. injection Hc as <- <- <- <-. constructor.
    + destruct (cexec oth id c held sh) as [[[[a1 c1] held1] sh1]|]; [|done].
      injection Hi as <- <- <- <-. constructor. by apply IH.
Qed.

Lemma pexec_sound s m i a s' : pexec s m = Some (i, a, s') → pstep s i a s'.
Proof using Type.
  destruct s as [sh ts], m as [j id|j]; simpl; destruct (ts !! j) as [[c held dm]|] eqn:Hj; try done.
  - intros Hp. assert ((∃ f, c = Run (Ret f)) ∨
      match cexec (λ m, bool_decide (others j ts m)) id c held sh with
      | Some (a, c', held', sh') =>
        if match a with Spawned id => is_none (ts !! id) | _ => true end then
          Some (j, a, Pool sh' (effect a (<[j := Thread c' held' dm]> ts)))
        else None
      | None => None
      end = Some (i, a, s')) as [[[] ->]|Hi].
    { destruct c as [[[]|?|?]|]; eauto. }
    + injection Hp as <- <- <-. by eapply pool_again.
    + injection Hp as <- <- <-. by eapply pool_end.
    + destruct (cexec _ id c held sh) as [[[[a1 c1] held1] sh1]|] eqn:Hc; [|done].
      apply cexec_sound in Hc. case_match eqn:Hf; [|done]. injection Hi as <- <- <-.
      eapply pool_step; [exact Hj| |].
      * eapply cstep_others; [|exact Hc]. intros m. by rewrite bool_decide_eq_true.
      * destruct a1; simpl in *; try done. by destruct (ts !! id0).
  - destruct dm; [|done]. intros [= <- <- <-]. by eapply pool_reap.
Qed.

Lemma schedule_sound s ms tr s' : schedule s ms = Some (tr, s') → psteps s tr s'.
Proof using Type.
  revert s tr s'. induction ms as [|m ms IH]; intros s tr s'; simpl.
  - intros [= <- <-]. constructor.
  - destruct (pexec s m) as [[[i a] s1]|] eqn:Hm; [|done].
    destruct (schedule s1 ms) as [[tr1 s2]|] eqn:Hs; [|done]. intros [= <- <-].
    econstructor; [by eapply pexec_sound|by apply IH].
Qed.
End scheduler.
