(* ===== verification/Scripted.v ===== *)
(** Concrete environments, for the witnesses of theorems that quantify over all of
    them.

    [timed_handler] turns a description of the outside world, how long an event
    takes and what it answers, into a handler that keeps deadlines; [peer] is a
    host that accepts or refuses connections and has sent some bytes.  The second
    part, [segmented], is the environment the frame reader is specified in: a
    stream of bytes that the network cuts at will. *)
From S2P Require Import Prelude Errors TimeoutConfig IO Method Common Ping Runtime.
From stdpp Require Import options.

(** * A world with durations *)

Section timed.
Context {E : Type → Type} {W : Type}.

(** [None] for an event that never completes. *)
Variable answer : ∀ X, E X → Instant → W → option (Duration * X * W).

Definition timed_handler : handler E W := λ X e lim st,
  match answer X e st.1 st.2, lim with
  | Some (d, x, w'), Some l =>
    (* what completes at once is not stopped by a deadline *)
    if (d =? 0)%N || (st.1 + d <=? l)%N then (Done x, ((st.1 + d)%N, w')) else (Elapsed, (l, st.2))
  | Some (d, x, w'), None => (Done x, ((st.1 + d)%N, w'))
  | None, Some l => (Elapsed, (l, st.2))
  | None, None => (Hang, st)
  end.

#[export] Instance timed_handler_laws : HandlerLaws timed_handler.
Proof.
  split; intros X e lim t w; unfold timed_handler; cbn [fst snd].
  - intros x t' w' Hw. destruct (answer X e t w) as [[[d y] w1]|], lim as [l|];
      simpl in *; breflect; intros [= <- <- <-]; simpl; split; done || lia.
  - intros t' w' Hw. destruct (answer X e t w) as [[[d y] w1]|], lim as [l|];
      simpl in *; breflect; intros [= <- <-]; done.
  - intros st'. destruct (answer X e t w) as [[[d y] w1]|], lim as [l|]; breflect.
Qed.
End timed.

(** * A host *)

Record peer := {
  accepts : bool;
  (** No more bytes come after those of [inbox]. *)
  closed : bool;
  inbox : list byte;
  outbox : list byte;
  next_task : task_id;
}.

Definition peer_net {X} (e : netE X) (p : peer) : option (Duration * X * peer) :=
  match e in netE X return option (Duration * X * peer) with
  | Read _ n =>
    if decide (inbox p = []) then if closed p then Some (0%N, Ok [], p) else None
    else Some (0%N, Ok (take n (inbox p)),
           Build_peer (accepts p) (closed p) (drop n (inbox p)) (outbox p) (next_task p))
  | ReadExact _ n =>
    if decide (n ≤ length (inbox p)) then
      Some (0%N, Ok (take n (inbox p)),
           Build_peer (accepts p) (closed p) (drop n (inbox p)) (outbox p) (next_task p))
    else if closed p then Some (0%N, Err UnexpectedEof, p) else None
  | WriteAll _ bs =>
    Some (0%N, Ok tt,
      Build_peer (accepts p) (closed p) (inbox p) (outbox p ++ bs) (next_task p))
  | Flush _ => Some (0%N, Ok tt, p)
  | Shutdown _ => Some (0%N, Ok tt, p)
  end.

Definition peer_answer X (e : osE X) (t : Instant) (p : peer) : option (Duration * X * peer) :=
  match e with
  | inl1 e => peer_net e p
  | inr1 (inl1 e) =>
    match e in clockE X return option (Duration * X * peer) with
    | Sleep d => Some (d, tt, p)
    | Now => Some (0%N, t, p)
    end
  | inr1 (inr1 (inl1 e)) =>
    match e in taskE X return option (Duration * X * peer) with
    | Spawn => Some (0%N, next_task p,
        Build_peer (accepts p) (closed p) (inbox p) (outbox p) (next_task p + 1)%N)
    | Abort _ => Some (0%N, tt, p)
    end
  | inr1 (inr1 (inr1 e)) =>
    match e in connE X return option (Duration * X * peer) with
    | TcpConnect _ =>
      Some (0%N, if accepts p then Ok 7%N else Err (OtherIo 111), p)
    | SetTcpKeepalive _ _ _ => Some (0%N, Ok tt, p)
    | SetKeepalive _ _ => Some (0%N, Ok tt, p)
    | TlsBuild _ => Some (0%N, Ok tt, p)
    | TlsConnect _ s => Some (0%N, Ok s, p)
    end
  end.

Definition peer_handler : handler osE peer := timed_handler peer_answer.

#[export] Instance peer_laws : RuntimeLaws peer_handler.
Proof.
  split; [apply _|..]; intros; unfold peer_handler, timed_handler; simpl; destruct lim;
    rewrite N.add_0_r; by repeat eexists.
Qed.

(** * A stream cut at will *)

(** The bytes that are still to come, followed by the end of the stream, and how
    many bytes, at least one, each read gets at most. *)
Record segments := { stream_bytes : list byte; cuts : list nat }.

Definition segmented : handler netE segments := λ X e lim st,
  match e in netE X return outcome X * (Instant * segments) with
  | Read _ n =>
    let k := Nat.min n (S (hd n (cuts st.2))) in
    (Done (Ok (take k (stream_bytes st.2))),
     (st.1, Build_segments (drop k (stream_bytes st.2)) (tail (cuts st.2))))
  | ReadExact _ _ => (Hang, st)
  | WriteAll _ _ => (Done (Ok tt), st)
  | Flush _ => (Done (Ok tt), st)
  | Shutdown _ => (Done (Ok tt), st)
  end.
