(* ===== verification/ConnectionHandler.v ===== *)
(** One accepted connection ([src/src/connection_handler.rs]): the handshake, the
    choice of the transport and the loop that serves requests until the session
    ends or the server shuts down.

    [tokio::select!] races a call against [shutdown_rx.changed()].  The moment at
    which the shutdown channel changes next is up to the environment: the event
    [NextChange] foretells it, and the race is the call under that deadline.  What a
    cancelled call has made of [self] is up to the environment as well
    ([Leftover]). *)
From S2P Require Import Prelude Errors ProtocolStructs Vec Headers TimeoutConfig IO Method.
From S2P Require Import Common Transport ServerTL ServerTLS ProtocolHandler Ping.
From stdpp Require Import options.

(** The receiver of a [watch] channel of [bool]. *)
Inductive watchE : Type → Type :=
(** How long [changed()] will take from now on, if it ever completes. *)
| NextChange : watchE (option Duration)
(** [*shutdown_rx.borrow()]. *)
| Borrow : watchE bool.

(** The acceptor of [native_tls]; the state of an interrupted call. *)
Inductive sessionE (P : Type) : Type → Type :=
| TlsAccept (s : stream) : sessionE P (result stream tls_error)
| Leftover (p : P) : sessionE P P.
Arguments TlsAccept {_} _.
Arguments Leftover {_} _.

(** [select!] of [p] and [changed()]; [None] when the change comes first. *)
Definition select_changed {E A} `{!watchE -< E} (p : io E A) : io E (option A) :=
  d ← trigger NextChange;
  match d with
  | Some d => timeout d p
  | None => x ← p; mret (Some x)
  end.

(** [Box<dyn Transport>]: one of the two connection types. *)
Inductive dyn_transport :=
| DynTL (s : ServerTL.t)
| DynTLS (s : ServerTLS.t).

Definition dispatch {A} (tl : method netE ServerTL.t Error A)
    (tls : method netE ServerTLS.t Error A) : method netE dyn_transport Error A := λ d,
  match d with
  | DynTL s => io_bind (tl s) (λ r, Ret (DynTL r.1, r.2))
  | DynTLS s => io_bind (tls s) (λ r, Ret (DynTLS r.1, r.2))
  end.

#[export] Instance dyn_transport_ops : Transport dyn_transport := {|
  Transport.read_command := dispatch Transport.read_command Transport.read_command;
  Transport.receive_data n := dispatch (Transport.receive_data n) (Transport.receive_data n);
  Transport.send_response status data :=
    dispatch (Transport.send_response status data) (Transport.send_response status data);
  Transport.shutdown := dispatch Transport.shutdown Transport.shutdown;
|}.

Module ConnectionHandler.

Record t := mk {
  stream : option stream;
  tls_acceptor : bool;
  max_buffer_size : N;
}.

Definition new (stream : IO.stream) (max_buffer_size : N) : t := mk (Some stream) false max_buffer_size.

Definition set_tls_acceptor (c : t) : t := mk (stream c) true (max_buffer_size c).

Section run.
Context {U : Type → Type} {H : Type} `{ProtocolCommandHandler U H} `{Allocator}.

Abbreviation protocol := (ProtocolHandler.t dyn_transport H).
Abbreviation connectionE := (watchE +' sessionE protocol +' netE +' U).

(** One turn of the [loop]: the protocol state and whether the loop goes on. *)
Definition turn (p : protocol) : io connectionE (protocol * flow) :=
  r ← select_changed (ProtocolHandler.handle_next p : io connectionE _);
  match r with
  | Some (p', Ok keep_alive) => mret (p', if negb keep_alive then Break else Continue)
  | Some (p', Err e) => mret (p', Break)
  | None =>
    p' ← trigger (Leftover p);
    shutdown ← trigger Borrow;
    mret (p', if (shutdown : bool) then Break else Continue)
  end.

(** The [loop], for [fuel] turns; the flag tells whether it has ended. *)
Fixpoint serve (fuel : nat) (p : protocol) : io connectionE (protocol * bool) :=
  match fuel with
  | O => mret (p, false)
  | S fuel =>
    r ← turn p;
    match r with
    | (p', Break) => mret (p', true)
    | (p', Continue) => serve fuel p'
    end
  end.

(** The transport over an accepted stream, after the handshake if there is one. *)
Definition open_transport (c : t) (stream : IO.stream) : io connectionE (Result dyn_transport) :=
  if tls_acceptor c then
    accepted ← trigger (TlsAccept (P := protocol) stream);
    match accepted with
    | Ok tls_stream =>
      let '(tls, r) :=
        ServerTLS.set_max_buffer_size (max_buffer_size c) (ServerTLS.new tls_stream) in
      mret (match r with Ok _ => Ok (DynTLS tls) | Err e => Err e end)
    | Err e => mret (Err (Tls e))
    end
  else
    let '(reader, writer) := (stream, stream) in
    let '(tl, r) := ServerTL.set_max_buffer_size (max_buffer_size c) (ServerTL.new reader writer) in
    mret (match r with Ok _ => Ok (DynTL tl) | Err e => Err e end).

(** [run], its loop cut off after [fuel] turns: [None] when it is still serving. *)
Definition run (fuel : nat) (command_handler : H) (c : t) :
    io connectionE (t * option (Result unit)) :=
  let c' := mk None (tls_acceptor c) (max_buffer_size c) in
  match stream c with
  | None => mret (c', Some (Err NotConnected))
  | Some stream =>
    transport ← open_transport c stream;
    match transport with
    | Err e => mret (c', Some (Err e))
    | Ok transport =>
      served ← serve fuel (ProtocolHandler.new transport command_handler);
      mret (c', if (served : protocol * bool).2 then Some (Ok tt) else None)
    end
  end.
End run.

End ConnectionHandler.
