(* ===== verification/Server.v ===== *)
(** The listening server ([src/src/server.rs]): its configuration, the accept loop
    and the drain of the connections that are still open at shutdown.

    A spawned connection is the event [SpawnConnection], which carries the
    [ConnectionHandler] and the command handler it runs with; the semaphore, the
    listener and the spawned tasks belong to the runtime and answer events. *)
From S2P Require Import Prelude Errors TimeoutConfig IO Method Common Ping ConnectionHandler.
From S2P Require Import ProtocolHandler.
From stdpp Require Import options.

(** A listener and a spawned connection. *)
Abbreviation listener_id := N (only parsing).
Abbreviation join_handle := N (only parsing).

Inductive serverE (H : Type) : Type → Type :=
| Bind (address : string) : serverE H (result listener_id io_error)
| Accept (l : listener_id) : serverE H (result stream io_error)
(** [Semaphore::new]: the number of permits. *)
| NewSemaphore (permits : N) : serverE H unit
(** [acquire_owned().await.ok()]. *)
| Acquire : serverE H (option unit)
(** Drop of a permit that was not handed to a connection. *)
| Release : serverE H unit
| SpawnConnection (c : ConnectionHandler.t) (command_handler : H) : serverE H join_handle
| IsFinished (j : join_handle) : serverE H bool
(** [(&mut handle).await]; a panic of the task is an answer too. *)
| Join (j : join_handle) : serverE H (result unit unit)
| AbortConnection (j : join_handle) : serverE H unit
(** [shutdown_tx.send(v)]; it fails when no receiver is left. *)
| SendShutdown (v : bool) : serverE H (result unit unit).
Arguments Bind {_} _.
Arguments Accept {_} _.
Arguments NewSemaphore {_} _.
Arguments Acquire {_}.
Arguments Release {_}.
Arguments SpawnConnection {_} _ _.
Arguments IsFinished {_} _.
Arguments Join {_} _.
Arguments AbortConnection {_} _.
Arguments SendShutdown {_} _.

Module Server.

Definition ACCEPT_ERROR_BACKOFF : Duration := from_millis 100.
Definition DEFAULT_DRAIN_TIMEOUT : Duration := from_secs 5.

Record t (H : Type) := mk {
  address : string;
  listener : option listener_id;
  is_tls : bool;
  tls_acceptor : bool;
  max_buffer_size : N;
  protocol_command_handler_factory : option (unit → H);
  drain_timeout : Duration;
  max_connections : N;
}.
Arguments mk {_} _ _ _ _ _ _ _ _.
Arguments address {_} _.
Arguments listener {_} _.
Arguments is_tls {_} _.
Arguments tls_acceptor {_} _.
Arguments max_buffer_size {_} _.
Arguments protocol_command_handler_factory {_} _.
Arguments drain_timeout {_} _.
Arguments max_connections {_} _.

Section server.
Context {H : Type}.

Definition new (address : string) (max_buffer_size : N) : t H :=
  mk address None false false max_buffer_size None DEFAULT_DRAIN_TIMEOUT 1024.

(** [set_secure]; parsing the identity and building the acceptor are
    [native_tls]'s, [acceptor] is their result. *)
Definition set_secure (acceptor : result unit tls_error) (s : t H) : t H * BoxResult unit :=
  match acceptor with
  | Err e => (s, Err (BoxedTls e))
  | Ok _ =>
    (mk (address s) (listener s) true true (max_buffer_size s)
       (protocol_command_handler_factory s) (drain_timeout s) (max_connections s), Ok tt)
  end.

Definition set_protocol_command_handler_factory (factory : unit → H) (s : t H) : t H :=
  mk (address s) (listener s) (is_tls s) (tls_acceptor s) (max_buffer_size s) (Some factory)
    (drain_timeout s) (max_connections s).

Definition set_max_connections (max_connections : N) (s : t H) : t H :=
  mk (address s) (listener s) (is_tls s) (tls_acceptor s) (max_buffer_size s)
    (protocol_command_handler_factory s) (drain_timeout s) max_connections.

Definition set_drain_timeout (duration : Duration) (s : t H) : t H :=
  mk (address s) (listener s) (is_tls s) (tls_acceptor s) (max_buffer_size s)
    (protocol_command_handler_factory s) duration (max_connections s).

Abbreviation runE := (serverE H +' watchE +' clockE).

(** [shutdown_handle]: the clone of the sender is what it can send. *)
Definition shutdown_handle (s : t H) : bool → io runE (result unit unit) :=
  λ v, trigger (SendShutdown (H := H) v).

(** [shutdown]: a failed send is only logged. *)
Definition shutdown (s : t H) : io runE unit :=
  r ← shutdown_handle s true;
  match r with Err _ => mret tt | Ok _ => mret tt end.

(** [connection_handles.retain(|h| !h.is_finished())]. *)
Fixpoint retain (handles : list join_handle) : io runE (list join_handle) :=
  match handles with
  | [] => mret []
  | h :: hs =>
    finished ← trigger (IsFinished (H := H) h);
    hs' ← retain hs;
    mret (if (finished : bool) then hs' else h :: hs')
  end.

(** The arm of a connection that was accepted. *)
Definition accepted (s : t H) (factory : unit → H) (stream : stream) : io runE join_handle :=
  let client := ConnectionHandler.new stream (max_buffer_size s) in
  let client :=
    if is_tls s && tls_acceptor s then ConnectionHandler.set_tls_acceptor client else client in
  trigger (SpawnConnection client (factory tt)).

(** One turn of the accept loop. *)
Definition turn (s : t H) (l : listener_id) (factory : unit → H) (handles : list join_handle) :
    io runE (list join_handle * flow) :=
  connection_handles ← retain handles;
  permit ← (if negb (max_connections s =? 0)%N then trigger (Acquire (H := H)) else mret None);
  match permit with
  | None => mret (connection_handles, Break)
  | Some _ =>
    accept_result ← select_changed (trigger (Accept (H := H) l) : io runE _);
    match accept_result with
    | None =>
      shutdown ← trigger Borrow;
      trigger (Release (H := H));;
      mret (connection_handles, if (shutdown : bool) then Break else Continue)
    | Some (Ok stream) =>
      handle ← accepted s factory stream;
      mret (connection_handles ++ [handle], Continue)
    | Some (Err _) =>
      slept ← select_changed (trigger (Sleep ACCEPT_ERROR_BACKOFF) : io runE _);
      shutdown ← match slept with Some _ => mret false | None => trigger Borrow end;
      trigger (Release (H := H));;
      mret (connection_handles, if (shutdown : bool) then Break else Continue)
    end
  end.

(** The accept loop, for [fuel] turns; the flag tells whether it has ended. *)
Fixpoint accept_loop (fuel : nat) (s : t H) (l : listener_id) (factory : unit → H)
    (handles : list join_handle) : io runE (list join_handle * bool) :=
  match fuel with
  | O => mret (handles, false)
  | S fuel =>
    r ← turn s l factory handles;
    match r with
    | (handles, Break) => mret (handles, true)
    | (handles, Continue) => accept_loop fuel s l factory handles
    end
  end.

(** [for handle in connection_handles.drain(i..) { handle.abort() }]. *)
Fixpoint abort_all (handles : list join_handle) : io runE unit :=
  match handles with
  | [] => mret tt
  | h :: hs => trigger (AbortConnection (H := H) h);; abort_all hs
  end.

(** The [while i < connection_handles.len()] loop over the handles from [i] on. *)
Fixpoint drain (drain_timeout : Duration) (drain_start : Instant) (handles : list join_handle) :
    io runE unit :=
  match handles with
  | [] => mret tt
  | h :: hs =>
    t ← trigger Now;
    let elapsed := saturating_sub t drain_start in
    if (drain_timeout <=? elapsed)%N then abort_all (h :: hs)
    else
      let remaining := saturating_sub drain_timeout elapsed in
      r ← timeout remaining (trigger (Join (H := H) h));
      match r with
      | Some _ => drain drain_timeout drain_start hs
      | None => abort_all (h :: hs)
      end
  end.

(** [run], its accept loop cut off after [fuel] turns: [None] when it still
    accepts. *)
Definition run (fuel : nat) (s : t H) : io runE (t H * option (BoxResult unit)) :=
  match protocol_command_handler_factory s with
  | None => mret (s, Some (Err (BoxedStr "Protocol Command Handler is not set.")))
  | Some factory =>
    bound ← trigger (Bind (H := H) (address s));
    match bound with
    | Err e => mret (s, Some (Err (BoxedIo e)))
    | Ok l =>
      let s := mk (address s) (Some l) (is_tls s) (tls_acceptor s) (max_buffer_size s)
        (protocol_command_handler_factory s) (drain_timeout s) (max_connections s) in
      (if negb (max_connections s =? 0)%N then trigger (NewSemaphore (H := H) (max_connections s))
       else mret tt);;
      served ← accept_loop fuel s l factory [];
      match served with
      | (handles, true) =>
        drain_start ← trigger Now;
        drain (drain_timeout s) drain_start handles;;
        mret (s, Some (Ok tt))
      | (_, false) => mret (s, None)
      end
    end
  end.
End server.

End Server.
