(* ===== verification/Permits.v ===== *)
(** The semaphore of the server: permits are neither lost nor made, so the number of
    sessions never exceeds [max_connections]; and a server without a free permit does
    not see its shutdown. *)
From S2P Require Import Prelude Errors ProtocolStructs TimeoutConfig IO Method Common Ping.
From S2P Require Import ProtocolHandler Scripted ConnectionHandler Server.
From stdpp Require Import options.

Section permits.
Context {H : Type}.

Abbreviation runE := (serverE H +' watchE +' clockE).

(** What an answered call of the accept loop does to the permits that are free or held
    by a session: it takes one, gives it back, or hands it to a new session. *)
Definition delta {X} (e : runE X) : X → Z :=
  match e with
  | inl1 e =>
    match e in serverE _ X return X → Z with
    | Acquire => λ r, match r with Some _ => -1 | None => 0 end
    | Release => λ _, 1
    | SpawnConnection _ _ => λ _, 1
    | _ => λ _, 0
    end
  | inr1 _ => λ _, 0
  end%Z.

Definition makes_semaphore {X} (e : runE X) : bool :=
  match e with
  | inl1 e => match e with NewSemaphore _ => true | _ => false end
  | inr1 _ => false
  end.

(** [tokio]'s semaphore: a new one has its permits free; a permit stays with its
    session until the session ends, which may be at any moment. *)
Class PermitLaws {W} (h : handler runE W) (free live : W → N) : Prop := {
  permits_step X (e : runE X) lim t w x t' w' :
    makes_semaphore e = false → h X e lim (t, w) = (Done x, (t', w')) →
    (Z.of_N (free w' + live w') = Z.of_N (free w + live w) + delta e x)%Z;
  permits_cut X (e : runE X) lim t w t' w' :
    makes_semaphore e = false → h X e lim (t, w) = (Elapsed, (t', w')) →
    (free w' + live w' = free w + live w)%N;
  permits_new n lim t w x t' w' :
    h _ (subevent (NewSemaphore (H := H) n)) lim (t, w) = (Done x, (t', w')) →
    free w' = n ∧ live w' = live w;
}.

(** ** The balance of a program *)

(** No event of the program touches a permit. *)
Fixpoint neutral {A} (p : io runE A) : Prop :=
  match p with
  | Ret _ => True
  | Vis e k => makes_semaphore e = false ∧ (∀ x, delta e x = 0%Z) ∧ ∀ x, neutral (k x)
  | Timeout _ q k => neutral q ∧ ∀ r, neutral (k r)
  end.

(** [balanced p d Q]: with the balance [d] before it, [p] ends in [Q]. *)
Fixpoint balanced {A} (p : io runE A) (d : Z) : (A → Z → Prop) → Prop :=
  match p with
  | Ret a => λ Q, Q a d
  | Vis e k => λ Q, makes_semaphore e = false ∧ ∀ x, balanced (k x) (d + delta e x) Q
  | Timeout _ q k => λ Q, neutral q ∧ ∀ r, balanced (k r) d Q
  end.

Lemma balanced_bind {A B} (p : io runE A) (f : A → io runE B) d Q :
  balanced p d (λ a d', balanced (f a) d' Q) → balanced (io_bind p f) d Q.
Proof using Type.
  revert d f Q. induction p as [A a|A X e k IH|A C t q _ k IH]; intros d f Q; simpl; [done| |].
  - intros [Hs Hk]. split; [done|]. intros x. by apply IH.
  - intros [Hq Hk]. split; [done|]. intros r. by apply IH.
Qed.

Context {W : Type} (h : handler runE W) (free live : W → N) `{!PermitLaws h free live}.

Abbreviation sum w := (Z.of_N (free w + live w)).

Lemma exec_neutral {A} (p : io runE A) lim st :
  neutral p → (exec h p lim st).1 ≠ Hang → sum (exec h p lim st).2.2 = sum st.2.
Proof using All.
  revert lim st. induction p as [A a|A X e k IH|A C d q IHq k IH]; intros lim [t w]; simpl; [done| |].
  - intros (Hs & Hd & Hk). destruct (h X e lim (t, w)) as [[x| |] [t1 w1]] eqn:He; [| |done].
    + intros Hh. rewrite IH by done. cbn [snd]. erewrite (permits_step _ e) by done. rewrite Hd. lia.
    + intros _. cbn [snd]. by erewrite (permits_cut _ e) by done.
  - intros [Hq Hk] Hh. specialize (IHq (Some (min_limit lim (t + d))) (t, w) Hq).
    destruct (exec h q _ (t, w)) as [[b| |] st1]; simpl in *; [| |done].
    + rewrite IH by done. by apply IHq.
    + destruct (inner_first _ _); [rewrite IH by done|]; by apply IHq.
Qed.

Lemma exec_balanced {A} (p : io runE A) d Q lim st a st' :
  balanced p d Q → exec h p lim st = (Done a, st') →
  ∃ d', Q a d' ∧ (sum st'.2 = sum st.2 + d' - d)%Z.
Proof using All.
  revert d Q lim st. induction p as [A a0|A X e k IH|A C τ q _ k IH]; intros d Q lim [t w]; simpl.
  - intros HQ [= <- <-]. exists d. split; [done|]. simpl. lia.
  - intros [Hs Hk]. destruct (h X e lim (t, w)) as [[x| |] [t1 w1]] eqn:He; [|done..]. intros Hx.
    destruct (IH x _ _ _ _ _ (Hk x) Hx) as (d' & HQ & Hd). exists d'. split; [done|].
    pose proof (permits_step _ e _ _ _ _ _ _ Hs He). cbn [snd] in *. lia.
  - intros [Hq Hk]. pose proof (exec_neutral q (Some (min_limit lim (t + τ))) (t, w) Hq) as Hn.
    destruct (exec h q _ (t, w)) as [[b| |] st1]; simpl in *; [| |done].
    + intros Hx. destruct (IH _ _ _ _ _ _ (Hk _) Hx) as (d' & HQ & Hd). exists d'.
      split; [done|]. rewrite Hd, Hn by done. lia.
    + destruct (inner_first _ _); [|done]. intros Hx.
      destruct (IH _ _ _ _ _ _ (Hk _) Hx) as (d' & HQ & Hd). exists d'.
      split; [done|]. rewrite Hd, Hn by done. lia.
Qed.

(** ** The accept loop *)

Lemma retain_balanced hs d Q : (∀ hs', Q hs' d) → balanced (Server.retain (H := H) hs) d Q.
Proof using Type.
  revert Q. induction hs as [|j hs IH]; intros Q HQ; cbn [Server.retain]; [apply HQ|].
  simpl. split; [done|]. intros b. rewrite Z.add_0_r. apply balanced_bind, IH. intros hs'. apply HQ.
Qed.

Lemma drain_balanced d t0 hs z Q : Q tt z → balanced (Server.drain (H := H) d t0 hs) z Q.
Proof using Type.
  intros HQ. assert (∀ hs z, Q tt z → balanced (Server.abort_all (H := H) hs) z Q) as Ha.
  { clear. intros hs. induction hs as [|j hs IH]; intros z HQ; [done|].
    simpl. split; [done|]. intros []. rewrite Z.add_0_r. by apply IH. }
  revert z HQ. induction hs as [|j hs IH]; intros z HQ; [done|]. cbn [Server.drain]. simpl.
  split; [done|]. intros t. rewrite Z.add_0_r. case_match; [by apply (Ha (j :: hs))|].
  split; [by repeat split|]. intros [r|]; [by apply IH|by apply (Ha (j :: hs))].
Qed.

(** A turn gives back the permit it takes, or hands it to a session. *)
Lemma turn_balanced s l factory hs d Q :
  (∀ r, Q r d) → balanced (Server.turn (H := H) s l factory hs) d Q.
Proof using Type.
  intros HQ. assert (∀ r z, z = d → Q r z) as HQ' by (intros r z ->; apply HQ).
  unfold Server.turn. apply balanced_bind, retain_balanced. intros hs'.
  destruct (Server.max_connections s =? 0)%N; [apply HQ|]. unfold select_changed, Server.accepted.
  repeat (simpl; match goal with
    | |- _ ∧ _ => split
    | |- ∀ _ : option (result _ _), _ => intros [[?|?]|]
    | |- ∀ _ : result _ _, _ => intros [?|?]
    | |- ∀ _ : option _, _ => intros [?|]
    | |- ∀ _ : bool, _ => intros []
    | |- ∀ _, _ => intros ?
    end); try done; apply HQ'; lia.
Qed.

Lemma accept_loop_balanced fuel s l factory hs d Q :
  (∀ r, Q r d) → balanced (Server.accept_loop (H := H) fuel s l factory hs) d Q.
Proof using Type.
  intros HQ. revert hs. induction fuel as [|fuel IH]; intros hs; cbn [Server.accept_loop]; [apply HQ|].
  apply balanced_bind, turn_balanced. intros [hs' []]; [apply IH|apply HQ].
Qed.
End permits.

(** C13: no more than [max_connections] sessions run at a time, and no permit is lost.
    However connections come, end, fail and are interrupted by the shutdown, after
    any number of turns of the accept loop, and at the end of [run], the free permits
    and the sessions add up to [max_connections]; only a [run] that could not bind
    its address has no semaphore. *)
Theorem connections_are_bounded {H W} (h : handler (serverE H +' watchE +' clockE) W)
    (free live : W → N) `{!PermitLaws h free live} fuel s factory lim t w s' r t' w' :
  Server.max_connections s ≠ 0%N → Server.protocol_command_handler_factory s = Some factory →
  (∀ a t w x t' w', h _ (subevent (Bind (H := H) a)) lim (t, w) = (Done x, (t', w')) → live w' = live w) →
  live w = 0%N →
  exec h (Server.run fuel s) lim (t, w) = (Done (s', r), (t', w')) →
  (∃ e, r = Some (Err (BoxedIo e))) ∨
  (free w' + live w' = Server.max_connections s ∧ live w' <= Server.max_connections s)%N.
Proof.
  intros Hmax Hfac Hbind Hlive. unfold Server.run. rewrite Hfac, exec_bind, exec_trigger.
  destruct (h _ (subevent (Bind _)) lim (t, w)) as [[[l|e]| |] [t1 w1]] eqn:Hb; [|intros [= <- <- <- <-]|done..].
  2: { left. by exists e. }
  apply Hbind in Hb. cbn [Server.max_connections]. rewrite (proj2 (N.eqb_neq _ _) Hmax). cbn [negb].
  rewrite exec_bind, exec_trigger.
  destruct (h _ (subevent (NewSemaphore _)) lim (t1, w1)) as [[[]| |] [t2 w2]] eqn:Hn; [|done..].
  apply permits_new in Hn as [Hf Hl].
  intros Hrun. eapply (exec_balanced h free live _ 0 (λ _ d, d = 0%Z)) in Hrun as (d & -> & Hd); cbn [snd] in *.
  - right. lia.
  - apply balanced_bind, accept_loop_balanced. intros [hs []]; [|done]. simpl. split; [done|].
    intros t0. by apply balanced_bind, drain_balanced.
Qed.

(** A runtime with a semaphore: the free permits and the sessions.  A connection comes
    every 10 ns; sessions end only when they are aborted; the signal is due at [T]. *)
Definition busy_answer (T : Instant) X (e : (serverE N +' watchE +' clockE) X) (t : Instant)
    (w : N * N) : option (Duration * X * (N * N)) :=
  match e with
  | inl1 e =>
    match e in serverE _ X return option (Duration * X * (N * N)) with
    | Bind _ => Some (0%N, Ok 3%N, w)
    | Accept _ => Some (10%N, Ok 1%N, w)
    | NewSemaphore n => Some (0%N, tt, (n, w.2))
    | Acquire => if (w.1 =? 0)%N then None else Some (0%N, Some tt, (w.1 - 1, w.2)%N)
    | Release => Some (0%N, tt, (w.1 + 1, w.2)%N)
    | SpawnConnection _ _ => Some (0%N, t, (w.1, w.2 + 1)%N)
    | IsFinished _ => Some (0%N, false, w)
    | Join _ => None
    | AbortConnection j =>
      Some (0%N, tt, if (w.2 =? 0)%N then w else (w.1 + 1, w.2 - 1)%N)
    | SendShutdown _ => Some (0%N, Ok tt, w)
    end
  | inr1 (inl1 e) =>
    match e in watchE X return option (Duration * X * (N * N)) with
    | NextChange => Some (0%N, Some (T - t)%N, w)
    | Borrow => Some (0%N, (T <=? t)%N, w)
    end
  | inr1 (inr1 e) =>
    match e in clockE X return option (Duration * X * (N * N)) with
    | Sleep d => Some (d, tt, w)
    | Now => Some (0%N, t, w)
    end
  end.

Definition busy (T : Instant) := timed_handler (busy_answer T).

#[export] Instance busy_permits T : PermitLaws (busy T) fst snd.
Proof.
  split.
  - intros X e lim t [f l] x t' [f' l'] Hs. unfold busy, timed_handler.
    destruct e as [e|[e|e]]; destruct e; try done; simpl; intros He;
      repeat (case_match; simplify_eq/=); lia.
  - intros X e lim t [f l] t' [f' l'] Hs. unfold busy, timed_handler.
    intros He. repeat (case_match; simplify_eq/=); lia.
  - intros n lim t [f l] x t' [f' l']. unfold busy, timed_handler. simpl.
    intros He. repeat (case_match; simplify_eq/=); done.
Qed.

Definition two_connections : Server.t N :=
  Server.set_max_connections 2
    (Server.set_protocol_command_handler_factory (λ _, 0%N) (Server.new "h:1" 0)).

Lemma connections_are_bounded_witness :
  ∃ s' r t' w', exec (busy 15) (Server.run 3 two_connections) None (0%N, (0, 0)%N) =
    (Done (s', r), (t', w')) ∧ (w'.1 + w'.2 = 2 ∧ w'.2 <= 2)%N.
Proof.
  do 4 eexists.
  match goal with |- ?A ∧ _ => assert A as He by (vm_compute; reflexivity) end.
  split; [exact He|].
  destruct (connections_are_bounded (busy 15) fst snd 3 two_connections (λ _, 0%N) None 0 (0, 0)%N
    _ _ _ _ ltac:(done) eq_refl ltac:(by intros ??? ??? [= <- <- <-]) eq_refl He)
    as [[e Hr]|Hb]; [discriminate Hr|exact Hb].
Defined.

