(* ===== verification/ClientTL.v ===== *)
(** The plain TCP client ([src/src/client_tl.rs]).

    A [ClientTL] owns its buffer and its configuration; the stream and the state of
    the ping task are the cells of [Ping], shared with the task. *)
From S2P Require Import Prelude Errors ProtocolStructs Vec Headers TimeoutConfig IO Method Common.
From S2P Require Import Duet Follows Ping.
From stdpp Require Import options.

Module ClientTL.

Record t := mk {
  address : string;
  command_has_answer : bool;
  buffer : Vec.t;
  max_buffer_size : N;
  timeout_config : TimeoutConfig.t;
  keep_alive : bool;
}.

Definition with_buffer (buffer : Vec.t) (s : t) : t :=
  mk (address s) (command_has_answer s) buffer (max_buffer_size s) (timeout_config s)
    (keep_alive s).

(** A client and the shared state it creates, at the instant [t0]. *)
Definition new (address : string) (t0 : Instant) : t * shared :=
  let timeout_config := TimeoutConfig.default in
  let ping_config := PingConfig.mk (TimeoutConfig.ping_interval timeout_config)
    (ZERO <? TimeoutConfig.ping_interval timeout_config)%N in
  (mk address true (Vec.with_capacity DEFAULT_MAX_BUFFER_SIZE) DEFAULT_MAX_BUFFER_SIZE
     timeout_config false,
   PingState_new ping_config TimeoutConfig.default t0).

Definition set_max_buffer_size `{Allocator} (buffer_size : N) (s : t) : t * Result unit :=
  let limit := if (0 <? buffer_size)%N then buffer_size else DEFAULT_MAX_BUFFER_SIZE in
  let additional := saturating_sub limit (Vec.len (buffer s)) in
  match Vec.try_reserve additional (buffer s) with
  | (_, Err e) =>
    (s, Err (Config ("max_buffer_size " +:+ show limit
      +:+ " cannot be reserved on this system: " +:+ Vec.show_try_reserve_error e)))
  | (buffer, Ok _) =>
    (mk (address s) (command_has_answer s) buffer limit (timeout_config s) (keep_alive s),
     Ok tt)
  end.

Definition set_command_has_answer (b : bool) (s : t) : t :=
  mk (address s) b (buffer s) (max_buffer_size s) (timeout_config s) (keep_alive s).

Definition set_keep_alive (enabled : bool) (s : t) : io clientE t :=
  (if negb enabled && keep_alive s then
     PingState.stop_ping_task;;
     store CStream None
   else mret tt);;
  config ← lock CConfig;
  put CConfig (PingConfig.mk (PingConfig.interval config)
    (enabled && (ZERO <? PingConfig.interval config)%N));;
  unlock CConfig;;
  mret (mk (address s) (command_has_answer s) (buffer s) (max_buffer_size s)
    (timeout_config s) enabled).

Definition set_timeout_config (c : TimeoutConfig.t) : method clientE t Error unit := λ s,
  let config := TimeoutConfig.with_ping_interval (TimeoutConfig.ping_interval c) c in
  match TimeoutConfig.validate config with
  | Err e => mret (s, Err e)
  | Ok _ =>
    let ping_enabled := keep_alive s && (ZERO <? TimeoutConfig.ping_interval config)%N in
    lock CConfig;;
    put CConfig (PingConfig.mk (TimeoutConfig.ping_interval config) ping_enabled);;
    store CTimeoutConfig config;;
    unlock CConfig;;
    mret (mk (address s) (command_has_answer s) (buffer s) (max_buffer_size s) config
            (keep_alive s), Ok tt)
  end.

(** * Connecting *)

(** The socket options of a kept-alive connection; failures are only logged. *)
Definition set_socket_options (s : t) (stream : stream) : io clientE unit :=
  if keep_alive s then
    match TimeoutConfig.keep_alive (timeout_config s) with
    | Some ka =>
      trigger (SetTcpKeepalive stream (KeepAliveConfig.time ka) (KeepAliveConfig.interval ka));;
      mret tt
    | None => trigger (SetKeepalive stream true);; mret tt
    end
  else mret tt.

(** The arm of a successful [TcpStream::connect]. *)
Definition established (s : t) (stream : stream) : io clientE (Result unit) :=
  set_socket_options s stream;;
  store CStream (Some stream);;
  PingState.stop_ping_task;;
  enabled ← (if keep_alive s then PingState.is_enabled else mret false);
  (if (enabled : bool) then PingState.start_ping_task else mret tt);;
  mret (Ok tt).

(** The [while tries < DEFAULT_MAX_CONNECT_RETRIES] loop and what follows it. *)
Fixpoint connect_loop (fuel : nat) (s : t) (tries : nat) : io clientE (Result unit) :=
  match fuel with
  | O => mret (Ok tt)
  | S fuel =>
    if decide (tries < DEFAULT_MAX_CONNECT_RETRIES) then
      r ← timeout (TimeoutConfig.connect (timeout_config s)) (trigger (TcpConnect (address s)));
      match r with
      | Some (Ok stream) => established s stream
      | Some (Err _) => sleep DEFAULT_CONNECT_RETRY_DELAY;; connect_loop fuel s (S tries)
      | None => sleep DEFAULT_CONNECT_RETRY_DELAY;; connect_loop fuel s (S tries)
      end
    else
      stream ← load CStream;
      if is_none stream && bool_decide (DEFAULT_MAX_CONNECT_RETRIES ≤ tries) then
        mret (Err (into "Connection error, max retries reached"))
      else mret (Ok tt)
  end.

(** Ten attempts and the turn that leaves the loop. *)
Definition connect_fuel : nat := S DEFAULT_MAX_CONNECT_RETRIES.

Definition connect (s : t) : io clientE (Result unit) :=
  r ← timeout (TimeoutConfig.connect_total (timeout_config s)) (connect_loop connect_fuel s 0);
  match r with
  | Some r => mret r
  | None => mret (Err (ETimeout "connect total deadline exceeded"))
  end.

Definition disconnect : io clientE (Result unit) :=
  PingState.stop_ping_task;;
  stream_guard ← lock CStream;
  r ← match stream_guard with
      | Some stream => shutdown stream
      | None => mret (Ok tt)
      end;
  put CStream None;;
  unlock CStream;;
  match r with
  | Err e => mret (Err (into e))
  | Ok _ => mret (Ok tt)
  end.

(** * One exchange over the locked stream; the state is the client's buffer *)

Definition send_request_header_locked (stream : stream) (command data_size : N)
    (timeout : Duration) : method netE Vec.t Error unit :=
  let request_header := RequestHeader.new command data_size in
  modify Vec.clear;;
  encoded ← gets (RequestHeader.encode request_header);
  buf ← question encoded;
  modify (λ _, buf);;
  timed timeout (write_all stream (Vec.data buf)) (ETimeout "Sending request header");;
  await_q (flush stream);;
  modify Vec.clear.

Definition send_response_header_locked (stream : stream) (status : byte) (data_size : N)
    (timeout : Duration) : method netE Vec.t Error unit :=
  let is_default := (data_size =? 0)%N in
  let response_header := ResponseHeader.new status data_size in
  modify Vec.clear;;
  encoded ← gets (λ buffer, ResponseHeader.encode response_header buffer is_default);
  buf ← question encoded;
  modify (λ _, buf);;
  timed timeout (write_all stream (Vec.data buf)) (ETimeout "Sending response header");;
  await_q (flush stream);;
  modify Vec.clear.

Definition receive_response_header_locked (stream : stream)
    (is_default command_has_answer : bool) (read_header_timeout : Duration)
    (max_buffer_size : N) : method netE Vec.t Error ResponseHeader.t :=
  let result_buf_size := ResponseHeader.encoded_len is_default command_has_answer in
  modify (Vec.resize result_buf_size);;
  buffer ← gets id;
  bytes ← timed read_header_timeout (read_exact stream (length (Vec.data buffer)))
    (ETimeout "Waiting for response header");
  modify (Vec.overwrite bytes);;
  let decode_as_default := is_default || negb command_has_answer in
  decoded ← gets (λ buffer,
    ResponseHeader.decode (Vec.data buffer) decode_as_default max_buffer_size);
  response_header ← question decoded;
  modify Vec.clear;;
  mret response_header.1.

Definition send_message_locked (stream : stream) (command : N) (data : list byte)
    (timeout_config : TimeoutConfig.t) (command_has_answer : bool) (max_buffer_size : N) :
    method netE Vec.t Error unit :=
  send_request_header_locked stream command (as_u32 (len data))
    (TimeoutConfig.write timeout_config);;
  ack_header ← receive_response_header_locked stream true command_has_answer
    (TimeoutConfig.read_header timeout_config) max_buffer_size;
  if negb (bool_decide (ResponseHeader.status ack_header = x01)) then
    fail (ResponseError (ResponseHeader.status ack_header))
  else
    timed (TimeoutConfig.write timeout_config) (write_all stream data)
      (ETimeout "Sending message data");;
    await_q (flush stream);;
    modify Vec.clear.

Definition receive_message_locked (stream : stream) (timeout_config : TimeoutConfig.t)
    (command_has_answer : bool) (max_buffer_size : N) : method netE Vec.t Error (list byte) :=
  res_header ← receive_response_header_locked stream false command_has_answer
    (TimeoutConfig.read_header timeout_config) max_buffer_size;
  let status := ResponseHeader.status res_header in
  let data_size := ResponseHeader.data_size res_header in
  send_response_header_locked stream x01 0 (TimeoutConfig.write timeout_config);;
  if negb (bool_decide (status = x01)) then fail (ResponseError status)
  else if (max_buffer_size <? data_size)%N then fail (BufferOverflow data_size max_buffer_size)
  else if (data_size =? 0)%N then modify Vec.clear;; mret []
  else
    modify (Vec.resize (N.to_nat data_size));;
    buffer ← gets id;
    bytes ← timed (TimeoutConfig.read_data timeout_config)
      (read_exact_or_closed stream (length (Vec.data buffer)))
      (ETimeout "Waiting for message data");
    modify (Vec.overwrite bytes);;
    gets Vec.data.

(** The [async] block of [handle_message]. *)
Definition exchange (stream : stream) (command : N) (request_data : list byte) :
    method netE t Error (list byte) :=
  self ← gets id;
  zoom buffer with_buffer
    (send_message_locked stream command request_data (timeout_config self)
       (command_has_answer self) (max_buffer_size self);;
     receive_message_locked stream (timeout_config self) (command_has_answer self)
       (max_buffer_size self)).

Definition handle_message (command : N) (request_data : list byte) :
    method clientE t Error (list byte) := λ s,
  disconnected ← (if keep_alive s then is_none <$> load CStream else mret true);
  r ← (if (disconnected : bool) then connect s else mret (Ok tt));
  match r with
  | Err e => mret (s, Err e)
  | Ok _ =>
    lock CInFlight;;
    stream_guard ← lock CStream;
    match stream_guard with
    | None => unlock CStream;; unlock CInFlight;; mret (s, Err NotConnected)
    | Some stream =>
      sr ← lift (exchange stream command request_data s);
      match sr.2 with
      | Err _ => put CStream None;; PingState.stop_ping_task
      | Ok _ => PingState.touch_activity
      end;;
      unlock CStream;; unlock CInFlight;;
      mret sr
    end
  end.

(** The guard's drop restores [true]. *)
Definition handle_message_with_no_answer (command : N) (request_data : list byte) :
    method clientE t Error (list byte) := λ s,
  sr ← handle_message command request_data (set_command_has_answer false s);
  mret (set_command_has_answer true sr.1, sr.2).

(** [impl Drop for ClientTL]. *)
Definition drop : io clientE unit :=
  task_handle ← try_lock CTaskHandle;
  match task_handle with
  | Some h =>
    put CTaskHandle None;;
    match h with Some handle => trigger (Abort handle) | None => mret tt end;;
    unlock CTaskHandle
  | None => mret tt
  end;;
  should_stop ← try_lock CShouldStop;
  match should_stop with
  | Some _ => put CShouldStop true;; unlock CShouldStop
  | None => mret tt
  end.

(** * The byte-level behaviour of an exchange *)

Lemma tl_follows_send_request_header st command size timeout b :
  ∃ b', follows (send_request_header_locked st command size timeout b)
    (outs (RequestHeader.wire (RequestHeader.new command size))) (b', Ok tt).
Proof.
  destruct (RequestHeader.request_encode_wire (RequestHeader.new command size) (Vec.clear b))
    as (b1 & He & Hd).
  eexists. unfold send_request_header_locked. fstart.
  { fsteps. fdecode He. fsteps. fend. }
  rewrite Hd. ftrace.
Qed.

Lemma tl_follows_send_response_header st status timeout b :
  ∃ b', follows (send_response_header_locked st status 0 timeout b) (outs [status]) (b', Ok tt).
Proof.
  destruct (ResponseHeader.response_encode_wire (ResponseHeader.new status 0) (Vec.clear b) true)
    as (b1 & He & Hd).
  eexists. unfold send_response_header_locked. fstart.
  { fsteps. fdecode He. fsteps. fend. }
  rewrite Hd. ftrace.
Qed.

Lemma tl_follows_receive_ack st ans timeout max a b :
  ∃ b', follows (receive_response_header_locked st true ans timeout max b) (ins [a])
    (b', Ok (ResponseHeader.new a 0)).
Proof.
  eexists. unfold receive_response_header_locked. fstart.
  { fsteps. fread [a] ltac:(symmetry; apply Vec.data_resize). fsteps.
    fdecode ResponseHeader.decode_default. fsteps. fend. }
  ftrace.
Qed.

Lemma tl_follows_receive_frame st timeout max h b :
  ResponseHeader.wf h → (ResponseHeader.data_size h <= max)%N →
  ∃ b', follows (receive_response_header_locked st false true timeout max b)
    (ins (ResponseHeader.wire h false)) (b', Ok h).
Proof.
  intros Hwf Hle. eexists. unfold receive_response_header_locked. fstart.
  { fsteps. fread (ResponseHeader.wire h false) ltac:(symmetry; apply Vec.data_resize).
    fsteps. eapply follows_mbind.
    { apply follows_question_Ok. cbn [Vec.overwrite Vec.data orb negb].
      rewrite <-(app_nil_r (ResponseHeader.wire h false)), ResponseHeader.response_decode_wire by done.
      destruct (N.ltb_spec max (ResponseHeader.data_size h)); [lia|reflexivity]. }
    cbv beta iota. fsteps. fend. }
  ftrace.
Qed.

Lemma tl_follows_send_message st command data c ans max b :
  ∃ b', follows (send_message_locked st command data c ans max b)
    (outs (RequestHeader.wire (RequestHeader.new command (as_u32 (len data)))) ++ ins [x01] ++
     outs data) (b', Ok tt).
Proof.
  unfold send_message_locked.
  destruct (tl_follows_send_request_header st command (as_u32 (len data)) (TimeoutConfig.write c) b)
    as (b1 & H1).
  destruct (tl_follows_receive_ack st ans (TimeoutConfig.read_header c) max x01 b1) as (b2 & H2).
  eexists. fstart. { fcall H1. fcall H2. fsteps. fend. } ftrace.
Qed.

Lemma tl_follows_send_message_rejected st command data c ans max a b :
  a ≠ x01 →
  ∃ b', follows (send_message_locked st command data c ans max b)
    (outs (RequestHeader.wire (RequestHeader.new command (as_u32 (len data)))) ++ ins [a])
    (b', Err (ResponseError a)).
Proof.
  intros Ha. unfold send_message_locked.
  destruct (tl_follows_send_request_header st command (as_u32 (len data)) (TimeoutConfig.write c) b)
    as (b1 & H1).
  destruct (tl_follows_receive_ack st ans (TimeoutConfig.read_header c) max a b1) as (b2 & H2).
  eexists. fstart.
  { fcall H1. fcall H2. cbn [ResponseHeader.status]. rewrite bool_decide_false by done. fend. }
  ftrace.
Qed.

(** What the client makes of a response. *)
Definition response_result (status : byte) (payload : list byte) : Result (list byte) :=
  if bool_decide (status = x01) then Ok payload else Err (ResponseError status).

(** The payload of a response with another status stays in the connection. *)
Definition response_read (status : byte) (payload : list byte) : list byte :=
  if bool_decide (status = x01) then payload else [].

Lemma tl_follows_receive_message st c max status payload b :
  (len payload < u32_modulus)%N → (len payload <= max)%N →
  ∃ b', follows (receive_message_locked st c true max b)
    (ins (ResponseHeader.wire (ResponseHeader.new status (len payload)) false) ++ outs [x01] ++
     ins (response_read status payload)) (b', response_result status payload).
Proof.
  intros Hwf Hle. unfold receive_message_locked.
  destruct (tl_follows_receive_frame st (TimeoutConfig.read_header c) max
    (ResponseHeader.new status (len payload)) b) as (b1 & H1); [done..|].
  destruct (tl_follows_send_response_header st x01 (TimeoutConfig.write c) b1) as (b2 & H2).
  unfold response_read, response_result. case_bool_decide as Hst.
  - destruct payload as [|x payload].
    + eexists. fstart.
      { fcall H1. fcall H2. cbn [ResponseHeader.status ResponseHeader.data_size].
        rewrite bool_decide_true by done. cbn [negb]. rewrite len_nil.
        destruct (N.ltb_spec max 0); [lia|]. fsteps. fend. }
      ftrace.
    + eexists. fstart.
      { fcall H1. fcall H2. cbn [ResponseHeader.status ResponseHeader.data_size].
        rewrite bool_decide_true by done. cbn [negb].
        destruct (N.ltb_spec max (len (x :: payload))); [lia|].
        destruct (N.eqb_spec (len (x :: payload)) 0); [done|].
        fsteps. fread (x :: payload) ltac:(rewrite to_nat_len; symmetry; apply Vec.data_resize).
        fsteps. fend. }
      ftrace.
  - eexists. fstart.
    { fcall H1. fcall H2. cbn [ResponseHeader.status ResponseHeader.data_size].
      rewrite bool_decide_false by done. cbn [negb]. fend. }
    ftrace.
Qed.

(** * The exchange *)

Lemma tl_follows_exchange st command data status payload s :
  command_has_answer s = true →
  (len payload < u32_modulus)%N → (len payload <= max_buffer_size s)%N →
  ∃ b', follows (exchange st command data s)
    (outs (RequestHeader.wire (RequestHeader.new command (as_u32 (len data)))) ++ ins [x01] ++
     outs data ++
     ins (ResponseHeader.wire (ResponseHeader.new status (len payload)) false) ++ outs [x01] ++
     ins (response_read status payload)) (with_buffer b' s, response_result status payload).
Proof.
  intros Hans Hwf Hle. unfold exchange.
  destruct (tl_follows_send_message st command data (timeout_config s) true (max_buffer_size s)
    (buffer s)) as (b1 & H1).
  destruct (tl_follows_receive_message st (timeout_config s) (max_buffer_size s) status payload b1)
    as (b2 & H2); [done..|].
  exists b2. fstart.
  { fstep. cbn [id]. rewrite Hans. unfold zoom.
    eapply follows_io_bind; [fcall H1; exact H2|]. done. }
  ftrace.
Qed.

(** In no-answer mode the client takes the first byte of a response for all of it. *)
Lemma tl_follows_exchange_no_answer st command data s :
  command_has_answer s = false →
  ∃ b', follows (exchange st command data s)
    (outs (RequestHeader.wire (RequestHeader.new command (as_u32 (len data)))) ++ ins [x01] ++
     outs data ++ ins [x01] ++ outs [x01]) (with_buffer b' s, Ok []).
Proof.
  intros Hans. unfold exchange.
  destruct (tl_follows_send_message st command data (timeout_config s) false (max_buffer_size s)
    (buffer s)) as (b1 & H1).
  assert (∃ b2, follows (receive_response_header_locked st false false
    (TimeoutConfig.read_header (timeout_config s)) (max_buffer_size s) b1) (ins [x01])
    (b2, Ok (ResponseHeader.new x01 0))) as (b2 & H2)
    by exact (tl_follows_receive_ack st false _ _ x01 b1).
  destruct (tl_follows_send_response_header st x01 (TimeoutConfig.write (timeout_config s)) b2)
    as (b3 & H3).
  eexists. fstart.
  { fstep. cbn [id]. rewrite Hans. unfold zoom. eapply follows_io_bind.
    { fcall H1. unfold receive_message_locked. fcall H2. fcall H3.
      cbn [ResponseHeader.status ResponseHeader.data_size]. rewrite bool_decide_true by done.
      cbn [negb]. destruct (N.ltb_spec (max_buffer_size s) 0); [lia|]. fsteps. fend. }
    done. }
  ftrace.
Qed.

(** A request that is not acknowledged with 1 stops before its payload. *)
Lemma tl_follows_exchange_rejected st command data a s :
  a ≠ x01 →
  ∃ b', follows (exchange st command data s)
    (outs (RequestHeader.wire (RequestHeader.new command (as_u32 (len data)))) ++ ins [a])
    (with_buffer b' s, Err (ResponseError a)).
Proof.
  intros Ha. unfold exchange.
  destruct (tl_follows_send_message_rejected st command data (timeout_config s)
    (command_has_answer s) (max_buffer_size s) a (buffer s)) as (b1 & H1); [done|].
  exists b1. fstart.
  { fstep. unfold zoom. eapply follows_io_bind; [apply follows_mbind_err, H1|]. done. }
  ftrace.
Qed.

End ClientTL.
