(* ===== verification/ClientTLS.v ===== *)
(** The TLS client ([src/src/client_tls.rs]).

    The operations are those of [ClientTL] over a TLS stream, with the certificate
    and domain checks of [connect] and with errors that are boxed on the way: the
    private functions answer a [Box<dyn Error>], which [handle_message] turns into
    [Error::Other]. *)
From S2P Require Import Prelude Errors ProtocolStructs Vec Headers TimeoutConfig IO Method Common.
From S2P Require Import Duet Follows Morphism Ping ClientTL.
From stdpp Require Import options.

Module ClientTLS.

Record t := mk {
  accept_invalid_certs : bool;
  address : string;
  domain : string;
  command_has_answer : bool;
  buffer : Vec.t;
  max_buffer_size : N;
  timeout_config : TimeoutConfig.t;
  keep_alive : bool;
}.

Definition with_buffer (buffer : Vec.t) (s : t) : t :=
  mk (accept_invalid_certs s) (address s) (domain s) (command_has_answer s) buffer
    (max_buffer_size s) (timeout_config s) (keep_alive s).

Definition PLACEHOLDER_DOMAIN : string := "example.org".

(** A client and the shared state it creates, at the instant [t0]. *)
Definition new (address : string) (t0 : Instant) : t * shared :=
  let timeout_config := TimeoutConfig.default in
  let ping_config := PingConfig.mk (TimeoutConfig.ping_interval timeout_config)
    (ZERO <? TimeoutConfig.ping_interval timeout_config)%N in
  (mk false address PLACEHOLDER_DOMAIN true (Vec.with_capacity DEFAULT_MAX_BUFFER_SIZE)
     DEFAULT_MAX_BUFFER_SIZE timeout_config false,
   PingState_new ping_config TimeoutConfig.default t0).

Definition set_max_buffer_size `{Allocator} (buffer_size : N) (s : t) : t * Result unit :=
  let limit := if (0 <? buffer_size)%N then buffer_size else DEFAULT_MAX_BUFFER_SIZE in
  let additional := saturating_sub limit (Vec.len (buffer s)) in
  match Vec.try_reserve additional (buffer s) with
  | (_, Err e) =>
    (s, Err (Config ("max_buffer_size " +:+ show limit
      +:+ " cannot be reserved on this system: " +:+ Vec.show_try_reserve_error e)))
  | (buffer, Ok _) =>
    (mk (accept_invalid_certs s) (address s) (domain s) (command_has_answer s) buffer limit
       (timeout_config s) (keep_alive s), Ok tt)
  end.

Definition set_command_has_answer (b : bool) (s : t) : t :=
  mk (accept_invalid_certs s) (address s) (domain s) b (buffer s) (max_buffer_size s)
    (timeout_config s) (keep_alive s).

Definition danger_accept_invalid_certs (b : bool) (s : t) : t :=
  mk b (address s) (domain s) (command_has_answer s) (buffer s) (max_buffer_size s)
    (timeout_config s) (keep_alive s).

Definition set_domain (domain : string) (s : t) : t :=
  mk (accept_invalid_certs s) (address s) domain (command_has_answer s) (buffer s)
    (max_buffer_size s) (timeout_config s) (keep_alive s).

Definition set_keep_alive (enabled : bool) (s : t) : io clientE t :=
  (if negb enabled && keep_alive s then
     PingState.stop_ping_task;;
     store CStream None
   else mret tt);;
  config ← lock CConfig;
  put CConfig (PingConfig.mk (PingConfig.interval config)
    (enabled && (ZERO <? PingConfig.interval config)%N));;
  unlock CConfig;;
  mret (mk (accept_invalid_certs s) (address s) (domain s) (command_has_answer s) (buffer s)
    (max_buffer_size s) (timeout_config s) enabled).

Definition set_timeout_config (c : TimeoutConfig.t) : method clientE t Error unit := λ s,
  let config := TimeoutConfig.with_ping_interval (TimeoutConfig.ping_interval c) c in
  match TimeoutConfig.validate config with
  | Err e => mret (s, Err e)
  | Ok _ =>
    let ping_enabled := keep_alive s && (ZERO <? TimeoutConfig.ping_interval config)%N in
    lock CConfig;;
    put CConfig (PingConfig.mk (TimeoutConfig.ping_interval config) ping_enabled);;
    store CTimeoutConfig config;;
    unlock CConfig;;
    mret (mk (accept_invalid_certs s) (address s) (domain s) (command_has_answer s) (buffer s)
            (max_buffer_size s) config (keep_alive s), Ok tt)
  end.

(** * Connecting *)

(** The socket options of a kept-alive connection; failures are only logged. *)
Definition set_socket_options (s : t) (stream : stream) : io clientE unit :=
  if keep_alive s then
    match TimeoutConfig.keep_alive (timeout_config s) with
    | Some ka =>
      trigger (SetTcpKeepalive stream (KeepAliveConfig.time ka) (KeepAliveConfig.interval ka));;
      mret tt
    | None => trigger (SetKeepalive stream true);; mret tt
    end
  else mret tt.

(** The arm of a successful [TcpStream::connect]; a failed handshake ends
    [connect], it is not retried. *)
Definition established (s : t) (stream : stream) : io clientE (Result unit) :=
  set_socket_options s stream;;
  handshake ← trigger (TlsConnect (domain s) stream);
  match handshake with
  | Err e => mret (Err (into e))
  | Ok tls_stream =>
    store CStream (Some tls_stream);;
    PingState.stop_ping_task;;
    enabled ← (if keep_alive s then PingState.is_enabled else mret false);
    (if (enabled : bool) then PingState.start_ping_task else mret tt);;
    mret (Ok tt)
  end.

(** The [while tries < DEFAULT_MAX_CONNECT_RETRIES] loop and what follows it. *)
Fixpoint connect_loop (fuel : nat) (s : t) (tries : nat) : io clientE (Result unit) :=
  match fuel with
  | O => mret (Ok tt)
  | S fuel =>
    if decide (tries < DEFAULT_MAX_CONNECT_RETRIES) then
      r ← timeout (TimeoutConfig.connect (timeout_config s)) (trigger (TcpConnect (address s)));
      match r with
      | Some (Ok stream) => established s stream
      | Some (Err _) => sleep DEFAULT_CONNECT_RETRY_DELAY;; connect_loop fuel s (S tries)
      | None => sleep DEFAULT_CONNECT_RETRY_DELAY;; connect_loop fuel s (S tries)
      end
    else
      stream ← load CStream;
      if is_none stream && bool_decide (DEFAULT_MAX_CONNECT_RETRIES ≤ tries) then
        mret (Err (into "Connection error, max retries reached"))
      else mret (Ok tt)
  end.

(** Ten attempts and the turn that leaves the loop. *)
Definition connect_fuel : nat := S DEFAULT_MAX_CONNECT_RETRIES.

(** The [async] block of [connect]. *)
Definition connect_body (s : t) : io clientE (Result unit) :=
  connector ← trigger (TlsBuild (accept_invalid_certs s));
  match connector with
  | Err e => mret (Err (into e))
  | Ok _ => connect_loop connect_fuel s 0
  end.

Definition connect (s : t) : io clientE (Result unit) :=
  if String.eqb (domain s) PLACEHOLDER_DOMAIN && negb (accept_invalid_certs s) then
    mret (Err (Config "TLS domain not set: call set_domain() before connecting"))
  else
    r ← timeout (TimeoutConfig.connect_total (timeout_config s)) (connect_body s);
    match r with
    | Some r => mret r
    | None => mret (Err (ETimeout "connect total deadline exceeded"))
    end.

Definition disconnect : io clientE (Result unit) :=
  PingState.stop_ping_task;;
  stream_guard ← lock CStream;
  r ← match stream_guard with
      | Some stream => shutdown stream
      | None => mret (Ok tt)
      end;
  put CStream None;;
  unlock CStream;;
  match r with
  | Err e => mret (Err (into e))
  | Ok _ => mret (Ok tt)
  end.

(** * One exchange over the locked stream; the state is the client's buffer *)

Definition send_request_header_locked (stream : stream) (command data_size : N)
    (timeout : Duration) : method netE Vec.t BoxError unit :=
  let request_header := RequestHeader.new command data_size in
  modify Vec.clear;;
  encoded ← gets (RequestHeader.encode request_header);
  buf ← question encoded;
  modify (λ _, buf);;
  timed timeout (write_all stream (Vec.data buf)) "Timeout sending request header";;
  await_q (flush stream);;
  modify Vec.clear.

Definition send_response_header_locked (stream : stream) (status : byte) (data_size : N)
    (timeout : Duration) : method netE Vec.t BoxError unit :=
  let is_default := (data_size =? 0)%N in
  let response_header := ResponseHeader.new status data_size in
  modify Vec.clear;;
  encoded ← gets (λ buffer, ResponseHeader.encode response_header buffer is_default);
  buf ← question encoded;
  modify (λ _, buf);;
  timed timeout (write_all stream (Vec.data buf)) "Timeout sending response header";;
  await_q (flush stream);;
  modify Vec.clear.

Definition receive_response_header_locked (stream : stream)
    (is_default command_has_answer : bool) (read_header_timeout : Duration)
    (max_buffer_size : N) : method netE Vec.t BoxError ResponseHeader.t :=
  let result_buf_size := ResponseHeader.encoded_len is_default command_has_answer in
  modify (Vec.resize result_buf_size);;
  buffer ← gets id;
  bytes ← timed read_header_timeout (read_exact stream (length (Vec.data buffer)))
    "Timeout waiting for response header";
  modify (Vec.overwrite bytes);;
  let decode_as_default := is_default || negb command_has_answer in
  decoded ← gets (λ buffer,
    ResponseHeader.decode (Vec.data buffer) decode_as_default max_buffer_size);
  response_header ← question decoded;
  modify Vec.clear;;
  mret response_header.1.

Definition send_message_locked (stream : stream) (command : N) (data : list byte)
    (timeout_config : TimeoutConfig.t) (command_has_answer : bool) (max_buffer_size : N) :
    method netE Vec.t BoxError unit :=
  send_request_header_locked stream command (as_u32 (len data))
    (TimeoutConfig.write timeout_config);;
  ack_header ← receive_response_header_locked stream true command_has_answer
    (TimeoutConfig.read_header timeout_config) max_buffer_size;
  if negb (bool_decide (ResponseHeader.status ack_header = x01)) then
    fail ("Request rejected by server: status " +:+ show (Byte.to_N (ResponseHeader.status ack_header)))
  else
    timed (TimeoutConfig.write timeout_config) (write_all stream data)
      "Timeout sending message data";;
    await_q (flush stream);;
    modify Vec.clear.

Definition receive_message_locked (stream : stream) (timeout_config : TimeoutConfig.t)
    (command_has_answer : bool) (max_buffer_size : N) : method netE Vec.t BoxError (list byte) :=
  res_header ← receive_response_header_locked stream false command_has_answer
    (TimeoutConfig.read_header timeout_config) max_buffer_size;
  let status := ResponseHeader.status res_header in
  let data_size := ResponseHeader.data_size res_header in
  send_response_header_locked stream x01 0 (TimeoutConfig.write timeout_config);;
  if negb (bool_decide (status = x01)) then
    fail ("Response status is not Ok: " +:+ show (Byte.to_N status))
  else if (max_buffer_size <? data_size)%N then fail "Data size is more then max buffer size"
  else if (data_size =? 0)%N then modify Vec.clear;; mret []
  else
    modify (Vec.resize (N.to_nat data_size));;
    buffer ← gets id;
    bytes ← timed (TimeoutConfig.read_data timeout_config)
      (read_exact_or_closed stream (length (Vec.data buffer)))
      "Timeout waiting for message data";
    modify (Vec.overwrite bytes);;
    gets Vec.data.

(** The [async] block of [handle_message]; its [?] turn boxes into [Error::Other]. *)
Definition exchange (stream : stream) (command : N) (request_data : list byte) :
    method netE t Error (list byte) :=
  self ← gets id;
  convert (zoom buffer with_buffer
    (send_message_locked stream command request_data (timeout_config self)
       (command_has_answer self) (max_buffer_size self);;
     receive_message_locked stream (timeout_config self) (command_has_answer self)
       (max_buffer_size self))).

Definition handle_message (command : N) (request_data : list byte) :
    method clientE t Error (list byte) := λ s,
  disconnected ← (if keep_alive s then is_none <$> load CStream else mret true);
  r ← (if (disconnected : bool) then connect s else mret (Ok tt));
  match r with
  | Err e => mret (s, Err e)
  | Ok _ =>
    lock CInFlight;;
    stream_guard ← lock CStream;
    match stream_guard with
    | None => unlock CStream;; unlock CInFlight;; mret (s, Err (into "Not connected"))
    | Some stream =>
      sr ← lift (exchange stream command request_data s);
      match sr.2 with
      | Err _ => put CStream None;; PingState.stop_ping_task
      | Ok _ => PingState.touch_activity
      end;;
      unlock CStream;; unlock CInFlight;;
      mret sr
    end
  end.

(** The guard's drop restores [true]. *)
Definition handle_message_with_no_answer (command : N) (request_data : list byte) :
    method clientE t Error (list byte) := λ s,
  sr ← handle_message command request_data (set_command_has_answer false s);
  mret (set_command_has_answer true sr.1, sr.2).

(** [impl Drop for ClientTLS]. *)
Definition drop : io clientE unit :=
  task_handle ← try_lock CTaskHandle;
  match task_handle with
  | Some h =>
    put CTaskHandle None;;
    match h with Some handle => trigger (Abort handle) | None => mret tt end;;
    unlock CTaskHandle
  | None => mret tt
  end;;
  should_stop ← try_lock CShouldStop;
  match should_stop with
  | Some _ => put CShouldStop true;; unlock CShouldStop
  | None => mret tt
  end.

(** What [connect] rejects before it does anything. *)
Definition domain_unset (s : t) : bool :=
  String.eqb (domain s) PLACEHOLDER_DOMAIN && negb (accept_invalid_certs s).

(** * The exchange of the TCP client over the same stream *)

Definition as_tl (s : t) : ClientTL.t :=
  ClientTL.mk (address s) (command_has_answer s) (buffer s) (max_buffer_size s)
    (timeout_config s) (keep_alive s).

Abbreviation same_io m m' := (alike (id (A := Vec.t)) m m').

(** Follow two methods of the same shape in step. *)
Ltac alike_step :=
  first
    [ solve [auto with alike] | apply alike_mret | apply alike_fail | apply alike_question
    | apply alike_await | apply alike_await_q | apply alike_timed
    | apply alike_modify; done | apply alike_gets; done
    | apply alike_bind; [|intros; cbv zeta]
    | case_match ].
Ltac alike_body := repeat (alike_step || assumption).
Create HintDb alike discriminated.

Lemma send_request_header_alike st c n d :
  same_io (send_request_header_locked st c n d) (ClientTL.send_request_header_locked st c n d).
Proof. unfold send_request_header_locked, ClientTL.send_request_header_locked. alike_body. Qed.

Lemma send_response_header_alike st status n d :
  same_io (send_response_header_locked st status n d)
    (ClientTL.send_response_header_locked st status n d).
Proof. unfold send_response_header_locked, ClientTL.send_response_header_locked. alike_body. Qed.

Lemma receive_response_header_alike st is_d ans d max :
  same_io (receive_response_header_locked st is_d ans d max)
    (ClientTL.receive_response_header_locked st is_d ans d max).
Proof.
  unfold receive_response_header_locked, ClientTL.receive_response_header_locked. alike_body.
Qed.

#[export] Hint Resolve send_request_header_alike send_response_header_alike
  receive_response_header_alike : alike.

Lemma send_message_alike st c data tc ans max :
  same_io (send_message_locked st c data tc ans max)
    (ClientTL.send_message_locked st c data tc ans max).
Proof. unfold send_message_locked, ClientTL.send_message_locked. alike_body. Qed.

Lemma receive_message_alike st tc ans max :
  same_io (receive_message_locked st tc ans max) (ClientTL.receive_message_locked st tc ans max).
Proof. unfold receive_message_locked, ClientTL.receive_message_locked. alike_body. Qed.

#[export] Hint Resolve send_message_alike receive_message_alike : alike.

Lemma exchange_same_io st c data :
  alike as_tl (exchange st c data) (ClientTL.exchange st c data).
Proof.
  unfold exchange, ClientTL.exchange. apply alike_self. intros s.
  apply alike_convert, alike_zoom; [done..|].
  apply alike_bind; [auto with alike|]. intros _. auto with alike.
Qed.

(** * The byte-level behaviour of an exchange *)

(** What succeeds for the TCP client succeeds here with the same bytes. *)
Lemma follows_alike {A} (m : method netE Vec.t BoxError A) (m' : method netE Vec.t Error A) b b' tr a :
  same_io m m' → follows (m' b) tr (b', Ok a) → follows (m b) tr (b', Ok a).
Proof.
  intros Hm Hf. eapply (alike_follows id); [apply Hm|].
  by apply (follows_map (prod_map id forget)) in Hf.
Qed.

Lemma tls_follows_send_message_rejected st command data c ans max a b :
  a ≠ x01 →
  ∃ b', follows (send_message_locked st command data c ans max b)
    (outs (RequestHeader.wire (RequestHeader.new command (as_u32 (len data)))) ++ ins [a])
    (b', Err (BoxedStr ("Request rejected by server: status " +:+ show (Byte.to_N a)))).
Proof.
  intros Ha. unfold send_message_locked.
  destruct (ClientTL.tl_follows_send_request_header st command (as_u32 (len data))
    (TimeoutConfig.write c) b) as (b1 & H1%(follows_alike _ _ _ _ _ _
      (send_request_header_alike _ _ _ _))).
  destruct (ClientTL.tl_follows_receive_ack st ans (TimeoutConfig.read_header c) max a b1)
    as (b2 & H2%(follows_alike _ _ _ _ _ _ (receive_response_header_alike _ _ _ _ _))).
  eexists. fstart.
  { fcall H1. fcall H2. cbn [ResponseHeader.status]. rewrite bool_decide_false by done. fend. }
  ftrace.
Qed.

(** What the client makes of a response. *)
Definition response_result (status : byte) (payload : list byte) : BoxResult (list byte) :=
  if bool_decide (status = x01) then Ok payload
  else Err (BoxedStr ("Response status is not Ok: " +:+ show (Byte.to_N status))).

Lemma tls_follows_receive_message st c max status payload b :
  (len payload < u32_modulus)%N → (len payload <= max)%N →
  ∃ b', follows (receive_message_locked st c true max b)
    (ins (ResponseHeader.wire (ResponseHeader.new status (len payload)) false) ++ outs [x01] ++
     ins (ClientTL.response_read status payload)) (b', response_result status payload).
Proof.
  intros Hwf Hle. destruct (decide (status = x01)) as [->|Hst].
  - destruct (ClientTL.tl_follows_receive_message st c max x01 payload b) as (b' & Hf); [done..|].
    exists b'. by apply (follows_alike _ _ _ _ _ _ (receive_message_alike _ _ _ _)) in Hf.
  - destruct (ClientTL.tl_follows_receive_frame st (TimeoutConfig.read_header c) max
      (ResponseHeader.new status (len payload)) b) as (b1 & H1%(follows_alike _ _ _ _ _ _
        (receive_response_header_alike _ _ _ _ _))); [done..|].
    destruct (ClientTL.tl_follows_send_response_header st x01 (TimeoutConfig.write c) b1)
      as (b2 & H2%(follows_alike _ _ _ _ _ _ (send_response_header_alike _ _ _ _))).
    unfold receive_message_locked, ClientTL.response_read, response_result.
    rewrite !bool_decide_false by done. eexists. fstart.
    { fcall H1. fcall H2. cbn [ResponseHeader.status ResponseHeader.data_size].
      rewrite bool_decide_false by done. cbn [negb]. fend. }
    ftrace.
Qed.

Lemma tls_follows_exchange st command data status payload s :
  command_has_answer s = true →
  (len payload < u32_modulus)%N → (len payload <= max_buffer_size s)%N →
  ∃ b', follows (exchange st command data s)
    (outs (RequestHeader.wire (RequestHeader.new command (as_u32 (len data)))) ++ ins [x01] ++
     outs data ++
     ins (ResponseHeader.wire (ResponseHeader.new status (len payload)) false) ++ outs [x01] ++
     ins (ClientTL.response_read status payload))
    (with_buffer b' s, result_map_err Other (response_result status payload)).
Proof.
  intros Hans Hwf Hle. unfold exchange.
  destruct (ClientTL.tl_follows_send_message st command data (timeout_config s) true
    (max_buffer_size s) (buffer s))
    as (b1 & H1%(follows_alike _ _ _ _ _ _ (send_message_alike _ _ _ _ _ _))).
  destruct (tls_follows_receive_message st (timeout_config s) (max_buffer_size s) status payload b1)
    as (b2 & H2); [done..|].
  exists b2. fstart.
  { fstep. cbn [id]. rewrite Hans. apply (follows_convert (Er := BoxError)). unfold zoom.
    eapply follows_io_bind; [fcall H1; exact H2|]. done. }
  ftrace.
Qed.

Lemma tls_follows_exchange_rejected st command data a s :
  a ≠ x01 →
  ∃ b', follows (exchange st command data s)
    (outs (RequestHeader.wire (RequestHeader.new command (as_u32 (len data)))) ++ ins [a])
    (with_buffer b' s, Err (Other (BoxedStr
       ("Request rejected by server: status " +:+ show (Byte.to_N a))))).
Proof.
  intros Ha. unfold exchange.
  destruct (tls_follows_send_message_rejected st command data (timeout_config s)
    (command_has_answer s) (max_buffer_size s) a (buffer s)) as (b1 & H1); [done|].
  exists b1. fstart.
  { fstep. eapply follows_res; [apply (follows_convert (Er := BoxError)); unfold zoom;
      eapply follows_io_bind; [apply follows_mbind_err, H1|done]|done]. }
  ftrace.
Qed.

End ClientTLS.
