(* ===== verification/Concurrency.v ===== *)
(** A client and its ping tasks as concurrent threads.

    The thread 0 makes any sequence of calls of a client, and may give up any of
    them at any moment; the ping tasks are those that the calls start.  All of them
    keep the discipline of [Locks]. *)
From S2P Require Import Prelude Errors TimeoutConfig IO Method Common Ping Threads Locks.
From S2P Require Import ProtocolStructs Headers ClientTL ClientTLS Schedule.
From stdpp Require Import gmap options.

(** * The calls of a client keep the discipline *)

Section tl.
Implicit Types (s : ClientTL.t).

Lemma tl_connect_loop_guarded fuel s tries : guarded (ClientTL.connect_loop fuel s tries) [] [] no_locks.
Proof.
  revert tries. induction fuel as [|fuel IH]; intros tries; [done|]. cbn [ClientTL.connect_loop].
  case_decide; discipline; apply IH.
Qed.
#[local] Hint Resolve tl_connect_loop_guarded : discipline.

Lemma tl_connect_guarded s : guarded (ClientTL.connect s) [] [] no_locks.
Proof. unfold ClientTL.connect, timeout. discipline. Qed.
#[local] Hint Resolve tl_connect_guarded : discipline.

Lemma tl_disconnect_guarded : guarded ClientTL.disconnect [] [] no_locks.
Proof. unfold ClientTL.disconnect. discipline. Qed.

Lemma tl_set_keep_alive_guarded enabled s : guarded (ClientTL.set_keep_alive enabled s) [] [] no_locks.
Proof. unfold ClientTL.set_keep_alive. discipline. Qed.

Lemma tl_set_timeout_config_guarded c s : guarded (ClientTL.set_timeout_config c s) [] [] no_locks.
Proof. unfold ClientTL.set_timeout_config. discipline. Qed.

Lemma tl_handle_message_guarded command data s :
  guarded (ClientTL.handle_message command data s) [] [] no_locks.
Proof. unfold ClientTL.handle_message. discipline. Qed.
#[local] Hint Resolve tl_handle_message_guarded : discipline.

Lemma tl_no_answer_guarded command data s :
  guarded (ClientTL.handle_message_with_no_answer command data s) [] [] no_locks.
Proof. unfold ClientTL.handle_message_with_no_answer. discipline. Qed.

Lemma tl_drop_guarded : guarded ClientTL.drop [] [] no_locks.
Proof. unfold ClientTL.drop. discipline. Qed.
End tl.

#[export] Hint Resolve tl_connect_guarded tl_disconnect_guarded tl_set_keep_alive_guarded
  tl_set_timeout_config_guarded tl_handle_message_guarded tl_no_answer_guarded
  tl_drop_guarded : discipline.

Section tls.
Implicit Types (s : ClientTLS.t).

Lemma tls_connect_loop_guarded fuel s tries : guarded (ClientTLS.connect_loop fuel s tries) [] [] no_locks.
Proof.
  revert tries. induction fuel as [|fuel IH]; intros tries; [done|]. cbn [ClientTLS.connect_loop].
  case_decide; discipline; apply IH.
Qed.
#[local] Hint Resolve tls_connect_loop_guarded : discipline.

Lemma tls_connect_body_guarded s : guarded (ClientTLS.connect_body s) [] [] no_locks.
Proof. unfold ClientTLS.connect_body. discipline. Qed.
#[local] Hint Resolve tls_connect_body_guarded : discipline.

Lemma tls_connect_guarded s : guarded (ClientTLS.connect s) [] [] no_locks.
Proof. unfold ClientTLS.connect, timeout. discipline. Qed.
#[local] Hint Resolve tls_connect_guarded : discipline.

Lemma tls_disconnect_guarded : guarded ClientTLS.disconnect [] [] no_locks.
Proof. unfold ClientTLS.disconnect. discipline. Qed.

Lemma tls_set_keep_alive_guarded enabled s : guarded (ClientTLS.set_keep_alive enabled s) [] [] no_locks.
Proof. unfold ClientTLS.set_keep_alive. discipline. Qed.

Lemma tls_set_timeout_config_guarded c s : guarded (ClientTLS.set_timeout_config c s) [] [] no_locks.
Proof. unfold ClientTLS.set_timeout_config. discipline. Qed.

Lemma tls_handle_message_guarded command data s :
  guarded (ClientTLS.handle_message command data s) [] [] no_locks.
Proof. unfold ClientTLS.handle_message. discipline. Qed.
#[local] Hint Resolve tls_handle_message_guarded : discipline.

Lemma tls_no_answer_guarded command data s :
  guarded (ClientTLS.handle_message_with_no_answer command data s) [] [] no_locks.
Proof. unfold ClientTLS.handle_message_with_no_answer. discipline. Qed.

Lemma tls_drop_guarded : guarded ClientTLS.drop [] [] no_locks.
Proof. unfold ClientTLS.drop. discipline. Qed.
End tls.

#[export] Hint Resolve tls_connect_guarded tls_disconnect_guarded tls_set_keep_alive_guarded
  tls_set_timeout_config_guarded tls_handle_message_guarded tls_no_answer_guarded
  tls_drop_guarded : discipline.

(** * Sessions *)

(** A call, as a program that answers the client it leaves; what it returns to its
    caller does not matter here.  A call that is given up after [d] is dropped at
    whatever [await] it has reached, and leaves any client. *)
Inductive tl_call : (ClientTL.t → io clientE ClientTL.t) → Prop :=
| tl_call_handle_message command data :
    tl_call (λ s, fst <$> ClientTL.handle_message command data s)
| tl_call_no_answer command data :
    tl_call (λ s, fst <$> ClientTL.handle_message_with_no_answer command data s)
| tl_call_connect : tl_call (λ s, ClientTL.connect s;; mret s)
| tl_call_disconnect : tl_call (λ s, ClientTL.disconnect;; mret s)
| tl_call_set_keep_alive enabled : tl_call (ClientTL.set_keep_alive enabled)
| tl_call_set_timeout_config c : tl_call (λ s, fst <$> ClientTL.set_timeout_config c s)
| tl_call_other f : tl_call (λ s, mret (f s))
| tl_call_given_up d c left_behind :
    tl_call c → tl_call (λ s, r ← timeout d (c s); mret (default (left_behind s) r)).

Inductive tls_call : (ClientTLS.t → io clientE ClientTLS.t) → Prop :=
| tls_call_handle_message command data :
    tls_call (λ s, fst <$> ClientTLS.handle_message command data s)
| tls_call_no_answer command data :
    tls_call (λ s, fst <$> ClientTLS.handle_message_with_no_answer command data s)
| tls_call_connect : tls_call (λ s, ClientTLS.connect s;; mret s)
| tls_call_disconnect : tls_call (λ s, ClientTLS.disconnect;; mret s)
| tls_call_set_keep_alive enabled : tls_call (ClientTLS.set_keep_alive enabled)
| tls_call_set_timeout_config c : tls_call (λ s, fst <$> ClientTLS.set_timeout_config c s)
| tls_call_other f : tls_call (λ s, mret (f s))
| tls_call_given_up d c left_behind :
    tls_call c → tls_call (λ s, r ← timeout d (c s); mret (default (left_behind s) r)).

(** One call after another on the same client, which is dropped at the end. *)
Fixpoint session {C} (drop : io clientE unit) (cs : list (C → io clientE C)) (s : C) :
    io clientE flow :=
  match cs with
  | [] => drop;; mret Break
  | c :: cs => s' ← c s; session drop cs s'
  end.

Inductive client_session : io clientE flow → Prop :=
| tl_session cs s : Forall tl_call cs → client_session (session ClientTL.drop cs s)
| tls_session cs s : Forall tls_call cs → client_session (session ClientTLS.drop cs s).

Definition start (sh : shared) (p : io clientE flow) : pool :=
  Pool sh {[ 0%N := Thread (Run p) [] false ]}.

Lemma tl_call_guarded c s : tl_call c → guarded (c s) [] [] no_locks.
Proof.
  intros Hc. revert s. induction Hc as [| | | | | | |d c f Hc IH]; intros s; discipline.
Qed.

Lemma tls_call_guarded c s : tls_call c → guarded (c s) [] [] no_locks.
Proof.
  intros Hc. revert s. induction Hc as [| | | | | | |d c f Hc IH]; intros s; discipline.
Qed.

Lemma session_guarded {C} drop (cs : list (C → io clientE C)) s :
  guarded drop [] [] no_locks → Forall (λ c, ∀ s, guarded (c s) [] [] no_locks) cs →
  guarded (session drop cs s) [] [] ends_free.
Proof.
  intros Hd Hcs. revert s. induction Hcs as [|c cs Hc _ IH]; intros s; cbn [session]; apply guarded_bind.
  - eapply guarded_impl; [|exact Hd]. by intros ? ? ->.
  - eapply guarded_impl; [|apply Hc]. intros s' held ->. apply IH.
Qed.

Lemma start_lookup sh p i th :
  p_threads (start sh p) !! i = Some th → i = 0%N ∧ th = Thread (Run p) [] false.
Proof. unfold start. simpl. by intros [<- <-]%lookup_singleton_Some. Qed.

Lemma client_session_guarded p : client_session p → guarded p [] [] ends_free.
Proof.
  intros [cs s Hcs|cs s Hcs]; apply session_guarded; auto with discipline;
    (eapply Forall_impl; [exact Hcs|]); intros c Hc s'; [by apply tl_call_guarded|by apply tls_call_guarded].
Qed.

Lemma start_ok sh p : client_session p → pool_ok (start sh p).
Proof.
  intros Hp. split.
  - intros i th [-> ->]%start_lookup. by apply client_session_guarded.
  - intros i j m (th & [-> _]%start_lookup & _) (th' & [-> _]%start_lookup & _). done.
Qed.

(** * Exclusion on the wire *)

(** Steps through states in which [P] holds. *)
Inductive psteps_while (P : pool → Prop) : pool → list (task_id * act) → pool → Prop :=
| while_nil s : P s → psteps_while P s [] s
| while_cons s i a s1 tr s2 :
    P s → pstep s i a s1 → psteps_while P s1 tr s2 → psteps_while P s ((i, a) :: tr) s2.


(** C5: the client and its ping tasks never deadlock.  In every state that they can
    reach, as long as one of them is left, some thread can do its next event, even
    if no timeout ever fires. *)
Theorem never_deadlocks p sh s :
  client_session p → reachable (start sh p) s → p_threads s ≠ ∅ →
  ∃ i a s', pstep s i a s' ∧ a ≠ Fired.
Proof.
  intros Hp Hr Hne. pose proof (reachable_ok _ _ Hr (start_ok sh p Hp)) as Hok.
  apply map_choose in Hne as (i & th & Hi). eapply (can_go_on 4); [done..|]. intros. lia.
Qed.

(** * A reconnect under a running ping task *)

(** What is written and what is read, and by whom. *)
Inductive transfer := Sent (i : task_id) (s : stream) (bs : list byte)
                    | Got (i : task_id) (s : stream) (bs : list byte).

#[export] Instance transfer_eq_dec : EqDecision transfer.
Proof. solve_decision. Defined.

Definition transfer_of (ia : task_id * act) : option transfer :=
  match ia.2 with
  | @Wire X e x =>
    match e in netE X return X → option transfer with
    | WriteAll s bs => λ _, Some (Sent ia.1 s bs)
    | ReadExact s n => λ r, match r with Ok bs => Some (Got ia.1 s bs) | Err _ => None end
    | Read s n => λ r, match r with Ok bs => Some (Got ia.1 s bs) | Err _ => None end
    | _ => λ _, None
    end x
  | _ => None
  end.

Definition wire_log (tr : list (task_id * act)) : list transfer := omap transfer_of tr.

(** A world in which every connection is stream 8, the clock stands at 100 s, and
    the bytes that come are those of a server that answers a ping and then a request
    with a payload of one byte: a status byte, an acknowledgement and a header. *)
Definition race_answer (X : Type) (e : osE X) : X :=
  match e with
  | inl1 e =>
    match e in netE X return X with
    | Read s n => Ok []
    | ReadExact s n => Ok (if decide (n = 1) then [x01] else [x01; x01; x00; x00; x00])
    | WriteAll s bs => Ok tt
    | Flush s => Ok tt
    | Shutdown s => Ok tt
    end
  | inr1 (inl1 e) => match e in clockE X return X with Sleep _ => tt | Now => from_secs 100 end
  | inr1 (inr1 (inl1 e)) => match e in taskE X return X with Spawn => 0%N | Abort _ => tt end
  | inr1 (inr1 (inr1 e)) =>
    match e in connE X return X with
    | TcpConnect a => Ok 8%N
    | SetTcpKeepalive _ _ _ => Ok tt
    | SetKeepalive _ _ => Ok tt
    | TlsBuild _ => Ok tt
    | TlsConnect _ s => Ok s
    end
  end.

(** A client that connects, connects again and makes a request. *)
Definition reconnecting : io clientE flow :=
  session ClientTL.drop
    [ClientTL.set_keep_alive true;
     λ s, ClientTL.connect s;; mret s;
     λ s, ClientTL.connect s;; mret s;
     λ s, fst <$> ClientTL.handle_message 1 [x61] s]
    (ClientTL.new "h:1" 0).1.

Definition reconnecting_start : pool := start (ClientTL.new "h:1" 0).2 reconnecting.

Lemma reconnecting_session : client_session reconnecting.
Proof. apply tl_session. repeat constructor. Qed.

(** The second [connect] has stored the new stream when the old task, the thread 1,
    gets the stream and sends a ping; *)
Definition until_ping : list move := replicate 37 (Go 0 1) ++ replicate 14 (Go 1 2).
(** the client aborts it, starts another and makes its request. *)
Definition until_failure : list move :=
  until_ping ++ replicate 2 (Go 1 2) ++ replicate 19 (Go 0 2) ++ [Reap 1%N] ++ replicate 30 (Go 0 2).

Lemma schedule_some {A} (f : list (task_id * act) → pool → A) ms a :
  match schedule race_answer reconnecting_start ms with Some (tr, s) => Some (f tr s) | None => None end =
    Some a →
  ∃ tr s, psteps reconnecting_start tr s ∧ f tr s = a.
Proof.
  destruct (schedule race_answer reconnecting_start ms) as [[tr s]|] eqn:Hs; [|done].
  intros [= <-]. exists tr, s. split; [by eapply schedule_sound|done].
Qed.


(** A state in which the old task is about to send its ping. *)
Lemma about_to_ping :
  ∃ s s' X (e : netE X) x, reachable reconnecting_start s ∧ pstep s 1 (Wire e x) s'.
Proof.
  destruct (schedule_some (λ tr s,
    match pexec race_answer s (Go 1 2) with
    | Some (i, Wire _ _, _) => Some i
    | _ => None
    end) until_ping _ ltac:(vm_compute; reflexivity)) as (tr & s & Hs & Hf).
  destruct (pexec race_answer s (Go 1 2)) as [[[i a] s']|] eqn:He; [|done].
  apply pexec_sound in He. destruct a as [|X e x| | |]; try done. injection Hf as ->.
  exists s, s', X, e, x. split; [by exists tr|done].
Qed.


Lemma never_deadlocks_witness :
  ∃ s, reachable reconnecting_start s ∧ ∃ i a s', pstep s i a s' ∧ a ≠ Fired.
Proof.
  destruct about_to_ping as (s & s' & X & e & x & Hr & Hst). exists s. split; [exact Hr|].
  apply (never_deadlocks reconnecting (ClientTL.new "h:1" 0).2 s reconnecting_session Hr).
  inversion Hst as [sh ts i c held dm a c' held' sh' Hi Hc Hf| | |]; subst.
  intros Hn. simpl in Hn. rewrite Hn in Hi. done.
Defined.
