(* ===== verification/Capacity.v ===== *)
(** The buffer discipline of the four connection types.

    [set_max_buffer_size] reserves the buffer once and commits the limit only when
    that worked; from then on no operation allocates, whatever the peer sends. *)
From S2P Require Import Prelude Errors ProtocolStructs Vec Headers TimeoutConfig IO Method.
From S2P Require Import Common Morphism Transport ServerTL ServerTLS ProtocolHandler Ping Scripted ClientTL ClientTLS.
From stdpp Require Import options.

(** A buffer of capacity [c] that holds any frame up to [max] and any header. *)
Definition reserved (c max : N) (cap : N) : Prop := (cap = c ∧ max <= c ∧ 8 <= c)%N.

(** * Buffers *)

Lemma reserved_resize c max n b :
  reserved c max (Vec.cap b) → (N.of_nat n <= N.max 8 max)%N →
  reserved c max (Vec.cap (Vec.resize n b)).
Proof. intros (<- & ? & ?) Hn. rewrite Vec.cap_resize_fits by lia. done. Qed.

Lemma reserved_request c max h b b' :
  reserved c max (Vec.cap b) → RequestHeader.encode h (Vec.clear b) = Ok b' →
  reserved c max (Vec.cap b').
Proof.
  intros (<- & ? & ?) He. rewrite (RequestHeader.request_encode_cap h (Vec.clear b) b'); [done| |done].
  unfold Vec.len. simpl. rewrite len_nil. lia.
Qed.

Lemma reserved_response c max h b d b' :
  reserved c max (Vec.cap b) → ResponseHeader.encode h (Vec.clear b) d = Ok b' →
  reserved c max (Vec.cap b').
Proof.
  intros (<- & ? & ?) He. rewrite (ResponseHeader.response_encode_cap h (Vec.clear b) d b'); [done| |done].
  unfold Vec.len. simpl. rewrite len_nil. lia.
Qed.

(** A decoded size is within the limit. *)
Lemma decoded_size bs d max r :
  ResponseHeader.decode bs d max = Ok r → (ResponseHeader.data_size r.1 <= max)%N.
Proof.
  destruct d, r as [h rest].
  - unfold ResponseHeader.decode. destruct bs; [done|]. intros [= <- _]. simpl. lia.
  - intros Hd. by apply ResponseHeader.response_decode_Ok in Hd as (_ & _ & ?).
Qed.

(** * The servers *)

Definition tl_inv (c max : N) (s : ServerTL.t) : Prop :=
  ServerTL.max_buffer_size s = max ∧ reserved c max (Vec.cap (ServerTL.buffer s)).

(** The invariant is about the capacity alone. *)
Lemma tl_inv_buffer c max f s :
  tl_inv c max s → reserved c max (Vec.cap (f (ServerTL.buffer s))) →
  tl_inv c max (ServerTL.with_buffer f s).
Proof. intros [Hm _] Hf. by split. Qed.

(** Prove a [keeps] goal by the shape of the program; [frame] closes the goals
    about a changed buffer. *)
Ltac kstep frame :=
  first
    [ solve [eauto with keeps nocore]
    | eapply keeps_bind; [kstep frame|intros ? ?; cbv beta iota zeta]
    | apply keeps_mret; exact I
    | apply keeps_fail | apply keeps_await | apply keeps_await_q | apply keeps_timed
    | eapply keeps_question;
      match goal with Hr : ∀ _, _ = Ok _ → _ |- _ => exact Hr end
    | eapply (keeps_question _ _ any); intros; exact I
    | match goal with |- keeps ?I (gets id) _ => apply (keeps_gets I id I); auto end
    | eapply (keeps_gets _ _ any); intros; exact I
    | eapply (keeps_modify _ _ any); [frame|exact I] ].
Ltac kbody frame := repeat (kstep frame || case_match).

(** A header is encoded into the empty buffer. *)
Ltac kencode frame lem :=
  eapply (keeps_modify_gets _ _ _ _ (λ r, ∀ b, r = Ok b → reserved _ _ (Vec.cap b)));
  [frame|intros s [_ Hs] b; by apply lem|intros ? ?].

(** The header sizes are at most eight. *)
Ltac sizes :=
  unfold RequestHeader.encoded_len, RequestHeader.REQUEST_HEADER_SIZE,
    ResponseHeader.DEFAULT_RESPONSE_HEADER_SIZE, ResponseHeader.RESPONSE_HEADER_SIZE;
  repeat case_match; simpl; solve [lia].

Section server_tl.
Context (c max : N).

Abbreviation kept m := (keeps (tl_inv c max) m any).

Ltac frame :=
  intros s' [? Hs']; apply tl_inv_buffer; [done|];
  first
    [ exact Hs' | done | solve [auto]
    | apply reserved_resize; [done|]; sizes
    | apply reserved_resize; [done|]; unfold tl_inv in *; dest; subst; solve [breflect] ].

Lemma tl_send_response_header_kept status size d timeout :
  kept (ServerTL.send_response_header status size d timeout).
Proof.
  unfold ServerTL.send_response_header. kencode frame reserved_response. kbody frame.
Qed.

Lemma tl_receive_response_header_kept d : kept (ServerTL.receive_response_header d).
Proof.
  unfold ServerTL.receive_response_header, ResponseHeader.encoded_len. kbody frame.
Qed.

#[local] Hint Resolve tl_send_response_header_kept tl_receive_response_header_kept : keeps.

Lemma tl_read_command_kept : kept ServerTL.read_command.
Proof. unfold ServerTL.read_command. kbody frame. Qed.

Lemma tl_receive_data_kept n : kept (ServerTL.receive_data n).
Proof. unfold ServerTL.receive_data. kbody frame. Qed.

Lemma tl_send_data_kept status data : kept (ServerTL.send_data status data).
Proof. unfold ServerTL.send_data. kbody frame. Qed.
End server_tl.

(** * The clients *)

Section client_tl.
Context (c max : N).

Abbreviation kept m := (keeps (λ b, reserved c max (Vec.cap b)) m any).

Ltac frame :=
  intros b Hb; unfold any in *;
  first
    [ exact Hb | done | solve [auto]
    | apply reserved_resize; [done|]; sizes
    | apply reserved_resize; [done|]; solve [breflect] ].

Ltac kencode_locked lem :=
  eapply (keeps_modify_gets _ _ _ _ (λ r, ∀ b, r = Ok b → reserved _ _ (Vec.cap b)));
  [frame|intros s Hs b; by apply lem|intros ? ?].

Lemma tl_send_request_header_kept st command size d :
  kept (ClientTL.send_request_header_locked st command size d).
Proof.
  unfold ClientTL.send_request_header_locked. kencode_locked reserved_request. kbody frame.
Qed.

Lemma tl_send_response_header_locked_kept st status size d :
  kept (ClientTL.send_response_header_locked st status size d).
Proof.
  unfold ClientTL.send_response_header_locked. kencode_locked reserved_response. kbody frame.
Qed.

Lemma tl_receive_response_header_locked_kept st d ans timeout :
  keeps (λ b, reserved c max (Vec.cap b))
    (ClientTL.receive_response_header_locked st d ans timeout max)
    (λ h, (ResponseHeader.data_size h <= max)%N).
Proof.
  unfold ClientTL.receive_response_header_locked, ResponseHeader.encoded_len.
  do 4 (eapply keeps_bind; [kstep frame|intros ? ?; cbv beta iota zeta]).
  eapply keeps_bind.
  { apply (keeps_gets _ _ (λ r, ∀ a, r = Ok a → (ResponseHeader.data_size a.1 <= max)%N)).
    intros s _ r. apply decoded_size. }
  intros r Hr. cbv beta in Hr. eapply keeps_bind; [kstep frame|]. intros [h rest] Hh. simpl in Hh.
  kstep frame. apply keeps_mret. exact Hh.
Qed.

#[local] Hint Resolve tl_send_request_header_kept tl_send_response_header_locked_kept
  tl_receive_response_header_locked_kept : keeps.

Lemma tl_send_message_kept st command data tc ans :
  kept (ClientTL.send_message_locked st command data tc ans max).
Proof. unfold ClientTL.send_message_locked. kbody frame. Qed.

Lemma tl_receive_message_kept st tc ans :
  kept (ClientTL.receive_message_locked st tc ans max).
Proof. unfold ClientTL.receive_message_locked. kbody frame. Qed.
End client_tl.

(** * Whole operations *)

Section turn.
Context {E U : Type → Type} {T H : Type} `{Transport T} `{ProtocolCommandHandler U H}.
Context `{!netE -< E, !U -< E} (I : T → Prop).
Context (read_kept : keeps I read_command any).
Context (receive_kept : ∀ n, keeps I (receive_data n) any).
Context (send_kept : ∀ status data, keeps I (send_response status data) any).

Abbreviation on I := (λ p : ProtocolHandler.t T H, I (ProtocolHandler.transport p)).

Lemma keeps_on_transport {A} (m : method netE T Error A) Q :
  keeps I m Q → keeps (on I) (ProtocolHandler.on_transport (E := E) m) Q.
Proof using Type.
  intros Hm. apply (keeps_zoom _ _ _ I); [auto..|]. intros s Hs. by apply io_post_lift, Hm.
Qed.

Lemma keeps_on_handler command data :
  keeps (on I) (ProtocolHandler.on_handler (E := E) command data) any.
Proof using Type. intros p Hp. apply io_post_skip. intros [hd r]. by split. Qed.

(** One turn of the server keeps what the transport's operations keep. *)
Lemma keeps_handle_next : keeps (on I) (ProtocolHandler.handle_next (E := E)) any.
Proof using All.
  unfold ProtocolHandler.handle_next.
  eapply keeps_bind; [by apply keeps_on_transport|]. intros [[command size]|] _.
  2: by apply keeps_mret.
  eapply keeps_bind; [by apply keeps_on_transport|]. intros data _.
  eapply keeps_bind; [apply keeps_on_handler|]. intros [[status payload]|e] _.
  - eapply keeps_bind; [by apply keeps_on_transport|]. intros _ _.
    case_match; by apply keeps_mret.
  - eapply keeps_bind; [by eapply keeps_attempt, keeps_on_transport|]. intros _ _.
    by apply keeps_mret.
Qed.
End turn.

Lemma tl_turn_kept {E U : Type → Type} {H} `{ProtocolCommandHandler U H, !netE -< E, !U -< E} c max :
  keeps (λ p : ProtocolHandler.t ServerTL.t H, tl_inv c max (ProtocolHandler.transport p))
    (ProtocolHandler.handle_next (E := E)) any.
Proof.
  apply keeps_handle_next.
  - eapply keeps_bind; [apply tl_read_command_kept|]. intros r _. by apply keeps_mret.
  - apply tl_receive_data_kept.
  - apply tl_send_data_kept.
Qed.

Lemma tls_turn_kept {E U : Type → Type} {H} `{ProtocolCommandHandler U H, !netE -< E, !U -< E} c max :
  keeps (λ p : ProtocolHandler.t ServerTLS.t H,
      tl_inv c max (ServerTLS.as_tl (ProtocolHandler.transport p)))
    (ProtocolHandler.handle_next (E := E)) any.
Proof.
  apply (keeps_handle_next (λ s, tl_inv c max (ServerTLS.as_tl s))).
  - eapply keeps_morph; [apply ServerTLS.transport_read_command_same|].
    eapply keeps_bind; [apply tl_read_command_kept|]. intros r _. by apply keeps_mret.
  - intros n. eapply keeps_morph; [apply ServerTLS.receive_data_same|apply tl_receive_data_kept].
  - intros status data.
    eapply keeps_morph; [apply ServerTLS.send_data_same|apply tl_send_data_kept].
Qed.

(** The capacity and the limits of the clients through an exchange. *)
Definition client_inv (c : N) (s0 s : ClientTL.t) : Prop :=
  ClientTL.with_buffer (ClientTL.buffer s) s0 = s ∧
  reserved c (ClientTL.max_buffer_size s0) (Vec.cap (ClientTL.buffer s)).

Lemma tl_exchange_kept c st command data s0 :
  keeps (client_inv c s0) (ClientTL.exchange st command data) any.
Proof.
  unfold ClientTL.exchange.
  eapply keeps_bind; [by apply (keeps_gets _ id (client_inv c s0))|]. intros self [<- _].
  eapply (keeps_zoom _ _ _ (λ b, reserved c (ClientTL.max_buffer_size s0) (Vec.cap b))).
  - by intros s [_ ?].
  - intros s b [<- _] Hb. by split.
  - eapply keeps_bind; [apply tl_send_message_kept|]. intros _ _. apply tl_receive_message_kept.
Qed.

Lemma tls_exchange_kept c st command data s0 :
  keeps (λ s, client_inv c (ClientTLS.as_tl s0) (ClientTLS.as_tl s))
    (ClientTLS.exchange st command data) any.
Proof. eapply keeps_alike; [apply ClientTLS.exchange_same_io|apply tl_exchange_kept]. Qed.

(** * Reserving *)

(** The limit a caller gets for an argument of [set_max_buffer_size]. *)
Definition limit_for (n : N) : N := if (0 <? n)%N then n else DEFAULT_MAX_BUFFER_SIZE.

Lemma try_reserve_limit `{Allocator} limit b b' u :
  Vec.wf b → Vec.try_reserve (saturating_sub limit (Vec.len b)) b = (b', Ok u) →
  Vec.data b' = Vec.data b ∧ (limit <= Vec.cap b')%N ∧ (Vec.cap b <= Vec.cap b')%N.
Proof.
  intros Hwf Hr. apply Vec.try_reserve_Ok in Hr as (Hd & Hc & Hle); [|done].
  unfold saturating_sub in Hc. split_and!; [done|lia|done].
Qed.

(** A client method that only does one exchange on [self]. *)
Ltac skip_post := first [apply io_post_skip; intros ? | simpl; done].

Lemma tl_handle_message_kept c command data s0 :
  keeps (client_inv c s0) (ClientTL.handle_message command data) any.
Proof.
  intros s Hs. unfold ClientTL.handle_message. unfold mbind, io_mbind.
  skip_post. skip_post. case_match; [|simpl; by split].
  skip_post. skip_post. case_match; [|do 2 skip_post; simpl; by split].
  apply io_post_bind. eapply io_post_impl; [|by apply io_post_lift, tl_exchange_kept].
  intros [s' r] Hr. do 3 skip_post. exact Hr.
Qed.

Lemma tls_handle_message_kept c command data s0 :
  keeps (λ s, client_inv c (ClientTLS.as_tl s0) (ClientTLS.as_tl s))
    (ClientTLS.handle_message command data) any.
Proof.
  intros s Hs. unfold ClientTLS.handle_message. unfold mbind, io_mbind.
  skip_post. skip_post. case_match; [|simpl; by split].
  skip_post. skip_post. case_match; [|do 2 skip_post; simpl; by split].
  apply io_post_bind. eapply io_post_impl; [|by apply io_post_lift, tls_exchange_kept].
  intros [s' r] Hr. do 3 skip_post. exact Hr.
Qed.

(** * Properties *)

(** [Ok]: the new limit is in force and the buffer holds it; [Err]: nothing
    changed. *)
Definition commits_or_keeps {S} (buf : S → Vec.t) (max : S → N) (n : N) (s : S)
    (r : S * Result unit) : Prop :=
  match r.2 with
  | Ok _ =>
    max r.1 = limit_for n ∧ Vec.data (buf r.1) = Vec.data (buf s) ∧
    (limit_for n <= Vec.cap (buf r.1))%N ∧ (Vec.cap (buf s) <= Vec.cap (buf r.1))%N
  | Err e => r.1 = s ∧ ∃ m, e = Config m
  end.

(** C17: [set_max_buffer_size] commits the limit after a successful reservation of
    the whole buffer and leaves the object unchanged otherwise, on all four
    connection types and with any allocator; zero selects the default. *)
Theorem set_max_buffer_size_commits `{Allocator} (n : N) :
  (∀ s, Vec.wf (ServerTL.buffer s) →
    commits_or_keeps ServerTL.buffer ServerTL.max_buffer_size n s
      (ServerTL.set_max_buffer_size n s)) ∧
  (∀ s, Vec.wf (ServerTLS.buffer s) →
    commits_or_keeps ServerTLS.buffer ServerTLS.max_buffer_size n s
      (ServerTLS.set_max_buffer_size n s)) ∧
  (∀ s, Vec.wf (ClientTL.buffer s) →
    commits_or_keeps ClientTL.buffer ClientTL.max_buffer_size n s
      (ClientTL.set_max_buffer_size n s)) ∧
  (∀ s, Vec.wf (ClientTLS.buffer s) →
    commits_or_keeps ClientTLS.buffer ClientTLS.max_buffer_size n s
      (ClientTLS.set_max_buffer_size n s)).
Proof.
  unfold ServerTL.set_max_buffer_size, ServerTLS.set_max_buffer_size,
    ClientTL.set_max_buffer_size, ClientTLS.set_max_buffer_size; fold (limit_for n).
  split_and!; intros s Hwf; destruct (Vec.try_reserve _ _) as [b [u|e]] eqn:Hr;
    unfold commits_or_keeps; cbn [fst snd];
    first [split; [done|by eexists]
          |apply try_reserve_limit in Hr as (? & ? & ?); [by split_and!|done]].
Qed.

(** An allocator that always succeeds. *)
Definition generous : Allocator := λ _, true.

Lemma set_max_buffer_size_commits_witness :
  ClientTL.max_buffer_size
    (ClientTL.set_max_buffer_size (H := generous) 20000000 (ClientTL.new "h:1" 0).1).1 = 20000000%N.
Proof.
  assert (Vec.wf (ClientTL.buffer (ClientTL.new "h:1" 0).1)) as Hwf by (vm_compute; discriminate).
  destruct (set_max_buffer_size_commits (H := generous) 20000000) as (_ & _ & Hc & _).
  specialize (Hc _ Hwf).
  destruct (ClientTL.set_max_buffer_size _ _) as [s [u|e]] eqn:Hs; [apply Hc|].
  vm_compute in Hs. discriminate.
Defined.

Lemma tl_inv_start s :
  (N.max 8 (ServerTL.max_buffer_size s) <= Vec.cap (ServerTL.buffer s))%N →
  tl_inv (Vec.cap (ServerTL.buffer s)) (ServerTL.max_buffer_size s) s.
Proof. intros. unfold tl_inv, reserved. split_and!; done || lia. Qed.

Lemma client_inv_start s :
  (N.max 8 (ClientTL.max_buffer_size s) <= Vec.cap (ClientTL.buffer s))%N →
  client_inv (Vec.cap (ClientTL.buffer s)) s s.
Proof. intros. unfold client_inv, reserved. split_and!; done || lia || by destruct s. Qed.


(** A ping arrives at a fresh server. *)
Definition ping_arrived : peer := Build_peer true false (RequestHeader.wire (RequestHeader.new 0 0)) [] 0.

(** A handler that accepts everything. *)
Definition yes_handler : ProtocolCommandHandler netE unit :=
  {| run _ _ data := Ret (tt, Ok (StatusOk, data)) |}.



(** An acknowledgement, a response of three bytes and its payload. *)
Definition answer_arrived : peer :=
  Build_peer true false ([x01] ++ ResponseHeader.wire (ResponseHeader.new x01 3) false ++ [x61; x62; x63])
    [] 0.

