(* ===== verification/ClientState.v ===== *)
(** What the client operations do to the state shared with the ping task, and how
    long they take.

    The runs are those of [Runtime]: an arbitrary environment, with the locks
    free.  The TCP and the TLS client are treated side by side. *)
From S2P Require Import Prelude Errors ProtocolStructs Vec Headers TimeoutConfig IO Method Common.
From S2P Require Import Duet Follows Ping Runtime Scripted ClientTL ClientTLS.
From stdpp Require Import options.

(** The cells after a successful connection attempt; [task] is the ping task
    started when keep-alive is on and pings are enabled. *)
Definition connected (keep_alive : bool) (st : stream) (task : task_id) (sh : shared) : shared :=
  let sh := stopped (set CStream (Some st) sh) in
  if keep_alive && PingConfig.enabled (s_config sh) then started task sh else sh.

(** The possible ends of [connect]: a committed connection, or cells as they were,
    where success means that a connection was there before. *)
Definition connect_post (keep_alive : bool) (sh : shared) (o : outcome (Result unit))
    (sh' : shared) : Prop :=
  match o with
  | Done (Ok _) =>
    (sh' = sh ∧ is_Some (s_stream sh)) ∨ ∃ st task, sh' = connected keep_alive st task sh
  | _ => sh' = sh
  end.

(** The answer of an event of the outside world leaves the cells alone. *)
Ltac world h :=
  match goal with
  | |- context [h ?X ?e ?l ?st] => destruct (h X e l st) as [[?x| |] [?t ?w]]
  end; cbn [fst snd exec].

Section connect.
Context {W : Type} (h : handler osE W) `{!RuntimeLaws h}.

(** The part of [established] both clients share. *)
Lemma exec_publish (ka : bool) (st : stream) lim t sh w :
  ∃ task w', exec (alone h)
    (store CStream (Some st);;
     PingState.stop_ping_task;;
     enabled ← (if ka then PingState.is_enabled else mret false);
     (if (enabled : bool) then PingState.start_ping_task else mret tt);;
     mret (M := io clientE) (Ok (E := Error) tt)) lim (t, (sh, w)) =
    (Done (Ok tt), (t, (connected ka st task sh, w'))).
Proof using All.
  rewrite exec_bind, exec_store, exec_bind.
  destruct (exec_stop_ping_task h lim t (set CStream (Some st) sh) w) as [w1 ->].
  unfold connected. set (sh1 := stopped _). clearbody sh1. rewrite exec_bind.
  destruct ka; cbn [andb]; [|by exists 0%N, w1].
  pose proof (exec_start_ping_task h lim t sh1 w1) as Hs.
  unfold PingState.is_enabled. run. destruct (PingConfig.enabled _).
  - destruct Hs as (task & w' & Hs). exists task, w'. by rewrite exec_bind, Hs.
  - by exists 0%N, w1.
Qed.

Lemma exec_socket_options_tl s st lim t sh w :
  ∃ w', exec (alone h) (ClientTL.set_socket_options s st) lim (t, (sh, w)) =
        (Done tt, (t, (sh, w'))).
Proof using All.
  unfold ClientTL.set_socket_options. destruct (ClientTL.keep_alive s); [|by exists w].
  destruct (TimeoutConfig.keep_alive _) as [ka|].
  - destruct (runtime_tcp_keepalive st (KeepAliveConfig.time ka) (KeepAliveConfig.interval ka)
      lim t w) as (r & w' & Hw). exists w'. run. by law Hw.
  - destruct (runtime_keepalive st true lim t w) as (r & w' & Hw). exists w'. run. by law Hw.
Qed.

Lemma exec_established_tl s st lim t sh w :
  ∃ task w', exec (alone h) (ClientTL.established s st) lim (t, (sh, w)) =
    (Done (Ok tt), (t, (connected (ClientTL.keep_alive s) st task sh, w'))).
Proof using All.
  unfold ClientTL.established. rewrite exec_bind.
  destruct (exec_socket_options_tl s st lim t sh w) as [w1 ->]. apply exec_publish.
Qed.

Lemma exec_connect_loop_tl s fuel tries lim t sh w :
  tries ≤ DEFAULT_MAX_CONNECT_RETRIES < tries + fuel →
  let r := exec (alone h) (ClientTL.connect_loop fuel s tries) lim (t, (sh, w)) in
  connect_post (ClientTL.keep_alive s) sh r.1 r.2.2.1.
Proof using All.
  revert tries t w. induction fuel as [|fuel IH]; intros tries t w Hf;
    cbn [ClientTL.connect_loop].
  - lia.
  - case_decide.
    + rewrite exec_bind. unfold timeout, sleep. run. world h; try done.
      * destruct x as [st|e]; run.
        -- destruct (exec_established_tl s st lim t0 sh w0) as (task & w' & ->).
           right. by exists st, task.
        -- world h; try done. apply IH. lia.
      * destruct (inner_first _ _); run; [|done]. world h; try done. apply IH. lia.
    + rewrite exec_bind, exec_load. rewrite bool_decide_true by lia.
      destruct (s_stream sh) as [st|] eqn:Hst; cbn [get is_none andb exec]; rewrite Hst.
      * left. by split.
      * done.
Qed.

(** A body under the total deadline: [timeout(connect_total, body)]. *)
Lemma exec_total ka d (body : io clientE (Result unit)) e t sh w :
  (∀ lim, let r := exec (alone h) body lim (t, (sh, w)) in connect_post ka sh r.1 r.2.2.1) →
  ∃ r t' sh' w',
    exec (alone h)
      (r ← timeout d body; match r with Some r => mret r | None => mret (Err e) end)
      None (t, (sh, w)) = (Done r, (t', (sh', w'))) ∧
    (t <= t' <= t + d)%N ∧ connect_post ka sh (Done r) sh'.
Proof using All.
  intros Hb. rewrite exec_bind. unfold timeout. cbn [exec inner_first fst].
  specialize (Hb (Some (min_limit None (t + d)%N))).
  destruct (exec_deadline (alone h) body (t + d) t (sh, w)) as (o & t' & [sh' w'] & He & Ho & Hle);
    [lia|].
  cbn [min_limit] in *. rewrite He in *. cbn [fst snd] in Hb.
  destruct o as [r| |]; [| |done]; cbn [exec mret io_mret].
  - by exists r, t', sh', w'.
  - by exists (Err e), t', sh', w'.
Qed.

Lemma exec_connect_tl s t sh w :
  ∃ r t' sh' w', exec (alone h) (ClientTL.connect s) None (t, (sh, w)) =
      (Done r, (t', (sh', w'))) ∧
    (t <= t' <= t + TimeoutConfig.connect_total (ClientTL.timeout_config s))%N ∧
    connect_post (ClientTL.keep_alive s) sh (Done r) sh'.
Proof using All.
  apply exec_total. intros lim. apply exec_connect_loop_tl.
  unfold ClientTL.connect_fuel. lia.
Qed.

(** * The same for the TLS client *)

Lemma exec_socket_options_tls s st lim t sh w :
  ∃ w', exec (alone h) (ClientTLS.set_socket_options s st) lim (t, (sh, w)) =
        (Done tt, (t, (sh, w'))).
Proof using All.
  apply (exec_socket_options_tl (ClientTLS.as_tl s)).
Qed.

Lemma exec_established_tls s st lim t sh w :
  let r := exec (alone h) (ClientTLS.established s st) lim (t, (sh, w)) in
  connect_post (ClientTLS.keep_alive s) sh r.1 r.2.2.1.
Proof using All.
  unfold ClientTLS.established. rewrite exec_bind.
  destruct (exec_socket_options_tls s st lim t sh w) as [w1 ->].
  rewrite exec_bind, exec_trigger.
  cbn [alone subevent subevent_inr subevent_inl subevent_refl fst snd].
  world h; try done. destruct x as [tls|e]; [|done].
  destruct (exec_publish (ClientTLS.keep_alive s) tls lim t0 sh w0) as (task & w' & ->).
  right. by exists tls, task.
Qed.

Lemma exec_connect_loop_tls s fuel tries lim t sh w :
  tries ≤ DEFAULT_MAX_CONNECT_RETRIES < tries + fuel →
  let r := exec (alone h) (ClientTLS.connect_loop fuel s tries) lim (t, (sh, w)) in
  connect_post (ClientTLS.keep_alive s) sh r.1 r.2.2.1.
Proof using All.
  revert tries t w. induction fuel as [|fuel IH]; intros tries t w Hf;
    cbn [ClientTLS.connect_loop].
  - lia.
  - case_decide.
    + rewrite exec_bind. unfold timeout, sleep. run. world h; try done.
      * destruct x as [st|e]; run; [apply exec_established_tls|].
        world h; try done. apply IH. lia.
      * destruct (inner_first _ _); run; [|done]. world h; try done. apply IH. lia.
    + rewrite exec_bind, exec_load. rewrite bool_decide_true by lia.
      destruct (s_stream sh) as [st|] eqn:Hst; cbn [get is_none andb exec]; rewrite Hst.
      * left. by split.
      * done.
Qed.

Lemma exec_connect_tls s t sh w :
  ClientTLS.domain_unset s = false →
  ∃ r t' sh' w', exec (alone h) (ClientTLS.connect s) None (t, (sh, w)) =
      (Done r, (t', (sh', w'))) ∧
    (t <= t' <= t + TimeoutConfig.connect_total (ClientTLS.timeout_config s))%N ∧
    connect_post (ClientTLS.keep_alive s) sh (Done r) sh'.
Proof using All.
  unfold ClientTLS.domain_unset, ClientTLS.connect. intros ->. apply exec_total. intros lim.
  unfold ClientTLS.connect_body. rewrite exec_bind, exec_trigger.
  destruct (runtime_tls_build (ClientTLS.accept_invalid_certs s) lim t w) as (r & w' & Hw).
  cbn [alone subevent subevent_inr subevent_inl subevent_refl fst snd]. law Hw.
  cbn [fst snd]. destruct r as [u|e]; [|done].
  apply exec_connect_loop_tls. unfold ClientTLS.connect_fuel. lia.
Qed.
End connect.

(** * One request over the shared state *)

(** The cells after an exchange that ended at the instant [t] with [r]. *)
Definition concluded {A} (r : Result A) (t : Instant) (sh : shared) : shared :=
  match r with
  | Ok _ => set CLastActivity t sh
  | Err _ => stopped (set CStream None sh)
  end.

(** What a client must do with the connection [st] in the cells [sh]: run [xchg]
    over it, then conclude. *)
Definition uses_connection {W S A} (h : handler osE W)
    (run : outcome (S * Result A) * (Instant * (shared * W))) (xchg : io netE (S * Result A))
    (lim : option Instant) (t : Instant) (sh : shared) (w : W) : Prop :=
  match exec (restrict h) xchg lim (t, w) with
  | (Done sr, (t1, w1)) => ∃ w2, run = (Done sr, (t1, (concluded sr.2 t1 sh, w2)))
  | (Elapsed, (t1, w1)) => run = (Elapsed, (t1, (sh, w1)))
  | (Hang, (t1, w1)) => run = (Hang, (t1, (sh, w1)))
  end.

Section request.
Context {W : Type} (h : handler osE W) `{!RuntimeLaws h}.

(** The end of [handle_message], from the exchange on. *)
Lemma exec_exchange {S A} (xchg : io netE (S * Result A)) lim t sh w :
  uses_connection h
    (exec (alone h)
      (sr ← lift xchg;
       match sr.2 with
       | Err _ => put CStream None;; PingState.stop_ping_task
       | Ok _ => PingState.touch_activity
       end;;
       unlock CStream;; unlock CInFlight;;
       mret (M := io clientE) sr) lim (t, (sh, w))) xchg lim t sh w.
Proof using All.
  unfold uses_connection. rewrite exec_bind, exec_alone_net. cbv zeta.
  destruct (exec (restrict h) xchg lim (t, w)) as [[[s [a|e]]| |] [t1 w1]]; cbn [fst snd];
    [| |done..]; rewrite exec_bind.
  - rewrite (exec_touch_activity h). by exists w1.
  - rewrite exec_bind. change (exec (alone h) (put CStream None) lim (t1, (sh, w1)))
      with (Done tt, (t1, (set CStream None sh, w1))). cbv beta iota.
    destruct (exec_stop_ping_task h lim t1 (set CStream None sh) w1) as [w2 ->].
    by exists w2.
Qed.
End request.

(** A connection attempt that ended well, and one that did not. *)
Definition connect_result (keep_alive : bool) (sh : shared) (r : Result unit) (sh' : shared) :
    Prop :=
  match r with
  | Ok _ =>
    is_Some (s_stream sh') ∧
    (s_stream sh = None →
     let pings := keep_alive && PingConfig.enabled (s_config sh) in
     s_should_stop sh' = negb pings ∧ (is_Some (s_task_handle sh') ↔ pings = true))
  | Err _ => sh' = sh
  end.

Lemma connect_post_result ka sh r sh' :
  connect_post ka sh (Done r) sh' → connect_result ka sh r sh'.
Proof.
  destruct r as [u|e]; [|done].
  intros [[-> Hs]|(st & task & ->)].
  { split; [done|]. intros Hn. rewrite Hn in Hs. by destruct Hs. }
  unfold connect_result, connected. cbv zeta.
  change (s_config (stopped _)) with (s_config sh).
  destruct (ka && PingConfig.enabled (s_config sh)); (split; [by eexists|]); intros _;
    (split; [done|]).
  - split; [done|by eexists].
  - split; [by intros [? [=]]|done].
Qed.

(** What [handle_message] does, given how its [connect] and its exchange run: it
    reuses a kept-alive connection, and connects first otherwise. *)
Definition request_outcome {W S} (h : handler osE W) (keep_alive : bool)
    (connect : io clientE (Result unit)) (s : S)
    (exchange : stream → io netE (S * Result (list byte)))
    (run : outcome (S * Result (list byte)) * (Instant * (shared * W)))
    (t : Instant) (sh : shared) (w : W) : Prop :=
  match s_stream sh, keep_alive with
  | Some st, true => uses_connection h run (exchange st) None t sh w
  | _, _ =>
    match exec (alone h) connect None (t, (sh, w)) with
    | (Done (Ok _), (t1, (sh1, w1))) =>
      ∃ st, s_stream sh1 = Some st ∧ uses_connection h run (exchange st) None t1 sh1 w1
    | (Done (Err e), st1) => run = (Done (s, Err e), st1)
    | _ => False
    end
  end.

Section outcome.
Context {W : Type} (h : handler osE W) `{!RuntimeLaws h}.

Lemma exec_request {S} ka (connect : io clientE (Result unit)) (s : S)
    (xchg : stream → io netE (S * Result (list byte))) (e : Error) t sh w :
  (∃ r t' sh' w', exec (alone h) connect None (t, (sh, w)) = (Done r, (t', (sh', w'))) ∧
    ∀ u, r = Ok u → is_Some (s_stream sh')) →
  request_outcome h ka connect s xchg
    (exec (alone h)
      (disconnected ← (if ka then is_none <$> load CStream else mret true);
       r ← (if (disconnected : bool) then connect else mret (Ok tt));
       match r with
       | Err e => mret (s, Err e)
       | Ok _ =>
         lock CInFlight;;
         stream_guard ← lock CStream;
         match stream_guard with
         | None => unlock CStream;; unlock CInFlight;; mret (s, Err e)
         | Some stream =>
           sr ← lift (xchg stream);
           match sr.2 with
           | Err _ => put CStream None;; PingState.stop_ping_task
           | Ok _ => PingState.touch_activity
           end;;
           unlock CStream;; unlock CInFlight;;
           mret (M := io clientE) sr
         end
       end) None (t, (sh, w))) t sh w.
Proof using All.
  intros (r & t1 & sh1 & w1 & Hc & Hok). unfold request_outcome. rewrite exec_bind.
  assert (exec (alone h) (if ka then is_none <$> load CStream else mret true) None (t, (sh, w)) =
    (Done (negb ka || is_none (s_stream sh)), (t, (sh, w)))) as -> by (by destruct ka).
  assert (∀ t1 sh1 w1 st, s_stream sh1 = Some st → uses_connection h (exec (alone h)
     (stream_guard ← lock CStream;
      match stream_guard with
      | None => unlock CStream;; unlock CInFlight;; mret (s, Err e)
      | Some stream =>
        sr ← lift (xchg stream);
        match sr.2 with
        | Err _ => put CStream None;; PingState.stop_ping_task
        | Ok _ => PingState.touch_activity
        end;;
        unlock CStream;; unlock CInFlight;;
        mret (M := io clientE) sr
      end) None (t1, (sh1, w1))) (xchg st) None t1 sh1 w1) as Huse.
  { intros t2 sh2 w2 st Hst. rewrite exec_bind.
    change (exec (alone h) (lock CStream) None (t2, (sh2, w2)))
      with (Done (s_stream sh2), (t2, (sh2, w2))).
    rewrite Hst. by apply exec_exchange. }
  rewrite exec_bind.
  destruct (s_stream sh) as [st|] eqn:Hst, ka; cbn [negb orb is_none]; cbv beta iota.
  - change (exec (alone h) (mret (Ok tt)) None (t, (sh, w)))
      with (Done (Ok (E := Error) tt), (t, (sh, w))). cbv beta iota.
    rewrite exec_bind. by apply Huse.
  - rewrite Hc. destruct r as [u|x]; [|done].
    destruct (Hok u eq_refl) as [st1 Hst1]. exists st1. split; [done|].
    rewrite exec_bind. by apply Huse.
  - rewrite Hc. destruct r as [u|x]; [|done].
    destruct (Hok u eq_refl) as [st1 Hst1]. exists st1. split; [done|].
    rewrite exec_bind. by apply Huse.
  - rewrite Hc. destruct r as [u|x]; [|done].
    destruct (Hok u eq_refl) as [st1 Hst1]. exists st1. split; [done|].
    rewrite exec_bind. by apply Huse.
Qed.
End outcome.

(** * Connecting *)

Lemma connect_ends_in_time_tl {W} (h : handler osE W) `{!RuntimeLaws h} s t sh w :
  ∃ r t' sh' w', exec (alone h) (ClientTL.connect s) None (t, (sh, w)) =
      (Done r, (t', (sh', w'))) ∧
    (t <= t' <= t + TimeoutConfig.connect_total (ClientTL.timeout_config s))%N ∧
    connect_result (ClientTL.keep_alive s) sh r sh'.
Proof.
  destruct (exec_connect_tl h s t sh w) as (r & t' & sh' & w' & He & Ht & Hp).
  exists r, t', sh', w'. split_and!; [done|lia|lia|]. by apply connect_post_result.
Qed.

Lemma connect_ends_in_time_tls {W} (h : handler osE W) `{!RuntimeLaws h} s t sh w :
  if ClientTLS.domain_unset s then
    exec (alone h) (ClientTLS.connect s) None (t, (sh, w)) =
      (Done (Err (Config "TLS domain not set: call set_domain() before connecting")),
       (t, (sh, w)))
  else
    ∃ r t' sh' w', exec (alone h) (ClientTLS.connect s) None (t, (sh, w)) =
        (Done r, (t', (sh', w'))) ∧
      (t <= t' <= t + TimeoutConfig.connect_total (ClientTLS.timeout_config s))%N ∧
      connect_result (ClientTLS.keep_alive s) sh r sh'.
Proof.
  destruct (ClientTLS.domain_unset s) eqn:Hd.
  - unfold ClientTLS.connect. unfold ClientTLS.domain_unset in Hd. by rewrite Hd.
  - destruct (exec_connect_tls h s t sh w Hd) as (r & t' & sh' & w' & He & Ht & Hp).
    exists r, t', sh', w'. split_and!; [done|lia|lia|]. by apply connect_post_result.
Qed.

(** C7: connecting a client always ends within [connect_total].  On success a
    connection is in place, and when there was none before, the ping task runs exactly
    if keep-alive and pings are on; on failure the shared state is what it was.  The
    TLS client moreover refuses to connect, before it does anything at all, while its
    domain is still the placeholder and certificates are validated. *)
Theorem connect_ends_in_time {W} (h : handler osE W) `{!RuntimeLaws h} t sh w :
  (∀ s, ∃ r t' sh' w', exec (alone h) (ClientTL.connect s) None (t, (sh, w)) =
      (Done r, (t', (sh', w'))) ∧
    (t <= t' <= t + TimeoutConfig.connect_total (ClientTL.timeout_config s))%N ∧
    connect_result (ClientTL.keep_alive s) sh r sh') ∧
  (∀ s, if ClientTLS.domain_unset s then
      exec (alone h) (ClientTLS.connect s) None (t, (sh, w)) =
        (Done (Err (Config "TLS domain not set: call set_domain() before connecting")),
         (t, (sh, w)))
    else
      ∃ r t' sh' w', exec (alone h) (ClientTLS.connect s) None (t, (sh, w)) =
          (Done r, (t', (sh', w'))) ∧
        (t <= t' <= t + TimeoutConfig.connect_total (ClientTLS.timeout_config s))%N ∧
        connect_result (ClientTLS.keep_alive s) sh r sh').
Proof. split; intros s; [by apply connect_ends_in_time_tl|by apply connect_ends_in_time_tls]. Qed.

(** A host that refuses connections, and one that accepts them. *)
Definition refusing : peer := Build_peer false false [] [] 0.
Definition accepting : peer := Build_peer true false [] [] 0.

Lemma connect_ends_in_time_witness :
  (∃ r t' sh' w', exec (alone peer_handler) (ClientTL.connect (ClientTL.new "h:1" 0).1) None
      (5%N, ((ClientTL.new "h:1" 0).2, refusing)) = (Done r, (t', (sh', w'))) ∧
    (5 <= t' <= 5 + from_secs 30)%N ∧ connect_result false (ClientTL.new "h:1" 0).2 r sh') ∧
  exec (alone peer_handler) (ClientTLS.connect (ClientTLS.new "h:1" 0).1) None
    (5%N, ((ClientTLS.new "h:1" 0).2, accepting)) =
  (Done (Err (Config "TLS domain not set: call set_domain() before connecting")),
   (5%N, ((ClientTLS.new "h:1" 0).2, accepting))).
Proof.
  exact (conj
    (proj1 (connect_ends_in_time peer_handler 5 (ClientTL.new "h:1" 0).2 refusing)
      (ClientTL.new "h:1" 0).1)
    (proj2 (connect_ends_in_time peer_handler 5 (ClientTLS.new "h:1" 0).2 accepting)
      (ClientTLS.new "h:1" 0).1)).
Defined.

(** * Requests *)

Lemma handle_message_outcome_tl {W} (h : handler osE W) `{!RuntimeLaws h} s command data t sh w :
  request_outcome h (ClientTL.keep_alive s) (ClientTL.connect s) s
    (λ st, ClientTL.exchange st command data s)
    (exec (alone h) (ClientTL.handle_message command data s) None (t, (sh, w))) t sh w.
Proof.
  apply (exec_request h).
  destruct (exec_connect_tl h s t sh w) as (r & t' & sh' & w' & He & _ & Hp).
  exists r, t', sh', w'. split; [done|]. intros u ->.
  by apply connect_post_result in Hp as [? _].
Qed.

Lemma handle_message_outcome_tls {W} (h : handler osE W) `{!RuntimeLaws h} s command data t sh w :
  request_outcome h (ClientTLS.keep_alive s) (ClientTLS.connect s) s
    (λ st, ClientTLS.exchange st command data s)
    (exec (alone h) (ClientTLS.handle_message command data s) None (t, (sh, w))) t sh w.
Proof.
  apply (exec_request h). destruct (ClientTLS.domain_unset s) eqn:Hd.
  - exists (Err (Config "TLS domain not set: call set_domain() before connecting")), t, sh, w.
    split; [|done]. unfold ClientTLS.connect. unfold ClientTLS.domain_unset in Hd. by rewrite Hd.
  - destruct (exec_connect_tls h s t sh w Hd) as (r & t' & sh' & w' & He & _ & Hp).
    exists r, t', sh', w'. split; [done|]. intros u ->.
    by apply connect_post_result in Hp as [? _].
Qed.

(** C6: what one request of a client does, over TCP and over TLS.  A kept-alive
    connection is reused, otherwise the client connects first, and an error of
    [connect] is the answer.  The exchange runs over the connection in place; when it
    fails the connection is dropped and the ping task stopped, when it succeeds the
    time of the last activity is updated, and its result is the answer. *)
Theorem handle_message_outcome {W} (h : handler osE W) `{!RuntimeLaws h} command data t sh w :
  (∀ s, request_outcome h (ClientTL.keep_alive s) (ClientTL.connect s) s
    (λ st, ClientTL.exchange st command data s)
    (exec (alone h) (ClientTL.handle_message command data s) None (t, (sh, w))) t sh w) ∧
  (∀ s, request_outcome h (ClientTLS.keep_alive s) (ClientTLS.connect s) s
    (λ st, ClientTLS.exchange st command data s)
    (exec (alone h) (ClientTLS.handle_message command data s) None (t, (sh, w))) t sh w).
Proof. split; intros s; [apply (handle_message_outcome_tl h)|apply (handle_message_outcome_tls h)]. Qed.

Lemma handle_message_outcome_witness :
  let c := (ClientTL.new "h:1" 0).1 in
  let s := ClientTLS.set_domain "example.com" (ClientTLS.new "h:1" 0).1 in
  request_outcome peer_handler false (ClientTL.connect c) c (λ st, ClientTL.exchange st 1 [x61] c)
    (exec (alone peer_handler) (ClientTL.handle_message 1 [x61] c) None
       (5%N, ((ClientTL.new "h:1" 0).2, accepting))) 5 (ClientTL.new "h:1" 0).2 accepting ∧
  request_outcome peer_handler false (ClientTLS.connect s) s (λ st, ClientTLS.exchange st 1 [x61] s)
    (exec (alone peer_handler) (ClientTLS.handle_message 1 [x61] s) None
       (5%N, ((ClientTLS.new "h:1" 0).2, accepting))) 5 (ClientTLS.new "h:1" 0).2 accepting.
Proof.
  exact (conj
    (proj1 (handle_message_outcome peer_handler 1 [x61] 5 (ClientTL.new "h:1" 0).2 accepting)
      (ClientTL.new "h:1" 0).1)
    (proj2 (handle_message_outcome peer_handler 1 [x61] 5 (ClientTL.new "h:1" 0).2 accepting)
      (ClientTLS.set_domain "example.com" (ClientTLS.new "h:1" 0).1))).
Defined.

(** * Retries *)

Lemma exec_refused_connect a d l t sh :
  exec (alone peer_handler) (timeout d (trigger (TcpConnect a))) (Some l) (t, (sh, refusing)) =
  (Done (Some (Err (OtherIo 111))), (t, (sh, refusing))).
Proof. simpl. by rewrite N.add_0_r. Qed.

Lemma exec_peer_sleep d l t sh p :
  (t + d <= l)%N →
  exec (alone peer_handler) (sleep d) (Some l) (t, (sh, p)) = (Done tt, ((t + d)%N, (sh, p))).
Proof.
  intros Hl. unfold sleep. rewrite exec_trigger. unfold peer_handler, timed_handler, alone. simpl.
  destruct (N.leb_spec (t + d) l); [|lia]. by rewrite orb_true_r.
Qed.

(** Against a host that refuses at once, the loop sleeps a second per attempt left. *)
Lemma exec_refused_loop s fuel tries l t sh :
  tries ≤ DEFAULT_MAX_CONNECT_RETRIES < tries + fuel →
  (t + from_secs (10 - N.of_nat tries) <= l)%N →
  exec (alone peer_handler) (ClientTL.connect_loop fuel s tries) (Some l) (t, (sh, refusing)) =
  (Done (if is_none (s_stream sh) then Err (Msg "Connection error, max retries reached")
         else Ok tt),
   ((t + from_secs (10 - N.of_nat tries))%N, (sh, refusing))).
Proof.
  unfold DEFAULT_MAX_CONNECT_RETRIES. revert tries t.
  induction fuel as [|fuel IH]; intros tries t Hf Hl; [lia|].
  cbn [ClientTL.connect_loop]. unfold DEFAULT_MAX_CONNECT_RETRIES. case_decide.
  - rewrite exec_bind, exec_refused_connect, exec_bind.
    unfold DEFAULT_CONNECT_RETRY_DELAY, from_secs in *. rewrite exec_peer_sleep by lia.
    rewrite IH by lia. do 2 f_equal. lia.
  - rewrite exec_bind, exec_load. replace (10 - N.of_nat tries)%N with 0%N by lia.
    rewrite bool_decide_true by lia. unfold from_secs. rewrite N.add_0_r.
    cbn [get]. by destruct (s_stream sh).
Qed.



(** * Setters *)

(** [set_timeout_config] stores a validated configuration or nothing.  It fails
    exactly for a zero [connect_total], [ping_write] or [read_header]; otherwise
    the client and the ping task see the same configuration, whose ping interval is
    shorter than [read_header], and pings are on exactly for a kept-alive client
    with a positive interval. *)
Theorem set_timeout_config_validates {W} (h : handler osE W) (s : ClientTL.t) c lim t sh w :
  let config := TimeoutConfig.with_ping_interval (TimeoutConfig.ping_interval c) c in
  let run := exec (alone h) (ClientTL.set_timeout_config c s) lim (t, (sh, w)) in
  if (TimeoutConfig.connect_total c =? 0)%N || (TimeoutConfig.ping_write c =? 0)%N ||
     (TimeoutConfig.read_header c =? 0)%N
  then ∃ m, run = (Done (s, Err (Config m)), (t, (sh, w)))
  else TimeoutConfig.valid config ∧
    run = (Done (ClientTL.mk (ClientTL.address s) (ClientTL.command_has_answer s)
             (ClientTL.buffer s) (ClientTL.max_buffer_size s) config (ClientTL.keep_alive s), Ok tt),
           (t, (set CTimeoutConfig config
                 (set CConfig (PingConfig.mk (TimeoutConfig.ping_interval config)
                    (ClientTL.keep_alive s && (0 <? TimeoutConfig.ping_interval config)%N)) sh), w))).
Proof.
  intros config run.
  assert (TimeoutConfig.connect_total config = TimeoutConfig.connect_total c ∧
          TimeoutConfig.ping_write config = TimeoutConfig.ping_write c ∧
          TimeoutConfig.read_header config = TimeoutConfig.read_header c) as (Hct & Hpw & Hrh).
  { unfold config, TimeoutConfig.with_ping_interval. repeat case_match; done. }
  pose proof (TimeoutConfig.with_ping_interval_lt (TimeoutConfig.ping_interval c) c) as Hlt.
  fold config in Hlt.
  unfold run, ClientTL.set_timeout_config. fold config. unfold TimeoutConfig.valid.
  destruct (TimeoutConfig.validate config) as [u|e] eqn:Hv.
  - apply TimeoutConfig.validate_Ok in Hv as (H1 & H2 & H3).
    rewrite !(proj2 (N.eqb_neq _ _)) by lia. destruct u. by split.
  - assert ((TimeoutConfig.connect_total c =? 0)%N || (TimeoutConfig.ping_write c =? 0)%N ||
     (TimeoutConfig.read_header c =? 0)%N = true) as ->.
    { destruct (_ || _ || _) eqn:Hz; [done|]. rewrite !orb_false_iff, !N.eqb_neq in Hz.
      destruct Hz as [[Hz1 Hz2] Hz3].
      rewrite (proj2 (TimeoutConfig.validate_Ok config tt)) in Hv; [done|].
      rewrite Hct, Hpw, Hrh. split_and!; [done..|]. apply Hlt. lia. }
    apply TimeoutConfig.validate_Err in Hv as [m ->]. by exists m.
Qed.

(** The cells of a client without a connection and without a running task. *)
Definition offline (sh : shared) : shared := set CStream None (stopped sh).

(** [set_keep_alive] turns pings on exactly when the interval is positive, and
    switching it off closes the connection and stops the ping task, in both
    clients. *)
Theorem set_keep_alive_effect {W} (h : handler osE W) `{!RuntimeLaws h} enabled lim t sh w :
  let cells ka :=
    let sh := if negb enabled && ka then offline sh else sh in
    set CConfig (PingConfig.mk (PingConfig.interval (s_config sh))
      (enabled && (0 <? PingConfig.interval (s_config sh))%N)) sh in
  (∀ s, ∃ w', exec (alone h) (ClientTL.set_keep_alive enabled s) lim (t, (sh, w)) =
    (Done (ClientTL.mk (ClientTL.address s) (ClientTL.command_has_answer s) (ClientTL.buffer s)
       (ClientTL.max_buffer_size s) (ClientTL.timeout_config s) enabled),
     (t, (cells (ClientTL.keep_alive s), w')))) ∧
  (∀ s, ∃ w', exec (alone h) (ClientTLS.set_keep_alive enabled s) lim (t, (sh, w)) =
    (Done (ClientTLS.mk (ClientTLS.accept_invalid_certs s) (ClientTLS.address s)
       (ClientTLS.domain s) (ClientTLS.command_has_answer s) (ClientTLS.buffer s)
       (ClientTLS.max_buffer_size s) (ClientTLS.timeout_config s) enabled),
     (t, (cells (ClientTLS.keep_alive s), w')))).
Proof.
  intros cells. split; intros s.
  - unfold ClientTL.set_keep_alive, cells. rewrite exec_bind.
    destruct (negb enabled && ClientTL.keep_alive s); [|by exists w].
    destruct (exec_stop_ping_task h lim t sh w) as [w1 Hs].
    exists w1. by rewrite exec_bind, Hs.
  - unfold ClientTLS.set_keep_alive, cells. rewrite exec_bind.
    destruct (negb enabled && ClientTLS.keep_alive s); [|by exists w].
    destruct (exec_stop_ping_task h lim t sh w) as [w1 Hs].
    exists w1. by rewrite exec_bind, Hs.
Qed.

(** A shared state with a connection and a running task. *)
Definition online : shared :=
  set CStream (Some 3%N) (started 9 (ClientTL.new "h:1" 0).2).

Lemma set_keep_alive_effect_witness :
  let s := ClientTL.mk "h:1" true (Vec.with_capacity 10) 10 TimeoutConfig.default true in
  ∃ sh' w', exec (alone peer_handler) (ClientTL.set_keep_alive false s) None (0%N, (online, accepting)) =
    (Done (ClientTL.mk "h:1" true (Vec.with_capacity 10) 10 TimeoutConfig.default false),
     (0%N, (sh', w'))) ∧ s_stream sh' = None ∧ s_should_stop sh' = true.
Proof.
  intros s. destruct (set_keep_alive_effect peer_handler false None 0 online accepting) as [Htl _].
  destruct (Htl s) as [w' Hw]. eexists _, w'. split; [exact Hw|by split].
Defined.




