(* ===== verification/GivenUp.v ===== *)
(** Requests that their caller gives up: the future of [handle_message] is dropped,
    by a [timeout] around it or by losing a [select!]. *)
From S2P Require Import Prelude Errors ProtocolStructs Vec Headers TimeoutConfig IO Method Common.
From S2P Require Import Ping Runtime Scripted ClientTL ClientTLS ClientState.
From stdpp Require Import options.

Section reused.
Context {W : Type} (h : handler osE W) `{!RuntimeLaws h}.

(** On a kept-alive connection a request is its exchange, under any deadline. *)
Lemma exec_reused {S} (connect : io clientE (Result unit)) (s : S)
    (xchg : stream → io netE (S * Result (list byte))) (e : Error) st lim t sh w :
  s_stream sh = Some st →
  uses_connection h
    (exec (alone h)
      (disconnected ← is_none <$> load CStream;
       r ← (if (disconnected : bool) then connect else mret (Ok tt));
       match r with
       | Err e => mret (s, Err e)
       | Ok _ =>
         lock CInFlight;;
         stream_guard ← lock CStream;
         match stream_guard with
         | None => unlock CStream;; unlock CInFlight;; mret (s, Err e)
         | Some stream =>
           sr ← lift (xchg stream);
           match sr.2 with
           | Err _ => put CStream None;; PingState.stop_ping_task
           | Ok _ => PingState.touch_activity
           end;;
           unlock CStream;; unlock CInFlight;;
           mret (M := io clientE) sr
         end
       end) lim (t, (sh, w))) (xchg st) lim t sh w.
Proof using All.
  intros Hst. rewrite exec_bind.
  change (exec (alone h) (is_none <$> load CStream) lim (t, (sh, w)))
    with (Done (is_none (s_stream sh)), (t, (sh, w))). rewrite Hst.
  change (is_none (Some st)) with false. cbv beta iota. rewrite exec_bind.
  change (exec (alone h) (mret (Ok tt)) lim (t, (sh, w)))
    with (Done (Ok (E := Error) tt), (t, (sh, w))). cbv beta iota. rewrite exec_bind.
  change (exec (alone h) (lock CInFlight) lim (t, (sh, w))) with (Done (s_in_flight sh), (t, (sh, w))).
  cbv beta iota. rewrite exec_bind.
  change (exec (alone h) (lock CStream) lim (t, (sh, w))) with (Done (s_stream sh), (t, (sh, w))).
  rewrite Hst. by apply exec_exchange.
Qed.

Lemma tl_reuses_connection s st command data lim t sh w :
  ClientTL.keep_alive s = true → s_stream sh = Some st →
  uses_connection h (exec (alone h) (ClientTL.handle_message command data s) lim (t, (sh, w)))
    (ClientTL.exchange st command data s) lim t sh w.
Proof using All.
  intros Hka Hst. unfold ClientTL.handle_message. rewrite Hka.
  by apply (exec_reused (ClientTL.connect s) s (λ st, ClientTL.exchange st command data s)).
Qed.

Lemma tls_reuses_connection s st command data lim t sh w :
  ClientTLS.keep_alive s = true → s_stream sh = Some st →
  uses_connection h (exec (alone h) (ClientTLS.handle_message command data s) lim (t, (sh, w)))
    (ClientTLS.exchange st command data s) lim t sh w.
Proof using All.
  intros Hka Hst. unfold ClientTLS.handle_message. rewrite Hka.
  by apply (exec_reused (ClientTLS.connect s) s (λ st, ClientTLS.exchange st command data s)).
Qed.
End reused.

(** C9: giving up a request leaves its connection in place.  When the exchange of a
    kept-alive client has not ended after [d], dropping the call after [d] changes
    nothing of the shared state: the connection with the unfinished exchange is the
    one the next request uses, and the ping task goes on. *)
Theorem given_up_request_keeps_connection {W} (h : handler osE W) `{!RuntimeLaws h}
    command data d st t sh w t' w' :
  s_stream sh = Some st →
  (∀ s, ClientTL.keep_alive s = true →
    exec (restrict h) (ClientTL.exchange st command data s) (Some (t + d)%N) (t, w) = (Elapsed, (t', w')) →
    exec (alone h) (timeout d (ClientTL.handle_message command data s)) None (t, (sh, w)) =
      (Done None, (t', (sh, w')))) ∧
  (∀ s, ClientTLS.keep_alive s = true →
    exec (restrict h) (ClientTLS.exchange st command data s) (Some (t + d)%N) (t, w) = (Elapsed, (t', w')) →
    exec (alone h) (timeout d (ClientTLS.handle_message command data s)) None (t, (sh, w)) =
      (Done None, (t', (sh, w')))).
Proof.
  intros Hst. split; intros s Hka He; cbn [timeout exec fst min_limit inner_first].
  - pose proof (tl_reuses_connection h s st command data (Some (t + d)%N) t sh w Hka Hst) as Hu.
    unfold uses_connection in Hu. rewrite He in Hu. by rewrite Hu.
  - pose proof (tls_reuses_connection h s st command data (Some (t + d)%N) t sh w Hka Hst) as Hu.
    unfold uses_connection in Hu. rewrite He in Hu. by rewrite Hu.
Qed.

(** A client that is connected over the stream 3, and a server that has
    acknowledged a request and takes its time for the answer. *)
Definition waiting : ClientTL.t :=
  ClientTL.mk "h:1" true (Vec.with_capacity 64) 64 TimeoutConfig.default true.
Definition slow : peer := Build_peer true false [x01] [] 0.
Definition connected_cells : shared := set CStream (Some 3%N) (ClientTL.new "h:1" 0).2.

(** The server goes on with the answer to the first request, and closes when the
    next header is not the acknowledgement it waits for. *)
Definition late (w : peer) : peer :=
  Build_peer true true (ResponseHeader.wire (ResponseHeader.new x01 1) false) (outbox w) (next_task w).

Lemma given_up_request_keeps_connection_witness :
  ∃ w', exec (alone peer_handler) (timeout (from_secs 1) (ClientTL.handle_message 1 [x61] waiting)) None
      (0%N, (connected_cells, slow)) = (Done None, (from_secs 1, (connected_cells, w'))) ∧
    ∃ s' st', exec (alone peer_handler) (ClientTL.handle_message 1 [x61] waiting) None
      (from_secs 1, (connected_cells, late w')) = (Done (s', Err (Io UnexpectedEof)), st').
Proof.
  eexists. split.
  - apply (proj1 (given_up_request_keeps_connection peer_handler 1 [x61] (from_secs 1) 3 0
      connected_cells slow (from_secs 1) _ eq_refl) waiting eq_refl). vm_compute. reflexivity.
  - do 2 eexists. vm_compute. reflexivity.
Defined.
