(* ===== verification/EndToEnd.v ===== *)
(** Client and server at the two ends of one connection.

    The exchange of [ClientTL] or [ClientTLS] runs against [handle_next] over any
    transport that keeps [TransportSpec].  The theorems quantify over every
    interleaving of the two programs and every way the network cuts the bytes. *)
From stdpp Require Import relations options.
From S2P Require Import Prelude Errors ProtocolStructs Vec Headers TimeoutConfig IO Method Common.
From S2P Require Import Duet Follows Transport ServerTL ServerTLS ProtocolHandler Ping ClientTL.
From S2P Require Import ClientTLS.

(** A handler for the examples: it counts its calls; command 1 reverses the
    payload, command 2 ends the session, any other fails. *)
Definition example_handler := N.
#[export] Instance example_run : ProtocolCommandHandler voidE example_handler := {|
  run calls command data := Ret
    ((calls + 1)%N,
     if (command =? 1)%N then Ok (StatusOk, rev data)
     else if (command =? 2)%N then Ok (Finish, data)
     else Err (Msg "no such command"));
|}.

Definition example_client : ClientTL.t := (ClientTL.new "127.0.0.1:8080" 0).1.
Definition example_client_tls : ClientTLS.t :=
  ClientTLS.set_domain "example.com" (ClientTLS.new "127.0.0.1:8443" 0).1.

(** [handle_next] on a connection, with whatever the handler awaits besides. *)
Definition handle_next {U} {T H : Type} `{Transport T, ProtocolCommandHandler U H} :
    method (netE +' U) (ProtocolHandler.t T H) Error bool := ProtocolHandler.handle_next.

(** * One request *)

(** The client's part of the dialogue of one request, up to the bytes it leaves. *)
Lemma client_dialogue h data (r : Result (ResponseStatus * list byte)) :
  (len (ProtocolHandler.reply_payload r) < u32_modulus)%N →
  (outs (RequestHeader.wire h) ++ ins [x01] ++ outs data ++
   ins (ResponseHeader.wire (ResponseHeader.new (ProtocolHandler.reply_status r)
          (len (ProtocolHandler.reply_payload r))) false) ++ outs [x01] ++
   ins (ClientTL.response_read (ProtocolHandler.reply_status r) (ProtocolHandler.reply_payload r)))
  ++ ins (if bool_decide (ProtocolHandler.reply_status r = x01) then []
          else ProtocolHandler.reply_payload r) =
  view_client (ProtocolHandler.request_dialogue h data r).
Proof.
  intros Hlen. unfold ProtocolHandler.request_dialogue, response_frame.
  rewrite as_u32_small by done. autorewrite with views.
  unfold ClientTL.response_read. rewrite <-!(assoc_L (++)).
  case_bool_decide; by rewrite ?app_nil_r, ?app_nil_l.
Qed.

(** What a request must satisfy to get through: a command other than [Ping], and
    a payload within the limit of the server. *)
Record admissible (limit command : N) (data : list byte) : Prop := {
  adm_command : (0 < command < u32_modulus)%N;
  adm_size : (len data < u32_modulus)%N;
  adm_limit : (len data <= limit)%N;
}.

Section one_request.
Context {E U : Type → Type} {T H : Type} `{TransportSpec T} `{ProtocolCommandHandler U H}.
Context `{!netE -< E, !U -< E, !Party E unit, !OnWire E unit, !Quiet U E unit}.
Implicit Types (tr : T) (hd : H).

Abbreviation header command data := (RequestHeader.new command (as_u32 (len data))).

Lemma handle_next_request tr hd command data hd' r :
  admissible (limit tr) command data → answers (run hd command data) (hd', r) →
  ∃ tr', limit tr' = limit tr ∧
    follows (ProtocolHandler.handle_next (ProtocolHandler.new tr hd) : io E _)
      (view_server (ProtocolHandler.request_dialogue (header command data) data r))
      (ProtocolHandler.new tr' hd', Ok (ProtocolHandler.keeps_open r)).
Proof using Type*.
  intros [Hc Hs Hl] Hrun.
  apply ProtocolHandler.follows_handle_next; cbn [RequestHeader.command RequestHeader.data_size];
    rewrite ?as_u32_small by done; try done; try lia.
  split; cbn [RequestHeader.command RequestHeader.data_size]; [lia|done].
Qed.
End one_request.

(** C2: a request of the plain TCP client is handled exactly once and answered.
    Whatever the interleaving and the segmentation, the exchange ends: the server
    runs the handler once on the client's bytes, the client gets the handler's
    payload, or its status as an error, and nothing but the payload of a refused
    response is left in the connection. *)
Theorem request_delivered_tl {U} {T H : Type} `{TransportSpec T, ProtocolCommandHandler U H}
    (st : stream) (s : ClientTL.t) (tr : T) (hd hd' : H) command data r :
  ClientTL.command_has_answer s = true →
  admissible (limit tr) command data →
  answers (run hd command data) (hd', r) →
  (len (ProtocolHandler.reply_payload r) < u32_modulus)%N →
  (len (ProtocolHandler.reply_payload r) <= ClientTL.max_buffer_size s)%N →
  ∃ b tr', limit tr' = limit tr ∧
  delivers
    (start (ClientTL.exchange st command data s)
           (handle_next (ProtocolHandler.new tr hd)))
    (ClientTL.with_buffer b s,
     ClientTL.response_result (ProtocolHandler.reply_status r) (ProtocolHandler.reply_payload r))
    (ProtocolHandler.new tr' hd', Ok (ProtocolHandler.keeps_open r))
    (if bool_decide (ProtocolHandler.reply_status r = x01) then []
     else ProtocolHandler.reply_payload r).
Proof.
  intros Hans Hadm Hrun Hlen Hmax.
  destruct (handle_next_request tr hd command data hd' r) as (tr' & Hlim & Hf); [done..|].
  destruct (ClientTL.tl_follows_exchange st command data (ProtocolHandler.reply_status r)
    (ProtocolHandler.reply_payload r) s) as (b & Hc); [done..|].
  exists b, tr'. split; [done|]. eapply duet_delivers; [exact Hc|by apply client_dialogue|done].
Qed.

Lemma request_delivered_tl_witness :
  ∃ b tr', limit tr' = DEFAULT_MAX_BUFFER_SIZE ∧
  delivers
    (start (ClientTL.exchange 0 1 [x61; x62] example_client)
           (handle_next (ProtocolHandler.new (ServerTL.new 0 1) (0%N : example_handler))))
    (ClientTL.with_buffer b example_client, Ok [x62; x61])
    (ProtocolHandler.new tr' (1%N : example_handler), Ok true) [].
Proof.
  edestruct (request_delivered_tl 0 example_client (ServerTL.new 0 1) (0%N : example_handler)
    (1%N : example_handler) 1 [x61; x62] (Ok (StatusOk, [x62; x61]))) as (b & tr' & Hl & Hd); [done..|].
  exists b, tr'. split; [exact Hl|exact Hd].
Defined.

(** The same for the TLS client; a refused response is an [Error::Other]. *)
Theorem request_delivered_tls {U} {T H : Type} `{TransportSpec T, ProtocolCommandHandler U H}
    (st : stream) (s : ClientTLS.t) (tr : T) (hd hd' : H) command data r :
  ClientTLS.command_has_answer s = true →
  admissible (limit tr) command data →
  answers (run hd command data) (hd', r) →
  (len (ProtocolHandler.reply_payload r) < u32_modulus)%N →
  (len (ProtocolHandler.reply_payload r) <= ClientTLS.max_buffer_size s)%N →
  ∃ b tr', limit tr' = limit tr ∧
  delivers
    (start (ClientTLS.exchange st command data s)
           (handle_next (ProtocolHandler.new tr hd)))
    (ClientTLS.with_buffer b s,
     result_map_err Other
       (ClientTLS.response_result (ProtocolHandler.reply_status r)
          (ProtocolHandler.reply_payload r)))
    (ProtocolHandler.new tr' hd', Ok (ProtocolHandler.keeps_open r))
    (if bool_decide (ProtocolHandler.reply_status r = x01) then []
     else ProtocolHandler.reply_payload r).
Proof.
  intros Hans Hadm Hrun Hlen Hmax.
  destruct (handle_next_request tr hd command data hd' r) as (tr' & Hlim & Hf); [done..|].
  destruct (ClientTLS.tls_follows_exchange st command data (ProtocolHandler.reply_status r)
    (ProtocolHandler.reply_payload r) s) as (b & Hc); [done..|].
  exists b, tr'. split; [done|]. eapply duet_delivers; [exact Hc|by apply client_dialogue|done].
Qed.

Lemma request_delivered_tls_witness :
  ∃ b tr', limit tr' = DEFAULT_MAX_BUFFER_SIZE ∧
  delivers
    (start (ClientTLS.exchange 0 3 [x61] example_client_tls)
           (handle_next (ProtocolHandler.new (ServerTLS.new 0) (0%N : example_handler))))
    (ClientTLS.with_buffer b example_client_tls,
     Err (Other (BoxedStr "Response status is not Ok: 3")))
    (ProtocolHandler.new tr' (1%N : example_handler), Ok true) [].
Proof.
  edestruct (request_delivered_tls 0 example_client_tls (ServerTLS.new 0) (0%N : example_handler)
    (1%N : example_handler) 3 [x61] (Err (Msg "no such command"))) as (b & tr' & Hl & Hd); [done..|].
  exists b, tr'. split; [exact Hl|exact Hd].
Defined.

(** * Sessions *)

(** An answer that the client reads to its end, and after which the session may go
    on. *)
Definition whole (r : Result (ResponseStatus * list byte)) : Prop :=
  ProtocolHandler.keeps_open r = true ∧
  (ProtocolHandler.reply_status r = x01 ∨ ProtocolHandler.reply_payload r = []).

(** What the two clients promise: an exchange on the wire gives what the handler
    answers. *)
Class Client (C : Type) := {
  call : stream → N → list byte → method netE C Error (list byte);
  waits_answer : C → bool;
  response_limit : C → N;
  (** Whether calls reuse the connection of the first one. *)
  reusable : C → bool;
  (** Whether a connection may be made. *)
  connectable : C → bool;
  (** The result of a call that is answered with this status and payload. *)
  answered : byte → list byte → Result (list byte);

  answered_ok payload : answered x01 payload = Ok payload;
  answered_err status payload : status ≠ x01 → is_ok (answered status payload) = false;
  call_replied st c command data r :
    waits_answer c = true → whole r →
    (len (ProtocolHandler.reply_payload r) < u32_modulus)%N →
    (len (ProtocolHandler.reply_payload r) <= response_limit c)%N →
    ∃ c', waits_answer c' = true ∧ response_limit c' = response_limit c ∧
      reusable c' = reusable c ∧ connectable c' = connectable c ∧
      follows (call st command data c) (view_client (ProtocolHandler.request_dialogue
        (RequestHeader.new command (as_u32 (len data))) data r))
        (c', answered (ProtocolHandler.reply_status r) (ProtocolHandler.reply_payload r));
}.

(** What is left of the dialogue of a whole answer is nothing. *)
Lemma client_dialogue_whole h data r :
  whole r → (len (ProtocolHandler.reply_payload r) < u32_modulus)%N →
  outs (RequestHeader.wire h) ++ ins [x01] ++ outs data ++
  ins (ResponseHeader.wire (ResponseHeader.new (ProtocolHandler.reply_status r)
         (len (ProtocolHandler.reply_payload r))) false) ++ outs [x01] ++
  ins (ClientTL.response_read (ProtocolHandler.reply_status r) (ProtocolHandler.reply_payload r)) =
  view_client (ProtocolHandler.request_dialogue h data r).
Proof.
  intros [_ Hw] Hlen. rewrite <-client_dialogue by done.
  case_bool_decide as Hs; [|destruct Hw as [?|Hp]; [done|rewrite Hp]]; by rewrite app_nil_r.
Qed.

#[export] Program Instance client_tl : Client ClientTL.t := {|
  call := ClientTL.exchange;
  waits_answer := ClientTL.command_has_answer;
  response_limit := ClientTL.max_buffer_size;
  reusable := ClientTL.keep_alive;
  connectable _ := true;
  answered := ClientTL.response_result;
|}.
Next Obligation. done. Qed.
Next Obligation. intros status payload Hs. unfold ClientTL.response_result. by rewrite bool_decide_false. Qed.
Next Obligation.
  intros st c command data r Hans Hw Hlen Hle.
  destruct (ClientTL.tl_follows_exchange st command data (ProtocolHandler.reply_status r)
    (ProtocolHandler.reply_payload r) c) as (b & Hf); [done..|].
  exists (ClientTL.with_buffer b c). split_and!; [done..|].
  eapply follows_eq; [exact Hf|by apply client_dialogue_whole].
Qed.

#[export] Program Instance client_tls : Client ClientTLS.t := {|
  call := ClientTLS.exchange;
  waits_answer := ClientTLS.command_has_answer;
  response_limit := ClientTLS.max_buffer_size;
  reusable := ClientTLS.keep_alive;
  connectable c := negb (ClientTLS.domain_unset c);
  answered status payload := result_map_err Other (ClientTLS.response_result status payload);
|}.
Next Obligation. done. Qed.
Next Obligation. intros status payload Hs. unfold ClientTLS.response_result. by rewrite bool_decide_false. Qed.
Next Obligation.
  intros st c command data r Hans Hw Hlen Hle.
  destruct (ClientTLS.tls_follows_exchange st command data (ProtocolHandler.reply_status r)
    (ProtocolHandler.reply_payload r) c) as (b & Hf); [done..|].
  exists (ClientTLS.with_buffer b c). split_and!; [done..|].
  eapply follows_eq; [exact Hf|by apply client_dialogue_whole].
Qed.

Lemma call_ok {C} `{Client C} st (c : C) command data payload :
  waits_answer c = true →
  (len payload < u32_modulus)%N → (len payload <= response_limit c)%N →
  ∃ c', waits_answer c' = true ∧ response_limit c' = response_limit c ∧
    reusable c' = reusable c ∧ connectable c' = connectable c ∧
    follows (call st command data c) (view_client (ProtocolHandler.request_dialogue
      (RequestHeader.new command (as_u32 (len data))) data (Ok (StatusOk, payload))))
      (c', Ok payload).
Proof.
  intros Hans Hlen Hle. rewrite <-answered_ok.
  apply (call_replied st c command data (Ok (StatusOk, payload))); [done| |done..].
  split; [done|by left].
Qed.

(** [n] turns of the server's connection loop. *)
Fixpoint turns {E U} {T H : Type} `{Transport T, ProtocolCommandHandler U H, !netE -< E, !U -< E}
    (n : nat) : method E (ProtocolHandler.t T H) Error bool :=
  match n with
  | O => mret true
  | S n =>
    keep_alive ← ProtocolHandler.handle_next;
    if (keep_alive : bool) then turns n else mret false
  end.

(** On a connection, with whatever the handler awaits besides. *)
Definition serve {U} {T H : Type} `{Transport T, ProtocolCommandHandler U H} :
    nat → method (netE +' U) (ProtocolHandler.t T H) Error bool := turns.

Section session.
Context {U : Type → Type} {C T H : Type} `{Client C} `{TransportSpec T}.
Context `{ProtocolCommandHandler U H}.
Implicit Types (tr : T) (hd : H).

(** One call after another on the same connection; the first failure ends it. *)
Fixpoint calls (st : stream) (reqs : list (N * list byte)) :
    method netE C Error (list (list byte)) :=
  match reqs with
  | [] => mret []
  | (command, data) :: reqs =>
    payload ← call st command data; payloads ← calls st reqs; mret (payload :: payloads)
  end.

(** The specification: the same requests as local calls of the handler. *)
Inductive local_calls (request_max response_max : N) :
    H → list (N * list byte) → H → list (list byte) → Prop :=
| local_nil hd : local_calls request_max response_max hd [] hd []
| local_cons hd command data hd1 payload reqs hd' payloads :
    admissible request_max command data →
    answers (run hd command data) (hd1, Ok (StatusOk, payload)) →
    (len payload < u32_modulus)%N → (len payload <= response_max)%N →
    local_calls request_max response_max hd1 reqs hd' payloads →
    local_calls request_max response_max hd ((command, data) :: reqs) hd' (payload :: payloads).

(** The same with answers of any kind. *)
Inductive local_runs (request_max response_max : N) :
    H → list (N * list byte) → H → list (Result (ResponseStatus * list byte)) → Prop :=
| runs_nil hd : local_runs request_max response_max hd [] hd []
| runs_cons hd command data hd1 r reqs hd' rs :
    admissible request_max command data → answers (run hd command data) (hd1, r) → whole r →
    (len (ProtocolHandler.reply_payload r) < u32_modulus)%N →
    (len (ProtocolHandler.reply_payload r) <= response_max)%N →
    local_runs request_max response_max hd1 reqs hd' rs →
    local_runs request_max response_max hd ((command, data) :: reqs) hd' (r :: rs).

Lemma session_follows st rmax pmax hd reqs hd' payloads :
  local_calls rmax pmax hd reqs hd' payloads →
  ∀ (c : C) (tr : T), waits_answer c = true → limit tr = rmax → response_limit c = pmax →
  ∃ G c' tr',
    follows (calls st reqs c) (view_client G) (c', Ok payloads) ∧
    follows (serve (length reqs) (ProtocolHandler.new tr hd)) (view_server G)
      (ProtocolHandler.new tr' hd', Ok true).
Proof.
  induction 1 as [hd|hd command data hd1 payload reqs hd' payloads Hadm Hrun Hlen Hle _ IH];
    intros c tr Hans Hrm Hpm; [by exists [], c, tr|]. subst.
  destruct (call_ok st c command data payload) as (c1 & Hans1 & Hl1 & _ & _ & Hc); [done..|].
  destruct (handle_next_request tr hd command data _ _ Hadm Hrun) as (tr1 & Hlim & Hs).
  destruct (IH c1 tr1) as (G & c' & tr' & Hcs & Hss); [done..|].
  eexists (_ ++ G), c', tr'. split; autorewrite with views.
  - simpl. fstart. { fcall Hc. fcall Hcs. fend. } by rewrite app_nil_r.
  - unfold serve. simpl. fstart. { fcall Hs. cbn [ProtocolHandler.keeps_open bool_decide]. exact Hss. } done.
Qed.
End session.

(** A session is transparent: any number of requests over one connection
    between any of the two clients and any of the two server transports gives the
    client what local calls of the handler, one after the other, would give. *)
Theorem session_transparent {U} {C T H : Type} `{Client C, TransportSpec T, ProtocolCommandHandler U H}
    (st : stream) (c : C) (tr : T) (hd hd' : H) reqs payloads :
  waits_answer c = true →
  local_calls (limit tr) (response_limit c) hd reqs hd' payloads →
  ∃ c' tr', delivers
    (start (calls st reqs c) (serve (length reqs) (ProtocolHandler.new tr hd)))
    (c', Ok payloads) (ProtocolHandler.new tr' hd', Ok true) [].
Proof.
  intros Hans Hl.
  destruct (session_follows st _ _ _ _ _ _ Hl c tr) as (G & c' & tr' & Hc & Hs); [done..|].
  exists c', tr'. eapply duet_delivers; [exact Hc|apply app_nil_r|exact Hs].
Qed.

Lemma session_transparent_witness :
  ∃ c' tr', delivers
    (start (calls 0 [(1%N, [x61; x62]); (1%N, [])] example_client)
       (serve 2 (ProtocolHandler.new (ServerTLS.new 0) (0%N : example_handler))))
    (c', Ok [[x62; x61]; []]) (ProtocolHandler.new tr' (2%N : example_handler), Ok true) [].
Proof.
  apply (session_transparent 0 example_client (ServerTLS.new 0) (0%N : example_handler)
    (2%N : example_handler) [(1%N, [x61; x62]); (1%N, [])] [[x62; x61]; []]); [done|].
  repeat (eapply local_cons || apply local_nil || split || done).
Defined.

(** * What is not a plain request *)

(** The bytes a party reads and writes. *)
Definition reads (t : list act) : list byte :=
  omap (λ a, match a with In (Data b) => Some b | _ => None end) t.
Definition writes (t : list act) : list byte :=
  omap (λ a, match a with Out (Data b) => Some b | _ => None end) t.

Lemma reads_ins bs : reads (ins bs) = bs.
Proof. unfold reads. induction bs as [|b bs IH]; csimpl; congruence. Qed.
Lemma reads_outs bs : reads (outs bs) = [].
Proof. unfold reads. by induction bs. Qed.
Lemma writes_ins bs : writes (ins bs) = [].
Proof. unfold writes. by induction bs. Qed.
Lemma writes_outs bs : writes (outs bs) = bs.
Proof. unfold writes. induction bs as [|b bs IH]; csimpl; congruence. Qed.
Lemma reads_app t u : reads (t ++ u) = reads t ++ reads u.
Proof. apply omap_app. Qed.
Lemma writes_app t u : writes (t ++ u) = writes t ++ writes u.
Proof. apply omap_app. Qed.
#[export] Hint Rewrite reads_ins reads_outs writes_ins writes_outs reads_app writes_app : views.

(** In no-answer mode the client loses step with wagonet's own server.  When
    both do their part of a request that the handler accepts, the client reports
    success, but it has read four size bytes and a payload less than the server has
    sent; they stand in front of whatever the server sends next. *)
Theorem no_answer_desynchronises {U} {T H : Type} `{TransportSpec T, ProtocolCommandHandler U H}
    (st : stream) (s : ClientTL.t) (tr : T) (hd hd' : H) command data payload :
  ClientTL.command_has_answer s = false →
  admissible (limit tr) command data →
  answers (run hd command data) (hd', Ok (StatusOk, payload)) →
  (len payload < u32_modulus)%N →
  ∃ tc ts b tr',
    follows (ClientTL.exchange st command data s) tc (ClientTL.with_buffer b s, Ok []) ∧
    follows (handle_next (ProtocolHandler.new tr hd)) ts
      (ProtocolHandler.new tr' hd', Ok true) ∧
    writes tc = reads ts ∧
    writes ts = reads tc ++ u32_to_be_bytes (len payload) ++ payload.
Proof.
  intros Hans Hadm Hrun Hlen.
  destruct (handle_next_request tr hd command data _ _ Hadm Hrun) as (tr' & Hlim & Hs).
  destruct (ClientTL.tl_follows_exchange_no_answer st command data s Hans) as (b & Hc).
  eexists _, _, b, tr'. split_and!; [exact Hc|exact Hs|..];
    unfold ProtocolHandler.request_dialogue, response_frame, ResponseHeader.wire;
    cbn [ProtocolHandler.reply_payload ResponseHeader.data_size];
    rewrite ?(as_u32_small (len payload)) by done; autorewrite with views;
    by rewrite ?app_nil_r.
Qed.

Lemma no_answer_desynchronises_witness :
  ∃ tc ts b tr',
    follows (ClientTL.exchange 0 1 [x61] (ClientTL.set_command_has_answer false example_client)) tc
      (ClientTL.with_buffer b (ClientTL.set_command_has_answer false example_client), Ok []) ∧
    follows (handle_next
        (ProtocolHandler.new (ServerTL.new 0 1) (0%N : example_handler))) ts
      (ProtocolHandler.new tr' (1%N : example_handler), Ok true) ∧
    writes tc = reads ts ∧ writes ts = reads tc ++ [x00; x00; x00; x01] ++ [x61].
Proof.
  apply (no_answer_desynchronises 0 (ClientTL.set_command_has_answer false example_client)
    (ServerTL.new 0 1) (0%N : example_handler) (1%N : example_handler) 1 [x61] [x61]); done.
Defined.

(** Two calls on one connection, the first one in no-answer mode.  The guard of
    [handle_message_with_no_answer] puts the mode back in between. *)
Definition call_after_no_answer (st : stream) (first second : N * list byte) (s : ClientTL.t) :
    io netE (Result (list byte) * Result (list byte)) :=
  r1 ← ClientTL.exchange st first.1 first.2 (ClientTL.set_command_has_answer false s);
  r2 ← ClientTL.exchange st second.1 second.2 (ClientTL.set_command_has_answer true r1.1);
  mret (r1.2, r2.2).

(** What the server has left of a request once it has acknowledged the header. *)
Definition after_ack (r : Result (ResponseStatus * list byte)) : list act :=
  outs (response_frame (ProtocolHandler.reply_status r) (Some (ProtocolHandler.reply_payload r))) ++
  ins [x01] ++ outs (ProtocolHandler.reply_payload r).

Lemma view_server_request h data r :
  view_server (ProtocolHandler.request_dialogue h data r) =
    ins (RequestHeader.wire h) ++ outs [x01] ++ ins data ++ after_ack r.
Proof. unfold ProtocolHandler.request_dialogue, after_ack. by autorewrite with views. Qed.

(** The schedule in which a call in no-answer mode is followed by another one. *)
Lemma no_answer_steps h1 d1 payload h2 t u :
  (len payload < 16777216)%N →
  rtc tstep (Traces ((outs (RequestHeader.wire h1) ++ ins [x01] ++ outs d1 ++ ins [x01] ++ outs [x01]) ++
             outs (RequestHeader.wire h2) ++ ins [x00] ++ t)
       (view_server (ProtocolHandler.request_dialogue h1 d1 (Ok (StatusOk, payload))) ++
        ins (RequestHeader.wire h2) ++ outs [x01] ++ u) [] [])
    (Traces t u [] (data (drop 1 (u32_to_be_bytes (len payload)) ++ payload ++ [x01]))).
Proof.
  intros Hlen. rewrite view_server_request. unfold after_ack, response_frame, ResponseHeader.wire.
  cbn [ProtocolHandler.reply_status ProtocolHandler.reply_payload ResponseHeader.status
    ResponseHeader.data_size].
  rewrite (as_u32_small (len payload)) by lia.
  assert (∃ size, u32_to_be_bytes (len payload) = x00 :: size) as [size ->].
  { eexists. unfold u32_to_be_bytes. by rewrite N.shiftr_div_pow2, N.div_small. }
  change (drop 1 (x00 :: size)) with size. rewrite <-!(assoc_L (++)).
  etrans; [apply tsteps_to_server|]. etrans; [apply tsteps_sent|].
  etrans; [apply (tsteps_received [x01])|]. etrans; [apply tsteps_to_server|].
  etrans; [apply tsteps_sent|]. etrans; [apply (tsteps_received [x01])|].
  etrans; [apply (tsteps_to_server [x01])|]. etrans; [apply tsteps_sent|].
  etrans; [apply tsteps_to_server|]. etrans; [apply tsteps_sent|].
  etrans; [apply (tsteps_received [x00])|].
  by rewrite !map_app, (assoc_L (++) (data size)).
Qed.

(** Its end, when the server goes on waiting for the second payload, and when the
    client hangs up. *)
Lemma no_answer_schedule h1 d1 payload h2 d2 rest :
  (len payload < 16777216)%N → d2 ≠ [] →
  completes (data (drop 1 (u32_to_be_bytes (len payload)) ++ payload ++ [x01])) (ins d2 ++ rest)
    (Traces ((outs (RequestHeader.wire h1) ++ ins [x01] ++ outs d1 ++ ins [x01] ++ outs [x01]) ++
             outs (RequestHeader.wire h2) ++ ins [x00])
       (view_server (ProtocolHandler.request_dialogue h1 d1 (Ok (StatusOk, payload))) ++
        ins (RequestHeader.wire h2) ++ outs [x01] ++ ins d2 ++ rest) [] []).
Proof.
  intros Hlen Hd2. split; [|destruct d2; [done|by apply at_rest_in]]. rewrite <-(app_nil_r (ins [x00])).
  by apply no_answer_steps.
Qed.

Lemma no_answer_schedule_cut h1 d1 payload h2 :
  (len payload < 16777216)%N →
  completes (data (drop 1 (u32_to_be_bytes (len payload)) ++ payload ++ [x01])) []
    (Traces ((outs (RequestHeader.wire h1) ++ ins [x01] ++ outs d1 ++ ins [x01] ++ outs [x01]) ++
             outs (RequestHeader.wire h2) ++ ins [x00] ++ [Out Eof])
       (view_server (ProtocolHandler.request_dialogue h1 d1 (Ok (StatusOk, payload))) ++
        ins (RequestHeader.wire h2) ++ outs [x01] ++ [In Eof]) [] []).
Proof.
  intros Hlen. split; [|done]. etrans; [by apply no_answer_steps|].
  eapply rtc_l; [constructor|]. apply rtc_once. constructor.
Qed.

(** C25: a call in no-answer mode makes the next call on its connection fail.  The
    server handles the first request and sends a response header and payload of which
    the client reads one byte.  The client then takes the first byte of their length,
    0 for every payload below 16 MiB, for the status of the second request, and
    reports it rejected.  Nobody rejected it: the server has acknowledged it and waits
    for the payload the client does not send. *)
Theorem no_answer_breaks_the_next_call {U} {T H : Type} `{TransportSpec T, ProtocolCommandHandler U H}
    (st : stream) (s : ClientTL.t) (tr : T) (hd hd1 hd2 : H) c1 d1 c2 d2 payload r2 :
  admissible (limit tr) c1 d1 → answers (run hd c1 d1) (hd1, Ok (StatusOk, payload)) →
  (len payload < 16777216)%N →
  admissible (limit tr) c2 d2 → answers (run hd1 c2 d2) (hd2, r2) → d2 ≠ [] →
  ∃ waiting,
    converses (λ a _, a = (Ok [], Err (ResponseError x00))) (λ _ _, True)
      (data (drop 1 (u32_to_be_bytes (len payload)) ++ payload ++ [x01])) (ins d2 ++ waiting)
      (start (call_after_no_answer st (c1, d1) (c2, d2) s) (serve 2 (ProtocolHandler.new tr hd))).
Proof.
  intros Hadm1 Hrun1 Hlen Hadm2 Hrun2 Hd2.
  destruct (handle_next_request (E := netE +' U) tr hd c1 d1 _ _ Hadm1 Hrun1) as (tr1 & Hl1 & Hs1).
  rewrite <-Hl1 in Hadm2.
  destruct (handle_next_request (E := netE +' U) tr1 hd1 c2 d2 _ _ Hadm2 Hrun2) as (tr2 & _ & Hs2).
  destruct (ClientTL.tl_follows_exchange_no_answer st c1 d1 (ClientTL.set_command_has_answer false s))
    as (b & Hc1); [done|].
  destruct (ClientTL.tl_follows_exchange_rejected st c2 d2 x00 (ClientTL.set_command_has_answer true
    (ClientTL.with_buffer b (ClientTL.set_command_has_answer false s)))) as (b' & Hc2); [done|].
  eexists. eapply duet_completes, no_answer_schedule; [| |exact Hlen|exact Hd2].
  - unfold call_after_no_answer.
    eapply acts_bind, (follows_impl _ _ _ _ Hc1). rewrite <-(app_nil_r (_ ++ ins [x00])).
    eapply acts_bind, (follows_impl _ _ _ _ Hc2). by split.
  - rewrite (view_server_request _ d2 r2) in Hs2.
    unfold serve. cbn [turns]. unfold mbind, method_mbind.
    eapply acts_bind, (follows_impl _ _ _ _ Hs1). cbn [fst snd ProtocolHandler.keeps_open].
    rewrite bool_decide_false by done. cbn [negb]. rewrite <-(app_nil_r (ins _ ++ _)).
    eapply acts_bind, (follows_impl _ _ _ _ Hs2). cbn [fst snd]. by destruct (ProtocolHandler.keeps_open r2).
Qed.

Lemma no_answer_breaks_the_next_call_witness :
  ∃ waiting,
    converses (λ a _, a = (Ok [], Err (ResponseError x00))) (λ _ _, True)
      (data [x00; x00; x02; x62; x61; x01]) (ins [x63] ++ waiting)
      (start (call_after_no_answer 0 (1%N, [x61; x62]) (1%N, [x63]) example_client)
        (serve 2 (ProtocolHandler.new (ServerTL.new 0 1) (0%N : example_handler)))).
Proof.
  by apply (no_answer_breaks_the_next_call 0 example_client (ServerTL.new 0 1) (0%N : example_handler)
    (1%N : example_handler) (2%N : example_handler) 1 [x61; x62] 1 [x63] [x62; x61] (Ok (StatusOk, [x63]))).
Defined.

Section others.
Context {U : Type → Type} {T H : Type} `{TransportSpec T} `{ProtocolCommandHandler U H}.
Implicit Types (tr : T) (hd : H).

(** C23: a request that announces more than the server's limit ends the session
    with [BufferOverflow] after its header: the handler is not run, no payload byte
    is read, and the client is sent nothing, no status either. *)
Theorem oversized_request_unanswered tr hd h :
  RequestHeader.wf h → (limit tr < RequestHeader.data_size h)%N →
  ∃ tr', limit tr' = limit tr ∧
  follows (handle_next (ProtocolHandler.new tr hd)) (ins (RequestHeader.wire h))
    (ProtocolHandler.new tr' hd, Err (BufferOverflow (RequestHeader.data_size h) (limit tr))).
Proof.
  intros Hwf Hlt. destruct (read_command_oversized tr h Hwf Hlt) as (tr' & Hl & Hf).
  exists tr'. split; [done|]. autorewrite with views in Hf.
  by apply ProtocolHandler.follows_handle_next_fails.
Qed.

(** Keep-alive pings are answered with one status byte inside the transport:
    the handler never sees them and the session goes on; a ping that announces a
    payload is answered with status 7 and ends it. *)
Theorem pings_stay_in_the_transport tr hd :
  (∃ tr', limit tr' = limit tr ∧
    follows (handle_next (ProtocolHandler.new tr hd))
      (ins [x00; x00; x00; x00; x00; x00; x00; x00] ++ outs [x01])
      (ProtocolHandler.new tr' hd, Ok true)) ∧
  (∀ n, (0 < n < u32_modulus)%N → (n <= limit tr)%N → ∃ tr', limit tr' = limit tr ∧
    follows (handle_next (ProtocolHandler.new tr hd))
      (ins ([x00; x00; x00; x00] ++ u32_to_be_bytes n) ++ outs [x07])
      (ProtocolHandler.new tr' hd, Err (Protocol "Ping must have data_size=0"))).
Proof.
  split.
  - destruct (ProtocolHandler.follows_handle_next_ping tr hd) as (tr' & Hl & Hf).
    exists tr'. split; [done|]. by autorewrite with views in Hf.
  - intros n Hn Hle. destruct (read_command_bad_ping tr n Hn Hle) as (tr' & Hl & Hf).
    exists tr'. split; [done|]. autorewrite with views in Hf.
    by apply ProtocolHandler.follows_handle_next_fails.
Qed.

(** C24: a client that does not acknowledge the response header with 1 is not sent
    the payload.  After a handled request the session ends with an error; after a
    failed one the error is only logged and the session goes on. *)
Theorem refused_response tr hd hd' command data r ack :
  admissible (limit tr) command data → answers (run hd command data) (hd', r) → ack ≠ x01 →
  ∃ tr', limit tr' = limit tr ∧
  follows (handle_next (ProtocolHandler.new tr hd))
    (ins (RequestHeader.wire (RequestHeader.new command (as_u32 (len data)))) ++ outs [x01] ++
     ins data ++ outs (response_frame (ProtocolHandler.reply_status r)
       (Some (ProtocolHandler.reply_payload r))) ++ ins [ack])
    (ProtocolHandler.new tr' hd',
     if is_ok r then Err (Msg "Receiving response status is not OK") else Ok true).
Proof.
  intros [Hc Hs Hl] Hrun Hack.
  destruct (read_command_request tr (RequestHeader.new command (as_u32 (len data))))
    as (t1 & Hl1 & Hf1); cbn [RequestHeader.command RequestHeader.data_size] in *;
    [split; simpl; [lia|apply as_u32_lt]|lia|by rewrite as_u32_small|].
  rewrite (as_u32_small (len data)) in Hf1 by done.
  destruct (receive_data_payload t1 data) as (t2 & Hl2 & Hf2); [by rewrite Hl1|].
  destruct (send_response_refused t2 (ProtocolHandler.reply_status r)
    (Some (ProtocolHandler.reply_payload r)) ack Hack) as (t3 & Hl3 & Hf3).
  exists t3. split; [congruence|]. autorewrite with views in *.
  unfold handle_next, ProtocolHandler.handle_next. fstart.
  { eapply follows_mbind; [by apply ProtocolHandler.follows_on_transport|]. cbv beta iota.
    eapply follows_mbind; [by apply ProtocolHandler.follows_on_transport|].
    eapply follows_mbind; [by apply ProtocolHandler.follows_on_handler|]. cbv beta iota.
    instantiate (1 := outs (response_frame (ProtocolHandler.reply_status r)
      (Some (ProtocolHandler.reply_payload r))) ++ ins [ack]).
    destruct r as [[status payload]|e].
    - by apply follows_mbind_err, ProtocolHandler.follows_on_transport.
    - fstart.
      { eapply follows_mbind; [by eapply follows_attempt, ProtocolHandler.follows_on_transport|].
        fend. }
      by rewrite app_nil_r. }
  rewrite (as_u32_small (len data)) by done. ftrace.
Qed.
End others.

Lemma oversized_request_unanswered_witness :
  ∃ tr', limit tr' = DEFAULT_MAX_BUFFER_SIZE ∧
  follows (handle_next (ProtocolHandler.new (ServerTL.new 0 1) (5%N : example_handler)))
    (ins (RequestHeader.wire (RequestHeader.new 1 10485761)))
    (ProtocolHandler.new tr' (5%N : example_handler),
     Err (BufferOverflow 10485761 DEFAULT_MAX_BUFFER_SIZE)).
Proof.
  exact (oversized_request_unanswered (ServerTL.new 0 1) (5%N : example_handler)
    (RequestHeader.new 1 10485761) ltac:(done) ltac:(done)).
Defined.

Lemma pings_stay_in_the_transport_witness :
  ∃ tr', limit tr' = DEFAULT_MAX_BUFFER_SIZE ∧
  follows (handle_next (ProtocolHandler.new (ServerTLS.new 0) (5%N : example_handler)))
    (ins ([x00; x00; x00; x00] ++ u32_to_be_bytes 9) ++ outs [x07])
    (ProtocolHandler.new tr' (5%N : example_handler), Err (Protocol "Ping must have data_size=0")).
Proof.
  destruct (pings_stay_in_the_transport (ServerTLS.new 0) (5%N : example_handler)) as [_ Hp].
  exact (Hp 9%N ltac:(done) ltac:(done)).
Defined.

Lemma refused_response_witness :
  ∃ tr', limit tr' = DEFAULT_MAX_BUFFER_SIZE ∧
  follows (handle_next (ProtocolHandler.new (ServerTL.new 0 1) (0%N : example_handler)))
    (ins (RequestHeader.wire (RequestHeader.new 9 1)) ++ outs [x01] ++
     ins [x61] ++ outs (response_frame x03 (Some [])) ++ ins [x00])
    (ProtocolHandler.new tr' (1%N : example_handler), Ok true).
Proof.
  exact (refused_response (ServerTL.new 0 1) (0%N : example_handler) (1%N : example_handler) 9 [x61]
    (Err (Msg "no such command")) x00 ltac:(done) ltac:(done) ltac:(done)).
Defined.
