(* ===== verification/EchoServers.v ===== *)
(** The example servers on the bare transports ([src/examples/transport/]): their
    request loops, against the crate's clients and its pings.

    A loop is run by the program that owns the connection, so its end is the end of
    the connection.  An [unwrap] that panics ends it like an error. *)
From S2P Require Import Prelude Errors Text ProtocolStructs Vec Headers TimeoutConfig IO Method.
From S2P Require Import Common Duet Follows Transport Morphism ServerTL ServerTLS.
From S2P Require Import ProtocolHandler Ping Runtime Scripted ClientTL ClientTLS EndToEnd.
From stdpp Require Import options.

(** The methods of the two connection types that the examples call; what they
    promise is what they promise to the framework through [Transport]. *)
Class Connection (T : Type) := {
  next_command : method netE T Error (option (N * N));
  get_data : N → method netE T Error (list byte);
  put_data : byte → option (list byte) → method netE T Error unit;

  room : T → N;
  next_command_request t h :
    RequestHeader.wf h → RequestHeader.command h ≠ 0%N →
    (RequestHeader.data_size h <= room t)%N →
    ∃ t', room t' = room t ∧
      follows (next_command t) (ins (RequestHeader.wire h) ++ outs [x01])
        (t', Ok (Some (RequestHeader.command h, RequestHeader.data_size h)));
  next_command_ping t :
    ∃ t', room t' = room t ∧
      follows (next_command t)
        (ins (RequestHeader.wire (RequestHeader.new 0 0)) ++ outs [x01]) (t', Ok None);
  next_command_closed t :
    ∃ t', room t' = room t ∧ follows (next_command t) [In Eof] (t', Err ConnectionClosed);
  get_data_payload t bs :
    (len bs <= room t)%N →
    ∃ t', room t' = room t ∧ follows (get_data (len bs) t) (ins bs) (t', Ok bs);
  get_data_closed t size :
    (0 < size <= room t)%N → ∃ t' e, follows (get_data size t) [In Eof] (t', Err e);
  put_data_acked t status data :
    ∃ t', room t' = room t ∧
      follows (put_data status data t)
        (outs (response_frame status data) ++ ins [x01] ++ outs (default [] data)) (t', Ok tt);
}.

#[export] Program Instance connection_tl : Connection ServerTL.t := {|
  next_command := ServerTL.read_command;
  get_data := ServerTL.receive_data;
  put_data := ServerTL.send_data;
  room := ServerTL.max_buffer_size;
|}.
Next Obligation.
  intros. eexists. split; [|by apply ServerTL.follows_read_command_request]. done.
Qed.
Next Obligation. intros. eexists. split; [|apply ServerTL.follows_read_command_ping]. done. Qed.
Next Obligation. intros. eexists. split; [|apply ServerTL.follows_read_command_closed]. done. Qed.
Next Obligation. intros. eexists. split; [|by apply ServerTL.follows_receive_data]. done. Qed.
Next Obligation.
  intros t size Hs. destruct (ServerTL.follows_receive_data_closed t size Hs) as (g & e & Hf).
  by eexists _, e.
Qed.
Next Obligation.
  intros t status data. destruct (ServerTL.follows_send_data t status data) as (g & Hf).
  by exists (ServerTL.with_buffer g t).
Qed.

#[export] Program Instance connection_tls : Connection ServerTLS.t := {|
  next_command := ServerTLS.read_command;
  get_data := ServerTLS.receive_data;
  put_data := ServerTLS.send_data;
  room := ServerTLS.max_buffer_size;
|}.
Next Obligation.
  intros. eexists. split; [|eapply ServerTLS.same_follows;
    [apply ServerTLS.read_command_same|by apply ServerTL.follows_read_command_request]]. done.
Qed.
Next Obligation.
  intros. eexists. split; [|eapply ServerTLS.same_follows;
    [apply ServerTLS.read_command_same|apply ServerTL.follows_read_command_ping]]. done.
Qed.
Next Obligation.
  intros. eexists. split; [|eapply ServerTLS.same_follows;
    [apply ServerTLS.read_command_same|apply ServerTL.follows_read_command_closed]]. done.
Qed.
Next Obligation.
  intros. eexists. split; [|eapply ServerTLS.same_follows;
    [apply ServerTLS.receive_data_same|by apply ServerTL.follows_receive_data]]. done.
Qed.
Next Obligation.
  intros t size Hs.
  destruct (ServerTL.follows_receive_data_closed (ServerTLS.as_tl t) size Hs) as (g & e & Hf).
  exists (ServerTLS.with_buffer g t), e.
  by eapply ServerTLS.same_follows; [apply ServerTLS.receive_data_same|].
Qed.
Next Obligation.
  intros t status data.
  destruct (ServerTL.follows_send_data (ServerTLS.as_tl t) status data) as (g & Hf).
  exists (ServerTLS.with_buffer g t). split; [done|].
  by eapply ServerTLS.same_follows; [apply ServerTLS.send_data_same|].
Qed.

(** [format!("Echo: {}", String::from_utf8_lossy(&data))]. *)
Definition echo_reply (prefix : string) (data : list byte) : list byte :=
  bytes_of prefix ++ from_utf8_lossy data.

Section loops.
Context {T : Type} `{Connection T}.

(** The loop of [simple_server.rs] and [tls_server.rs]: at most [fuel] turns, and
    whether it has ended. *)
Fixpoint echo_loop (prefix : string) (fuel : nat) : method netE T Error bool :=
  match fuel with
  | O => mret false
  | S fuel =>
    command ← next_command;
    match command with
    | None => mret true
    | Some (_, size) =>
      data ← attempt (get_data size);
      match data with
      | Err _ => mret true
      | Ok data =>
        sent ← attempt (put_data x01 (Some (echo_reply prefix data)));
        match sent with Err _ => mret true | Ok _ => echo_loop prefix fuel end
      end
    end
  end.

(** The loop of [ping_example.rs] and [ping_tls_example.rs]. *)
Fixpoint ping_echo_loop (fuel : nat) : method netE T Error bool :=
  match fuel with
  | O => mret false
  | S fuel =>
    command ← next_command;
    match command with
    | None => mret true
    | Some (_, data_size) =>
      data ← (if (0 <? data_size)%N then get_data data_size else mret []);
      put_data x01 (Some (echo_reply "Echo: " data));;
      ping_echo_loop fuel
    end
  end.
End loops.

Definition simple_server : nat → method netE ServerTL.t Error bool := echo_loop "Echo: ".
Definition tls_server : nat → method netE ServerTLS.t Error bool := echo_loop "TLS Echo: ".
Definition ping_server : nat → method netE ServerTL.t Error bool := ping_echo_loop.
Definition ping_tls_server : nat → method netE ServerTLS.t Error bool := ping_echo_loop.

(** The messages of [simple_client.rs]. *)
Definition simple_client_messages : list (N * list byte) :=
  map (λ i, (1%N, bytes_of ("Message #" +:+ show (N.of_nat i)))) (seq 1 5).

(** * What the loops do *)

Abbreviation header command data := (RequestHeader.new command (as_u32 (len data))).

Section turns.
Context {T : Type} `{Connection T}.
Implicit Types t : T.

(** A request, as the loops and the clients see it. *)
Definition echo_dialogue (prefix : string) (command : N) (data : list byte) : dialogue :=
  ProtocolHandler.request_dialogue (header command data) data
    (Ok (StatusOk, echo_reply prefix data)).

Lemma view_server_echo prefix command data :
  (len data < u32_modulus)%N →
  view_server (echo_dialogue prefix command data) =
    ins (RequestHeader.wire (header command data)) ++ outs [x01] ++ ins data ++
    outs (response_frame x01 (Some (echo_reply prefix data))) ++ ins [x01] ++
    outs (echo_reply prefix data).
Proof.
  intros. unfold echo_dialogue, ProtocolHandler.request_dialogue. by autorewrite with views.
Qed.

Lemma next_command_admissible t command data :
  admissible (room t) command data →
  ∃ t', room t' = room t ∧
    follows (next_command t) (ins (RequestHeader.wire (header command data)) ++ outs [x01])
      (t', Ok (Some (command, len data))).
Proof.
  intros [Hc Hs Hl].
  destruct (next_command_request t (header command data)) as (t1 & Hr1 & Hf1);
    cbn [RequestHeader.command RequestHeader.data_size] in *;
    [split; simpl; [lia|apply as_u32_lt]|lia|by rewrite as_u32_small|].
  exists t1. split; [done|]. by rewrite (as_u32_small (len data)) in Hf1 |- * by done.
Qed.

(** What the two kinds of loop have in common: a request is answered and the loop
    goes on; a ping ends it. *)
Record echoes (prefix : string) (loop : nat → method netE T Error bool) : Prop := {
  echoes_stop t : loop O t = Ret (t, Ok false);
  echoes_turn fuel t command data :
    admissible (room t) command data →
    ∃ t', room t' = room t ∧ ∀ tr r, follows (loop fuel t') tr r →
      follows (loop (S fuel) t) (view_server (echo_dialogue prefix command data) ++ tr) r;
  echoes_ping fuel t :
    ∃ t', room t' = room t ∧
      follows (loop (S fuel) t)
        (ins (RequestHeader.wire (RequestHeader.new 0 0)) ++ outs [x01]) (t', Ok true);
  echoes_closed fuel t :
    ∃ t', room t' = room t ∧ follows (loop (S fuel) t) [In Eof] (t', Err ConnectionClosed);
}.

Lemma echo_loop_echoes prefix : echoes prefix (echo_loop prefix).
Proof.
  split; [done|intros fuel t command data Hadm|intros fuel t..].
  - destruct (next_command_admissible t command data) as (t1 & Hr1 & Hf1); [done|].
    destruct (get_data_payload t1 data) as (t2 & Hr2 & Hf2); [rewrite Hr1; apply Hadm|].
    destruct (put_data_acked t2 x01 (Some (echo_reply prefix data))) as (t3 & Hr3 & Hf3).
    exists t3. split; [congruence|]. intros tr r Hf. cbn [echo_loop]. fstart.
    { fcall Hf1. eapply follows_mbind; [by apply follows_attempt, Hf2|]. cbv beta iota.
      eapply follows_mbind; [by apply follows_attempt, Hf3|]. exact Hf. }
    rewrite view_server_echo by apply Hadm. ftrace.
  - destruct (next_command_ping t) as (t1 & Hr1 & Hf1). exists t1. split; [done|].
    cbn [echo_loop]. fstart. { fcall Hf1. fend. } ftrace.
  - destruct (next_command_closed t) as (t1 & Hr1 & Hf1). exists t1. split; [done|].
    by apply follows_mbind_err.
Qed.

(** A client that goes away before its payload ends the loop. *)
Lemma echo_loop_cut prefix fuel t command data :
  admissible (room t) command data → data ≠ [] →
  ∃ t', follows (echo_loop prefix (S fuel) t)
    (ins (RequestHeader.wire (header command data)) ++ outs [x01] ++ [In Eof]) (t', Ok true).
Proof.
  intros Hadm Hd. destruct (next_command_admissible t command data) as (t1 & Hr1 & Hf1); [done|].
  destruct (get_data_closed t1 (len data)) as (t2 & e & Hf2).
  { rewrite Hr1. split; [|apply Hadm]. unfold len. destruct data; [done|simpl; lia]. }
  exists t2. cbn [echo_loop]. fstart.
  { fcall Hf1. eapply follows_mbind; [by apply follows_attempt, Hf2|]. cbv beta iota. fend. }
  ftrace.
Qed.

Lemma ping_echo_loop_echoes : echoes "Echo: " ping_echo_loop.
Proof.
  split; [done|intros fuel t command data Hadm|intros fuel t..].
  - destruct (next_command_admissible t command data) as (t1 & Hr1 & Hf1); [done|].
    assert (∃ t2, room t2 = room t1 ∧ follows
      ((if (0 <? len data)%N then get_data (len data) else mret []) t1) (ins data) (t2, Ok data))
      as (t2 & Hr2 & Hf2).
    { destruct data as [|b data]; [by exists t1|]. apply get_data_payload. rewrite Hr1. apply Hadm. }
    destruct (put_data_acked t2 x01 (Some (echo_reply "Echo: " data))) as (t3 & Hr3 & Hf3).
    exists t3. split; [congruence|]. intros tr r Hf. cbn [ping_echo_loop]. fstart.
    { fcall Hf1. fcall Hf2. fcall Hf3. exact Hf. }
    rewrite view_server_echo by apply Hadm. ftrace.
  - destruct (next_command_ping t) as (t1 & Hr1 & Hf1). exists t1. split; [done|].
    cbn [ping_echo_loop]. fstart. { fcall Hf1. fend. } ftrace.
  - destruct (next_command_closed t) as (t1 & Hr1 & Hf1). exists t1. split; [done|].
    by apply follows_mbind_err.
Qed.
End turns.

(** * Sessions with the crate's clients *)

Section sessions.
Context {C T : Type} `{Client C} `{Connection T}.

(** The answer gets through. *)
Definition echoable (c : C) (t : T) (prefix : string) (request : N * list byte) : Prop :=
  admissible (room t) request.1 request.2 ∧
  (len (echo_reply prefix request.2) < u32_modulus)%N ∧
  (len (echo_reply prefix request.2) <= response_limit c)%N.

(** What goes over the connection when requests are echoed. *)
Definition echoes_of (prefix : string) (reqs : list (N * list byte)) : dialogue :=
  concat (map (λ q, echo_dialogue prefix q.1 q.2) reqs).

(** The client's side. *)
Lemma calls_echoed st prefix reqs (c : C) :
  waits_answer c = true →
  Forall (λ q, len (echo_reply prefix q.2) < u32_modulus ∧
    len (echo_reply prefix q.2) <= response_limit c)%N reqs →
  ∃ c', follows (calls st reqs c) (view_client (echoes_of prefix reqs))
    (c', Ok (map (echo_reply prefix ∘ snd) reqs)).
Proof using Type.
  unfold echoes_of. revert c. induction reqs as [|[command data] reqs IH]; intros c Hans Hreqs;
    [by exists c|].
  apply Forall_cons_1 in Hreqs as [(Hlen & Hle) Hreqs]. cbn [fst snd] in *.
  destruct (call_ok st c command data (echo_reply prefix data)) as (c1 & Hans1 & Hl1 & _ & _ & Hc); [done..|].
  destruct (IH c1) as (c' & Hcs); [done|by rewrite Hl1|].
  exists c'. cbn [map concat fst snd]. rewrite view_client_app. simpl.
  fstart. { fcall Hc. fcall Hcs. fend. } by rewrite app_nil_r.
Qed.

(** The server's side, up to what its loop does next. *)
Lemma loop_echoes prefix loop reqs :
  echoes prefix loop → ∀ (t : T) fuel, Forall (λ q, admissible (room t) q.1 q.2) reqs →
  ∃ t', room t' = room t ∧ ∀ tr r, follows (loop fuel t') tr r →
    follows (loop (length reqs + fuel) t) (view_server (echoes_of prefix reqs) ++ tr) r.
Proof using Type.
  unfold echoes_of. intros Hl. induction reqs as [|[command data] reqs IH]; intros t fuel Hreqs;
    [by exists t|].
  apply Forall_cons_1 in Hreqs as [Hadm Hreqs]. cbn [fst snd] in *.
  destruct (echoes_turn _ _ Hl (length reqs + fuel) t command data Hadm) as (t1 & Hr1 & Ht).
  destruct (IH t1 fuel) as (t' & Hr & Hss); [by rewrite Hr1|].
  exists t'. split; [congruence|]. intros tr r Hf. cbn [map concat fst snd length].
  rewrite view_server_app, <-(assoc_L (++)). by apply Ht, Hss.
Qed.

Lemma echoable_split c (t : T) prefix reqs :
  Forall (echoable c t prefix) reqs →
  Forall (λ q, admissible (room t) q.1 q.2) reqs ∧
  Forall (λ q, len (echo_reply prefix q.2) < u32_modulus ∧
    len (echo_reply prefix q.2) <= response_limit c)%N reqs.
Proof using Type. intros Hq. split; (eapply Forall_impl; [|exact Hq]); by intros q (? & ? & ?). Qed.

Lemma echo_session_follows st prefix loop reqs :
  echoes prefix loop → ∀ (c : C) (t : T) fuel,
  waits_answer c = true → Forall (echoable c t prefix) reqs →
  ∃ G c' t', room t' = room t ∧
    follows (calls st reqs c) (view_client G) (c', Ok (map (echo_reply prefix ∘ snd) reqs)) ∧
    ∀ tr r, follows (loop fuel t') tr r →
      follows (loop (length reqs + fuel) t) (view_server G ++ tr) r.
Proof using Type.
  intros Hl c t fuel Hans [Hs Hc]%echoable_split.
  destruct (calls_echoed st prefix reqs c Hans Hc) as (c' & ?).
  destruct (loop_echoes prefix loop reqs Hl t fuel Hs) as (t' & ? & ?).
  by exists (echoes_of prefix reqs), c', t'.
Qed.

Lemma echo_session st prefix loop (c : C) (t : T) reqs :
  echoes prefix loop → waits_answer c = true → Forall (echoable c t prefix) reqs →
  ∃ c' t', delivers (start (calls st reqs c) (loop (length reqs) t))
    (c', Ok (map (echo_reply prefix ∘ snd) reqs)) (t', Ok false) [].
Proof.
  intros Hl Hans Hreqs.
  destruct (echo_session_follows st prefix loop reqs Hl c t 0) as (G & c' & t' & _ & Hc & Hs); [done..|].
  exists c', t'. eapply duet_delivers; [exact Hc|apply app_nil_r|].
  rewrite <-(app_nil_r (view_server G)), <-(Nat.add_0_r (length reqs)).
  apply Hs. by rewrite (echoes_stop _ _ Hl).
Qed.
End sessions.

(** The example servers echo.  Any number of requests of either client over one
    connection to any of the four loops, in any interleaving and segmentation, is
    answered with the prefix and the text of the payload, and the loop is still
    running. *)
Theorem example_servers_echo {C T} `{Client C, Connection T} (st : stream) prefix (c : C) (t : T) reqs :
  waits_answer c = true →
  (Forall (echoable c t prefix) reqs →
   ∃ c' t', delivers (start (calls st reqs c) (echo_loop prefix (length reqs) t))
     (c', Ok (map (echo_reply prefix ∘ snd) reqs)) (t', Ok false) []) ∧
  (Forall (echoable c t "Echo: ") reqs →
   ∃ c' t', delivers (start (calls st reqs c) (ping_echo_loop (length reqs) t))
     (c', Ok (map (echo_reply "Echo: " ∘ snd) reqs)) (t', Ok false) []).
Proof.
  intros Hans. split; intros Hreqs.
  - apply echo_session; [apply echo_loop_echoes|done..].
  - apply echo_session; [apply ping_echo_loop_echoes|done..].
Qed.

Lemma example_servers_echo_witness :
  ∃ c' t', delivers
    (start (calls 0 simple_client_messages example_client) (simple_server 5 (ServerTL.new 0 1)))
    (c', Ok (map bytes_of ["Echo: Message #1"; "Echo: Message #2"; "Echo: Message #3";
                           "Echo: Message #4"; "Echo: Message #5"]))
    (t', Ok false) [].
Proof.
  apply (example_servers_echo 0 "Echo: " example_client (ServerTL.new 0 1) simple_client_messages);
    [done|].
  repeat (apply Forall_cons_2 || apply Forall_nil_2); (split; [by split|by split]).
Defined.

(** The block of a connection: when the loop is over, the transport goes out of scope,
    which closes the connection. *)
Definition until_closed {T} (w : stream) (loop : method netE T Error bool) : method netE T Error bool :=
  λ t, r ← loop t; Common.shutdown w;; mret r.

(** Requests, and then the ping that the client's task sends when they have been idle. *)
Definition then_ping {A} (s : stream) (read_header : Duration) (p : io netE A) : io netE (A * Result unit) :=
  a ← p; r ← ping_exchange s read_header; mret (a, r).

Lemma follows_ping_request s :
  follows (send_ping_request_impl s : io netE _)
    (outs (RequestHeader.wire (RequestHeader.new 0 0))) (Ok tt).
Proof.
  eapply follows_eq; [eapply follows_bind; [apply follows_write_all|]; cbv beta iota|].
  - eapply follows_bind; [apply follows_flush|apply follows_ret].
  - done.
Qed.

(** A ping whose answer is followed by the end of the connection. *)
Lemma follows_ping_cut s read_header :
  follows (ping_exchange s read_header : io netE _)
    (outs (RequestHeader.wire (RequestHeader.new 0 0)) ++ ins [x01] ++ [In Eof]) (Err (Io UnexpectedEof)).
Proof.
  eapply follows_bind; [apply follows_ping_request|]. cbv beta iota.
  eapply follows_bind; [by apply follows_timeout, (follows_read_exact _ _ [x01])|]. cbv beta iota.
  change (negb (bool_decide (hd x00 [x01] = x01))) with false. cbv iota.
  cbv zeta. rewrite <-(app_nil_r [In Eof]).
  eapply follows_bind; [apply follows_timeout, (follows_read_exact_Eof _ 4 []); simpl; lia|].
  apply follows_ret.
Qed.

(** The replies are text whatever was sent, and text comes back as it was. *)
Lemma echo_reply_text prefix data :
  is_utf8 (bytes_of prefix) →
  is_utf8 (echo_reply prefix data) ∧
  (is_utf8 data → echo_reply prefix data = bytes_of prefix ++ data) ∧
  length (echo_reply prefix data) ≤ length (bytes_of prefix) + 3 * length data.
Proof.
  intros Hp. unfold echo_reply. split_and!.
  - apply is_utf8_app; [done|]. apply from_utf8_lossy_is_utf8.
  - intros. by rewrite from_utf8_lossy_text.
  - rewrite length_app. pose proof (length_from_utf8_lossy data). lia.
Qed.

(** A client that goes away is an error of [read_command], which [simple_server.rs]
    hands on to [main]: its server ends with its first client. *)
Lemma simple_server_ends_with_its_client p t :
  closed p = true → inbox p = [] →
  ∃ s st', exec (restrict peer_handler) (simple_server 1 (ServerTL.new 0 1)) None (t, p) =
    (Done (s, Err ConnectionClosed), st').
Proof.
  destruct p as [acc cl ib ob task]. simpl. intros -> ->.
  cbv [simple_server echo_loop next_command connection_tl ServerTL.read_command].
  do 2 eexists. cbn. reflexivity.
Qed.
