(* ===== verification/ExampleServers.v ===== *)
(** The example servers of [src/examples/transport/] around their request loops: how
    they get their connections, and how those end.

    The listener, the acceptor and the spawned blocks are events.  [unwrap] panics with
    the error it has found, which ends the block that called it. *)
From S2P Require Import Prelude Errors Text ProtocolStructs Vec Headers TimeoutConfig IO Method.
From S2P Require Import Common Duet Follows Transport ServerTL ServerTLS ProtocolHandler Ping.
From S2P Require Import ClientTL ClientTLS EndToEnd EchoServers.
From stdpp Require Import options.

Inductive listenE : Type → Type :=
| Bind (address : string) : listenE (result unit io_error)
| Accept : listenE (result stream io_error)
(** [tls_acceptor.accept(stream)]. *)
| TlsAccept (st : stream) : listenE (result stream tls_error)
(** [tokio::spawn] of the block that owns the stream. *)
| SpawnBlock (st : stream) : listenE unit
(** [connection_count.fetch_add(1)]. *)
| CountConnection : listenE unit.

Abbreviation blockE := (netE +' listenE).

(** The loop over a new transport, until the transport goes out of scope. *)
Definition block {T} (w : stream) (loop : method netE T Error bool) (server : T) : io blockE (Result bool) :=
  r ← lift (until_closed w loop server); mret r.2.

(** ** [simple_server.rs] *)

(** The accept loop: its result when [main] is over, within so many turns. *)
Fixpoint simple_server_loop (turns fuel : nat) : io blockE (option (result unit BoxError)) :=
  match turns with
  | O => mret None
  | S turns =>
    accepted ← trigger Accept;
    match accepted with
    | Err e => mret (Some (Err (into e)))
    | Ok stream =>
      r ← block stream (simple_server fuel) (ServerTL.new stream stream);
      match r with
      | Err e => mret (Some (Err (into e)))
      | Ok true => simple_server_loop turns fuel
      | Ok false => mret None
      end
    end
  end.

Definition simple_server_main (turns fuel : nat) : io blockE (option (result unit BoxError)) :=
  bound ← trigger (Bind "127.0.0.1:8080");
  match bound with
  | Err e => mret (Some (Err (into e)))
  | Ok _ => simple_server_loop turns fuel
  end.

(** ** [tls_server.rs] *)

(** The block of a connection; a failed handshake ends it. *)
Definition tls_connection (fuel : nat) (st : stream) : io blockE (Result bool) :=
  accepted ← trigger (TlsAccept st);
  match accepted with
  | Err _ => mret (Ok true)
  | Ok tls_stream => block tls_stream (tls_server fuel) (ServerTLS.new tls_stream)
  end.

Fixpoint tls_server_loop (turns : nat) : io blockE (option (result unit BoxError)) :=
  match turns with
  | O => mret None
  | S turns =>
    accepted ← trigger Accept;
    match accepted with
    | Err e => mret (Some (Err (into e)))
    | Ok stream => trigger (SpawnBlock stream);; tls_server_loop turns
    end
  end.

Definition tls_server_main (turns : nat) : io blockE (option (result unit BoxError)) :=
  bound ← trigger (Bind "127.0.0.1:8443");
  match bound with
  | Err e => mret (Some (Err (into e)))
  | Ok _ => tls_server_loop turns
  end.

(** ** [ping_example.rs] and [ping_tls_example.rs] *)

(** [TimeoutConfig] with a [read_header] of 500 ms. *)
Definition short_read_header : TimeoutConfig.t :=
  let d := TimeoutConfig.default in {|
    TimeoutConfig.connect := TimeoutConfig.connect d;
    TimeoutConfig.read_header := from_millis 500;
    TimeoutConfig.read_data := TimeoutConfig.read_data d;
    TimeoutConfig.write := TimeoutConfig.write d;
    TimeoutConfig.keep_alive := TimeoutConfig.keep_alive d;
    TimeoutConfig.connect_total := TimeoutConfig.connect_total d;
    TimeoutConfig.ping_write := TimeoutConfig.ping_write d;
    TimeoutConfig.ping_interval := TimeoutConfig.ping_interval d;
  |}.

(** The server's block, for its one connection. *)
Definition ping_connection (fuel : nat) : io blockE (Result bool) :=
  accepted ← trigger Accept;
  match accepted with
  | Err e => mret (Err (into e))
  | Ok stream =>
    trigger CountConnection;;
    block stream (ping_server fuel)
      (ServerTL.set_timeout_config short_read_header (ServerTL.new stream stream))
  end.

Definition ping_tls_connection (fuel : nat) : io blockE (Result bool) :=
  accepted ← trigger Accept;
  match accepted with
  | Err e => mret (Err (into e))
  | Ok stream =>
    accepted ← trigger (TlsAccept stream);
    match accepted with
    | Err e => mret (Err (into e))
    | Ok tls_stream =>
      trigger CountConnection;;
      block tls_stream (ping_tls_server fuel)
        (ServerTLS.set_timeout_config short_read_header (ServerTLS.new tls_stream))
    end
  end.

(** * With a client that comes *)

(** Binding, accepting and the handshake succeed; the stream of the handshake is the
    one it was made of. *)
Definition listen_answer {X} (e : listenE X) : X → Prop :=
  match e with
  | Bind _ => λ x, x = Ok tt
  | Accept => λ x, is_ok x = true
  | TlsAccept st => λ x, x = Ok st
  | SpawnBlock _ | CountConnection => λ _, True
  end.

#[export] Instance listening_party : Party blockE unit := {|
  wire _ e := match e with inl1 e => Some e | inr1 _ => None end;
  local _ e _ x _ := match e with inl1 _ => False | inr1 e => listen_answer e x end;
|}.

#[export] Instance listening_on_wire : OnWire blockE unit.
Proof. done. Qed.

Lemma acts_listen {X A} (e : listenE X) (f : X → io blockE A) t Q :
  (∃ x, listen_answer e x) → (∀ x, listen_answer e x → acts (f x) tt t Q) →
  acts (trigger e ≫= f) tt t Q.
Proof.
  intros [x Hx] Hf. apply acts_then, acts_local; [done|by exists x, tt|]. intros y []. apply Hf.
Qed.

Ltac listens := apply acts_listen; [first [by exists tt|by exists (Ok 0%N)|by eexists]|].

Lemma follows_until_closed {T} w (loop : method netE T Error bool) t t' tr r :
  follows (loop t) tr (t', r) → follows (until_closed w loop t) (tr ++ [Out Eof]) (t', r).
Proof.
  intros Hl. eapply follows_bind; [exact Hl|].
  eapply (follows_bind (Common.shutdown w) _ [Out Eof] []); [apply follows_shutdown|apply follows_ret].
Qed.

Lemma follows_block {T} w (loop : method netE T Error bool) t t' tr r :
  follows (loop t) tr (t', r) → follows (block w loop t) (tr ++ [Out Eof]) r.
Proof.
  intros Hl. rewrite <-(app_nil_r (tr ++ _)).
  eapply follows_bind; [by eapply follows_lift, follows_until_closed|apply follows_ret].
Qed.

(** The set-up of the four servers. *)
Lemma simple_server_first turns fuel tr e :
  (∀ st, ∃ t', follows (simple_server fuel (ServerTL.new st st)) tr (t', Err e)) →
  follows (simple_server_main (S turns) fuel) (tr ++ [Out Eof]) (Some (Err (into e))).
Proof.
  intros Hf. unfold simple_server_main. listens. intros ? ->.
  cbn [simple_server_loop]. listens. intros [st|] Hst; [|done]. destruct (Hf st) as (t' & Ht).
  rewrite <-(app_nil_r (tr ++ _)).
  eapply (follows_bind (block st _ _)); [by eapply follows_block|apply follows_ret].
Qed.

Lemma simple_server_next fuel tr :
  (∀ st, ∃ t', follows (simple_server fuel (ServerTL.new st st)) tr (t', Ok true)) →
  follows (simple_server_main 1 fuel) (tr ++ [Out Eof]) None.
Proof.
  intros Hf. unfold simple_server_main. listens. intros ? ->.
  cbn [simple_server_loop]. listens. intros [st|] Hst; [|done]. destruct (Hf st) as (t' & Ht).
  rewrite <-(app_nil_r (tr ++ _)).
  eapply (follows_bind (block st _ _)); [by eapply follows_block|apply follows_ret].
Qed.

Lemma tls_connection_runs fuel st tr t' r :
  follows (tls_server fuel (ServerTLS.new st)) tr (t', r) →
  follows (tls_connection fuel st) (tr ++ [Out Eof]) r.
Proof.
  intros Hf. unfold tls_connection. listens. intros ? ->. by eapply follows_block.
Qed.

Lemma ping_connection_runs fuel tr r :
  (∀ st, ∃ t', follows (ping_server fuel
     (ServerTL.set_timeout_config short_read_header (ServerTL.new st st))) tr (t', r)) →
  follows (ping_connection fuel) (tr ++ [Out Eof]) r.
Proof.
  intros Hf. unfold ping_connection. listens. intros [st|] Hst; [|done]. listens. intros _ _.
  destruct (Hf st) as (t' & Ht). by eapply follows_block.
Qed.

Lemma ping_tls_connection_runs fuel tr r :
  (∀ st, ∃ t', follows (ping_tls_server fuel
     (ServerTLS.set_timeout_config short_read_header (ServerTLS.new st))) tr (t', r)) →
  follows (ping_tls_connection fuel) (tr ++ [Out Eof]) r.
Proof.
  intros Hf. unfold ping_tls_connection. listens. intros [st|] Hst; [|done].
  listens. intros ? ->. listens. intros _ _. destruct (Hf st) as (t' & Ht). by eapply follows_block.
Qed.

(** * Pings *)

(** What a client's requests and its first ping are to a loop. *)
Lemma loop_stops {T} `{Connection T} prefix loop reqs fuel (t : T) :
  echoes prefix loop → Forall (λ q, admissible (room t) q.1 q.2) reqs →
  ∃ t', follows (loop (length reqs + S fuel) t)
    (view_server (echoes_of prefix reqs) ++
     ins (RequestHeader.wire (RequestHeader.new 0 0)) ++ outs [x01]) (t', Ok true).
Proof.
  intros Hl Hreqs. destruct (loop_echoes prefix loop reqs Hl t (S fuel) Hreqs) as (t1 & _ & Hs).
  destruct (echoes_ping _ _ Hl fuel t1) as (t2 & _ & Hp). exists t2. by apply Hs.
Qed.

(** And to the client, whose task sends the ping. *)
Lemma ping_is_cut {C R} `{Client C} (st : stream) prefix (c : C) reqs read_header
    (server : io blockE R) r :
  waits_answer c = true →
  Forall (λ q, len (echo_reply prefix q.2) < u32_modulus ∧
    len (echo_reply prefix q.2) <= response_limit c)%N reqs →
  follows server ((view_server (echoes_of prefix reqs) ++
    ins (RequestHeader.wire (RequestHeader.new 0 0)) ++ outs [x01]) ++ [Out Eof]) r →
  ∃ c', delivers (start (then_ping st read_header (calls st reqs c)) server)
    ((c', Ok (map (echo_reply prefix ∘ snd) reqs)), Err (Io UnexpectedEof)) r [].
Proof.
  intros Hans Hreqs Hs. destruct (calls_echoed st prefix reqs c Hans Hreqs) as (c' & Hc).
  exists c'. eapply (duet_delivers _ _ (echoes_of prefix reqs ++ says Duet.Client
    (RequestHeader.wire (RequestHeader.new 0 0)) ++ says Duet.Server [x01] ++ closes Duet.Server)).
  - eapply follows_bind; [exact Hc|]. eapply follows_bind; [apply follows_ping_cut|apply follows_ret].
  - autorewrite with views. by rewrite !app_nil_r.
  - eapply follows_eq; [exact Hs|]. autorewrite with views. by rewrite <-!(assoc_L (++)).
Qed.

(** C35: the first keep-alive ping is the end of a connection to an example server,
    because its loop takes the [None] of [read_command] for the end of the stream.
    After any requests, which are answered, the ping is acknowledged, the loop is over
    however many turns it had left, and the connection is closed; and the client's
    ping, which still waits for the bytes of the old format, fails with [UnexpectedEof],
    for which its task gives the connection up.  The servers of the two ping examples
    and of the TLS example end well with it, and [simple_server] turns to its next
    client.  So it goes in every interleaving and segmentation in which the close comes
    before the ping's 10 ms are over; a later close is met by the next request. *)
Theorem example_servers_stop_at_a_ping {C} `{Client C} (st : stream) (c : C) reqs read_header n :
  let fuel := length reqs + S n in
  let stops {R} prefix (server : io blockE R) (r : R) := ∃ c',
    delivers (start (then_ping st read_header (calls st reqs c)) server)
      ((c', Ok (map (echo_reply prefix ∘ snd) reqs)), Err (Io UnexpectedEof)) r [] in
  let answered prefix := Forall (λ q, len (echo_reply prefix q.2) < u32_modulus ∧
    len (echo_reply prefix q.2) <= response_limit c)%N reqs in
  waits_answer c = true → Forall (λ q, admissible DEFAULT_MAX_BUFFER_SIZE q.1 q.2) reqs →
  (answered "Echo: " →
     stops "Echo: " (ping_connection fuel) (Ok true) ∧
     stops "Echo: " (ping_tls_connection fuel) (Ok true) ∧
     stops "Echo: " (simple_server_main 1 fuel) None) ∧
  (answered "TLS Echo: " → stops "TLS Echo: " (tls_connection fuel st) (Ok true)).
Proof.
  intros fuel stops answered Hans Hadm. unfold stops, fuel.
  split; intros Hans'; [split_and!|]; (apply ping_is_cut; [done..|]).
  - apply ping_connection_runs. intros st'. apply loop_stops; [apply ping_echo_loop_echoes|done].
  - apply ping_tls_connection_runs. intros st'. apply loop_stops; [apply ping_echo_loop_echoes|done].
  - apply simple_server_next. intros st'. apply loop_stops; [apply echo_loop_echoes|done].
  - destruct (loop_stops "TLS Echo: " (tls_server) reqs n (ServerTLS.new st)) as (t' & Ht);
      [apply echo_loop_echoes|done|]. by eapply tls_connection_runs.
Qed.

(** The ping example on TLS, with its first request. *)
Lemma example_servers_stop_at_a_ping_witness :
  ∃ c', delivers
    (start (then_ping 0 (from_millis 500) (calls 0 [(42%N, bytes_of "Hello")] example_client_tls))
           (ping_tls_connection 100))
    ((c', Ok [bytes_of "Echo: Hello"]), Err (Io UnexpectedEof)) (Ok true) [].
Proof.
  apply (example_servers_stop_at_a_ping 0 example_client_tls [(42%N, bytes_of "Hello")]
    (from_millis 500) 98); [done|..];
  repeat (apply Forall_cons_2 || apply Forall_nil_2); by split.
Defined.
