(* ===== verification/EchoHandler.v ===== *)
(** The command handler of the example server on the framework
    ([src/examples/framework/high_level_server.rs]), as one connection sees it and
    as all the connections of a server share its counter. *)
From S2P Require Import Prelude Errors Text ProtocolStructs Headers IO Method Common Duet Follows.
From S2P Require Import Transport ServerTL ServerTLS ProtocolHandler ClientTL ClientTLS EndToEnd.
From stdpp Require Import options.

Module EchoHandler.

Definition CMD_ECHO : N := 1.
Definition CMD_UPPERCASE : N := 2.
Definition CMD_FINISH : N := 3.
Definition CMD_STATS : N := 4.

(** A [u64] that wraps: [AtomicU64::fetch_add], and [+=] of a release build. *)
Definition wrapping_add (a b : N) : N := ((a + b) mod 2 ^ 64)%N.

(** The state of its own; the counter behind the [Arc] is passed along. *)
Record t := mk { requests : N }.

(** The handler of a fresh connection, by the factory. *)
Definition new : t := mk 0.

Definition stats_message (requests total : N) : list byte :=
  bytes_of ("This connection: " +:+ show requests +:+
    " requests | Total across all connections: " +:+ show total).

Section run.
Context `{Casing}.

(** The first two statements of [run]: both counters go up. *)
Definition enter (h : t) (total_requests : N) : t * N :=
  (mk (wrapping_add (requests h) 1), wrapping_add total_requests 1).

(** The [match]: [total_requests] is what the load reads, by then. *)
Definition answer (h : t) (total_requests command : N) (data : list byte) :
    Result (ResponseStatus * list byte) :=
  if (command =? CMD_ECHO)%N then Ok (StatusOk, data)
  else if (command =? CMD_UPPERCASE)%N then
    Ok (StatusOk, to_uppercase (from_utf8_lossy data))
  else if (command =? CMD_FINISH)%N then Ok (Finish, bytes_of "Goodbye!")
  else if (command =? CMD_STATS)%N then
    Ok (StatusOk, stats_message (requests h) total_requests)
  else Err (Msg ("unknown command: " +:+ show command)).

(** [run] when no other connection is served meanwhile. *)
Definition run (s : t * N) (command : N) (data : list byte) :
    (t * N) * Result (ResponseStatus * list byte) :=
  let s := enter s.1 s.2 in (s, answer s.1 s.2 command data).

#[global] Instance handler : ProtocolCommandHandler voidE (t * N) := {|
  ProtocolHandler.run s command data := Ret (run s command data);
|}.

(** * Every connection of a server *)

(** The counter and, for each connection, its handler and the request it is at. *)
Record server := { total_requests : N; connections : list (t * option (N * list byte)) }.

Definition started : server := {| total_requests := 0; connections := [] |}.

(** One atomic step, and the answer it gives: to which connection and to which
    request. *)
Inductive step : server → option (nat * (N * list byte) * Result (ResponseStatus * list byte)) →
    server → Prop :=
| step_connection n conns :
    step {| total_requests := n; connections := conns |} None
         {| total_requests := n; connections := conns ++ [(new, None)] |}
| step_enter n conns i h request :
    conns !! i = Some (h, None) →
    step {| total_requests := n; connections := conns |} None
         {| total_requests := (enter h n).2;
            connections := <[i := ((enter h n).1, Some request)]> conns |}
| step_answer n conns i h command data :
    conns !! i = Some (h, Some (command, data)) →
    step {| total_requests := n; connections := conns |}
         (Some (i, (command, data), answer h n command data))
         {| total_requests := n; connections := <[i := (h, None)]> conns |}.

(** What the handlers have counted together. *)
Definition counted (s : server) : N :=
  foldr (λ c n, (requests c.1 + n)%N) 0%N (connections s).

Inductive served : server → Prop :=
| served_none : served started
| served_step s o s' : served s → step s o s' → served s'.
End run.

(** * What the statistics say *)

Lemma counted_app conns conns' :
  foldr (λ (c : t * option (N * list byte)) n, (requests c.1 + n)%N) 0%N (conns ++ conns') =
  (foldr (λ c n, (requests c.1 + n)%N) 0%N conns + foldr (λ c n, (requests c.1 + n)%N) 0%N conns')%N.
Proof. induction conns as [|c conns IH]; simpl; [done|]. rewrite IH. lia. Qed.

Lemma counted_insert (conns : list (t * option (N * list byte))) i c c' :
  conns !! i = Some c →
  (foldr (λ c n, (requests c.1 + n)%N) 0%N (<[i := c']> conns) + requests c.1 =
   foldr (λ c n, (requests c.1 + n)%N) 0%N conns + requests c'.1)%N.
Proof.
  revert i. induction conns as [|d conns IH]; intros [|i] Hi; simplify_eq/=; [lia|].
  apply IH in Hi. lia.
Qed.

Lemma counted_le (conns : list (t * option (N * list byte))) i c :
  conns !! i = Some c → (requests c.1 <= foldr (λ c n, (requests c.1 + n)%N) 0%N conns)%N.
Proof.
  revert i. induction conns as [|d conns IH]; intros [|i] Hi; simplify_eq/=; [lia|].
  apply IH in Hi. lia.
Qed.

Lemma wrapping_count n m r :
  n = (m mod 2 ^ 64)%N → ∀ m', (m' + r = m + wrapping_add r 1)%N →
  wrapping_add n 1 = (m' mod 2 ^ 64)%N.
Proof.
  unfold wrapping_add. change (2 ^ 64)%N with 18446744073709551616%N. intros -> m' Hm.
  zify. Z.div_mod_to_equations. lia.
Qed.

Lemma wrapping_add_thrice n :
  wrapping_add (wrapping_add (wrapping_add n 1) 1) 1 = ((n + 3) mod 2 ^ 64)%N.
Proof.
  unfold wrapping_add. change (2 ^ 64)%N with 18446744073709551616%N.
  zify. Z.div_mod_to_equations. lia.
Qed.

Lemma served_count `{Casing} s : served s → total_requests s = (counted s mod 2 ^ 64)%N.
Proof.
  unfold counted. induction 1 as [|s o s' _ IH Hst]; [done|].
  destruct Hst as [n conns|n conns i h request Hi|n conns i h command data Hi]; simpl in *.
  - rewrite counted_app. simpl. by rewrite !N.add_0_r.
  - apply (counted_insert _ _ _ (mk (wrapping_add (requests h) 1), Some request)) in Hi.
    simpl in Hi. eapply wrapping_count; [exact IH|exact Hi].
  - apply (counted_insert _ _ _ (h, None)) in Hi. simpl in Hi.
    rewrite IH. f_equal. lia.
Qed.

(** C40: the statistics of a connection are exact whatever the other connections do
    between its two accesses of the shared counter: they give the connection's own
    count and what all handlers have counted by the time of the answer, of which its
    own is a part. *)
Theorem stats_are_exact `{Casing} s s' i data r :
  served s → step s (Some (i, (CMD_STATS, data), r)) s' → (counted s < 2 ^ 64)%N →
  ∃ h, connections s !! i = Some (h, Some (CMD_STATS, data)) ∧
    r = Ok (StatusOk, stats_message (requests h) (counted s)) ∧
    (requests h <= counted s)%N.
Proof.
  intros Hs%served_count Hst Hlt. rewrite N.mod_small in Hs by done.
  inversion Hst as [| |n conns j h command data' Hi]; subst. cbn [total_requests connections] in *.
  rewrite Hs.
  exists h. split_and!; [done..|]. by apply (counted_le _ _ _ Hi).
Qed.

(** The statistics are short. *)
Lemma len_stats requests total :
  (requests < 2 ^ 64)%N → (total < 2 ^ 64)%N → (len (stats_message requests total) <= 100)%N.
Proof.
  intros Hr Ht. unfold stats_message. rewrite !bytes_of_app, !len_app.
  assert (∀ n, n < 2 ^ 64 → len (bytes_of (show n)) <= 20)%N as Hs.
  { intros n Hn. apply (len_show 19). etrans; [exact Hn|done]. }
  apply Hs in Hr, Ht. revert Hr Ht. generalize (len (bytes_of (show requests))) (len (bytes_of (show total))).
  intros a b Ha Hb. unfold len. simpl. lia.
Qed.

End EchoHandler.

(** A casing for the witnesses: ASCII letters change, other bytes do not. *)
#[local] Program Instance ascii_casing : Casing := {|
  to_uppercase := map (λ b, let n := Byte.to_N b in
    if (97 <=? n)%N && (n <=? 122)%N then as_u8 (n - 32) else b);
|}.
Next Obligation. done. Qed.

Lemma stats_are_exact_witness :
  ∃ s s', EchoHandler.served s ∧
    EchoHandler.step s (Some (1, (4%N, []), Ok (StatusOk,
      bytes_of "This connection: 1 requests | Total across all connections: 2"))) s'.
Proof.
  pose (a := (EchoHandler.mk 1, Some (1%N, [x61]))). pose (b := (EchoHandler.mk 1, Some (4%N, @nil byte))).
  pose (s := {| EchoHandler.total_requests := 2; EchoHandler.connections := [a; b] |}).
  assert (EchoHandler.served s) as Hs.
  { eapply EchoHandler.served_step; [|by apply (EchoHandler.step_enter 1 [a; (EchoHandler.new, None)] 1 EchoHandler.new (4%N, []))].
    eapply EchoHandler.served_step; [|by apply (EchoHandler.step_enter 0 [(EchoHandler.new, None); (EchoHandler.new, None)] 0 EchoHandler.new (1%N, [x61]))].
    eapply EchoHandler.served_step; [|apply (EchoHandler.step_connection 0 [(EchoHandler.new, None)])].
    eapply EchoHandler.served_step; [|apply (EchoHandler.step_connection 0 [])].
    apply EchoHandler.served_none. }
  pose proof (EchoHandler.step_answer 2 [a; b] 1 (EchoHandler.mk 1) 4 [] eq_refl) as Hst.
  eexists s, _. split; [exact Hs|].
  destruct (EchoHandler.stats_are_exact _ _ _ _ _ Hs Hst ltac:(done)) as (h & [= <-] & Hr & _).
  rewrite Hr in Hst. exact Hst.
Defined.

(** Bounds on the lengths of literals. *)
Ltac literal_lengths :=
  repeat match goal with
  | |- context [len (bytes_of ?s)] =>
    let n := eval vm_compute in (len (bytes_of s)) in change (len (bytes_of s)) with n
  end; rewrite ?len_nil; done || lia.

(** * Sessions with the crate's clients *)

Section sessions.
Context `{Casing} {T : Type} `{TransportSpec T}.

(** The session of the example client.  Over either client and either transport
    its three requests are answered as it expects; the server counts them, the
    shared counter included. *)
Theorem high_level_session {C} `{Client C} (st : stream) (c : C) (tr : T) (total : N) :
  let total' := ((total + 3) mod 2 ^ 64)%N in
  let stats := EchoHandler.stats_message 3 total' in
  waits_answer c = true → (15 <= limit tr)%N → (15 <= response_limit c)%N →
  (len stats < u32_modulus)%N → (len stats <= response_limit c)%N →
  ∃ c' tr', delivers
    (start (calls st [(1%N, bytes_of "Hello, wagonet!"); (2%N, bytes_of "shout it"); (4%N, [])] c)
           (serve 3 (ProtocolHandler.new tr (EchoHandler.new, total))))
    (c', Ok [bytes_of "Hello, wagonet!"; bytes_of "SHOUT IT"; stats])
    (ProtocolHandler.new tr' (EchoHandler.mk 3, total'), Ok true) [].
Proof.
  intros total' stats Hans Hlt Hlc Hlen Hle.
  set (t1 := EchoHandler.wrapping_add total 1). set (t2 := EchoHandler.wrapping_add t1 1).
  assert (Ht : EchoHandler.wrapping_add t2 1 = total').
  { apply EchoHandler.wrapping_add_thrice. }
  assert (Hup : to_uppercase (from_utf8_lossy (bytes_of "shout it")) = bytes_of "SHOUT IT").
  { rewrite from_utf8_lossy_text by (apply is_utf8_ascii; repeat constructor).
    rewrite to_uppercase_ascii by repeat constructor. done. }
  destruct (session_follows st (limit tr) (response_limit c) (EchoHandler.new, total)
    [(1%N, bytes_of "Hello, wagonet!"); (2%N, bytes_of "shout it"); (4%N, [])]
    (EchoHandler.mk 3, total') [bytes_of "Hello, wagonet!"; bytes_of "SHOUT IT"; stats])
    with (c := c) (tr := tr) as (G & c' & tr' & Hc & Hs); [|done..|].
  - eapply (local_cons _ _ _ _ _ (EchoHandler.mk 1, t1)); [split; literal_lengths|done|literal_lengths..|].
    eapply (local_cons _ _ _ _ _ (EchoHandler.mk 2, t2)); [split; literal_lengths| |literal_lengths..|].
    { simpl. unfold EchoHandler.run, EchoHandler.answer. simpl. by rewrite Hup. }
    eapply (local_cons _ _ _ _ _ (EchoHandler.mk 3, total')); [split; literal_lengths| |done..|apply local_nil].
    simpl. unfold EchoHandler.run, EchoHandler.answer, EchoHandler.enter. simpl. by rewrite Ht.
  - exists c', tr'. eapply duet_delivers; [exact Hc|apply app_nil_r|exact Hs].
Qed.
End sessions.

Lemma high_level_session_witness :
  ∃ c' tr', delivers
    (start (calls 0 [(1%N, bytes_of "Hello, wagonet!"); (2%N, bytes_of "shout it"); (4%N, [])]
              example_client)
           (serve 3 (ProtocolHandler.new (ServerTL.new 0 1) (EchoHandler.new, 7%N))))
    (c', Ok [bytes_of "Hello, wagonet!"; bytes_of "SHOUT IT";
       bytes_of "This connection: 3 requests | Total across all connections: 10"])
    (ProtocolHandler.new tr' (EchoHandler.mk 3, 10%N), Ok true) [].
Proof.
  apply (high_level_session 0 example_client (ServerTL.new 0 1) 7); done.
Defined.
