(* ===== verification/Codec.v ===== *)
(** The wire format: what the header codecs and the status codes guarantee, and
    the frame reader on a stream that the network cuts at will. *)
From S2P Require Import Prelude Errors ProtocolStructs Vec Headers TimeoutConfig IO Common.
From S2P Require Import Scripted.
From stdpp Require Import options.

(** * Headers *)

(** A request header survives encoding and decoding, wherever it stands: it is
    appended to the buffer and decoded in front of any bytes, and the decoder
    accepts it exactly when the announced size is within the limit. *)
Lemma request_header_roundtrip h buf rest max :
  RequestHeader.wf h →
  ∃ buf' bytes, RequestHeader.encode h buf = Ok buf' ∧
    Vec.data buf' = Vec.data buf ++ bytes ∧ length bytes = RequestHeader.encoded_len ∧
    RequestHeader.decode (bytes ++ rest) max =
      if (max <? RequestHeader.data_size h)%N
      then Err (BufferOverflow (RequestHeader.data_size h) max) else Ok (h, rest).
Proof.
  intros Hwf. destruct (RequestHeader.request_encode_wire h buf) as (buf' & He & Hd).
  exists buf', (RequestHeader.wire h). split_and!; [done..|].
  by apply RequestHeader.request_decode_wire.
Qed.

Lemma request_header_roundtrip_witness :
  RequestHeader.wf (RequestHeader.new 7 258) ∧
  ∃ buf' bytes, RequestHeader.encode (RequestHeader.new 7 258) (Vec.with_capacity 8) = Ok buf' ∧
    Vec.data buf' = bytes ∧ length bytes = 8 ∧
    RequestHeader.decode (bytes ++ [x61]) 1024 = Ok (RequestHeader.new 7 258, [x61]).
Proof.
  split; [done|].
  exact (request_header_roundtrip (RequestHeader.new 7 258) (Vec.with_capacity 8) [x61] 1024
    ltac:(done)).
Defined.

(** Decoding a request header succeeds exactly on the encodings of headers
    within the limit, and leaves the rest of the slice. *)
Theorem request_decode_exact bs max h rest :
  RequestHeader.decode bs max = Ok (h, rest) ↔
  bs = u32_to_be_bytes (RequestHeader.command h) ++ u32_to_be_bytes (RequestHeader.data_size h) ++ rest
  ∧ RequestHeader.wf h ∧ (RequestHeader.data_size h <= max)%N.
Proof.
  split.
  - intros Hd. apply RequestHeader.request_decode_Ok in Hd as (-> & Hwf & Hle).
    split_and!; [|done..]. unfold RequestHeader.wire. by rewrite <-(assoc_L (++)).
  - intros (-> & Hwf & Hle). rewrite (assoc_L (++)).
    change (_ ++ u32_to_be_bytes (RequestHeader.data_size h)) with (RequestHeader.wire h).
    rewrite RequestHeader.request_decode_wire by done.
    destruct (N.ltb_spec max (RequestHeader.data_size h)); [lia|done].
Qed.

(** A response header survives encoding and decoding.  The short form carries
    the status alone and decodes with size 0; the long form carries the size, and
    the decoder checks it against the limit. *)
Lemma response_header_roundtrip h buf rest max (is_default : bool) :
  ResponseHeader.wf h →
  ∃ buf' bytes, ResponseHeader.encode h buf is_default = Ok buf' ∧
    Vec.data buf' = Vec.data buf ++ bytes ∧
    length bytes = ResponseHeader.encoded_len is_default true ∧
    ResponseHeader.decode (bytes ++ rest) is_default max =
      if is_default then Ok (ResponseHeader.new (ResponseHeader.status h) 0, rest)
      else if (max <? ResponseHeader.data_size h)%N
      then Err (BufferOverflow (ResponseHeader.data_size h) max) else Ok (h, rest).
Proof.
  intros Hwf. destruct (ResponseHeader.response_encode_wire h buf is_default) as (buf' & He & Hd).
  exists buf', (ResponseHeader.wire h is_default).
  split_and!; [done..|apply ResponseHeader.response_length_wire|].
  destruct is_default.
  - apply ResponseHeader.decode_default.
  - by apply ResponseHeader.response_decode_wire.
Qed.

Lemma response_header_roundtrip_witness :
  ResponseHeader.wf (ResponseHeader.new x01 3) ∧
  ∃ buf' bytes, ResponseHeader.encode (ResponseHeader.new x01 3) (Vec.with_capacity 8) false = Ok buf' ∧
    Vec.data buf' = bytes ∧ length bytes = 5 ∧
    ResponseHeader.decode (bytes ++ [x61]) false 2 = Err (BufferOverflow 3 2).
Proof.
  split; [done|].
  exact (response_header_roundtrip (ResponseHeader.new x01 3) (Vec.with_capacity 8) [x61] 2 false
    ltac:(done)).
Defined.

(** C18: both headers survive encoding and decoding, wherever they stand: they are
    appended to the buffer and decoded in front of any bytes, and an announced size
    is accepted exactly when it is within the limit.  The short form of a response
    header carries the status alone and decodes with size 0.  A request header is
    decoded from nothing but its own encoding. *)
Theorem headers_roundtrip request response buf rest max :
  RequestHeader.wf request → ResponseHeader.wf response →
  (∃ buf' bytes, RequestHeader.encode request buf = Ok buf' ∧
     Vec.data buf' = Vec.data buf ++ bytes ∧ length bytes = RequestHeader.encoded_len ∧
     RequestHeader.decode (bytes ++ rest) max =
       (if (max <? RequestHeader.data_size request)%N
        then Err (BufferOverflow (RequestHeader.data_size request) max) else Ok (request, rest)) ∧
     ∀ bs, RequestHeader.decode bs max = Ok (request, rest) →
       bs = bytes ++ rest ∧ (RequestHeader.data_size request <= max)%N) ∧
  (∀ is_default, ∃ buf' bytes, ResponseHeader.encode response buf is_default = Ok buf' ∧
     Vec.data buf' = Vec.data buf ++ bytes ∧
     length bytes = ResponseHeader.encoded_len is_default true ∧
     ResponseHeader.decode (bytes ++ rest) is_default max =
       if is_default then Ok (ResponseHeader.new (ResponseHeader.status response) 0, rest)
       else if (max <? ResponseHeader.data_size response)%N
       then Err (BufferOverflow (ResponseHeader.data_size response) max) else Ok (response, rest)).
Proof.
  intros Hreq Hres. split; [|intros is_default; by apply response_header_roundtrip].
  destruct (RequestHeader.request_encode_wire request buf) as (buf' & He & Hd).
  exists buf', (RequestHeader.wire request). split_and!; [done..|by apply RequestHeader.request_decode_wire|].
  intros bs (-> & _ & Hle)%RequestHeader.request_decode_Ok. done.
Qed.

Lemma headers_roundtrip_witness :
  ∃ buf' bytes, ResponseHeader.encode (ResponseHeader.new x01 3) (Vec.with_capacity 8) false = Ok buf' ∧
    Vec.data buf' = bytes ∧ length bytes = 5 ∧
    ResponseHeader.decode (bytes ++ [x61]) false 2 = Err (BufferOverflow 3 2).
Proof.
  destruct (headers_roundtrip (RequestHeader.new 7 258) (ResponseHeader.new x01 3)
    (Vec.with_capacity 8) [x61] 2) as [_ Hr]; [done..|]. exact (Hr false).
Defined.

(** A slice that is too short for the header it should hold is a protocol
    error, whichever header and form is expected, and never a partial decode. *)
Theorem short_header_rejected bs max :
  (length bs < RequestHeader.encoded_len →
   ∃ m, RequestHeader.decode bs max = Err (Protocol m)) ∧
  (∀ d, length bs < ResponseHeader.encoded_len d true →
   ∃ m, ResponseHeader.decode bs d max = Err (Protocol m)).
Proof.
  split.
  - intros Hl. unfold RequestHeader.decode. rewrite decide_True by done. by eexists.
  - intros d Hl. unfold ResponseHeader.decode. destruct bs as [|s bs]; [by eexists|].
    destruct d; simpl in Hl; unfold ResponseHeader.DEFAULT_RESPONSE_HEADER_SIZE,
      ResponseHeader.RESPONSE_HEADER_SIZE in *; [lia|].
    rewrite decide_True by (simpl; lia). by eexists.
Qed.

Lemma short_header_rejected_witness :
  ∃ m, ResponseHeader.decode [x01; x00] false 10 = Err (Protocol m).
Proof.
  destruct (short_header_rejected [x01; x00] 10) as [_ Hr]. apply Hr. simpl.
  unfold ResponseHeader.RESPONSE_HEADER_SIZE. lia.
Defined.

(** * Status codes *)

(** C19: status codes survive the trip over the wire, as a byte and as a [u32];
    every byte without a status decodes to [Unknown]; and the conversion from
    [u32] looks only at the low byte, so that 257 reads as [Ok]. *)
Theorem status_roundtrip (s : ResponseStatus) :
  status_of_u8 (u8_of_status s) = s ∧ status_of_u32 (u32_of_status s) = s ∧
  (∀ v, status_of_u8 v = s → s ≠ Unknown → v = u8_of_status s) ∧
  (∀ k, status_of_u32 (256 * k + u32_of_status s) = s).
Proof.
  assert (∀ k, status_of_u32 (256 * k + u32_of_status s) = s) as Hk.
  { intros k. unfold status_of_u32, u32_of_status.
    assert (as_u8 (256 * k + Byte.to_N (u8_of_status s)) = u8_of_status s) as ->.
    { apply byte_to_N_inj. rewrite to_N_as_u8. pose proof (byte_to_N_lt (u8_of_status s)).
      rewrite N.add_comm, N.mul_comm, N.Div0.mod_add. by apply N.mod_small. }
    by rewrite from_repr_u8_of_status. }
  split_and!; [by destruct s|apply (Hk 0%N)| |done].
  intros v Hv Hs. unfold status_of_u8 in Hv. destruct (from_repr v) as [s'|] eqn:Hr; simpl in Hv.
  - subst. symmetry. by apply from_repr_Some.
  - by subst.
Qed.

(** * Frames *)

(** One turn of the frame reader's loop. *)
Lemma read_loop_turn s fuel n buf bytes cs lim t :
  length buf < n →
  let k := Nat.min (n - length buf) (S (hd (n - length buf) cs)) in
  exec segmented (read_loop (S fuel) s n buf) lim (t, Build_segments bytes cs) =
  match take k bytes with
  | [] => (Done (Err (closed_error (length buf) n)), (t, Build_segments (drop k bytes) (tail cs)))
  | c => exec segmented (read_loop fuel s n (buf ++ c)) lim
           (t, Build_segments (drop k bytes) (tail cs))
  end.
Proof.
  intros Hlt k. cbn [read_loop]. rewrite decide_True by done. cbn -[Nat.min take drop].
  fold k. by destruct (take k bytes).
Qed.

(** The loop of the frame reader on a stream cut anywhere. *)
Lemma read_loop_segmented s fuel n buf bytes cs lim t :
  n - length buf ≤ fuel →
  ∃ cs', exec segmented (read_loop fuel s n buf) lim (t, Build_segments bytes cs) =
    (Done (if decide (n - length buf ≤ length bytes) then Ok (buf ++ take (n - length buf) bytes)
           else Err (closed_error (length buf + length bytes) n)),
     (t, Build_segments (drop (n - length buf) bytes) cs')).
Proof.
  revert buf bytes cs. induction fuel as [|fuel IH]; intros buf bytes cs Hf.
  - exists cs. replace (n - length buf) with 0 by lia.
    rewrite decide_True by lia. simpl. by rewrite app_nil_r, drop_0.
  - destruct (decide (length buf < n)) as [Hlt|Hge].
    2: { exists cs. replace (n - length buf) with 0 by lia. cbn [read_loop].
         rewrite decide_False by lia. rewrite decide_True by lia. simpl.
         by rewrite app_nil_r, drop_0. }
    rewrite read_loop_turn by done. cbv zeta.
    set (k := Nat.min _ _). assert (0 < k ≤ n - length buf) as Hk by lia. clearbody k.
    destruct (take k bytes) as [|b c] eqn:Hc.
    + assert (bytes = []) as -> by (destruct bytes, k; simpl in *; done || lia).
      exists (tail cs). rewrite !drop_nil. simpl length.
      destruct (decide (n - length buf ≤ 0)); [lia|]. by rewrite Nat.add_0_r.
    + rewrite <-Hc. assert (length (take k bytes) = Nat.min k (length bytes)) as Hl
        by apply length_take.
      destruct (IH (buf ++ take k bytes) (drop k bytes) (tail cs)) as (cs' & ->).
      { rewrite length_app, Hc. simpl. lia. }
      exists cs'. rewrite length_app, length_drop, Hl, drop_drop.
      assert (n - (length buf + Nat.min k (length bytes)) ≤ length bytes - k ↔
              n - length buf ≤ length bytes) as Hiff by lia.
      destruct (decide (n - length buf ≤ length bytes)).
      * rewrite decide_True by lia.
        replace (n - (length buf + Nat.min k (length bytes))) with (n - length buf - k) by lia.
        rewrite <-(assoc_L (++)), take_take_drop.
        replace (k + (n - length buf - k)) with (n - length buf) by lia. done.
      * rewrite decide_False by lia. rewrite !drop_ge by lia.
        do 4 f_equal. lia.
Qed.

(** C10: the frame reader returns exactly the next [n] bytes of the stream, however
    the network cuts them.  When the stream ends before, the error tells an end
    between two frames from an end inside one, with the number of bytes that came. *)
Theorem read_exact_or_closed_exact s n bytes cs lim t :
  ∃ cs', exec segmented (read_exact_or_closed s n) lim (t, Build_segments bytes cs) =
    (Done (if decide (n ≤ length bytes) then Ok (take n bytes)
           else if decide (bytes = []) then Err ConnectionClosed
           else Err (ConnectionClosedMidFrame (len bytes) (N.of_nat n))),
     (t, Build_segments (drop n bytes) cs')).
Proof.
  destruct (read_loop_segmented s n n [] bytes cs lim t) as (cs' & Hc); [simpl; lia|].
  exists cs'. unfold read_exact_or_closed. rewrite Hc. cbn [length app].
  rewrite Nat.sub_0_r.
  destruct (decide (n ≤ length bytes)); [done|]. unfold closed_error, len. by destruct bytes.
Qed.
