(* ===== verification/Equivalence.v ===== *)
(** The TLS connections against the plain TCP ones, in any environment.

    The servers agree in everything they do; the clients do the same I/O but report
    errors differently, and the TLS client's boxes hide the ones that mean a
    disconnected peer. *)
From S2P Require Import Prelude Errors ProtocolStructs Vec Headers TimeoutConfig IO Method.
From S2P Require Import Common Duet Follows Transport Morphism ServerTL ServerTLS Scripted.
From S2P Require Import Ping ClientTL ClientTLS.
From stdpp Require Import options.

Definition outcome_map {A B} (f : A → B) (o : outcome A) : outcome B :=
  match o with Done a => Done (f a) | Elapsed => Elapsed | Hang => Hang end.

Lemma exec_io_map {E W A B} (h : handler E W) (f : A → B) (p : io E A) lim st :
  exec h (io_map f p) lim st = prod_map (outcome_map f) id (exec h p lim st).
Proof.
  unfold io_map. change (io_bind p _) with (p ≫= λ a, Ret (f a)).
  rewrite exec_bind. by destruct (exec h p lim st) as [[a| |] st'].
Qed.

(** The same run up to the state's view. *)
Definition same_run {W A} (r : outcome (ServerTLS.t * Result A) * (Instant * W))
    (r' : outcome (ServerTL.t * Result A) * (Instant * W)) : Prop :=
  r' = prod_map (outcome_map (prod_map ServerTLS.as_tl id)) id r.

Lemma same_run_morph {W A} (h : handler netE W) (m : method netE ServerTLS.t Error A) m' s lim st :
  morph ServerTLS.as_tl m m' → same_run (exec h (m s) lim st) (exec h (m' (ServerTLS.as_tl s)) lim st).
Proof. intros Hm. unfold same_run. rewrite <-exec_io_map. by rewrite (Hm s). Qed.

(** C20: [ServerTLS] is [ServerTL] over one stream: in every environment the two
    transports do the same I/O under the same deadlines, give the same answers and
    errors, and leave the same buffer. *)
Theorem server_tls_is_server_tl {W} (h : handler netE W) s lim st :
  same_run (exec h (Transport.read_command s) lim st)
    (exec h (Transport.read_command (ServerTLS.as_tl s)) lim st) ∧
  (∀ n, same_run (exec h (Transport.receive_data n s) lim st)
    (exec h (Transport.receive_data n (ServerTLS.as_tl s)) lim st)) ∧
  (∀ status data, same_run (exec h (Transport.send_response status data s) lim st)
    (exec h (Transport.send_response status data (ServerTLS.as_tl s)) lim st)) ∧
  same_run (exec h (Transport.shutdown s) lim st)
    (exec h (Transport.shutdown (ServerTLS.as_tl s)) lim st).
Proof.
  split_and!; [|intros n|intros status data|]; apply same_run_morph.
  - apply ServerTLS.transport_read_command_same.
  - apply ServerTLS.receive_data_same.
  - apply ServerTLS.send_data_same.
  - apply ServerTLS.transport_shutdown_same.
Qed.

(** C21: in every environment the exchange of the TLS client runs like the one of
    the TCP client: it ends at the same time in the same way, fails on the same
    occasions and returns the same payload.  Only the error values differ. *)
Theorem client_tls_runs_like_tl {W} (h : handler netE W) st command data s lim w :
  let r := exec h (ClientTLS.exchange st command data s) lim w in
  let r' := exec h (ClientTL.exchange st command data (ClientTLS.as_tl s)) lim w in
  r.2 = r'.2 ∧
  outcome_map (prod_map ClientTLS.as_tl forget) r.1 = outcome_map (prod_map id forget) r'.1.
Proof.
  cbv zeta. pose proof (ClientTLS.exchange_same_io st command data s) as Hs.
  apply (f_equal (λ p, exec h p lim w)) in Hs. rewrite !exec_io_map in Hs.
  destruct (exec h (ClientTLS.exchange st command data s) lim w) as [o st1],
    (exec h (ClientTL.exchange st command data (ClientTLS.as_tl s)) lim w) as [o' st2].
  unfold prod_map in Hs. cbn [fst snd id] in *. injection Hs as Ho Hst. by split.
Qed.

(** C22: an error of the TLS exchange is always an [Error::Other], so it is never
    recognised as a disconnect, although the same failure of the TCP client may be
    one. *)
Theorem tls_error_hides_disconnect {W} (h : handler netE W) st command data s lim w s' e w' :
  exec h (ClientTLS.exchange st command data s) lim w = (Done (s', Err e), w') →
  is_disconnect e = false ∧ ∃ b, e = Other b.
Proof.
  intros He. assert (∃ b, e = Other b) as [b ->]; [|by split; [|exists b]].
  refine (io_post_exec h _ (λ r, ∀ e, r.2 = Err e → ∃ b, e = Other b) _ _ _ _ _ He e eq_refl).
  unfold ClientTLS.exchange. apply io_post_bind. unfold gets. cbn [io_post fst snd].
  unfold convert. apply io_post_skip.
  intros [s1 [p|b]] e' [=]; subst. by exists b.
Qed.

(** A response that breaks off before its payload. *)
Definition response_cut : peer :=
  Build_peer true true ([x01] ++ ResponseHeader.wire (ResponseHeader.new x01 3) false) [] 0.

Definition tls_client : ClientTLS.t := ClientTLS.set_domain "h" (ClientTLS.new "h:1" 0).1.

Lemma tls_error_hides_disconnect_witness :
  ∃ s' e w',
    exec (restrict peer_handler) (ClientTLS.exchange 0 1 [x61] tls_client) None (0%N, response_cut) =
      (Done (s', Err e), w') ∧ is_disconnect e = false.
Proof.
  eexists _, _, _.
  match goal with |- ?A ∧ _ => assert A as He by (vm_compute; reflexivity) end.
  split; [exact He|]. by apply tls_error_hides_disconnect in He as [Hd _].
Defined.

(** The two clients disagree on the same broken connection: the peer closes
    after the response header, which the TCP client reports as a disconnect and the
    TLS client as some other error. *)
Theorem disconnect_seen_by_tcp_only :
  (∃ s' w', exec (restrict peer_handler) (ClientTL.exchange 0 1 [x61] (ClientTLS.as_tl tls_client))
     None (0%N, response_cut) = (Done (s', Err ConnectionClosed), w')) ∧
  (∃ s' w', exec (restrict peer_handler) (ClientTLS.exchange 0 1 [x61] tls_client)
     None (0%N, response_cut) = (Done (s', Err (Other (BoxedError ConnectionClosed))), w')) ∧
  is_disconnect ConnectionClosed = true ∧
  is_disconnect (Other (BoxedError ConnectionClosed)) = false.
Proof.
  split_and!; [| |done..].
  all: eexists _, _; vm_compute; reflexivity.
Qed.
