(* ===== verification/KeepAlive.v ===== *)
(** The keep-alive task: what a ping accepts as an answer, what one turn of the
    task does, and how late a ping can be. *)
From S2P Require Import Prelude Errors ProtocolStructs Vec Headers TimeoutConfig IO Method.
From S2P Require Import Common Ping Runtime Scripted.
From stdpp Require Import options.

(** * The answer to a ping *)

(** The verdict on the bytes [q] that have arrived, and how long it takes, with
    [closed] set when nothing can follow them. *)
Definition ping_verdict (read_header : Duration) (closed : bool) (q : list byte) :
    Result unit * Duration :=
  match q with
  | [] =>
    if closed then (Err ConnectionClosed, 0%N)
    else (Err (ETimeout "Ping response header timeout"), read_header)
  | status :: size =>
    if decide (status = x01) then
      if decide (4 ≤ length size) then
        (if decide (take 4 size = [x00; x00; x00; x00]) then Ok tt
         else Err (Protocol "ping response must have data_size 0"), 0%N)
      else if closed then (Err (Io UnexpectedEof), 0%N)
      else (Ok tt, PING_OLD_FORMAT_READ_TIMEOUT)
    else (Err (ResponseError status), 0%N)
  end.

#[local] Arguments u32_from_be_bytes : simpl never.
#[local] Arguments take : simpl never.

(** The [u32] of four bytes is zero exactly for four zero bytes. *)
Lemma from_be_zero q : length q = 4 → (u32_from_be_bytes q =? 0)%N = bool_decide (q = [x00; x00; x00; x00]).
Proof.
  intros Hl. case_bool_decide as Hq; [by subst|]. apply N.eqb_neq. intros H0. destruct Hq.
  by rewrite <-(u32_to_from_be_bytes q), H0 by done.
Qed.


(** * One turn of the task *)

(** What a turn that ended at the instant [t'] did. *)
Inductive turn {W} (h : handler osE W) (lim : option Instant) (sh : shared) (t' : Instant) :
    flow → shared → Prop :=
| turn_stopped :
    s_should_stop sh = true → turn h lim sh t' Break sh
| turn_active :
    s_should_stop sh = false →
    (t' - s_last_activity sh < PingConfig.interval (s_config sh))%N →
    turn h lim sh t' Continue sh
| turn_disconnected :
    s_should_stop sh = false → s_stream sh = None →
    (PingConfig.interval (s_config sh) <= t' - s_last_activity sh)%N →
    turn h lim sh t' Break (set CShouldStop true sh)
| turn_ping st t1 w1 r w2 :
    s_should_stop sh = false → s_stream sh = Some st →
    (PingConfig.interval (s_config sh) <= t1 - s_last_activity sh)%N →
    exec (restrict h) (ping_exchange (E := netE) st (TimeoutConfig.read_header (s_timeout_config sh))) lim
      (t1, w1) = (Done r, (t', w2)) →
    turn h lim sh t' (match r with Ok _ => Continue | Err _ => Break end)
      (match r with
       | Ok _ => set CLastActivity t' sh
       | Err _ => set CShouldStop true (set CStream None sh)
       end).

(** C26: one turn of the keep-alive task.  It pings only a connection that has been
    idle for the configured interval; a successful ping counts as activity; a
    failed one marks the client as disconnected and ends the task, as a missing
    stream or the stop flag do; every other turn changes nothing. *)
Theorem iteration_turn {W} (h : handler osE W) `{!RuntimeLaws h} lim t sh w f t' sh' w' :
  exec (alone h) iteration lim (t, (sh, w)) = (Done f, (t', (sh', w'))) →
  turn h lim sh t' f sh'.
Proof.
  unfold iteration, PingState.interval, sleep. run. 
  destruct (h unit _ lim (t, w)) as [[[]| |] [t1 w1]]; simpl fst; simpl snd; [|done..].
  destruct (s_should_stop sh) eqn:Hstop.
  { intros [= <- <- <- <-]. by apply turn_stopped. }
  unfold PingState.elapsed_since_activity, now. run. law (runtime_now lim t1 w1). run.
  destruct (N.ltb_spec (saturating_sub t1 (s_last_activity sh)) (PingConfig.interval (s_config sh))).
  { intros [= <- <- <- <-]. by apply turn_active. }
  run. destruct (s_stream sh) as [st|] eqn:Hst.
  2: { intros [= <- <- <- <-]. by apply turn_disconnected. }
  run.
  change (io_bind ?p ?f) with (p ≫= f). rewrite exec_bind, exec_alone_net. cbv zeta.
  destruct (exec (restrict h) _ lim (t1, w1)) as [[r| |] [t2 w2]] eqn:He; cbn [fst snd]; [|done..].
  destruct r as [u|e].
  - run. law (runtime_now lim t2 w2). intros [= <- <- <- <-].
    exact (turn_ping h lim sh t2 st t1 w1 (Ok u) w2 Hstop Hst ltac:(done) He).
  - intros [= <- <- <- <-]. 
    exact (turn_ping h lim sh t2 st t1 w1 (Err e) w2 Hstop Hst ltac:(done) He).
Qed.

(** A kept-alive client with the longest valid ping interval below a [read_header]
    of 60 seconds; its last activity was at the instant 0. *)
Definition late_config : TimeoutConfig.t :=
  TimeoutConfig.with_ping_interval (from_secs 59) TimeoutConfig.default.
Definition late_shared : shared :=
  started 0 (set CStream (Some 7%N)
    (PingState_new (PingConfig.mk (TimeoutConfig.ping_interval late_config) true) late_config 0)).
Definition answering : peer := Build_peer true false [x01] [] 1.

Lemma iteration_turn_witness :
  ∃ t' sh' w', exec (alone peer_handler) iteration None (from_millis 59000, (late_shared, answering)) =
    (Done Continue, (t', (sh', w'))) ∧ turn peer_handler None late_shared t' Continue sh'.
Proof.
  eexists _, _, _.
  match goal with |- ?A ∧ _ => assert A as He by (vm_compute; reflexivity) end.
  split; [exact He|]. exact (iteration_turn peer_handler None _ _ _ _ _ _ _ He).
Defined.

(** * How late a ping can be *)

(** The task checks at least four times per interval, but never more often than every
    100 ms.  Any interval below 400 ms is checked every 100 ms, an interval of zero,
    which disables new tasks, too. *)
Theorem check_interval_bounds interval :
  (from_millis 100 <= check_interval interval)%N ∧
  (from_millis 400 <= interval → 4 * check_interval interval <= interval)%N ∧
  (interval < from_millis 400 → check_interval interval = from_millis 100)%N.
Proof.
  unfold check_interval, MIN_PING_CHECK_INTERVAL, PING_CHECK_DIVISOR, from_millis.
  breflect; split_and!; intros; zify; Z.div_mod_to_equations; lia.
Qed.

(** A [sleep] takes the time it is given. *)
Class SleepLaw {W} (h : handler osE W) : Prop :=
  sleep_exact d t w : ∃ w', h _ (subevent (Sleep d)) None (t, w) = (Done tt, ((t + d)%N, w')).

#[export] Instance peer_sleep : SleepLaw peer_handler.
Proof. intros d t w. by exists w. Qed.

(** What becomes of a turn whose ping ended with [r]. *)
Definition after_ping {W} (sh : shared) (r : outcome (Result unit) * (Instant * W)) :
    outcome flow * (Instant * (shared * W)) :=
  match r with
  | (Done (Ok _), (t, w)) => (Done Continue, (t, (set CLastActivity t sh, w)))
  | (Done (Err _), (t, w)) => (Done Break, (t, (set CShouldStop true (set CStream None sh), w)))
  | (Elapsed, (t, w)) => (Elapsed, (t, (sh, w)))
  | (Hang, (t, w)) => (Hang, (t, (sh, w)))
  end.

Section idle.
Context {W : Type} (h : handler osE W) `{!RuntimeLaws h} `{!SleepLaw h}.
Context (sh : shared) (st : stream).
Context (Hrun : s_should_stop sh = false) (Hst : s_stream sh = Some st).

Abbreviation last := (s_last_activity sh).
Abbreviation interval := (PingConfig.interval (s_config sh)).
Abbreviation read_header := (TimeoutConfig.read_header (s_timeout_config sh)).

(** A turn of the task on an idle connection: it sleeps, then it looks at the clock. *)
Lemma exec_idle_turn t w :
  let t1 := (t + check_interval interval)%N in
  ∃ w1, exec (alone h) iteration None (t, (sh, w)) =
    if (saturating_sub t1 last <? interval)%N then (Done Continue, (t1, (sh, w1)))
    else after_ping sh
      (exec (restrict h) (ping_exchange (E := netE) st read_header) None (t1, w1)).
Proof using All.
  intros t1. destruct (sleep_exact (h := h) (check_interval interval) t w) as [w1 Hs]. exists w1.
  unfold iteration, PingState.interval, sleep. run. law Hs. simpl fst; simpl snd. fold t1.
  rewrite Hrun. unfold PingState.elapsed_since_activity, now. run. law (runtime_now None t1 w1). run.
  destruct (saturating_sub t1 last <? interval)%N; [done|]. run. rewrite Hst. run.
  change (io_bind ?p ?f) with (p ≫= f). rewrite exec_bind, exec_alone_net. cbv zeta.
  destruct (exec (restrict h) _ None (t1, w1)) as [[r| |] [t2 w2]]; cbn [fst snd]; [|done..].
  destruct r as [u|e]; [|done]. run. by law (runtime_now None t2 w2).
Qed.

(** [k] turns of the task before the interval is over: silence. *)
Lemma exec_silence k t w :
  (t + N.of_nat k * check_interval interval < last + interval)%N → (last <= t)%N →
  ∃ w', exec (alone h) (ping_loop k) None (t, (sh, w)) =
    (Done false, ((t + N.of_nat k * check_interval interval)%N, (sh, w'))).
Proof using All.
  revert t w. induction k as [|k IH]; intros t w Ht Hl.
  - exists w. simpl. by rewrite N.add_0_r.
  - cbn [ping_loop]. rewrite exec_bind. destruct (exec_idle_turn t w) as [w1 ->].
    unfold saturating_sub. rewrite (proj2 (N.ltb_lt _ _)) by lia.
    destruct (IH (t + check_interval interval)%N w1) as [w' ->]; [lia..|].
    exists w'. do 2 f_equal; lia.
Qed.
End idle.

(** C11: an idle connection is pinged in time.  Left alone, the task is silent for some
    turns and then pings at an instant between the interval and the interval plus one
    check after the last activity.  So with an interval of at least 400 ms and at most
    four fifths of [read_header], no read timeout of that length on the other side
    fires first. *)
Theorem ping_comes_in_time {W} (h : handler osE W) `{!RuntimeLaws h} `{!SleepLaw h} sh st t w :
  let interval := PingConfig.interval (s_config sh) in
  let read_header := TimeoutConfig.read_header (s_timeout_config sh) in
  s_should_stop sh = false → s_stream sh = Some st →
  (s_last_activity sh <= t < s_last_activity sh + interval)%N →
  ∃ k w1 w2 τ,
    exec (alone h) (ping_loop k) None (t, (sh, w)) =
      (Done false, ((t + N.of_nat k * check_interval interval)%N, (sh, w1))) ∧
    exec (alone h) iteration None ((t + N.of_nat k * check_interval interval)%N, (sh, w1)) =
      after_ping sh (exec (restrict h) (ping_exchange (E := netE) st read_header) None (τ, w2)) ∧
    (s_last_activity sh + interval <= τ)%N ∧
    (τ < s_last_activity sh + interval + check_interval interval)%N ∧
    (from_millis 400 <= interval → 5 * interval <= 4 * read_header →
     τ < s_last_activity sh + read_header)%N.
Proof.
  intros interval read_header Hrun Hst Ht. set (ci := check_interval interval).
  assert (0 < ci)%N as Hci.
  { destruct (check_interval_bounds interval) as [Hc _]. unfold from_millis in Hc. fold ci in Hc. lia. }
  set (d := (s_last_activity sh + interval - t)%N).
  set (k := ((d - 1) / ci)%N).
  assert (k * ci <= d - 1 < (k + 1) * ci)%N as Hk.
  { pose proof (N.Div0.div_mod (d - 1) ci). pose proof (N.mod_lt (d - 1) ci ltac:(lia)).
    unfold k. nia. }
  destruct (exec_silence h sh st Hrun Hst (N.to_nat k) t w) as [w1 He].
  { rewrite N2Nat.id. fold interval ci. lia. }
  { lia. }
  rewrite N2Nat.id in He. fold interval ci in He.
  destruct (exec_idle_turn h sh st Hrun Hst (t + k * ci) w1) as [w2 Hi].
  fold interval ci read_header in Hi.
  exists (N.to_nat k), w1, w2, (t + k * ci + ci)%N. rewrite N2Nat.id.
  split_and!; [exact He| |lia..|].
  - rewrite Hi. unfold saturating_sub. by rewrite (proj2 (N.ltb_ge _ _)) by lia.
  - intros H4 H5. destruct (check_interval_bounds interval) as (_ & Hq & _). specialize (Hq H4). fold ci in Hq. lia.
Qed.

Lemma ping_comes_in_time_witness :
  ∃ k w1 w2 τ,
    exec (alone peer_handler) (ping_loop k) None (0%N, (late_shared, answering)) =
      (Done false, ((N.of_nat k * from_millis 14750)%N, (late_shared, w1))) ∧
    exec (alone peer_handler) iteration None ((N.of_nat k * from_millis 14750)%N, (late_shared, w1)) =
      after_ping late_shared (exec (restrict peer_handler)
        (ping_exchange (E := netE) 7 (from_secs 60)) None (τ, w2)) ∧
    (from_secs 59 <= τ < from_millis 73750)%N.
Proof.
  destruct (ping_comes_in_time peer_handler late_shared 7 0 answering eq_refl eq_refl
    ltac:(split; vm_compute; done)) as (k & w1 & w2 & τ & H1 & H2 & H3 & H4 & _).
  exists k, w1, w2, τ. split; [exact H1|]. split; [exact H2|]. split; [exact H3|exact H4].
Defined.

(** A validated configuration does not guarantee that a ping reaches the server
    within its [read_header] timeout.  With an interval of 59 s, which validation
    accepts against 60 s, a check at 58.95 s of idleness finds the connection still
    active, and the next one, a quarter of the interval later, pings after 73.7 s. *)
Theorem validated_ping_may_be_late :
  TimeoutConfig.valid late_config ∧
  TimeoutConfig.ping_interval late_config = from_secs 59 ∧
  exec (alone peer_handler) iteration None (from_millis 44200, (late_shared, answering)) =
    (Done Continue, (from_millis 58950, (late_shared, answering))) ∧
  exec (alone peer_handler) iteration None (from_millis 58950, (late_shared, answering)) =
    (Done Continue, (from_millis 73710,
      (set CLastActivity (from_millis 73710) late_shared,
       Build_peer true false [] (RequestHeader.wire (RequestHeader.new 0 0)) 1))) ∧
  (TimeoutConfig.read_header late_config < from_millis 73710)%N.
Proof. split_and!; vm_compute; reflexivity. Qed.

(** The ping interval a configuration ends up with.  A requested interval below
    [read_header] is kept; a longer one becomes a second less than [read_header],
    or half of it when that leaves nothing and it is at least 200 ms, or zero, which
    turns pings off; and no other field changes. *)
Theorem ping_interval_clamped d c :
  let c' := TimeoutConfig.with_ping_interval d c in
  let read_header := TimeoutConfig.read_header c in
  TimeoutConfig.ping_interval c' =
    (if (d <? read_header)%N then d
     else if (from_secs 1 <? read_header)%N then (read_header - from_secs 1)%N
     else if (from_millis 200 <=? read_header)%N then (read_header / 2)%N
     else 0%N) ∧
  TimeoutConfig.set_ping_interval (TimeoutConfig.ping_interval c) c' = c.
Proof.
  intros c' read_header. split; [|apply TimeoutConfig.with_ping_interval_fields].
  unfold c', read_header, TimeoutConfig.with_ping_interval, ZERO, PING_CLAMP_SUBTRACTION,
    PING_CLAMP_HALVE_THRESHOLD, PING_CLAMP_HALVE_DIVISOR, saturating_sub, from_secs, from_millis;
    cbn [TimeoutConfig.ping_interval TimeoutConfig.read_header TimeoutConfig.set_ping_interval].
  repeat (case_match; cbn [TimeoutConfig.ping_interval TimeoutConfig.read_header
    TimeoutConfig.set_ping_interval]); rewrite ?andb_true_iff, ?andb_false_iff in *; breflect;
    dest; breflect; destruct_or!; breflect.
Qed.
