(* ===== verification/Serving.v ===== *)
(** The serving side over time: sessions under a shutdown signal, the accept loop
    and the drain at the end. *)
From S2P Require Import Prelude Errors ProtocolStructs Vec Headers TimeoutConfig IO Method.
From S2P Require Import Common Duet Follows Transport ServerTL ServerTLS ProtocolHandler Ping.
From S2P Require Import Scripted Capacity ConnectionHandler Server EndToEnd.
From stdpp Require Import options.

(** * The dynamically dispatched transport keeps the contract *)

Lemma follows_dispatch_tl {A} tl tls s tr s' (r : Result A) :
  follows (tl s) tr (s', r) → follows (dispatch tl tls (DynTL s)) tr (DynTL s', r).
Proof. intros Hf. rewrite <-(app_nil_r tr). by eapply follows_io_bind. Qed.

Lemma follows_dispatch_tls {A} tl tls s tr s' (r : Result A) :
  follows (tls s) tr (s', r) → follows (dispatch tl tls (DynTLS s)) tr (DynTLS s', r).
Proof. intros Hf. rewrite <-(app_nil_r tr). by eapply follows_io_bind. Qed.

Definition dyn_limit (d : dyn_transport) : N :=
  match d with DynTL s => limit s | DynTLS s => limit s end.

(** A law of the contract for either transport gives it for the dispatch. *)
Ltac dispatch_law d lem :=
  destruct d as [s|s];
  [destruct (lem ServerTL.t _ _ s) as (s' & Hl & Hf); try done;
   exists (DynTL s'); split; [exact Hl|by apply follows_dispatch_tl]
  |destruct (lem ServerTLS.t _ _ s) as (s' & Hl & Hf); try done;
   exists (DynTLS s'); split; [exact Hl|by apply follows_dispatch_tls]].

#[global] Program Instance dyn_transport_spec : TransportSpec dyn_transport := {|
  limit := dyn_limit;
|}.
Next Obligation.
  intros d h Hwf Hc Hle.
  dispatch_law d (λ T (i : Transport T) (j : TransportSpec T) s, read_command_request (T := T) s h).
Qed.
Next Obligation.
  intros d. dispatch_law d (λ T (i : Transport T) (j : TransportSpec T) s, read_command_ping (T := T) s).
Qed.
Next Obligation.
  intros d n Hn Hle.
  dispatch_law d (λ T (i : Transport T) (j : TransportSpec T) s, read_command_bad_ping (T := T) s n).
Qed.
Next Obligation.
  intros d h Hwf Hlt. destruct d as [s|s].
  - destruct (@read_command_oversized ServerTL.t _ _ s h Hwf Hlt) as (s' & Hl & Hf).
    exists (DynTL s'). split; [exact Hl|by apply follows_dispatch_tl].
  - destruct (@read_command_oversized ServerTLS.t _ _ s h Hwf Hlt) as (s' & Hl & Hf).
    exists (DynTLS s'). split; [exact Hl|by apply follows_dispatch_tls].
Qed.
Next Obligation.
  intros d. dispatch_law d (λ T (i : Transport T) (j : TransportSpec T) s, read_command_closed (T := T) s).
Qed.
Next Obligation.
  intros d bs Hle.
  dispatch_law d (λ T (i : Transport T) (j : TransportSpec T) s, receive_data_payload (T := T) s bs).
Qed.
Next Obligation.
  intros d status data.
  dispatch_law d (λ T (i : Transport T) (j : TransportSpec T) s, send_response_acked (T := T) s status data).
Qed.
Next Obligation.
  intros d status data ack Hack.
  dispatch_law d (λ T (i : Transport T) (j : TransportSpec T) s,
    send_response_refused (T := T) s status data ack Hack).
Qed.

Lemma exec_io_bind {E W A B} (h : handler E W) (p : io E A) (f : A → io E B) lim st :
  exec h (io_bind p f) lim st =
  match exec h p lim st with
  | (Done a, st') => exec h (f a) lim st'
  | (Elapsed, st') => (Elapsed, st')
  | (Hang, st') => (Hang, st')
  end.
Proof. apply exec_bind. Qed.

(** * Sessions and the shutdown signal *)

(** The signal comes at the instant [T]. *)
Class ShutdownAt {E W} `{!watchE -< E} (h : handler E W) (T : Instant) : Prop := {
  shutdown_next lim t w :
    (t <= T)%N → ∃ w', h _ (subevent NextChange) lim (t, w) = (Done (Some (T - t)%N), (t, w'));
  shutdown_borrow lim t w :
    (T <= t)%N → ∃ w', h _ (subevent Borrow) lim (t, w) = (Done true, (t, w'));
}.

(** The race ends by the signal, and lost it ends at the signal. *)
Lemma exec_select {E W A} `{!watchE -< E} (h : handler E W) `{!HandlerLaws h} T
    `{!ShutdownAt h T} (p : io E A) t w :
  (t <= T)%N →
  ∃ r t' w', exec h (select_changed p) None (t, w) = (Done r, (t', w')) ∧ (t <= t' <= T)%N ∧
    (r = None → t' = T) ∧
    (∀ a, r = Some a → ∃ l w0, within (Some l) t ∧ exec h p (Some l) (t, w0) = (Done a, (t', w'))).
Proof.
  intros Ht. unfold select_changed. rewrite exec_bind, exec_trigger.
  destruct (shutdown_next (h := h) None t w Ht) as [w1 ->]. unfold timeout. cbn [exec fst inner_first].
  destruct (exec_deadline h p (t + (T - t)) t w1) as (o & t' & w' & He & Ho & Hle); [lia|].
  cbn [min_limit]. rewrite He. pose proof He as Hclk.
  eapply exec_clock in Hclk as [_ Hpost]; [|done|simpl; lia].
  destruct o as [a| |]; [| |done]; cbn [exec].
  - exists (Some a), t', w'. split_and!; [done|lia|lia|done|]. intros a' [= <-].
    exists (t + (T - t))%N, w1. split; [simpl; lia|done].
  - injection Hpost as Hpost. exists None, t', w'. split_and!; [done|lia|lia|intros _; lia|done].
Qed.

(** A timeout around [q] whose answer shows that it did not fire has waited for [q]. *)
Lemma exec_waits_first {E W A B} (h : handler E W) `{!HandlerLaws h} d (q : io E B)
    (k : option B → io E A) (Q : A → Prop) lim t w a t' w' :
  within lim t →
  (∀ lim t' w' b, within lim t → exec h q lim (t, w) = (Done b, (t', w')) → (t < t')%N) →
  io_post (k None) (λ a, ¬ Q a) → Q a →
  exec h (Timeout d q k) lim (t, w) = (Done a, (t', w')) → (t < t')%N.
Proof.
  intros Hw Hlt Hnone HQ. cbn [exec fst]. pose proof (within_min lim t d Hw) as Hm.
  destruct (exec h q _ (t, w)) as [[b| |] [t1 w1]] eqn:He; [| |done].
  - pose proof (Hlt _ _ _ _ Hm He). eapply exec_clock in He as [_ Hw1]; [|done..].
    intros Hk. eapply exec_clock in Hk as [Hle _]; [|done|by eapply within_min_le].
    specialize (Hle ltac:(done)). lia.
  - destruct (inner_first _ _); [|done]. intros Hk.
    by apply (io_post_exec h _ _ _ _ _ _ Hnone) in Hk.
Qed.

Section sessions.
Context {U : Type → Type} {H : Type} `{ProtocolCommandHandler U H}.

Abbreviation protocol := (ProtocolHandler.t dyn_transport H).
Abbreviation connectionE := (watchE +' sessionE protocol +' netE +' U).

(** Where an interrupted call leaves [self] takes no time to find out. *)
Class LeftoverAtOnce {W} (h : handler connectionE W) : Prop :=
  leftover_at_once p lim t w :
    ∃ p' w', h _ (subevent (Leftover p)) lim (t, w) = (Done p', (t, w')).

(** A read takes time: the clock has moved when it completes. *)
Class ReadsTakeTime {W} (h : handler connectionE W) : Prop :=
  read_takes_time s n lim t w bs t' w' :
    h _ (subevent (Read s n)) lim (t, w) = (Done bs, (t', w')) → (t < t')%N.

Lemma frame_takes_time {W} (h : handler connectionE W) s n lim t w r t' w' :
  HandlerLaws h → ReadsTakeTime h → 0 < n → within lim t →
  exec (restrict (E := netE) h) (read_exact_or_closed s n) lim (t, w) = (Done r, (t', w')) → (t < t')%N.
Proof.
  intros Hl Hr Hn Hlim. destruct n as [|n]; [lia|].
  unfold read_exact_or_closed. cbn [read_loop length].
  rewrite decide_True by lia. rewrite exec_bind. unfold read.
  rewrite exec_trigger. unfold restrict at 1.
  destruct (h _ _ lim (t, w)) as [[bs| |] [t1 w1]] eqn:He; [|done..].
  pose proof (read_takes_time (h := h) _ _ _ _ _ _ _ _ He).
  apply handler_done in He as [_ Hw1]; [|done]. intros Hk.
  eapply (exec_clock (restrict (E := netE) h)) in Hk as [Hle _]; [|done]. specialize (Hle ltac:(done)). lia.
Qed.

Lemma read_command_takes_time {W} (h : handler connectionE W) (d : dyn_transport) lim t w d' r t' w' :
  HandlerLaws h → ReadsTakeTime h → within lim t →
  exec (restrict (E := netE) h) (read_command d) lim (t, w) = (Done (d', Ok r), (t', w')) → (t < t')%N.
Proof.
  intros Hl Hr Hlim. destruct d as [s|s]; intros Hrun.
  all: match type of Hrun with exec _ ?p _ _ = _ =>
    let p' := eval hnf in p in change p with p' in Hrun end.
  all: eapply (exec_waits_first (restrict (E := netE) h) _ _ _ (λ r, is_ok r.2 = true));
    [exact Hlim| | | |exact Hrun]; [|simpl; done|done].
  all: intros lim' t1 w1 bs Hlim'; apply frame_takes_time; try done.
  all: unfold id, ServerTL.with_buffer, ServerTLS.with_buffer;
    cbn [fst ServerTL.buffer ServerTLS.buffer].
  all: rewrite Vec.data_resize; unfold RequestHeader.encoded_len, RequestHeader.REQUEST_HEADER_SIZE; lia.
Qed.

(** The turn of a session that goes on has read something. *)
Lemma handle_next_takes_time {W} (h : handler connectionE W) (p : protocol) lim t w p' b t' w' :
  HandlerLaws h → ReadsTakeTime h → within lim t →
  exec h (ProtocolHandler.handle_next p : io connectionE _) lim (t, w) = (Done (p', Ok b), (t', w')) →
  (t < t')%N.
Proof.
  intros Hl Hr Hlim. unfold ProtocolHandler.handle_next, mbind, method_mbind.
  rewrite exec_io_bind. unfold ProtocolHandler.on_transport at 1, zoom. rewrite exec_io_bind, exec_lift.
  destruct (exec (restrict h) (read_command _) lim (t, w)) as [[[d1 [r|e]]| |] [t1 w1]] eqn:Hread; [| |done..].
  - pose proof (read_command_takes_time _ _ _ _ _ _ _ _ _ Hl Hr Hlim Hread).
    eapply (exec_clock (restrict h)) in Hread as [_ Hw1]; [|done]. cbn [exec fst snd].
    intros Hk. eapply exec_clock in Hk as [Hle _]; [|done..]. specialize (Hle ltac:(done)). lia.
  - cbn [exec fst snd]. done.
Qed.

(** C31: a shutdown stops every session.  Whatever the peer does, or fails to do,
    every turn of the connection loop is over by the instant of the signal: a call
    that is still waiting then is dropped.  When a read takes at least a nanosecond,
    the loop has ended by then: a turn per nanosecond is fuel enough. *)
Theorem session_stops_at_shutdown {W} (h : handler connectionE W) T fuel p t w :
  HandlerLaws h → ShutdownAt h T → LeftoverAtOnce h → (t <= T)%N →
  ∃ p' ended t' w',
    exec h (ConnectionHandler.serve fuel p) None (t, w) = (Done (p', ended), (t', w')) ∧
    (t <= t' <= T)%N ∧
    (ReadsTakeTime h → (T - t < N.of_nat fuel)%N → ended = true).
Proof.
  intros Hl Hs Hlo. revert p t w. induction fuel as [|fuel IH]; intros p t w Ht.
  - exists p, false, t, w. split_and!; [done|lia..].
  - cbn [ConnectionHandler.serve]. rewrite exec_bind. unfold ConnectionHandler.turn. rewrite exec_bind.
    destruct (exec_select h T (ProtocolHandler.handle_next p : io connectionE _) t w Ht)
      as (r & t1 & w1 & He & Hle & Hnone & Hsome).
    rewrite He. destruct r as [[p1 [keep|e]]|].
    + destruct keep; cbn [exec mret io_mret negb].
      * destruct (IH p1 t1 w1) as (p' & b & t' & w' & He' & Hle' & Hend); [lia|].
        exists p', b, t', w'. split_and!; [done|lia..|]. intros Hr Hf. apply Hend; [done|].
        destruct (Hsome _ eq_refl) as (l & w0 & Hl0 & Hrun).
        apply handle_next_takes_time in Hrun; [lia|done..].
      * exists p1, true, t1, w1. split_and!; [done|lia..|done].
    + exists p1, true, t1, w1. split_and!; [done|lia..|done].
    + specialize (Hnone eq_refl) as ->.
      destruct (leftover_at_once p None T w1) as (p2 & w2 & Hp2).
      rewrite exec_bind, exec_trigger, Hp2.
      destruct (shutdown_borrow (h := h) None T w2) as (w3 & Hw3); [lia|].
      rewrite exec_bind, exec_trigger, Hw3. cbn [exec mret io_mret].
      exists p2, true, T, w3. split_and!; [done|lia..|done].
Qed.

(** A peer that says nothing more, over a network that takes a nanosecond, under a shutdown signal at the instant [T], or
    none. *)
Definition session_answer (user : ∀ X, U X → option (Duration * X)) (signal : option Instant) X (e : connectionE X) (t : Instant)
    (p : peer) : option (Duration * X * peer) :=
  match e with
  | inl1 e =>
    match e in watchE X return option (Duration * X * peer) with
    | NextChange => Some (0%N, (λ T, T - t)%N <$> signal, p)
    | Borrow => Some (0%N, match signal with Some T => (T <=? t)%N | None => false end, p)
    end
  | inr1 (inl1 e) =>
    match e in sessionE _ X return option (Duration * X * peer) with
    | TlsAccept s => Some (0%N, Ok s, p)
    | Leftover q => Some (0%N, q, p)
    end
  | inr1 (inr1 (inl1 e)) => (λ '(d, x, p'), ((d + 1)%N, x, p')) <$> peer_net e p
  | inr1 (inr1 (inr1 e)) => (λ '(d, x), (d, x, p)) <$> user X e
  end.

Definition session_handler (user : ∀ X, U X → option (Duration * X)) (signal : option Instant) :
    handler connectionE peer :=
  timed_handler (session_answer user signal).

#[export] Instance session_handler_shutdown user T : ShutdownAt (session_handler user (Some T)) T.
Proof.
  split; intros lim t w Ht; exists w; unfold session_handler, timed_handler; simpl;
    rewrite N.add_0_r; destruct lim; simpl; try done; by rewrite (proj2 (N.leb_le _ _)).
Qed.

#[export] Instance session_handler_reads user signal : ReadsTakeTime (session_handler user signal).
Proof.
  intros s n lim t w bs t' w'. unfold session_handler, timed_handler, session_answer.
  unfold subevent, subevent_inr, subevent_refl, subevent. intros.
  repeat (case_match; simplify_eq; simpl in *); simplify_eq; lia.
Qed.

#[export] Instance session_handler_leftover user signal : LeftoverAtOnce (session_handler user signal).
Proof.
  intros p lim t w. exists p, w. unfold session_handler, timed_handler; simpl.
  rewrite N.add_0_r. by destruct lim.
Qed.

Lemma exec_turns_S {W} (h : handler connectionE W) fuel (p : protocol) lim st :
  exec h (turns (S fuel) p) lim st =
  match exec h (ProtocolHandler.handle_next p) lim st with
  | (Done (p', Ok true), st') => exec h (turns fuel p') lim st'
  | (Done (p', r), st') => (Done (p', r), st')
  | (Elapsed, st') => (Elapsed, st')
  | (Hang, st') => (Hang, st')
  end.
Proof.
  cbn [turns]. unfold mbind, method_mbind. rewrite exec_io_bind.
  by destruct (exec h (ProtocolHandler.handle_next p) lim st) as [[[p1 [[|]|e]]| |] st1].
Qed.

(** No signal comes. *)
Class NoShutdown {W} (h : handler connectionE W) : Prop :=
  no_shutdown lim t w : h _ (subevent NextChange) lim (t, w) = (Done None, (t, w)).

(** Without a shutdown the connection loop is the request loop: it serves
    requests until one asks to finish or fails, and nothing else happens on the
    connection. *)
Theorem quiet_session {W} (h : handler connectionE W) fuel p lim st :
  NoShutdown h →
  exec h (ConnectionHandler.serve fuel p) lim st =
  match exec h (turns fuel p) lim st with
  | (Done (p', r), st') =>
    (Done (p', match r with Ok true => false | _ => true end), st')
  | (Elapsed, st') => (Elapsed, st')
  | (Hang, st') => (Hang, st')
  end.
Proof.
  intros Hq. revert p st. induction fuel as [|fuel IH]; intros p [t w]; [done|].
  cbn [ConnectionHandler.serve]. rewrite exec_bind. unfold ConnectionHandler.turn.
  rewrite exec_bind. unfold select_changed. rewrite exec_bind, exec_trigger, no_shutdown.
  cbv beta iota. rewrite exec_bind.
  rewrite exec_turns_S. destruct (exec h (ProtocolHandler.handle_next p) lim (t, w))
    as [[[p1 [[|]|e]]| |] st1]; cbn [exec mret io_mret fst snd negb]; try done.
Qed.

#[export] Instance session_handler_quiet user : NoShutdown (session_handler user None).
Proof.
  intros lim t w. unfold session_handler, timed_handler; simpl.
  rewrite N.add_0_r. by destruct lim.
Qed.
End sessions.

Definition awaits_nothing X (e : voidE X) : option (Duration * X) := match e with end.

Definition example_session : ProtocolHandler.t dyn_transport example_handler :=
  ProtocolHandler.new (DynTL (ServerTL.new 0 1)) 0%N.

Lemma session_stops_at_shutdown_witness :
  ∃ p' t' w',
    exec (session_handler (H := example_handler) awaits_nothing (Some 40%N)) (ConnectionHandler.serve 41 example_session)
      None (0%N, ping_arrived) = (Done (p', true), (t', w')) ∧ (0 <= t' <= 40)%N.
Proof.
  destruct (session_stops_at_shutdown (session_handler (H := example_handler) awaits_nothing (Some 40%N)) 40 41
    example_session 0 ping_arrived _ _ _ ltac:(done)) as (p' & ended & t' & w' & He & Hle & Hend).
  rewrite (Hend _ ltac:(done)) in He. by exists p', t', w'.
Defined.

Lemma quiet_session_witness :
  exec (session_handler (H := example_handler) awaits_nothing None) (ConnectionHandler.serve 1 example_session) None (0%N, ping_arrived) =
  match exec (session_handler (H := example_handler) awaits_nothing None) (turns 1 example_session) None (0%N, ping_arrived) with
  | (Done (p', r), st') => (Done (p', match r with Ok true => false | _ => true end), st')
  | (Elapsed, st') => (Elapsed, st')
  | (Hang, st') => (Hang, st')
  end.
Proof. exact (quiet_session (session_handler (H := example_handler) awaits_nothing None) 1 example_session None _ _). Defined.

(** * The drain *)

(** The clock is read and a task is aborted at once. *)
Class DrainLaws {H W} (h : handler (serverE H +' watchE +' clockE) W) : Prop := {
  drain_handler :: HandlerLaws h;
  drain_now lim t w : h _ (subevent Now) lim (t, w) = (Done t, (t, w));
  drain_abort j lim t w :
    ∃ w', h _ (subevent (AbortConnection (H := H) j)) lim (t, w) = (Done tt, (t, w'));
}.

Lemma exec_abort_all {H W} (h : handler (serverE H +' watchE +' clockE) W) `{!DrainLaws h} hs lim t w :
  ∃ w', exec h (Server.abort_all hs) lim (t, w) = (Done tt, (t, w')).
Proof.
  revert w. induction hs as [|j hs IH]; intros w; [by exists w|].
  cbn [Server.abort_all]. destruct (drain_abort (h := h) j lim t w) as [w1 Hw1].
  rewrite exec_bind, exec_trigger, Hw1. apply IH.
Qed.

(** The drain, begun at [start] and now at [t], is over by [start + timeout]. *)
Lemma exec_drain {H W} (h : handler (serverE H +' watchE +' clockE) W) `{!DrainLaws h}
    timeout start hs t w :
  (start <= t <= start + timeout)%N →
  ∃ t' w', exec h (Server.drain timeout start hs) None (t, w) = (Done tt, (t', w')) ∧
    (t <= t' <= start + timeout)%N.
Proof.
  revert t w. induction hs as [|j hs IH]; intros t w Ht.
  - exists t, w. split; [done|lia].
  - cbn [Server.drain]. rewrite exec_bind, exec_trigger, drain_now. cbv zeta.
    unfold saturating_sub. destruct (N.leb_spec timeout (t - start)).
    + destruct (exec_abort_all h (j :: hs) None t w) as [w' ->].
      exists t, w'. split; [done|lia].
    + rewrite exec_bind.
      destruct (exec_timeout h (timeout - (t - start))
        (trigger (Join (H := H) j) : io (serverE H +' watchE +' clockE) _) t w)
        as (r & t1 & w1 & He & Hle).
      unfold IO.timeout in *. rewrite He. destruct r as [u|].
      * destruct (IH t1 w1) as (t' & w' & He' & Hle'); [lia|].
        exists t', w'. split; [done|lia].
      * destruct (exec_abort_all h (j :: hs) None t1 w1) as [w' ->].
        exists t1, w'. split; [done|lia].
Qed.

(** C32: the drain always ends, within [drain_timeout] of its start, however long
    the connections would go on; with a timeout of zero, documented as "wait
    forever", it aborts every connection without waiting for any. *)
Theorem drain_ends_in_time {H W} (h : handler (serverE H +' watchE +' clockE) W) `{!DrainLaws h}
    timeout hs t w :
  (∃ t' w', exec h (Server.drain timeout t hs) None (t, w) = (Done tt, (t', w')) ∧
     (t <= t' <= t + timeout)%N) ∧
  (∀ start j js, exec h (Server.drain 0 start (j :: js)) None (t, w) =
     exec h (trigger Now;; Server.abort_all (j :: js)) None (t, w)).
Proof.
  split; [apply (exec_drain h timeout t); lia|].
  intros start j js. cbn [Server.drain]. rewrite !exec_bind, exec_trigger, drain_now.
  cbv zeta. by rewrite (proj2 (N.leb_le 0 _)) by lia.
Qed.

(** A server whose connections end, or never do. *)
Definition drain_answer (H : Type) (ends : bool) X (e : (serverE H +' watchE +' clockE) X)
    (t : Instant) (w : list join_handle) : option (Duration * X * list join_handle) :=
  match e with
  | inl1 e =>
    match e in serverE _ X return option (Duration * X * list join_handle) with
    | Bind _ => Some (0%N, Ok 3%N, w)
    | Join j => if ends then Some (1000%N, Ok tt, w) else None
    | AbortConnection j => Some (0%N, tt, j :: w)
    | _ => None
    end
  | inr1 (inl1 e) => None
  | inr1 (inr1 e) =>
    match e in clockE X return option (Duration * X * list join_handle) with
    | Sleep d => Some (d, tt, w)
    | Now => Some (0%N, t, w)
    end
  end.

#[export] Instance drain_answer_laws H ends : DrainLaws (timed_handler (drain_answer H ends)).
Proof.
  split; [apply _|intros lim t w|intros j lim t w; exists (j :: w)];
    unfold timed_handler; simpl; rewrite N.add_0_r; by destruct lim.
Qed.

Lemma drain_ends_in_time_witness :
  ∃ t' w', exec (timed_handler (drain_answer N false)) (Server.drain (from_secs 5) 7 [1; 2]%N) None
    (7%N, []) = (Done tt, (t', w')) ∧ (7 <= t' <= 7 + from_secs 5)%N.
Proof.
  exact (proj1 (drain_ends_in_time (timed_handler (drain_answer N false)) (from_secs 5) [1; 2]%N 7 [])).
Defined.

(** * The accept loop *)

(** C33: a server without a connection limit accepts nobody.  Zero is documented as
    "unlimited", but no semaphore means no permit: the accept loop ends in its first
    turn, before it waits for a connection, and [run] answers [Ok] as after a
    shutdown, at the instant at which it has bound its address. *)
Theorem unlimited_server_accepts_nobody {H W} (h : handler (serverE H +' watchE +' clockE) W)
    `{!DrainLaws h} (s : Server.t H) factory l fuel lim st st' :
  Server.max_connections s = 0%N →
  Server.protocol_command_handler_factory s = Some factory →
  h _ (subevent (Bind (H := H) (Server.address s))) lim st = (Done (Ok l), st') →
  exec h (Server.run (S fuel) s) lim st =
    (Done (Server.mk (Server.address s) (Some l) (Server.is_tls s) (Server.tls_acceptor s)
       (Server.max_buffer_size s) (Some factory) (Server.drain_timeout s) 0, Some (Ok tt)), st').
Proof.
  destruct s as [addr li tls acc buf fac dt mx]; cbn. intros -> -> Hb. destruct st' as [t' w'].
  unfold Server.run. cbn [Server.protocol_command_handler_factory Server.address].
  rewrite exec_bind, exec_trigger, Hb. cbn -[exec trigger]. rewrite exec_bind, exec_trigger, drain_now.
  done.
Qed.

Lemma unlimited_server_accepts_nobody_witness :
  exec (timed_handler (drain_answer N true))
    (Server.run 5 (Server.set_protocol_command_handler_factory (λ _, 0%N)
       (Server.set_max_connections 0 (Server.new "h:1" 0)))) None (7%N, []) =
  (Done (Server.mk "h:1" (Some 3%N) false false 0 (Some (λ _, 0%N)) (from_secs 5) 0, Some (Ok tt)),
   (7%N, [])).
Proof.
  exact (unlimited_server_accepts_nobody (timed_handler (drain_answer N true))
    (Server.set_protocol_command_handler_factory (λ _, 0%N)
       (Server.set_max_connections 0 (Server.new "h:1" 0))) (λ _, 0%N) 3 4 None (7%N, []) (7%N, [])
    eq_refl eq_refl eq_refl).
Defined.

(** * Connections that do not start *)

(** A connection that cannot be served ends with its error before any protocol
    byte: a failed TLS handshake is an [Error::Tls], a buffer that cannot be
    reserved an [Error::Config], and a handler whose stream was already taken is
    [NotConnected].  The stream is taken in every case. *)
Theorem connection_refuses {U H} `{ProtocolCommandHandler U H} `{Allocator} {W}
    (h : handler (watchE +' sessionE (ProtocolHandler.t dyn_transport H) +' netE +' U) W)
    fuel hd c lim st :
  let c' := ConnectionHandler.mk None (ConnectionHandler.tls_acceptor c)
    (ConnectionHandler.max_buffer_size c) in
  let run := exec h (ConnectionHandler.run fuel hd c) lim st in
  match ConnectionHandler.stream c with
  | None => run = (Done (c', Some (Err NotConnected)), st)
  | Some s =>
    if ConnectionHandler.tls_acceptor c then
      ∀ e st', h _ (subevent (TlsAccept s)) lim st = (Done (Err e), st') →
        run = (Done (c', Some (Err (Tls e))), st')
    else
      ∀ s' e, ServerTL.set_max_buffer_size (ConnectionHandler.max_buffer_size c)
          (ServerTL.new s s) = (s', Err e) →
        run = (Done (c', Some (Err e)), st) ∧ ∃ m, e = Config m
  end.
Proof.
  intros c' run. unfold run, ConnectionHandler.run.
  destruct (ConnectionHandler.stream c) as [s|]; [|done].
  destruct (ConnectionHandler.tls_acceptor c) eqn:Htls.
  - intros e st' He. rewrite exec_bind. unfold ConnectionHandler.open_transport. rewrite Htls.
    rewrite exec_bind, exec_trigger, He. unfold c'. by rewrite ?Htls.
  - intros s' e He. rewrite exec_bind. unfold ConnectionHandler.open_transport. rewrite Htls, He.
    unfold c'. rewrite ?Htls. split; [done|]. unfold ServerTL.set_max_buffer_size in He.
    destruct (Vec.try_reserve _ _) as [b [u|x]]; [done|]. injection He as _ <-. by eexists.
Qed.

Lemma connection_refuses_witness :
  exec (session_handler (H := example_handler) awaits_nothing None)
    (ConnectionHandler.run (H1 := generous) 5 (0%N : example_handler)
       (ConnectionHandler.mk (Some 3%N) false usize_max))
    None (0%N, ping_arrived) =
  (Done (ConnectionHandler.mk None false usize_max,
     Some (Err (Config ("max_buffer_size " +:+ show usize_max +:+
       " cannot be reserved on this system: " +:+
       Vec.show_try_reserve_error Vec.CapacityOverflow)))), (0%N, ping_arrived)).
Proof.
  destruct (connection_refuses (H1 := generous) (session_handler (H := example_handler) awaits_nothing None) 5
    (0%N : example_handler) (ConnectionHandler.mk (Some 3%N) false usize_max) None
    (0%N, ping_arrived) (ServerTL.new 3 3) _ ltac:(reflexivity)) as [Hr _].
  exact Hr.
Defined.
