(* ===== verification/InFlight.v ===== *)
(** Requests in flight when the server shuts down, with the slow command handler of
    [src/examples/framework/shutdown_example.rs]. *)
From S2P Require Import Prelude Errors ProtocolStructs Vec Headers TimeoutConfig IO Method.
From S2P Require Import Common Duet Transport ServerTL ServerTLS ProtocolHandler Ping Scripted.
From S2P Require Import ConnectionHandler EndToEnd Serving.
From stdpp Require Import options.

Module SlowHandler.

(** [struct SlowHandler;] *)
Inductive t := SlowHandler.

Definition run (self : t) (command : N) (data : list byte) :
    io clockE (t * Result (ResponseStatus * list byte)) :=
  _ ← (trigger (Sleep (from_millis 200)) : io clockE unit);
  Ret (self, Ok (StatusOk, data)).

#[global] Instance handler : ProtocolCommandHandler clockE t := {| ProtocolHandler.run := run |}.

End SlowHandler.

Section in_flight.
Context {U : Type → Type} {H : Type} `{ProtocolCommandHandler U H}.

Abbreviation protocol := (ProtocolHandler.t dyn_transport H).
Abbreviation connectionE := (watchE +' sessionE protocol +' netE +' U).

(** A call on the transport, or on the handler, that ends or is cut. *)
Lemma exec_on_transport {A W} (h : handler connectionE W) (m : method netE dyn_transport Error A)
    (p : protocol) lim st :
  exec h (ProtocolHandler.on_transport m p) lim st =
  match exec (restrict h) (m (ProtocolHandler.transport p)) lim st with
  | (Done (d, r), st') => (Done (ProtocolHandler.new d (ProtocolHandler.command_handler p), r), st')
  | (Elapsed, st') => (Elapsed, st')
  | (Hang, st') => (Hang, st')
  end.
Proof.
  unfold ProtocolHandler.on_transport, zoom. rewrite exec_io_bind, exec_lift.
  by destruct (exec (restrict h) _ lim st) as [[[d r]| |] st'].
Qed.

Lemma exec_on_handler {W} (h : handler connectionE W) command data (p : protocol) lim st :
  exec h (ProtocolHandler.on_handler command data p) lim st =
  match exec (restrict h) (run (ProtocolHandler.command_handler p) command data) lim st with
  | (Done (hd, r), st') => (Done (ProtocolHandler.new (ProtocolHandler.transport p) hd, Ok r), st')
  | (Elapsed, st') => (Elapsed, st')
  | (Hang, st') => (Hang, st')
  end.
Proof.
  unfold ProtocolHandler.on_handler. rewrite exec_bind, exec_lift.
  by destruct (exec (restrict h) _ lim st) as [[[d r]| |] st'].
Qed.

(** C14: a shutdown does not let a request in flight finish.  When a request has been
    read in full and its handler is still at work at the instant of the signal, the
    handler is dropped and the session is over at that instant: no byte of an answer
    has been sent, and none will be, whatever is left of the drain timeout. *)
Theorem shutdown_cuts_a_request {W} (h : handler connectionE W) T fuel hd d d1 d2 command size data
    t t1 t2 w w1 w2 w3 w4 :
  LeftoverAtOnce h → ShutdownAt h T → (t <= T)%N →
  h _ (subevent NextChange) None (t, w) = (Done (Some (T - t)%N), (t, w1)) →
  exec (restrict h) (read_command d) (Some T) (t, w1) = (Done (d1, Ok (Some (command, size))), (t1, w2)) →
  exec (restrict h) (receive_data size d1) (Some T) (t1, w2) = (Done (d2, Ok data), (t2, w3)) →
  exec (restrict h) (run hd command data) (Some T) (t2, w3) = (Elapsed, (T, w4)) →
  ∃ q p' w5 w6,
    h _ (subevent (Leftover q)) None (T, w4) = (Done p', (T, w5)) ∧
    h _ (subevent Borrow) None (T, w5) = (Done true, (T, w6)) ∧
    exec h (ConnectionHandler.serve (S fuel) (ProtocolHandler.new d hd)) None (t, w) =
      (Done (p', true), (T, w6)).
Proof.
  intros Hlo Hs Ht Hnext Hread Hdata Hrun.
  set (p := ProtocolHandler.new d hd).
  destruct (leftover_at_once (h := h) p None T w4) as (p' & w5 & Hp').
  destruct (shutdown_borrow (h := h) None T w5) as (w6 & Hb); [lia|].
  exists p, p', w5, w6. split_and!; [done..|].
  assert (Hcut : exec h (ProtocolHandler.handle_next p : io connectionE _) (Some T) (t, w1) = (Elapsed, (T, w4))).
  { unfold ProtocolHandler.handle_next, mbind, method_mbind.
    rewrite exec_io_bind, exec_on_transport. cbn [ProtocolHandler.transport p]. rewrite Hread.
    cbn [fst snd]. rewrite exec_io_bind, exec_on_transport. cbn [ProtocolHandler.transport].
    rewrite Hdata. cbn [fst snd]. rewrite exec_io_bind, exec_on_handler.
    cbn [ProtocolHandler.command_handler p]. by rewrite Hrun. }
  cbn [ConnectionHandler.serve]. rewrite exec_bind. unfold ConnectionHandler.turn.
  rewrite exec_bind. unfold select_changed. rewrite exec_bind, exec_trigger, Hnext.
  unfold timeout. cbn [exec fst inner_first min_limit].
  replace (t + (T - t))%N with T by lia. rewrite Hcut. cbn [exec].
  rewrite exec_bind, exec_trigger, Hp', exec_bind, exec_trigger, Hb. done.
Qed.
End in_flight.

(** * The slow handler, over a network that takes a nanosecond *)

Definition sleeps X (e : clockE X) : option (Duration * X) :=
  match e in clockE X return option (Duration * X) with
  | Sleep d => Some (d, tt)
  | Now => None
  end.

Definition slow_session : ProtocolHandler.t dyn_transport SlowHandler.t :=
  ProtocolHandler.new (DynTL (ServerTL.new 0 1)) SlowHandler.SlowHandler.

(** A request of two bytes, and what the client sends after it. *)
Definition requesting (rest : list byte) : peer :=
  Build_peer true false (RequestHeader.wire (RequestHeader.new 1 2) ++ [x61; x62] ++ rest) [] 0.

Abbreviation slow_run signal fuel w :=
  (exec (session_handler (H := SlowHandler.t) sleeps signal)
     (ConnectionHandler.serve fuel slow_session) None (0%N, w)).

(** The signal comes after 100 ms: the client is left with the acknowledgement of its
    header. *)
Lemma shutdown_cuts_a_request_witness :
  ∃ p' w', slow_run (Some (from_millis 100)) 2 (requesting [x01]) =
    (Done (p', true), (from_millis 100, w')) ∧ outbox w' = [x01].
Proof.
  destruct (shutdown_cuts_a_request (session_handler (H := SlowHandler.t) sleeps (Some (from_millis 100)))
    (from_millis 100) 1 SlowHandler.SlowHandler (DynTL (ServerTL.new 0 1)) _ _ 1 2 [x61; x62]
    0 _ _ (requesting [x01]) _ _ _ _ _ _ ltac:(done) eq_refl eq_refl eq_refl eq_refl)
    as (q & p' & w5 & w6 & Hq & Hb & He).
  exists p', w6. split; [exact He|]. injection Hq as _ <-. injection Hb as <-. reflexivity.
Defined.

(** The signal comes after a second: the handler has finished, and the client, slow to
    acknowledge, is left with the status and the size of an answer.  Without a signal
    a client that does acknowledge gets it. *)
Lemma shutdown_cuts_a_response :
  (∃ p' w', slow_run (Some (from_secs 1)) 2 (requesting []) = (Done (p', true), (from_secs 1, w')) ∧
     outbox w' = [x01] ++ response_frame x01 (Some [x61; x62])) ∧
  (∃ p' st', slow_run None 1 (requesting [x01]) = (Done (p', false), st') ∧
     outbox st'.2 = [x01] ++ response_frame x01 (Some [x61; x62]) ++ [x61; x62]).
Proof. split; vm_compute; do 2 eexists; done. Qed.
