(* ===== verification/ServerRun.v ===== *)
(** The server from its start to its end: the accept loop under a shutdown signal,
    and [run] as a whole. *)
From S2P Require Import Prelude Errors ProtocolStructs TimeoutConfig IO Method Common Ping.
From S2P Require Import ProtocolHandler Scripted ConnectionHandler Server EndToEnd Serving.
From stdpp Require Import options.

Section run.
Context {H : Type}.

Abbreviation runE := (serverE H +' watchE +' clockE).

(** A runtime with free permits: its bookkeeping takes no time, an [accept] takes at
    least a nanosecond. *)
Class ServerLaws {W} (h : handler runE W) : Prop := {
  server_drain :: DrainLaws h;
  server_bind a lim t w :
    ∃ r w', h _ (subevent (Bind (H := H) a)) lim (t, w) = (Done r, (t, w'));
  server_semaphore n lim t w :
    ∃ w', h _ (subevent (NewSemaphore (H := H) n)) lim (t, w) = (Done tt, (t, w'));
  server_acquire lim t w :
    ∃ w', h _ (subevent (Acquire (H := H))) lim (t, w) = (Done (Some tt), (t, w'));
  server_release lim t w :
    ∃ w', h _ (subevent (Release (H := H))) lim (t, w) = (Done tt, (t, w'));
  server_spawn c hd lim t w :
    ∃ j w', h _ (subevent (SpawnConnection c hd)) lim (t, w) = (Done j, (t, w'));
  server_is_finished j lim t w :
    ∃ b w', h _ (subevent (IsFinished (H := H) j)) lim (t, w) = (Done b, (t, w'));
  server_accept l lim t w r t' w' :
    h _ (subevent (Accept (H := H) l)) lim (t, w) = (Done r, (t', w')) → (t < t')%N;
}.

Section laws.
Context {W} (h : handler runE W) `{!ServerLaws h}.

Lemma exec_retain hs lim t w :
  ∃ hs' w', exec h (Server.retain (H := H) hs) lim (t, w) = (Done hs', (t, w')) ∧
    hs' `sublist_of` hs.
Proof using All.
  revert w. induction hs as [|j hs IH]; intros w; [by exists [], w|].
  cbn [Server.retain]. rewrite exec_bind, exec_trigger.
  destruct (server_is_finished (h := h) j lim t w) as (b & w1 & ->).
  rewrite exec_bind. destruct (IH w1) as (hs' & w2 & -> & Hsub). cbn [exec mret io_mret].
  eexists _, w2. split; [done|]. destruct b; by constructor.
Qed.

(** One turn ends by the signal; at the signal it ends the loop, and a turn that
    goes on has taken time. *)
Lemma exec_accept_turn `{!ShutdownAt h T} s l factory hs t w :
  Server.max_connections s ≠ 0%N → (t <= T)%N →
  ∃ hs' f t' w', exec h (Server.turn s l factory hs) None (t, w) = (Done (hs', f), (t', w')) ∧
    (t <= t' <= T)%N ∧ (f = Continue → (t < t')%N).
Proof using All.
  intros Hmax Ht. unfold Server.turn.
  destruct (exec_retain hs None t w) as (hs1 & w1 & Hr & _). rewrite exec_bind, Hr.
  rewrite (proj2 (N.eqb_neq _ _) Hmax). cbn [negb]. rewrite exec_bind, exec_trigger.
  destruct (server_acquire (h := h) None t w1) as [w2 ->].
  rewrite exec_bind.
  destruct (exec_select h T (trigger (Accept (H := H) l) : io runE _) t w2 Ht)
    as (r & t1 & w3 & He & Hle & Hnone & Hsome). rewrite He.
  destruct r as [[stream|e]|].
  - destruct (Hsome _ eq_refl) as (lim & w0 & _ & Hacc). rewrite exec_trigger in Hacc.
    apply server_accept in Hacc. rewrite exec_bind. unfold Server.accepted. rewrite exec_trigger.
    edestruct (server_spawn (h := h)) as (j & w4 & Hsp). rewrite Hsp. cbn [exec mret io_mret].
    do 4 eexists. split; [done|]. split; [lia|]. intros _. lia.
  - destruct (Hsome _ eq_refl) as (lim & w0 & _ & Hacc). rewrite exec_trigger in Hacc.
    apply server_accept in Hacc. rewrite exec_bind.
    destruct (exec_select h T (trigger (Sleep Server.ACCEPT_ERROR_BACKOFF) : io runE _) t1 w3)
      as (slept & t2 & w4 & He2 & Hle2 & Hnone2 & _); [lia|]. rewrite He2.
    destruct slept as [u|].
    + rewrite exec_bind. cbn [exec mret io_mret]. rewrite exec_bind, exec_trigger.
      destruct (server_release (h := h) None t2 w4) as [w5 ->]. cbn [exec mret io_mret].
      do 4 eexists. split; [done|]. split; [lia|]. intros _. lia.
    + specialize (Hnone2 eq_refl) as ->. rewrite exec_bind, exec_trigger.
      destruct (shutdown_borrow (h := h) None T w4) as [w5 ->]; [lia|].
      rewrite exec_bind, exec_trigger.
      destruct (server_release (h := h) None T w5) as [w6 ->]. cbn [exec mret io_mret].
      do 4 eexists. split; [done|]. split; [lia|]. intros _. lia.
  - specialize (Hnone eq_refl) as ->. rewrite exec_bind, exec_trigger.
    destruct (shutdown_borrow (h := h) None T w3) as [w4 ->]; [lia|].
    rewrite exec_bind, exec_trigger.
    destruct (server_release (h := h) None T w4) as [w5 ->]. cbn [exec mret io_mret].
    do 4 eexists. split; [done|]. split; [lia|done].
Qed.

(** A turn per nanosecond is fuel enough. *)
Lemma exec_accept_loop `{!ShutdownAt h T} fuel s l factory hs t w :
  Server.max_connections s ≠ 0%N → (t <= T)%N → (T - t < N.of_nat fuel)%N →
  ∃ hs' t' w', exec h (Server.accept_loop fuel s l factory hs) None (t, w) =
      (Done (hs', true), (t', w')) ∧ (t <= t' <= T)%N.
Proof using All.
  intros Hmax. revert hs t w. induction fuel as [|fuel IH]; intros hs t w Ht Hf; [lia|].
  cbn [Server.accept_loop]. rewrite exec_bind.
  destruct (exec_accept_turn (T := T) s l factory hs t w Hmax Ht) as (hs1 & f & t1 & w1 & He & Hle & Hc).
  rewrite He. destruct f.
  - specialize (Hc eq_refl). destruct (IH hs1 t1 w1) as (hs' & t' & w' & He' & Hle'); [lia..|].
    exists hs', t', w'. split; [done|lia].
  - exists hs1, t1, w1. split; [done|lia].
Qed.
End laws.

End run.

(** A server under a steady load: a connection every 10 ns, or a failing [accept],
    sessions that never end by themselves, and the signal at [T].  The state is
    the connections that were aborted. *)
Definition loaded_answer (T : Instant) (accepts : bool) X
    (e : (serverE N +' watchE +' clockE) X) (t : Instant) (w : list join_handle) :
    option (Duration * X * list join_handle) :=
  match e with
  | inl1 e =>
    match e in serverE _ X return option (Duration * X * list join_handle) with
    | Bind _ => Some (0%N, Ok 3%N, w)
    | Accept _ => Some (10%N, if accepts then Ok 1%N else Err (OtherIo 24%N), w)
    | NewSemaphore _ => Some (0%N, tt, w)
    | Acquire => Some (0%N, Some tt, w)
    | Release => Some (0%N, tt, w)
    | SpawnConnection _ _ => Some (0%N, t, w)
    | IsFinished _ => Some (0%N, false, w)
    | Join _ => None
    | AbortConnection j => Some (0%N, tt, w ++ [j])
    | SendShutdown _ => Some (0%N, Ok tt, w)
    end
  | inr1 (inl1 e) =>
    match e in watchE X return option (Duration * X * list join_handle) with
    | NextChange => Some (0%N, Some (T - t)%N, w)
    | Borrow => Some (0%N, (T <=? t)%N, w)
    end
  | inr1 (inr1 e) =>
    match e in clockE X return option (Duration * X * list join_handle) with
    | Sleep d => Some (d, tt, w)
    | Now => Some (0%N, t, w)
    end
  end.

Definition loaded (T : Instant) (accepts : bool) := timed_handler (loaded_answer T accepts).

Ltac at_once := unfold loaded, timed_handler; simpl; rewrite N.add_0_r; by repeat case_match.

#[export] Instance loaded_laws T accepts : ServerLaws (loaded T accepts).
Proof.
  split; [split; [apply _|intros lim t w; at_once|intros j lim t w; eexists; at_once]|..].
  - intros a lim t w. do 2 eexists. at_once.
  - intros n lim t w. eexists. at_once.
  - intros lim t w. eexists. at_once.
  - intros lim t w. eexists. at_once.
  - intros c hd lim t w. do 2 eexists. at_once.
  - intros j lim t w. do 2 eexists. at_once.
  - intros l lim t w r t' w'. unfold loaded, timed_handler. simpl.
    repeat case_match; intros; simplify_eq; lia.
Qed.

#[export] Instance loaded_shutdown T accepts : ShutdownAt (loaded T accepts) T.
Proof.
  split; intros lim t w Ht; exists w; unfold loaded, timed_handler; simpl;
    rewrite N.add_0_r; destruct lim; simpl; try done; by rewrite (proj2 (N.leb_le _ _)).
Qed.

Definition example_server : Server.t N :=
  Server.set_protocol_command_handler_factory (λ _, 0%N) (Server.new "h:1" 0).

