(* ===== verification/Lines.v ===== *)
(** A program and the connections it makes.

    [Duet] is about two programs and one connection.  Here a client makes any number
    of connections, one task of the server at the end of each.  A connection is a
    line of two queues of marks, named by its place in the order of the connections;
    a client may dial, use any of its lines, and drop one, which sends the end of the
    stream if that has not been sent.  The tasks run on their own: a task whose client
    has moved on to another line is still there.

    [plays p l b t Q] is [acts] of such a client: from the local state [l], with [b]
    saying which lines it may write to, it does exactly the actions [t], each on the
    line it names.  When what it does on each line is the one side of a dialogue of
    which the task of the line acts the other, every run ends well ([lines_dialogues]). *)
From stdpp Require Import relations options.
From S2P Require Import Prelude Errors TimeoutConfig IO Method Common Duet.

(** What a client does to its lines besides reading and writing. *)
Inductive upkeep := Nothing | Dials | Drops (s : stream).

(** Programs with events [E] over a local state [L]: the events on a line, what the
    others may answer when there are so many lines, and what these do. *)
Class Caller (E : Type → Type) (L : Type) := {
  on_line : ∀ {X}, E X → option (netE X);
  here : ∀ {X}, E X → nat → L → X → L → Prop;
  tends : ∀ {X}, E X → L → upkeep;
}.

Definition place {X} (e : netE X) : nat :=
  N.to_nat match e with
    | Read s _ | ReadExact s _ | WriteAll s _ | Flush s | Shutdown s => s
    end.

Definition shuts {X} (e : netE X) : bool := match e with Shutdown _ => true | _ => false end.

(** * Lines *)

Record line {E2 L2 B} := Line {
  task : io E2 B;
  task_state : L2;
  to_task : list mark;
  from_task : list mark;
  writable : bool;
}.
Arguments line : clear implicits.
Arguments Line {_ _ _} _ _ _ _ _.

Record calls {E L A E2 L2 B} := Calls {
  caller : io E A;
  caller_state : L;
  lines : list (line E2 L2 B);
}.
Arguments calls : clear implicits.
Arguments Calls {_ _ _ _ _ _} _ _ _.

Section machine.
Context {E L} `{!Caller E L} {E2 L2} `{!Party E2 L2} {B : Type}.
Abbreviation line := (line E2 L2 B).

(** The task of the [i]-th connection, and its local state. *)
Context (spawn : nat → io E2 B) (fresh : L2).

Definition hang_up (ln : line) : line :=
  if writable ln
  then Line (task ln) (task_state ln) (to_task ln ++ [Eof]) (from_task ln) false
  else ln.

Definition upkept (u : upkeep) (ls : list line) : list line :=
  match u with
  | Nothing => ls
  | Dials => ls ++ [Line (spawn (length ls)) fresh [] [] true]
  | Drops s => alter hang_up (N.to_nat s) ls
  end.

(** One step of the client; no deadline fires. *)
Fixpoint cstep {A} (p : io E A) (l : L) (ls : list line)
    (p' : io E A) (l' : L) (ls' : list line) : Prop :=
  match p with
  | Ret _ => False
  | Vis e k =>
    match on_line e with
    | Some e' => ∃ x ln q' o, ls !! place e' = Some ln ∧ net_answer e' (from_task ln) x q' o ∧
        p' = k x ∧ l' = l ∧
        ls' = <[place e' := Line (task ln) (task_state ln) (to_task ln ++ o) q'
                  (writable ln && negb (shuts e'))]> ls
    | None => ∃ x, here e (length ls) l x l' ∧ p' = k x ∧ ls' = upkept (tends e l) ls
    end
  | Timeout d pb k =>
      (∃ b, pb = Ret b ∧ p' = k (Some b) ∧ l' = l ∧ ls' = ls) ∨
      (∃ pb', cstep pb l ls pb' l' ls' ∧ p' = Timeout d pb' k)
  end.

(** * Termination *)

Definition cstep_any {A} (p' p : io E A) : Prop :=
  ∃ l ls l' ls', cstep p l ls p' l' ls'.

Lemma cstep_acc {A} (p : io E A) : Acc cstep_any p.
Proof.
  induction p as [A a|A X e k IH|A C d pb IHp k IH].
  - constructor. by intros p' (l & ls & l' & ls' & ?).
  - constructor. intros p' (l & ls & l' & ls' & Hs). simpl in Hs. destruct (on_line e).
    + destruct Hs as (x & ln & q' & o & _ & _ & -> & _). apply IH.
    + destruct Hs as (x & _ & -> & _). apply IH.
  - induction IHp as [pb _ IHp]. constructor.
    intros p' (l & ls & l' & ls' & [(b & -> & -> & _)|(pb' & Hs & ->)]); [apply IH|].
    apply IHp. by exists l, ls, l', ls'.
Qed.

(** One of the tasks has made a step. *)
Definition tasks_step (ls' ls : list line) : Prop :=
  ∃ i q k cs sc w q' k' cs' o, ls !! i = Some (Line q k cs sc w) ∧
    pstep q k cs q' k' cs' o ∧ ls' = <[i := Line q' k' cs' (sc ++ o) w]> ls.

Lemma tasks_step_acc ls : Acc tasks_step ls.
Proof.
  induction ls as [|[q k cs sc w] ls IH].
  { constructor. intros ls' (i & q & k & cs & sc & w & q' & k' & cs' & o & [=] & _). }
  revert q k cs sc. induction IH as [ls Hls IHls].
  intros q. induction (pstep_acc q) as [q _ IHq]. intros k cs sc. constructor.
  intros ls' ([|i] & q1 & k1 & cs1 & sc1 & w1 & q' & k' & cs' & o & Hi & Hs & ->); simplify_eq/=.
  - apply IHq. by eexists _, _, _, _, _.
  - apply IHls. by repeat eexists.
Qed.

Context {A : Type}.
Abbreviation calls := (calls E L A E2 L2 B).

Inductive lstep : calls → calls → Prop :=
| lstep_caller p l ls p' l' ls' :
    cstep p l ls p' l' ls' → lstep (Calls p l ls) (Calls p' l' ls')
| lstep_task p l ls i q k cs sc w q' k' cs' o :
    ls !! i = Some (Line q k cs sc w) → pstep q k cs q' k' cs' o →
    lstep (Calls p l ls) (Calls p l (<[i := Line q' k' cs' (sc ++ o) w]> ls)).

Lemma lines_terminate (c : calls) : sn lstep c.
Proof.
  destruct c as [p l ls]. revert l ls. induction (cstep_acc p) as [p _ IHp]. intros l ls.
  induction (tasks_step_acc ls) as [ls _ IHls]. constructor. intros c' Hs. unfold flip in Hs.
  inversion Hs as [? ? ? p' l' ls' Hp|? ? ? i q k cs sc w q' k' cs' o Hi Hq]; subst.
  - apply IHp. by eexists _, _, _, _.
  - apply IHls. by repeat eexists.
Qed.
End machine.

(** * Actions *)

(** The [i]-th connection is made, or used. *)
Inductive move := Dial | At (i : nat) (a : act).

Definition on (s : stream) (t : list act) : list move := map (At (N.to_nat s)) t.

(** What is done on one line, and how many are made. *)
Definition only (i : nat) (t : list move) : list act :=
  omap (λ m, match m with At j a => if decide (j = i) then Some a else None | Dial => None end) t.

Fixpoint dials (t : list move) : nat :=
  match t with
  | [] => 0
  | Dial :: t => S (dials t)
  | At _ _ :: t => dials t
  end.

(** The lines that may be written to, after a step that is local. *)
Definition book_after (u : upkeep) (b : list bool) : list bool :=
  match u with
  | Nothing => b
  | Dials => b ++ [true]
  | Drops s => alter (λ _, false) (N.to_nat s) b
  end.

(** The actions of such a step. *)
Definition moves (u : upkeep) (b : list bool) : list move :=
  match u with
  | Nothing => []
  | Dials => [Dial]
  | Drops s => if decide (b !! N.to_nat s = Some true) then on s [Out Eof] else []
  end.

(** [does e b t K]: the event [e] does the first actions of [t], and what it answers,
    the lines that may be written to then, and the rest of [t] are in [K]. *)
Definition does {X} (e : netE X) (b : list bool) (t : list move) :
    (X → list bool → list move → Prop) → Prop :=
  match e in netE X return (X → list bool → list move → Prop) → Prop with
  | Read s n => λ K, is_Some (b !! N.to_nat s) ∧ 0 < n ∧
      ((∃ bs t', t = on s (ins bs) ++ t' ∧ length bs = n ∧
          ∀ c bs', bs = c ++ bs' → c ≠ [] → K (Ok c) b (on s (ins bs') ++ t')) ∨
       (∃ t', t = on s [In Eof] ++ t' ∧ K (Ok []) b t'))
  | ReadExact s n => λ K, is_Some (b !! N.to_nat s) ∧
      ((∃ bs t', t = on s (ins bs) ++ t' ∧ length bs = n ∧ K (Ok bs) b t') ∨
       (∃ bs t', t = on s (ins bs ++ [In Eof]) ++ t' ∧ length bs < n ∧ K (Err UnexpectedEof) b t'))
  | WriteAll s bs => λ K, b !! N.to_nat s = Some true ∧
      ∃ t', t = on s (outs bs) ++ t' ∧ K (Ok tt) b t'
  | Flush s => λ K, is_Some (b !! N.to_nat s) ∧ K (Ok tt) b t
  | Shutdown s => λ K, b !! N.to_nat s = Some true ∧
      ∃ t', t = on s [Out Eof] ++ t' ∧ K (Ok tt) (<[N.to_nat s := false]> b) t'
  end.

Fixpoint plays {E L} `{!Caller E L} {A} (p : io E A) (l : L) (b : list bool) (t : list move)
    (Q : A → L → list bool → Prop) : Prop :=
  match p with
  | Ret a => t = [] ∧ Q a l b
  | Vis e k =>
    match on_line e with
    | Some e' => does e' b t (λ x b' t', plays (k x) l b' t' Q)
    | None =>
      (∃ x l', here e (length b) l x l') ∧ ∀ x l', here e (length b) l x l' →
        ∃ t', t = moves (tends e l) b ++ t' ∧ plays (k x) l' (book_after (tends e l) b) t' Q
    end
  | Timeout d pb k => ∃ t1 t2, t = t1 ++ t2 ∧
      plays pb l b t1 (λ r l' b', plays (k (Some r)) l' b' t2 Q)
  end.

Lemma on_app s t u : on s (t ++ u) = on s t ++ on s u.
Proof. apply map_app. Qed.
Lemma only_dial i t : only i (Dial :: t) = only i t.
Proof. done. Qed.
Lemma only_app i t u : only i (t ++ u) = only i t ++ only i u.
Proof. apply omap_app. Qed.
Lemma only_on s t : only (N.to_nat s) (on s t) = t.
Proof. unfold only, on. induction t; csimpl; [done|]. rewrite decide_True by done. congruence. Qed.
Lemma only_on_nat i t : only i (on (N.of_nat i) t) = t.
Proof. rewrite <-(Nat2N.id i) at 1. apply only_on. Qed.
Lemma only_on_ne i s t : i ≠ N.to_nat s → only i (on s t) = [].
Proof. intros Hi. unfold only, on. induction t; csimpl; [done|]. by rewrite decide_False. Qed.
Lemma dials_dial t : dials (Dial :: t) = S (dials t).
Proof. done. Qed.
Lemma dials_app t u : dials (t ++ u) = dials t + dials u.
Proof. induction t as [|[|i a] t IH]; simpl; lia. Qed.
Lemma dials_on s t : dials (on s t) = 0.
Proof. by induction t. Qed.

Lemma does_impl {X} (e : netE X) b t (K K' : X → list bool → list move → Prop) :
  (∀ x b' t', K x b' t' → K' x b' t') → does e b t K → does e b t K'.
Proof.
  intros HK. destruct e; simpl.
  - intros (? & ? & [(bs & t' & ? & ? & Hk)|(t' & ? & Hk)]); eauto 10.
  - intros (? & [(bs & t' & ? & ? & Hk)|(bs & t' & ? & ? & Hk)]); eauto 10.
  - intros (? & t' & ? & Hk). eauto.
  - intros (? & Hk). eauto.
  - intros (? & t' & ? & Hk). eauto.
Qed.

Lemma does_app {X} (e : netE X) b t u (K K' : X → list bool → list move → Prop) :
  (∀ x b' t', K x b' t' → K' x b' (t' ++ u)) → does e b t K → does e b (t ++ u) K'.
Proof.
  intros HK. destruct e; simpl.
  - intros (Hs & Hn & [(bs & t' & -> & Hl & Hk)|(t' & -> & Hk)]); (split_and!; [done..|]).
    + left. exists bs, (t' ++ u). split_and!; [by rewrite (assoc_L (++))|done|].
      intros c bs' -> Hc. rewrite (assoc_L (++)). eauto.
    + right. exists (t' ++ u). eauto.
  - intros (Hs & [(bs & t' & -> & Hl & Hk)|(bs & t' & -> & Hl & Hk)]); (split; [done|]); [left|right];
      exists bs, (t' ++ u); (split_and!; [by rewrite (assoc_L (++))|done|eauto]).
  - intros (Hs & t' & -> & Hk). split; [done|].
    exists (t' ++ u). split; [by rewrite (assoc_L (++))|eauto].
  - intros (Hs & Hk). eauto.
  - intros (Hs & t' & -> & Hk). split; [done|]. exists (t' ++ u). eauto.
Qed.

Section plays.
Context {E : Type → Type} {L : Type} `{!Caller E L}.

Lemma plays_impl {A} (p : io E A) l b t (Q Q' : A → L → list bool → Prop) :
  (∀ a l' b', Q a l' b' → Q' a l' b') → plays p l b t Q → plays p l b t Q'.
Proof.
  revert l b t Q Q'. induction p as [A a0|A X e k IH|A C d pb IHp k IH];
    intros l b t Q Q' HQ; simpl.
  - intros [-> Ha]. auto.
  - destruct (on_line e) as [e'|].
    + apply does_impl. intros x b' t'. by apply IH.
    + intros [Hex Hk]. split; [done|]. intros x l' Hx.
      destruct (Hk x l' Hx) as (t' & -> & Ht). exists t'. split; [done|]. by eapply IH.
  - intros (t1 & t2 & -> & Hp). exists t1, t2. split; [done|].
    eapply IHp; [|exact Hp]. intros r l' b'. by apply IH.
Qed.

Lemma plays_bind {A C} (p : io E A) (f : A → io E C) l b t1 t2 Q :
  plays p l b t1 (λ a l' b', plays (f a) l' b' t2 Q) → plays (io_bind p f) l b (t1 ++ t2) Q.
Proof.
  revert l b t1 f t2 Q.
  induction p as [A a0|A X e k IH|A D d pb IHp k IH]; intros l b t1 f t2 Q; simpl.
  - by intros [-> Ha].
  - destruct (on_line e) as [e'|].
    + apply does_app. intros x b' t'. apply IH.
    + intros [Hex Hk]. split; [done|]. intros x l' Hx.
      destruct (Hk x l' Hx) as (t' & -> & Ht). exists (t' ++ t2).
      split; [by rewrite (assoc_L (++))|auto].
  - intros (u1 & u2 & -> & Hp). exists u1, (u2 ++ t2).
    split; [by rewrite (assoc_L (++))|]. eapply plays_impl; [|exact Hp]. intros r l' b'. apply IH.
Qed.

Lemma plays_timeout {A} d (p : io E A) l b t Q :
  plays p l b t (λ a, Q (Some a)) → plays (timeout d p) l b t Q.
Proof.
  intros Hp. simpl. exists t, []. split; [by rewrite app_nil_r|].
  eapply plays_impl; [|exact Hp]. intros a l' b' Ha. by split.
Qed.

Lemma plays_ret {A} (a : A) l b (Q : A → L → list bool → Prop) :
  Q a l b → plays (mret (M := io E) a) l b [] Q.
Proof. by split. Qed.

(** A program that does nothing the server can see, followed by one that may. *)
Lemma plays_then {A C} (p : io E A) (f : A → io E C) l b t Q :
  plays p l b [] (λ a l' b', plays (f a) l' b' t Q) → plays (p ≫= f) l b t Q.
Proof. apply (plays_bind p f l b [] t). Qed.

(** A local event. *)
Lemma plays_local {X} (e : E X) l b (Q : X → L → list bool → Prop) :
  on_line e = None → (∃ x l', here e (length b) l x l') →
  (∀ x l', here e (length b) l x l' → Q x l' (book_after (tends e l) b)) →
  plays (Vis e Ret) l b (moves (tends e l) b) Q.
Proof.
  intros He Hex HQ. simpl. rewrite He. split; [done|]. intros x l' Hx.
  exists []. rewrite app_nil_r. auto.
Qed.
End plays.

(** ** A conversation on one line, by a program that knows nothing else *)

(** All that [p] does is on [s], and it does not shut it. *)
Fixpoint uses {A} (s : stream) (p : io netE A) : Prop :=
  match p with
  | Ret _ => True
  | Vis e k => place e = N.to_nat s ∧ shuts e = false ∧ ∀ x, uses s (k x)
  | Timeout d q k => uses s q ∧ ∀ o, uses s (k o)
  end.

Lemma uses_bind {A C} s (p : io netE A) (f : A → io netE C) :
  uses s p → (∀ a, uses s (f a)) → uses s (io_bind p f).
Proof.
  intros Hp Hf. induction p as [A a|A X e k IH|A D d q _ k IH]; simpl in *; [done| |].
  - destruct Hp as (? & ? & Hk). auto.
  - destruct Hp as (? & Hk). auto.
Qed.

(** The events of [netE] among those of the caller are on its lines. *)
Class OnLine (E : Type → Type) (L : Type) `{!Caller E L, !netE -< E} : Prop :=
  line_net : ∀ X (e : netE X), on_line (subevent e) = Some e.

Lemma plays_lift {E L} `{OnLine E L} {A} (p : io netE A) s l b t Q :
  uses s p → b !! N.to_nat s = Some true →
  acts p tt t (λ a _, Q a l b) → plays (lift p) l b (on s t) Q.
Proof.
  intros Hu Hb. revert t Q. induction p as [A a0|A X e k IH|A C d q IHq k IH];
    intros t Q; simpl in *.
  - by intros [-> HQ].
  - rewrite line_net. destruct Hu as (Hp & Hs & Hu).
    assert (is_Some (b !! N.to_nat s)) as Hsome by by eexists.
    destruct e as [s' n|s' n|s' bs|s'|s']; unfold place in Hp; simplify_eq/=.
    + intros (Hn & [(bs & t' & -> & Hl & Hk)|(t' & -> & Hk)]); (split_and!; [done..|]).
      * left. exists bs, (on s t'). rewrite on_app. split_and!; [done..|].
        intros c bs' Hbs Hc. rewrite <-on_app. eauto.
      * right. exists (on s t'). eauto.
    + intros [(bs & t' & -> & Hl & Hk)|(bs & t' & -> & Hl & Hk)]; (split; [done|]); [left|right];
        exists bs, (on s t'); rewrite !on_app; [eauto|].
      split_and!; [by rewrite <-(assoc_L (++))|done|auto].
    + intros (t' & -> & Hk). split; [done|].
      exists (on s t'). rewrite on_app. eauto.
    + eauto.
  - destruct Hu as [Hq Hk]. intros (t1 & t2 & -> & Ha). exists (on s t1), (on s t2).
    split; [apply on_app|]. apply IHq; [done|]. eapply acts_impl; [|exact Ha].
    intros r []. by apply IH.
Qed.

(** * Steps *)

Lemma list_alter_insert {X} (f : X → X) (i : nat) (xs : list X) x :
  xs !! i = Some x → alter f i xs = <[i := f x]> xs.
Proof. revert i. induction xs as [|y xs IH]; intros [|i] Hi; simplify_eq/=; [done|]. f_equal. by apply IH. Qed.

Lemma list_alter_ge {X} (f : X → X) (i : nat) (xs : list X) : xs !! i = None → alter f i xs = xs.
Proof. revert i. induction xs as [|y xs IH]; intros [|i] Hi; simplify_eq/=; [done..|]. f_equal. by apply IH. Qed.

Section steps.
Context {E L} `{!Caller E L} {E2 L2} `{!Party E2 L2} {B : Type}.
Abbreviation line := (line E2 L2 B).
Context (spawn : nat → io E2 B) (fresh : L2).
Implicit Types (ls : list line) (ln : line).

Abbreviation book ls := (map writable ls).

(** What a step of the client did to its trace and to its lines. *)
Record moved (t t' : list move) ls ls' : Prop := {
  moved_count : length ls' + dials t' = length ls + dials t;
  moved_grows : length ls ≤ length ls';
  moved_line i ln' : ls' !! i = Some ln' →
    (length ls ≤ i ∧ ln' = Line (spawn i) fresh [] [] true ∧ only i t' = only i t) ∨
    ∃ ln o, ls !! i = Some ln ∧ task ln' = task ln ∧ task_state ln' = task_state ln ∧
      to_task ln' = to_task ln ++ o ∧
      advance (only i t) (only i t') (from_task ln) (from_task ln') o;
  moved_later i : length ls' ≤ i → only i t' = only i t;
}.

Lemma moved_app t t' u ls ls' : moved t t' ls ls' → moved (t ++ u) (t' ++ u) ls ls'.
Proof using Type.
  intros [Hc Hg Hl Hn]. split; [rewrite !dials_app; lia|done| |].
  - intros i ln' Hi. rewrite !only_app.
    destruct (Hl i ln' Hi) as [(? & ? & ->)|(ln & o & ? & ? & ? & ? & ?)]; [by left|right].
    exists ln, o. split_and!; try done. by apply advance_app.
  - intros i Hi. rewrite !only_app, (Hn i Hi). done.
Qed.

Lemma moved_nothing t ls : moved t t ls ls.
Proof using Type.
  split; [done..| |done]. intros i ln Hi. right. exists ln, []. rewrite app_nil_r.
  split_and!; try done. apply advance_nil.
Qed.

(** On one line. *)
Lemma moved_on s ln q' o w u u' r ls :
  ls !! N.to_nat s = Some ln → advance u u' (from_task ln) q' o →
  moved (on s u ++ r) (on s u' ++ r) ls
    (<[N.to_nat s := Line (task ln) (task_state ln) (to_task ln ++ o) q' w]> ls).
Proof using Type.
  intros Hs Ha. pose proof (lookup_lt_Some _ _ _ Hs) as Hlt. split.
  - by rewrite length_insert, !dials_app, !dials_on.
  - by rewrite length_insert.
  - intros i ln' Hi. right. rewrite !only_app. destruct (decide (i = N.to_nat s)) as [->|Hne].
    + rewrite list_lookup_insert_eq in Hi by done. simplify_eq/=. rewrite !only_on.
      exists ln, o. split_and!; try done. by apply advance_app.
    + rewrite list_lookup_insert_ne in Hi by done. rewrite !only_on_ne by done.
      exists ln', []. rewrite app_nil_r. split_and!; try done. apply advance_nil.
  - intros i Hi. rewrite length_insert in Hi. rewrite !only_app, !only_on_ne by lia. done.
Qed.

Lemma moved_upkeep u t ls : moved (moves u (book ls) ++ t) t ls (upkept spawn fresh u ls).
Proof using Type.
  destruct u as [| |s]; simpl; [apply moved_nothing| |].
  - split; simpl.
    + rewrite length_app. simpl. lia.
    + rewrite length_app. lia.
    + intros i ln' [Hi|[Hi Hln]]%lookup_app_Some.
      * right. exists ln', []. rewrite app_nil_r. split_and!; try done. apply advance_nil.
      * left. destruct (i - length ls) as [|j] eqn:Hj; [|done]. simplify_eq/=.
        replace i with (length ls) by lia. done.
    + done.
  - destruct (ls !! N.to_nat s) as [ln|] eqn:Hs.
    + rewrite (list_alter_insert _ _ _ _ Hs). unfold hang_up.
      assert (map writable ls !! N.to_nat s = Some (writable ln)) as -> by
        by rewrite list_lookup_fmap, Hs.
      destruct (writable ln); [rewrite decide_True by done|rewrite decide_False by done].
      * apply (moved_on s ln (from_task ln) [Eof] false [Out Eof] [] t); [done|]. by right.
      * rewrite list_insert_id by done. apply moved_nothing.
    + rewrite list_alter_ge by done.
      rewrite decide_False by (rewrite list_lookup_fmap, Hs; done). apply moved_nothing.
Qed.

Lemma book_upkept u ls : book (upkept spawn fresh u ls) = book_after u (book ls).
Proof using Type.
  destruct u as [| |s]; simpl; [done|by rewrite map_app|].
  apply (list_fmap_alter writable hang_up (λ _, false)). apply List.Forall_forall. intros ln _.
  unfold hang_up. by destruct (writable ln) eqn:?.
Qed.

(** What is on its way to the client is what it expects. *)
Definition agree t ls : Prop := ∀ i ln, ls !! i = Some ln → agrees (from_task ln) (only i t).

Lemma agree_app t u ls : agree (t ++ u) ls → agree t ls.
Proof using Type. intros H i ln Hi. specialize (H i ln Hi). rewrite only_app in H. by eapply agrees_app. Qed.

Lemma agree_on s u r ls ln : agree (on s u ++ r) ls → ls !! N.to_nat s = Some ln →
  agrees (from_task ln) (u ++ only (N.to_nat s) r).
Proof using Type. intros H Hs. specialize (H _ _ Hs). by rewrite only_app, only_on in H. Qed.

(** A step on a line. *)
Lemma does_step {X} (e : netE X) t K x ln q' o ls :
  ls !! place e = Some ln → does e (book ls) t K → agree t ls → net_answer e (from_task ln) x q' o →
  let ls' := <[place e := Line (task ln) (task_state ln) (to_task ln ++ o) q'
                 (writable ln && negb (shuts e))]> ls in
  ∃ t', K x (book ls') t' ∧ moved t t' ls ls'.
Proof using Type.
  intros Hs Hd Hag Hx ls'.
  assert (book ls' = <[place e := writable ln && negb (shuts e)]> (book ls)) as Hbook
    by apply (list_fmap_insert writable).
  assert (shuts e = false → book ls' = book ls) as Hsame.
  { intros Hsh. rewrite Hbook, Hsh, andb_true_r. apply list_insert_id.
    by rewrite list_lookup_fmap, Hs. }
  destruct e as [s n|s n|s bs|s|s]; unfold place in *; cbn [does net_answer shuts] in Hd, Hx, Hsame.
  - rewrite Hsame by done.
    destruct Hd as (_ & Hn & [(bs & t' & -> & Hl & Hk)|(t' & -> & Hk)]);
      pose proof (agree_on _ _ _ _ _ Hag Hs) as Hq;
      destruct Hx as (-> & [(c & -> & Hq' & Hc & Hcl)|(-> & Hq')]); rewrite Hq' in Hq.
    + apply agrees_ins, data_app_inv in Hq as [bs' ->]; [|lia].
      exists (on s (ins bs') ++ t'). split; [by eapply Hk|]. apply moved_on; [done|].
      rewrite Hq', ins_app. left. split; [done|]. exists (data c). by rewrite map_In_data.
    + apply agrees_ins, (data_Eof_absurd []) in Hq; [done|simpl; lia].
    + destruct c as [|b c]; [done|]. apply agrees_Eof in Hq as [Hq|Hq]; by apply prefix_cons_inv_1 in Hq.
    + exists t'. split; [done|]. apply (moved_on s ln q' [] _ [In Eof] [] t'); [done|].
      rewrite Hq'. left. split; [done|]. by exists [Eof].
  - rewrite Hsame by done.
    destruct Hd as (_ & [(bs & t' & -> & Hl & Hk)|(bs & t' & -> & Hl & Hk)]);
      pose proof (agree_on _ _ _ _ _ Hag Hs) as Hq;
      destruct Hx as (-> & [(c & -> & Hq' & Hcl)|(c & -> & Hq' & Hcl)]); rewrite Hq' in Hq.
    + apply agrees_ins, data_app_inv in Hq as [bs' ->]; [|lia].
      rewrite length_app in Hl. destruct bs' as [|b bs']; [|simpl in *; lia].
      rewrite app_nil_r in *. exists t'. split; [done|].
      apply (moved_on s ln q' [] _ (ins c) [] t'); [done|]. rewrite Hq'.
      left. split; [done|]. exists (data c). by rewrite map_In_data, app_nil_r.
    + apply agrees_ins, data_Eof_absurd in Hq; [done|lia].
    + rewrite <-(assoc_L (++)) in Hq. apply agrees_end, data_end_inv in Hq as [? _]. lia.
    + rewrite <-(assoc_L (++)) in Hq. apply agrees_end, data_end_inv in Hq as [_ Hc].
      rewrite (Hc _ eq_refl) in Hq'. exists t'. split; [done|].
      apply (moved_on s ln q' [] _ (ins bs ++ [In Eof]) [] t'); [done|]. rewrite Hq'. apply advance_end.
  - rewrite Hsame by done. destruct Hd as (_ & t' & -> & Hk), Hx as (-> & -> & ->).
    exists t'. split; [done|]. apply (moved_on s ln _ _ _ (outs bs) [] t'); [done|].
    right. by rewrite map_Out_data, app_nil_r.
  - rewrite Hsame by done. destruct Hd as (_ & Hk), Hx as (-> & -> & ->).
    exists t. split; [done|]. apply (moved_on s ln _ _ _ [] [] t); [done|]. apply advance_nil.
  - destruct Hd as (Hb & t' & -> & Hk), Hx as (-> & -> & ->).
    exists t'. split; [rewrite Hbook; simpl; by rewrite andb_false_r|].
    apply (moved_on s ln _ _ _ [Out Eof] [] t'); [done|]. by right.
Qed.

(** A step of a client does the next of its moves. *)
Lemma plays_step {A} (p p' : io E A) l l' t Q ls ls' :
  plays p l (book ls) t Q → agree t ls → cstep spawn fresh p l ls p' l' ls' →
  ∃ t', plays p' l' (book ls') t' Q ∧ moved t t' ls ls'.
Proof using Type.
  revert p' l l' t Q. induction p as [A a0|A X e k IH|A C d pb IHp k IH];
    intros p' l l' t Q; simpl; [done| |].
  - destruct (on_line e) as [e'|].
    + intros Hd Hag (x & ln & q' & o & Hln & Hx & -> & -> & ->).
      destruct (does_step e' t _ x ln q' o ls Hln Hd Hag Hx) as (t' & Hp & Hm). by exists t'.
    + intros [_ Hk] Hag (x & Hx & -> & ->). rewrite length_map in Hk.
      destruct (Hk x l' Hx) as (t' & -> & Hp). exists t'. rewrite book_upkept.
      split; [done|apply moved_upkeep].
  - intros (t1 & t2 & -> & Hp) Hag [(b & -> & -> & -> & ->)|(pb' & Hs & ->)].
    + destruct Hp as [-> Hk]. exists t2. split; [done|apply moved_nothing].
    + eapply IHp in Hs as (t' & Hf & Hm); [|done|by eapply agree_app].
      exists (t' ++ t2). split; [by exists t', t2|by apply moved_app].
Qed.
(** What a client with a trace can do next: stop, step, or wait for more than is
    queued on one of its lines. *)
Lemma plays_cases {A} (p : io E A) l t Q ls :
  plays p l (book ls) t Q → agree t ls →
  (∃ a, p = Ret a ∧ t = [] ∧ Q a l (book ls)) ∨
  (∃ p' l' ls', cstep spawn fresh p l ls p' l' ls') ∨
  (∃ i ln, ls !! i = Some ln ∧ hungry (from_task ln) (only i t)).
Proof using Type.
  revert l t Q. induction p as [A a0|A X e k _|A C d pb IHp k _]; intros l t Q; simpl.
  - intros [-> Ha] _. left. by exists a0.
  - destruct (on_line e) as [e'|].
    + intros Hd Hag. right.
      assert (∃ ln, ls !! place e' = Some ln) as [ln Hln].
      { destruct e'; simpl in Hd; unfold place;
          destruct Hd as [Hs _]; rewrite list_lookup_fmap in Hs;
          (destruct (ls !! _) as [ln|]; [by exists ln|]); first [done|by destruct Hs]. }
      enough ((∃ x q' o, net_answer e' (from_task ln) x q' o) ∨
              hungry (from_task ln) (only (place e') t)) as [(x & q' & o & Hx)|Hh].
      { left. do 3 eexists. exists x, ln, q', o. by split_and!. }
      { right. by exists (place e'), ln. }
      destruct e' as [s n|s n|s bs|s|s]; unfold place in *; cbn [does net_answer] in *;
        [| |left; by do 3 eexists..].
      * destruct (from_task ln) as [|[b|] q].
        -- right. destruct Hd as (_ & Hn & [(bs & t' & -> & Hl & _)|(t' & -> & _)]);
             rewrite only_app, only_on; [exists (data bs)|exists [Eof]]; eexists;
             (split; [by rewrite ?map_In_data|rewrite ?length_map; simpl; lia]).
        -- left. exists (Ok [b]), q, []. split; [done|]. left. exists [b]. simpl.
           split_and!; try done. lia.
        -- left. exists (Ok []), q, []. split; [done|]. by right.
      * destruct Hd as (_ & [(bs & t' & -> & Hl & _)|(bs & t' & -> & Hl & _)]);
          pose proof (agree_on _ _ _ _ _ Hag Hln) as Hq.
        -- destruct (decide (length (from_task ln) < n)); [right|left].
           ++ rewrite only_app, only_on. exists (data bs). eexists.
              split; [by rewrite map_In_data|rewrite length_map; lia].
           ++ apply agrees_ins, data_prefix_inv in Hq as [r Hr]; [|lia].
              exists (Ok bs), r, []. split; [done|]. left. by exists bs.
        -- destruct (decide (length (from_task ln) ≤ length bs)); [right|left].
           ++ rewrite only_app, only_on. exists (data bs ++ [Eof]). eexists.
              split; [by rewrite map_In_end|rewrite length_app, length_map; simpl; lia].
           ++ rewrite <-(assoc_L (++)) in Hq. apply agrees_end, end_prefix_inv in Hq as [r Hr]; [|lia].
              exists (Err UnexpectedEof), r, []. split; [done|]. right. by exists bs.
    + intros [(x & l' & Hx) _] _. right; left. rewrite length_map in Hx.
      do 3 eexists. by exists x.
  - intros (t1 & t2 & -> & Hp) Hag. right.
    destruct (IHp l t1 _ Hp) as [(b & -> & -> & _)|[(pb' & l' & ls' & Hs)|(i & ln & Hi & Hh)]];
      [by eapply agree_app|left|left|right].
    + do 3 eexists. left. by exists b.
    + do 3 eexists. right. by exists pb'.
    + exists i, ln. split; [done|]. rewrite only_app. destruct Hh as (ms & t' & -> & Hl).
      exists ms, (t' ++ only i t2). by rewrite (assoc_L (++)).
Qed.
End steps.

(** * Conversations *)

Section talk.
Context {E L} `{!Caller E L} {E2 L2} `{!Party E2 L2} {A B : Type}.
Context (spawn : nat → io E2 B) (fresh : L2).
Abbreviation calls := (calls E L A E2 L2 B).
Abbreviation line := (line E2 L2 B).

(** What the client ends with, what the task of each connection ends with, what the
    client leaves unread on it, and how many there are. *)
Context (Qa : A → L → Prop) (Qb : nat → B → L2 → Prop) (left : nat → list mark) (n : nat).

Definition talks_on (i : nat) (t : list act) (ln : line) : Prop :=
  ∃ ts, acts (task ln) (task_state ln) ts (Qb i) ∧
    completes (left i) [] (Traces t ts (to_task ln) (from_task ln)).

(** The invariant. *)
Definition calling (c : calls) : Prop :=
  ∃ t, plays (caller c) (caller_state c) (map writable (lines c)) t (λ a l _, Qa a l) ∧
    length (lines c) + dials t = n ∧
    (∀ i ln, lines c !! i = Some ln → talks_on i (only i t) ln) ∧
    (∀ i, length (lines c) ≤ i < n → talks_on i (only i t) (Line (spawn i) fresh [] [] true)).

Definition hung_up (i : nat) (ln : line) : Prop :=
  (∃ b, task ln = Ret b ∧ Qb i b (task_state ln)) ∧ to_task ln = [] ∧ from_task ln = left i.

(** The end: the client has answered, and so have all the tasks. *)
Definition all_ended (c : calls) : Prop :=
  (∃ a, caller c = Ret a ∧ Qa a (caller_state c)) ∧ length (lines c) = n ∧
  ∀ i ln, lines c !! i = Some ln → hung_up i ln.

Lemma talks_agree i t ln : talks_on i t ln → agrees (from_task ln) t ∧
  ∃ ts, acts (task ln) (task_state ln) ts (Qb i) ∧ agrees (to_task ln) ts ∧
    completes (left i) [] (Traces t ts (to_task ln) (from_task ln)).
Proof using Type.
  intros (ts & Hts & Hc). pose proof (completes_agrees _ _ _ Hc) as [Ha1 Ha2]. split; [done|].
  by exists ts.
Qed.

Lemma calling_step c c' : calling c → lstep spawn fresh c c' → calling c'.
Proof using Type.
  intros (t & Hp & Hn & Hls & Hnew) Hs.
  destruct Hs as [p l ls p' l' ls' Hs|p l ls i q k cs sc w q' k' cs' o Hi Hq]; simpl in *.
  - destruct (plays_step spawn fresh p p' l l' t _ ls ls' Hp) as (t' & Hp' & [Hcount Hgrows Hline Hlater]);
      [|done|].
    { intros i ln Hi. by apply (talks_agree i _ ln), Hls. }
    exists t'. cbn [lines caller caller_state]. split_and!; [done|lia| |].
    + intros i ln' Hi. destruct (Hline i ln' Hi) as [(Hle & -> & ->)|(ln & o & Hln & Ht & Hst & Hto & Ha)].
      * apply lookup_lt_Some in Hi. apply Hnew. lia.
      * destruct (Hls i ln Hln) as (ts & Hts & Hc). exists ts. rewrite Ht, Hst, Hto.
        split; [done|]. by eapply completes_client.
    + intros i Hi. rewrite (Hlater i) by lia. apply Hnew. lia.
  - exists t. cbn [lines caller caller_state]. rewrite length_insert. split_and!; [|done| |done].
    + rewrite (list_fmap_insert writable). simpl. rewrite list_insert_id; [done|].
      by rewrite list_lookup_fmap, Hi.
    + intros j ln Hj. destruct (decide (i = j)) as [<-|Hne].
      * rewrite list_lookup_insert_eq in Hj by by eapply lookup_lt_Some. simplify_eq.
        destruct (talks_agree _ _ _ (Hls _ _ Hi)) as (_ & ts & Hts & Hag & Hc); simpl in *.
        eapply acts_pstep in Hq as (ts' & Hts' & Ha); [|done..].
        exists ts'. split; [done|]. by eapply completes_server.
      * rewrite list_lookup_insert_ne in Hj by done. auto.
Qed.
Lemma each_or_one {X} (P Q : nat → X → Prop) (xs : list X) :
  (∀ i x, xs !! i = Some x → P i x ∨ Q i x) →
  (∀ i x, xs !! i = Some x → P i x) ∨ ∃ i x, xs !! i = Some x ∧ Q i x.
Proof using Type.
  revert P Q. induction xs as [|y xs IH]; intros P Q H; [by left|].
  destruct (H 0 y eq_refl) as [Hy|Hy]; [|right; by exists 0, y].
  destruct (IH (λ i, P (S i)) (λ i, Q (S i)) (λ i, H (S i))) as [Hall|(i & x & Hi & Hx)].
  - left. intros [|i] x Hi; simplify_eq/=; auto.
  - right. by exists (S i), x.
Qed.

(** A task that has nothing to wait for. *)
Lemma task_cases i t ln :
  talks_on i t ln → hungry (from_task ln) t ∨ t = [] →
  (t = [] ∧ hung_up i ln) ∨
  ∃ q' k' cs' o, pstep (task ln) (task_state ln) (to_task ln) q' k' cs' o.
Proof using Type.
  intros (_ & ts & Hts & Hag & Hc)%talks_agree Ht.
  destruct (acts_cases _ _ _ _ _ Hts Hag) as [(b & Hb & -> & HQ)|[Hs|(_ & Hh)]]; [left|by right|].
  - destruct Ht as [Hh| ->]; [by destruct (completes_client_waits _ _ _ Hc Hh); left|].
    split; [done|]. apply completes_done in Hc as (_ & Hto & Hfrom). split_and!; [by exists b|done|done].
  - destruct Ht as [Hh'| ->]; [by destruct (completes_client_waits _ _ _ Hc Hh'); right|].
    by apply completes_server_waits in Hc as (_ & _ & ?).
Qed.

Lemma task_red p l ls i ln q' k' cs' o :
  ls !! i = Some ln → pstep (task ln) (task_state ln) (to_task ln) q' k' cs' o →
  red (lstep spawn fresh) (Calls p l ls : calls).
Proof using Type. intros Hi Hs. destruct ln. eexists. by eapply lstep_task. Qed.

Lemma calling_progress c :
  calling c → (nf (lstep spawn fresh) c ∧ all_ended c) ∨ red (lstep spawn fresh) c.
Proof using Type.
  destruct c as [p l ls]. intros (t & Hp & Hn & Hls & Hnew); simpl in *.
  destruct (plays_cases spawn fresh p l t _ ls Hp)
    as [(a & -> & -> & Ha)|[(p' & l' & ls' & Hs)|(i & ln & Hi & Hh)]].
  { intros i ln Hi. by apply (talks_agree i _ ln), Hls. }
  - destruct (each_or_one hung_up (λ i ln, ∃ q' k' cs' o,
        pstep (task ln) (task_state ln) (to_task ln) q' k' cs' o) ls) as [Hall|(i & ln & Hi & Hs)].
    { intros i ln Hi. destruct (task_cases i [] ln) as [[_ ?]|?]; auto; by apply Hls. }
    + left. simpl in Hn. split; [|split_and!; [by exists a|simpl; lia|done]].
      intros [c' Hs]. inversion Hs as [? ? ? ? ? ? Hc|? ? ? i q k cs sc w q' k' cs' o Hi Hq]; subst; [done|].
      destruct (Hall _ _ Hi) as ((b & Hb & _) & _). simpl in Hb. by subst.
    + right. destruct Hs as (q' & k' & cs' & o & Hs). by eapply task_red.
  - right. eexists. by apply lstep_caller.
  - right. destruct (task_cases _ _ _ (Hls i ln Hi)) as [[Ht _]|(q' & k' & cs' & o & Hs)]; [by left| |].
    + destruct Hh as ([|m ms] & t' & Ht' & Hl); [simpl in Hl; lia|]. by rewrite Ht in Ht'.
    + by eapply task_red.
Qed.

(** Every run is finite; wherever it has got, it can get to the end; and if it can go
    no further, that is the end. *)
Definition settles (c : calls) : Prop :=
  sn (lstep spawn fresh) c ∧
  (∀ c', rtc (lstep spawn fresh) c c' →
     ∃ f, rtc (lstep spawn fresh) c' f ∧ nf (lstep spawn fresh) f ∧ all_ended f) ∧
  (∀ c', rtc (lstep spawn fresh) c c' → nf (lstep spawn fresh) c' → all_ended c').

Lemma calling_settles c : calling c → settles c.
Proof using Type.
  intros Hcall.
  assert (Hinv : ∀ c', rtc (lstep spawn fresh) c c' → calling c').
  { intros c' Hs. induction Hs; eauto using calling_step. }
  split_and!; [apply lines_terminate| |].
  - intros c' Hc'%Hinv. clear Hcall Hinv. pose proof (lines_terminate spawn fresh c') as Hsn.
    induction Hsn as [c' _ IH]. destruct (calling_progress c' Hc') as [[Hnf He]|[c'' Hs]].
    + by exists c'.
    + destruct (IH c'' Hs) as (f & Hf & Hend); [by eapply calling_step|].
      exists f. split; [by eapply rtc_l|done].
  - intros c' Hc'%Hinv Hnf. by destruct (calling_progress c' Hc') as [[_ ?]|?].
Qed.

(** A client before its first connection. *)
Definition calls_from (p : io E A) (l : L) : calls := Calls p l [].

(** Traces that complete line by line. *)
Lemma lines_complete p l t :
  plays p l [] t (λ a l _, Qa a l) → dials t = n →
  (∀ i, i < n → ∃ ts, acts (spawn i) fresh ts (Qb i) ∧
     completes (left i) [] (Traces (only i t) ts [] [])) →
  settles (calls_from p l).
Proof using Type.
  intros Hp Hn Hts. apply calling_settles. exists t. split_and!; [done..| |].
  - by intros i ln Hi.
  - intros i [_ Hi]. by apply Hts.
Qed.

(** Programs that act out a dialogue on every line. *)
Lemma lines_dialogues p l t :
  plays p l [] t (λ a l _, Qa a l) → dials t = n →
  (∀ i, i < n → ∃ G, only i t ++ map In (left i) = view_client G ∧
     acts (spawn i) fresh (view_server G) (Qb i)) →
  settles (calls_from p l).
Proof using Type.
  intros Hp Hn HG. eapply lines_complete; [exact Hp|done|]. intros i Hi.
  destruct (HG i Hi) as (G & HcG & HsG). exists (view_server G). split; [done|].
  rewrite <-(app_nil_r (view_server G)). by apply completes_dialogue.
Qed.
End talk.

#[global] Arguments plays : simpl never.
