(* ===== verification/Parties.v ===== *)
(** The client's calls as programs on the lines of [Lines], and the connection task of
    the server at the other end of one.

    The local state of a client is its cells.  Its mutexes are free when they are
    asked for, and the task that [start_ping_task] may spawn gets no turn; the runs in
    which they contend are those of [Threads].  Set-up succeeds: the server accepts
    every connection, and both ends the handshake; a TLS stream is on the line of the
    stream it was made of.  A connection is dropped when the cell that holds it is
    overwritten.

    The connection task waits for its peer and its handler; a shutdown signal that
    is foretold comes after what it races. *)
From S2P Require Import Prelude Errors ProtocolStructs Vec Headers TimeoutConfig IO Method Common.
From S2P Require Import Duet Follows Transport ServerTL ServerTLS ProtocolHandler Ping Runtime.
From S2P Require Import ConnectionHandler ClientTL ClientTLS ClientState EndToEnd Serving Lines.
From stdpp Require Import options.

(** * The client *)

Implicit Types (sh : shared) (b : list bool).

(** The connection that is gone when the cell of the stream gets [v]. *)
Definition dropped (v : option stream) sh : upkeep :=
  match s_stream sh with
  | Some s => if decide (v = Some s) then Nothing else Drops s
  | None => Nothing
  end.

Definition lock_tends {X} (e : lockE X) sh : upkeep :=
  match e with
  | Put c v =>
    match c in cell T return T → upkeep with
    | CStream => λ v, dropped v sh
    | _ => λ _, Nothing
    end v
  | _ => Nothing
  end.

(** What is answered when there are [n] connections. *)
Definition connE_here {X} (e : connE X) (n : nat) : X → Prop :=
  match e in connE X return X → Prop with
  | TcpConnect _ => λ x, x = Ok (N.of_nat n)
  | SetTcpKeepalive _ _ _ | SetKeepalive _ _ => λ _, True
  | TlsBuild _ => λ x, x = Ok tt
  | TlsConnect _ s => λ x, x = Ok s
  end.

#[export] Instance client_caller : Caller clientE shared := {|
  on_line _ e := match e with inr1 (inl1 e) => Some e | _ => None end;
  here _ e n sh x sh' :=
    match e with
    | inl1 e => x = (lock_answer e sh).1 ∧ sh' = (lock_answer e sh).2
    | inr1 (inl1 _) => False
    | inr1 (inr1 (inl1 _)) | inr1 (inr1 (inr1 (inl1 _))) => sh' = sh
    | inr1 (inr1 (inr1 (inr1 e))) => connE_here e n x ∧ sh' = sh
    end;
  tends _ e sh :=
    match e with
    | inl1 e => lock_tends e sh
    | inr1 (inr1 (inr1 (inr1 (TcpConnect _)))) => Dials
    | _ => Nothing
    end;
|}.

#[export] Instance client_on_line : OnLine clientE shared.
Proof. done. Qed.

Section client.

Lemma plays_silent {X} (e : clientE X) sh b (Q : X → shared → list bool → Prop) :
  on_line e = None → tends e sh = Nothing → (∃ x sh', here e (length b) sh x sh') →
  (∀ x sh', here e (length b) sh x sh' → Q x sh' b) → plays (Vis e Ret) sh b [] Q.
Proof.
  intros He Hn Hex HQ. pose proof (plays_local e sh b Q He Hex) as Hp. rewrite Hn in Hp.
  by apply Hp.
Qed.

Lemma plays_mutex {X} (e : lockE X) sh b (Q : X → shared → list bool → Prop) :
  lock_tends e sh = Nothing → Q (lock_answer e sh).1 (lock_answer e sh).2 b →
  plays (trigger e : io clientE X) sh b [] Q.
Proof. intros Hn HQ. apply plays_silent; [done..|by eexists _, _|]. by intros x sh' [-> ->]. Qed.

Lemma plays_lock {T} (c : cell T) sh b (Q : T → shared → list bool → Prop) :
  Q (get c sh) sh b → plays (lock c) sh b [] Q.
Proof. intros HQ. by apply plays_mutex. Qed.

Lemma plays_try_lock {T} (c : cell T) sh b (Q : option T → shared → list bool → Prop) :
  Q (Some (get c sh)) sh b → plays (try_lock c) sh b [] Q.
Proof. intros HQ. by apply plays_mutex. Qed.

Lemma plays_unlock {T} (c : cell T) sh b (Q : unit → shared → list bool → Prop) :
  Q tt sh b → plays (unlock c) sh b [] Q.
Proof. intros HQ. by apply plays_mutex. Qed.

(** A cell other than the one of the stream. *)
Class Plain {T} (c : cell T) : Prop := plain v sh : lock_tends (Put c v) sh = Nothing.
#[global] Instance plain_last_activity : Plain CLastActivity. Proof. done. Qed.
#[global] Instance plain_in_flight : Plain CInFlight. Proof. done. Qed.
#[global] Instance plain_task_handle : Plain CTaskHandle. Proof. done. Qed.
#[global] Instance plain_should_stop : Plain CShouldStop. Proof. done. Qed.
#[global] Instance plain_config : Plain CConfig. Proof. done. Qed.
#[global] Instance plain_timeout_config : Plain CTimeoutConfig. Proof. done. Qed.

Lemma plays_put {T} (c : cell T) `{!Plain c} v sh b (Q : unit → shared → list bool → Prop) :
  Q tt (set c v sh) b → plays (put c v) sh b [] Q.
Proof. intros HQ. apply plays_mutex; [apply plain|done]. Qed.

Lemma plays_put_stream v sh b (Q : unit → shared → list bool → Prop) :
  Q tt (set CStream v sh) (book_after (dropped v sh) b) →
  plays (put CStream v) sh b (moves (dropped v sh) b) Q.
Proof.
  intros HQ. refine (plays_local (E := clientE) (inl1 (Put CStream v)) sh b Q eq_refl _ _);
    [by eexists _, _|]. by intros x sh' [-> ->].
Qed.

Lemma plays_now sh b (Q : Instant → shared → list bool → Prop) :
  (∀ t, Q t sh b) → plays now sh b [] Q.
Proof. intros HQ. apply plays_silent; [done..|by exists 0%N, sh|]. by intros t sh' ->. Qed.

Lemma plays_sleep d sh b (Q : unit → shared → list bool → Prop) :
  Q tt sh b → plays (sleep d) sh b [] Q.
Proof. intros HQ. apply plays_silent; [done..|by exists tt, sh|]. by intros [] sh' ->. Qed.

Lemma plays_spawn sh b (Q : task_id → shared → list bool → Prop) :
  (∀ task, Q task sh b) → plays (trigger Spawn : io clientE _) sh b [] Q.
Proof. intros HQ. apply plays_silent; [done..|by exists 0%N, sh|]. by intros t sh' ->. Qed.

Lemma plays_abort task sh b (Q : unit → shared → list bool → Prop) :
  Q tt sh b → plays (trigger (Abort task) : io clientE _) sh b [] Q.
Proof. intros HQ. apply plays_silent; [done..|by exists tt, sh|]. by intros [] sh' ->. Qed.

(** Set-up, on a connection that is there. *)
Lemma plays_connE {X} (e : connE X) sh b (Q : X → shared → list bool → Prop) :
  (∀ n, tends (inr1 (inr1 (inr1 (inr1 e))) : clientE X) n = Nothing) →
  (∃ x, connE_here e (length b) x) → (∀ x, connE_here e (length b) x → Q x sh b) →
  plays (trigger e : io clientE X) sh b [] Q.
Proof.
  intros Hn [x Hx] HQ. apply plays_silent; [done|apply Hn|by exists x, sh|].
  intros y sh' [Hy ->]. by apply HQ.
Qed.

Lemma plays_dial a sh b (Q : result stream io_error → shared → list bool → Prop) :
  Q (Ok (N.of_nat (length b))) sh (b ++ [true]) →
  plays (trigger (TcpConnect a) : io clientE _) sh b [Dial] Q.
Proof.
  intros HQ. refine (plays_local (E := clientE) (inr1 (inr1 (inr1 (inr1 (TcpConnect a))))) sh b Q
    eq_refl _ _); [by eexists _, sh|]. by intros x sh' [-> ->].
Qed.

Lemma plays_shutdown s sh b (Q : result unit io_error → shared → list bool → Prop) :
  b !! N.to_nat s = Some true → Q (Ok tt) sh (<[N.to_nat s := false]> b) →
  plays (Common.shutdown s) sh b (on s [Out Eof]) Q.
Proof. intros Hb HQ. split; [done|]. by exists []. Qed.
End client.

(** Follow a program of the client event by event, by the rule for its head. *)
Ltac prule :=
  match goal with
  | |- plays (mbind _ _) _ _ _ _ => apply plays_then
  | |- plays (fmap _ _) _ _ _ _ => apply plays_then
  | |- plays (lock _) _ _ _ _ => apply plays_lock
  | |- plays (try_lock _) _ _ _ _ => apply plays_try_lock
  | |- plays (put CStream _) _ _ _ _ => fail 1
  | |- plays (put _ _) _ _ _ _ => apply plays_put; [apply _|]
  | |- plays (unlock _) _ _ _ _ => apply plays_unlock
  | |- plays now _ _ _ _ => apply plays_now; intros
  | |- plays (sleep _) _ _ _ _ => apply plays_sleep
  | |- plays (trigger Spawn) _ _ _ _ => apply plays_spawn; intros
  | |- plays (trigger (Abort _)) _ _ _ _ => apply plays_abort
  | |- plays (mret _) _ _ _ _ => apply plays_ret
  | |- plays (Ret _) _ _ _ _ => apply plays_ret
  end; cbv beta iota.
Ltac prun := repeat first [prule | progress (cbv zeta)].

Section cells.

Lemma plays_load {T} (c : cell T) sh b (Q : T → shared → list bool → Prop) :
  Q (get c sh) sh b → plays (load c) sh b [] Q.
Proof. intros HQ. unfold load. by prun. Qed.

Lemma plays_store {T} (c : cell T) `{!Plain c} v sh b (Q : unit → shared → list bool → Prop) :
  Q tt (set c v sh) b → plays (store c v) sh b [] Q.
Proof. intros HQ. unfold store. by prun. Qed.

Lemma plays_store_stream v sh b (Q : unit → shared → list bool → Prop) :
  Q tt (set CStream v sh) (book_after (dropped v sh) b) →
  plays (store CStream v) sh b (moves (dropped v sh) b) Q.
Proof.
  intros HQ. unfold store. apply plays_then, plays_lock. rewrite <-(app_nil_r (moves _ _)).
  apply (plays_bind (put CStream v)), plays_put_stream. by prun.
Qed.

Lemma plays_stop_ping_task sh b (Q : unit → shared → list bool → Prop) :
  Q tt (stopped sh) b → plays PingState.stop_ping_task sh b [] Q.
Proof.
  intros HQ. unfold PingState.stop_ping_task. prun.
  destruct sh as [st la u [task|] stop cfg tc]; cbn [get set s_task_handle]; by prun.
Qed.

Lemma plays_touch_activity sh b (Q : unit → shared → list bool → Prop) :
  (∀ t, Q tt (set CLastActivity t sh) b) → plays PingState.touch_activity sh b [] Q.
Proof. intros HQ. unfold PingState.touch_activity. by prun. Qed.

Lemma plays_is_enabled sh b (Q : bool → shared → list bool → Prop) :
  Q (PingConfig.enabled (s_config sh)) sh b → plays PingState.is_enabled sh b [] Q.
Proof. intros HQ. unfold PingState.is_enabled. apply plays_then, plays_load. by prun. Qed.

Lemma plays_start_ping_task sh b (Q : unit → shared → list bool → Prop) :
  (if PingConfig.enabled (s_config sh) then ∀ task, Q tt (started task sh) b else Q tt sh b) →
  plays PingState.start_ping_task sh b [] Q.
Proof.
  intros HQ. unfold PingState.start_ping_task. prun. apply plays_is_enabled.
  destruct (PingConfig.enabled _); cbn [negb]; [|by prun].
  prun. apply plays_store; [apply _|]. prun. apply HQ.
Qed.
End cells.

(** * Connections *)

(** The client is connected on [cur], if at all, and has made [n] connections. *)
Record standing sh b (cur : option stream) (n : nat) : Prop := {
  stands_on : s_stream sh = cur;
  stands_at : length b = n;
  stands_open s : cur = Some s → b !! N.to_nat s = Some true;
}.

(** What the server of the connection in place sees when that is dropped. *)
Definition hangs_up (cur : option stream) : list move :=
  from_option (λ s, on s [Out Eof]) [] cur.

Lemma standing_cells sh sh' b cur n :
  standing sh b cur n → s_stream sh' = s_stream sh → standing sh' b cur n.
Proof. intros [Hs Hb Ho] He. split; [congruence|done..]. Qed.

(** A drop of the connection in place, for nothing or for a new one. *)
Lemma standing_moves v sh b cur n :
  standing sh b cur n → v ≠ cur ∨ cur = None →
  moves (dropped v sh) b = hangs_up cur.
Proof.
  intros [Hs _ Ho] Hv. unfold dropped. rewrite Hs. destruct cur as [s|]; [|done].
  rewrite decide_False by (destruct Hv; congruence). simpl. by rewrite decide_True by auto.
Qed.

Lemma standing_dropped sh b cur n :
  standing sh b cur n → standing (set CStream None sh) (book_after (dropped None sh) b) None n.
Proof.
  intros [Hs Hb _]. split; [done| |done].
  unfold dropped. rewrite Hs. destruct cur; simpl; [by rewrite length_alter|done].
Qed.

(** The new connection of a client that has dialled. *)
Lemma standing_new sh b cur n :
  standing sh b cur n →
  let st := N.of_nat n in
  moves (dropped (Some st) sh) (b ++ [true]) = hangs_up cur ∧
  standing (set CStream (Some st) sh) (book_after (dropped (Some st) sh) (b ++ [true])) (Some st) (S n).
Proof.
  intros [Hs Hb Ho] st. assert (∀ s, cur = Some s → N.to_nat s < n) as Hlt.
  { intros s Hcur%Ho%lookup_lt_Some. lia. }
  unfold dropped. rewrite Hs. destruct cur as [s|].
  - specialize (Hlt s eq_refl). rewrite decide_False by (unfold st; intros [= Heq]; lia).
    simpl. rewrite lookup_app_l, (Ho s), decide_True by (done || lia). split; [done|].
    split; [done|rewrite length_alter, length_app; simpl; lia|].
    intros s' [= <-]. unfold st. rewrite Nat2N.id, list_lookup_alter_ne by lia.
    subst n. by rewrite lookup_app_r, Nat.sub_diag by lia.
  - split; [done|]. split; [done|simpl; rewrite length_app; simpl; lia|].
    intros s' [= <-]. unfold st. rewrite Nat2N.id. simpl. subst n.
    by rewrite lookup_app_r, Nat.sub_diag by lia.
Qed.

(** A connection attempt that gets through. *)
Definition connects (p : io clientE (Result unit)) : Prop :=
  ∀ sh b cur n, standing sh b cur n →
    plays p sh b (Dial :: hangs_up cur)
      (λ r sh' b', r = Ok tt ∧ standing sh' b' (Some (N.of_nat n)) (S n)).

Section connect.

(** The part of [established] both clients share. *)
Lemma plays_publish (ka : bool) sh b cur n :
  let st := N.of_nat n in
  standing sh b cur n →
  plays (store CStream (Some st);;
    PingState.stop_ping_task;;
    enabled ← (if ka then PingState.is_enabled else mret false);
    (if (enabled : bool) then PingState.start_ping_task else mret tt);;
    mret (M := io clientE) (Ok (E := Error) tt)) sh (b ++ [true]) (hangs_up cur)
    (λ r sh' b', r = Ok tt ∧ standing sh' b' (Some st) (S n)).
Proof.
  intros st Hst. destruct (standing_new sh b cur n Hst) as [Hm Hnew]. rewrite <-Hm, <-(app_nil_r (moves _ _)).
  eapply (plays_bind (store CStream (Some st))), plays_store_stream.
  prun. apply plays_stop_ping_task.
  set (sh1 := stopped _). assert (s_stream sh1 = Some st) as Hsh1 by done. clearbody sh1.
  assert (∀ sh', s_stream sh' = s_stream sh1 →
    standing sh' (book_after (dropped (Some st) sh) (b ++ [true])) (Some st) (S n)) as Hdone.
  { intros sh' He. eapply standing_cells; [exact Hnew|]. by rewrite He. }
  destruct ka; prun; [|auto]. apply plays_is_enabled.
  destruct (PingConfig.enabled (s_config sh1)) eqn:He; prun; [|auto].
  apply plays_start_ping_task. rewrite He. intros task. prun. auto.
Qed.

Lemma plays_socket_options_tl s st sh b (Q : unit → shared → list bool → Prop) :
  Q tt sh b → plays (ClientTL.set_socket_options s st) sh b [] Q.
Proof.
  intros HQ. unfold ClientTL.set_socket_options.
  destruct (ClientTL.keep_alive s); [|by prun].
  destruct (TimeoutConfig.keep_alive _) as [ka|]; prun;
    (apply plays_connE; [done|by exists (Ok tt)|intros; by prun]).
Qed.

(** A body under the total deadline: [timeout(connect_total, body)]. *)
Lemma connects_total d (body : io clientE (Result unit)) e :
  connects body →
  connects (r ← timeout d body; match r with Some r => mret r | None => mret (Err e) end).
Proof.
  intros Hb sh b cur n Hst. rewrite <-(app_nil_r (Dial :: _)).
  apply (plays_bind (timeout d body)), plays_timeout.
  eapply plays_impl; [|by apply Hb]. intros r sh' b' H. by prun.
Qed.

Lemma plays_cons {A C} (p : io clientE A) (f : A → io clientE C) sh b m t Q :
  plays p sh b [m] (λ a sh' b', plays (f a) sh' b' t Q) → plays (p ≫= f) sh b (m :: t) Q.
Proof. apply (plays_bind p f sh b [m] t). Qed.

Lemma connects_tl s : connects (ClientTL.connect s).
Proof.
  apply connects_total. intros sh b cur n Hst.
  unfold ClientTL.connect_fuel. cbn [ClientTL.connect_loop].
  rewrite decide_True by (unfold DEFAULT_MAX_CONNECT_RETRIES; lia).
  apply plays_cons, plays_timeout, plays_dial. rewrite (stands_at _ _ _ _ Hst).
  unfold ClientTL.established. apply plays_then, plays_socket_options_tl. by apply plays_publish.
Qed.

Lemma connects_tls s : ClientTLS.domain_unset s = false → connects (ClientTLS.connect s).
Proof.
  unfold ClientTLS.domain_unset, ClientTLS.connect. intros ->. apply connects_total.
  intros sh b cur n Hst.
  unfold ClientTLS.connect_body, ClientTLS.connect_fuel.
  apply plays_then, plays_connE; [done|by exists (Ok tt)|]. intros x ->. cbn [ClientTLS.connect_loop].
  rewrite decide_True by (unfold DEFAULT_MAX_CONNECT_RETRIES; lia).
  apply plays_cons, plays_timeout, plays_dial. rewrite (stands_at _ _ _ _ Hst).
  unfold ClientTLS.established. apply plays_then, (plays_socket_options_tl (ClientTLS.as_tl s)).
  apply plays_then, plays_connE; [done|by eexists|]. intros x ->. by apply plays_publish.
Qed.
End connect.

(** * The setters *)

Section setters.

(** What [set_keep_alive] does to the cells, in both clients. *)
Lemma plays_keep_alive {C} (enabled ka : bool) (c : C) sh b cur n (Q : C → shared → list bool → Prop) :
  standing sh b cur n →
  (∀ sh' b', standing sh' b' (if negb enabled && ka then None else cur) n → Q c sh' b') →
  plays ((if negb enabled && ka then PingState.stop_ping_task;; store CStream None else mret tt);;
    config ← lock CConfig;
    put CConfig (PingConfig.mk (PingConfig.interval config)
      (enabled && (ZERO <? PingConfig.interval config)%N));;
    unlock CConfig;;
    mret (M := io clientE) c) sh b (if negb enabled && ka then hangs_up cur else []) Q.
Proof.
  intros Hst HQ. destruct (negb enabled && ka); [|prun; by eapply HQ, standing_cells].
  assert (standing (stopped sh) b cur n) as Hst' by by eapply standing_cells.
  rewrite <-(app_nil_r (hangs_up _)). eapply (plays_bind (PingState.stop_ping_task;; _)).
  apply plays_then, plays_stop_ping_task.
  rewrite <-(standing_moves None _ _ _ _ Hst') by (destruct cur; [by left|by right]).
  apply plays_store_stream. prun. eapply HQ, standing_cells; [by eapply standing_dropped|done].
Qed.

(** A configuration the setters accept. *)
Definition accepted_config (c : TimeoutConfig.t) : Prop :=
  TimeoutConfig.validate (TimeoutConfig.with_ping_interval (TimeoutConfig.ping_interval c) c) = Ok tt.

Lemma plays_set_timeout_config_tl c s sh b cur n (Q : ClientTL.t * Result unit → shared → list bool → Prop) :
  accepted_config c → standing sh b cur n →
  (∀ config sh', standing sh' b cur n →
     Q (ClientTL.mk (ClientTL.address s) (ClientTL.command_has_answer s) (ClientTL.buffer s)
          (ClientTL.max_buffer_size s) config (ClientTL.keep_alive s), Ok tt) sh' b) →
  plays (ClientTL.set_timeout_config c s) sh b [] Q.
Proof.
  unfold accepted_config, ClientTL.set_timeout_config. intros -> Hst HQ. prun.
  apply plays_store; [apply _|]. prun. by eapply HQ, standing_cells.
Qed.

Lemma plays_set_timeout_config_tls c s sh b cur n (Q : ClientTLS.t * Result unit → shared → list bool → Prop) :
  accepted_config c → standing sh b cur n →
  (∀ config sh', standing sh' b cur n →
     Q (ClientTLS.mk (ClientTLS.accept_invalid_certs s) (ClientTLS.address s) (ClientTLS.domain s)
          (ClientTLS.command_has_answer s) (ClientTLS.buffer s) (ClientTLS.max_buffer_size s)
          config (ClientTLS.keep_alive s), Ok tt) sh' b) →
  plays (ClientTLS.set_timeout_config c s) sh b [] Q.
Proof.
  unfold accepted_config, ClientTLS.set_timeout_config. intros -> Hst HQ. prun.
  apply plays_store; [apply _|]. prun. by eapply HQ, standing_cells.
Qed.
End setters.

(** * Requests and the end of a session *)

(** An exchange stays on its connection. *)
Lemma uses_read_loop fuel s n buf : uses s (read_loop fuel s n buf : io netE _).
Proof.
  revert buf. induction fuel as [|fuel IH]; intros buf; simpl; [done|].
  case_decide; [|done]. simpl. split_and!; [done..|]. intros [[|x bs]|e]; [done| |done]. apply IH.
Qed.

Ltac stays :=
  match goal with
  | |- uses _ (io_bind _ _) => apply uses_bind; [|intros]; stays
  | |- uses _ (mbind (M := io _) _ _) => apply uses_bind; [|intros]; stays
  | |- uses _ (fmap (M := io _) _ _) => apply uses_bind; [|intros]; stays
  | |- uses _ (Ret _) => exact I
  | |- uses _ (read_exact_or_closed _ _) => apply uses_read_loop
  | |- uses _ (Vis _ _) => split_and!; [done..|intros; stays]
  | |- uses _ (Timeout _ _ _) => split; [|intros]; stays
  | |- uses _ (if ?b then _ else _) => destruct b; stays
  | |- uses _ (match ?b with _ => _ end) => destruct b; stays
  | |- uses _ ((match ?b with _ => _ end) _) => destruct b; stays
  | |- uses _ (let _ := _ in _) => cbv zeta; stays
  | |- uses _ ?p => let p' := eval red in p in change p with p'; cbv beta; stays
  end.

Lemma exchange_uses_tl st command data c : uses st (ClientTL.exchange st command data c).
Proof. stays. Qed.

Lemma exchange_uses_tls st command data c : uses st (ClientTLS.exchange st command data c).
Proof. stays. Qed.

(** The connection of the next request of a client connected on [cur] that has made [n]
    connections, what it does to have it, and how many there are then. *)
Definition line_of (ka : bool) (cur : option stream) (n : nat) : stream :=
  match cur, ka with Some s, true => s | _, _ => N.of_nat n end.
Definition opening (ka : bool) (cur : option stream) (n : nat) : list move :=
  match cur, ka with Some _, true => [] | _, _ => Dial :: hangs_up cur end.
Definition lines_after (ka : bool) (cur : option stream) (n : nat) : nat :=
  match cur, ka with Some _, true => n | _, _ => S n end.

(** A call that failed drops its connection. *)
Definition closing {A} (r : Result A) : list act := if is_ok r then [] else [Out Eof].

Lemma plays_request {S} (ka : bool) (connect : io clientE (Result unit)) (s : S)
    (xchg : stream → io netE (S * Result (list byte))) (e : Error) sh b cur n t (good : S → Prop) r :
  connects connect → standing sh b cur n → (∀ st, uses st (xchg st)) →
  (∀ st, ∃ s', good s' ∧ follows (xchg st) t (s', r)) →
  plays (disconnected ← (if ka then is_none <$> load CStream else mret true);
     r ← (if (disconnected : bool) then connect else mret (Ok tt));
     match r with
     | Err e => mret (s, Err e)
     | Ok _ =>
       lock CInFlight;;
       stream_guard ← lock CStream;
       match stream_guard with
       | None => unlock CStream;; unlock CInFlight;; mret (s, Err e)
       | Some stream =>
         sr ← lift (xchg stream);
         match sr.2 with
         | Err _ => put CStream None;; PingState.stop_ping_task
         | Ok _ => PingState.touch_activity
         end;;
         unlock CStream;; unlock CInFlight;;
         mret (M := io clientE) sr
       end
     end) sh b (opening ka cur n ++ on (line_of ka cur n) (t ++ closing r))
    (λ a sh' b', ∃ s', a = (s', r) ∧ good s' ∧
       standing sh' b' (if is_ok r then Some (line_of ka cur n) else None) (lines_after ka cur n)).
Proof.
  intros Hc Hst Hu Hx. apply plays_then.
  assert (∀ Q : bool → shared → list bool → Prop, Q (negb ka || is_none cur) sh b →
    plays (if ka then is_none <$> load CStream else mret true) sh b [] Q) as Hload.
  { intros Q HQ. destruct ka; [|by prun]. prun. apply plays_load. prun. cbn [get].
    by rewrite (stands_on _ _ _ _ Hst). }
  apply Hload. clear Hload. apply plays_bind.
  eapply (plays_impl _ _ _ _ (λ (r : Result unit) sh' b', r = Ok tt ∧
    standing sh' b' (Some (line_of ka cur n)) (lines_after ka cur n))).
  { clear Hst. intros r' sh1 b1 [-> Hst]. prun. cbn [get]. rewrite (stands_on _ _ _ _ Hst).
    destruct (Hx (line_of ka cur n)) as (s' & Hgood & Hf). rewrite on_app.
    eapply plays_bind, plays_lift; [apply Hu|by apply Hst|].
    eapply acts_impl; [|exact Hf]. intros sr [] ->. cbn [snd]. destruct r as [a|x]; cbn [closing is_ok].
    - change (on _ []) with (@nil move). prun. apply plays_touch_activity. intros t'. prun. exists s'. split_and!; [done..|].
      by eapply standing_cells.
    - change (on _ [Out Eof]) with (hangs_up (Some (line_of ka cur n))).
      rewrite <-(standing_moves None _ _ _ _ Hst), <-(app_nil_r (moves _ _)) by by left.
      eapply (plays_bind (put CStream None;; _)). rewrite <-(app_nil_r (moves _ _)).
      eapply (plays_bind (put CStream None)), plays_put_stream. apply plays_stop_ping_task.
      prun. exists s'. split_and!; [done..|]. eapply standing_cells; [by eapply standing_dropped|done]. }
  unfold opening, line_of, lines_after. destruct cur as [st|], ka; simpl.
  - apply plays_ret. by split.
  - by apply (Hc sh b (Some st)).
  - by apply (Hc sh b None).
  - by apply (Hc sh b None).
Qed.

Lemma plays_disconnect sh b cur n :
  standing sh b cur n →
  plays ClientTL.disconnect sh b (hangs_up cur)
    (λ r sh' b', r = Ok tt ∧ standing sh' b' None n ∧ sh' = offline sh).
Proof.
  intros Hst. unfold ClientTL.disconnect. prun. apply plays_stop_ping_task.
  apply plays_then, plays_lock.
  change (get CStream (stopped sh)) with (s_stream sh). rewrite (stands_on _ _ _ _ Hst).
  destruct cur as [st|].
  - change (hangs_up (Some st)) with (on st [Out Eof] ++ []).
    pose proof (stands_open _ _ _ _ Hst st eq_refl) as Hb.
    apply (plays_bind (Common.shutdown st) _ _ _ (on st [Out Eof]) []), plays_shutdown; [done|].
    assert (moves (dropped None (stopped sh)) (<[N.to_nat st:=false]> b) = []) as Hm.
    { unfold dropped. rewrite (stands_on _ _ _ _ Hst : s_stream (stopped sh) = _). simpl.
      apply lookup_lt_Some in Hb. by rewrite list_lookup_insert_eq. }
    apply plays_then. rewrite <-Hm. apply plays_put_stream. rewrite Hm. prun.
    split_and!; [done| |done]. split; [done| |done].
    unfold dropped. rewrite (stands_on _ _ _ _ Hst : s_stream (stopped sh) = _). simpl.
    rewrite length_alter, length_insert. apply Hst.
  - apply plays_then, plays_ret. assert (s_stream (stopped sh) = None) as Hn by apply Hst.
    assert (moves (dropped None (stopped sh)) b = []) as Hm by (unfold dropped; by rewrite Hn).
    apply plays_then. rewrite <-Hm at 1. apply plays_put_stream. prun.
    split_and!; [done| |done]. split; [done| |done]. unfold dropped. rewrite Hn. apply Hst.
Qed.

(** * The connection task *)

#[export] Instance connection_party {P U} : Party (watchE +' sessionE P +' netE +' U) unit := {|
  wire _ e := match e with inr1 (inr1 (inl1 e)) => Some e | _ => None end;
  local X e _ x _ :=
    match e with
    | inl1 e =>
      match e in watchE X return X → Prop with
      | NextChange => λ _, True
      | Borrow => λ _, False
      end x
    | inr1 (inl1 e) =>
      match e in sessionE _ X return X → Prop with
      | TlsAccept _ => λ r, ∃ s, r = Ok s
      | Leftover _ => λ _, False
      end x
    | inr1 (inr1 _) => True
    end;
|}.

#[export] Instance connection_on_wire {P U} : OnWire (watchE +' sessionE P +' netE +' U) unit.
Proof. done. Qed.

#[export] Instance connection_quiet {P U} : Quiet U (watchE +' sessionE P +' netE +' U) unit.
Proof. split; [done|]. by intros X e [] x []. Qed.

Section connection.
Context {U : Type → Type} {H : Type} `{ProtocolCommandHandler U H} `{Allocator}.
Abbreviation protocol := (ProtocolHandler.t dyn_transport H).
Abbreviation connectionE := (watchE +' sessionE protocol +' netE +' U).
Implicit Types (tr : dyn_transport) (hd : H).

(** The race is won by the call. *)
Lemma follows_select {A} (p : io connectionE A) t a :
  follows p t a → follows (select_changed p) t (Some a).
Proof using Type.
  intros Hp. apply acts_then, acts_local; [done|by exists None, tt|]. intros [d|] [] _.
  - by apply follows_timeout.
  - rewrite <-(app_nil_r t). by eapply (follows_bind (E := connectionE)).
Qed.

(** One turn of the loop, by what the call answers. *)
Lemma follows_turn (p p' : protocol) r t :
  follows (ProtocolHandler.handle_next p : io connectionE _) t (p', r) →
  follows (ConnectionHandler.turn p) t (p', match r with Ok true => Continue | _ => Break end).
Proof using Type.
  intros Hp. unfold ConnectionHandler.turn. rewrite <-(app_nil_r t).
  eapply (follows_bind (E := connectionE)); [by apply follows_select|].
  by destruct r as [[|]|e].
Qed.

(** The client has closed its half. *)
Lemma follows_turn_closed tr hd :
  ∃ tr', follows (ConnectionHandler.turn (ProtocolHandler.new tr hd)) (view_server (closes Duet.Client))
    (ProtocolHandler.new tr' hd, Break).
Proof using Type.
  destruct (read_command_closed tr) as (tr' & _ & Hf). exists tr'.
  eapply follows_res; [by eapply follows_turn, ProtocolHandler.follows_handle_next_fails|done].
Qed.

(** The dialogue of requests with these answers. *)
Definition session_dialogue (reqs : list (N * list byte))
    (rs : list (Result (ResponseStatus * list byte))) : dialogue :=
  concat (zip_with (λ q r, ProtocolHandler.request_dialogue
    (RequestHeader.new q.1 (as_u32 (len q.2))) q.2 r) reqs rs).

(** The loop serves such a session up to its end, whatever fuel is left. *)
Lemma follows_connection rmax pmax hd reqs hd' rs :
  local_runs rmax pmax hd reqs hd' rs →
  ∀ tr fuel, limit tr = rmax → length reqs < fuel →
  ∃ tr', follows (ConnectionHandler.serve fuel (ProtocolHandler.new tr hd))
    (view_server (session_dialogue reqs rs ++ closes Duet.Client))
    (ProtocolHandler.new tr' hd', true).
Proof using Type.
  induction 1 as [hd|hd command data hd1 r reqs hd' rs Hadm Hrun [Hopen _] Hlen Hle _ IH];
    intros tr [|fuel] Hrm Hfuel; simpl in Hfuel; try lia; cbn [ConnectionHandler.serve].
  - destruct (follows_turn_closed tr hd) as (tr' & Hf). exists tr'.
    eapply follows_eq; [by eapply (follows_bind (E := connectionE)); [exact Hf|]|apply app_nil_r].
  - subst. destruct (handle_next_request (E := connectionE) tr hd command data _ _ Hadm Hrun)
      as (tr1 & Hlim & Hf%follows_turn).
    destruct (IH tr1 fuel) as (tr' & Hrest); [done|lia|]. exists tr'.
    unfold session_dialogue. cbn [zip_with concat fst snd].
    rewrite <-(assoc_L (++)), view_server_app.
    rewrite Hopen in Hf. by eapply (follows_bind (E := connectionE)).
Qed.

(** The limit that [ConnectionHandler] sets on the transport. *)
Definition connection_limit (c : ConnectionHandler.t) : N :=
  let max_buffer_size := ConnectionHandler.max_buffer_size c in
  if (0 <? max_buffer_size)%N then max_buffer_size else DEFAULT_MAX_BUFFER_SIZE.

(** The buffer can be reserved. *)
Definition reserves (c : ConnectionHandler.t) : Prop :=
  is_ok (ServerTL.set_max_buffer_size (ConnectionHandler.max_buffer_size c) (ServerTL.new 0 0)).2 = true.

Lemma follows_open_transport c st :
  reserves c →
  acts (ConnectionHandler.open_transport (H := H) c st : io connectionE _) tt []
    (λ r _, ∃ tr, r = Ok tr ∧ limit tr = connection_limit c).
Proof using Type.
  unfold reserves, ConnectionHandler.open_transport, connection_limit.
  unfold ServerTL.set_max_buffer_size, ServerTLS.set_max_buffer_size.
  cbn [ServerTL.new ServerTLS.new ServerTL.buffer ServerTLS.buffer].
  intros Hres. destruct (ConnectionHandler.tls_acceptor c).
  - apply acts_then, acts_local; [done|by eexists (Ok 0%N), tt; exists 0%N|].
    intros x [] [tls ->]. cbn [ServerTLS.new ServerTLS.buffer].
    destruct (Vec.try_reserve _ _) as [b [u|e]]; [|done]. split; [done|]. by eexists.
  - destruct (Vec.try_reserve _ _) as [b [u|e]]; [|done]. split; [done|]. by eexists.
Qed.

(** [ConnectionHandler::run], by what its loop does over any transport. *)
Lemma follows_task hd hd' c st fuel t :
  ConnectionHandler.stream c = Some st → reserves c →
  (∀ tr, limit tr = connection_limit c → ∃ tr',
    follows (ConnectionHandler.serve fuel (ProtocolHandler.new tr hd)) t (ProtocolHandler.new tr' hd', true)) →
  follows (ConnectionHandler.run fuel hd c) t
    (ConnectionHandler.mk None (ConnectionHandler.tls_acceptor c) (ConnectionHandler.max_buffer_size c),
     Some (Ok tt)).
Proof using Type.
  intros Hst Hres Hs. unfold ConnectionHandler.run. rewrite Hst.
  apply acts_then. eapply acts_impl; [|by apply follows_open_transport].
  intros r [] (tr & -> & Hlim). destruct (Hs tr Hlim) as (tr' & Hf).
  rewrite <-(app_nil_r t). eapply (follows_bind (E := connectionE)); [exact Hf|done].
Qed.

(** On a session that the client ends. *)
Lemma follows_run pmax hd reqs hd' rs c st fuel :
  ConnectionHandler.stream c = Some st → reserves c →
  local_runs (connection_limit c) pmax hd reqs hd' rs → length reqs < fuel →
  follows (ConnectionHandler.run fuel hd c)
    (view_server (session_dialogue reqs rs ++ closes Duet.Client))
    (ConnectionHandler.mk None (ConnectionHandler.tls_acceptor c) (ConnectionHandler.max_buffer_size c),
     Some (Ok tt)).
Proof using Type.
  intros Hst Hres Hl Hfuel. eapply follows_task; [done..|]. intros tr Hlim.
  by apply (follows_connection _ _ _ _ _ _ Hl).
Qed.
End connection.
