(* ===== verification/FullStack.v ===== *)
(** A client of the crate against its server, over any number of connections.

    [EndToEnd] is about the exchanges on a connection that is there.  Here the
    client is its public calls over the state it shares with the ping task, and the
    server is the tasks it spawns, [ConnectionHandler::run] for every connection: the
    client connects when it has to, with or without a handshake, sends its requests
    over the connections, gives up the ones that a refusal has spoilt, and disconnects;
    the tasks open their transports, serve them with a handler that may await anything,
    and end. *)
From S2P Require Import Prelude Errors ProtocolStructs Vec Headers TimeoutConfig IO Method Common.
From S2P Require Import Duet Follows Transport ServerTL ServerTLS ProtocolHandler Ping Runtime.
From S2P Require Import Capacity ConnectionHandler Server ClientTL ClientTLS ClientState EndToEnd Serving.
From S2P Require Import InFlight Lines Parties.
From stdpp Require Import options.

(** The same configuration, but for keep-alive. *)
Definition like {C} `{Client C} (c c' : C) : Prop :=
  waits_answer c' = waits_answer c ∧ response_limit c' = response_limit c ∧
  connectable c' = connectable c.

(** What the two clients promise: their public calls, over whatever cells they share. *)
Class ClientApi (C : Type) `{Client C} := {
  set_keep_alive : bool → C → io clientE C;
  set_timeout_config : TimeoutConfig.t → method clientE C Error unit;
  connect : C → io clientE (Result unit);
  handle_message : N → list byte → method clientE C Error (list byte);
  disconnect : C → io clientE (Result unit);

  (** Whether the connection is a TLS stream. *)
  secured : bool;

  set_keep_alive_ok enabled c sh b cur n :
    standing sh b cur n →
    let offline := negb enabled && reusable c in
    plays (set_keep_alive enabled c) sh b (if offline then hangs_up cur else [])
      (λ c' sh' b', like c c' ∧ reusable c' = enabled ∧
         standing sh' b' (if offline then None else cur) n);
  set_timeout_config_ok config c sh b cur n :
    accepted_config config → standing sh b cur n →
    plays (set_timeout_config config c) sh b [] (λ r sh' b', ∃ c', r = (c', Ok tt) ∧
      like c c' ∧ reusable c' = reusable c ∧ standing sh' b' cur n);
  connect_ok c : connectable c = true → connects (connect c);
  handle_message_ok c command data sh b cur n t r (good : C → Prop) :
    connectable c = true → standing sh b cur n →
    (∀ st, ∃ c', good c' ∧ follows (call st command data c) t (c', r)) →
    plays (handle_message command data c) sh b
      (opening (reusable c) cur n ++ on (line_of (reusable c) cur n) (t ++ closing r))
      (λ a sh' b', ∃ c', a = (c', r) ∧ good c' ∧
         standing sh' b' (if is_ok r then Some (line_of (reusable c) cur n) else None)
           (lines_after (reusable c) cur n));
  disconnect_ok c sh b cur n :
    standing sh b cur n →
    plays (disconnect c) sh b (hangs_up cur)
      (λ r sh' b', r = Ok tt ∧ standing sh' b' None n ∧ sh' = offline sh);
}.

#[export] Program Instance client_tl_api : ClientApi ClientTL.t := {|
  set_keep_alive := ClientTL.set_keep_alive;
  set_timeout_config := ClientTL.set_timeout_config;
  connect := ClientTL.connect;
  handle_message := ClientTL.handle_message;
  disconnect _ := ClientTL.disconnect;
  secured := false;
|}.
Next Obligation. intros enabled c sh b cur n Hst. eapply plays_keep_alive; [done|]. by intros. Qed.
Next Obligation.
  intros config c sh b cur n Hc Hst. eapply plays_set_timeout_config_tl; [done..|]. intros. by eexists.
Qed.
Next Obligation. intros c _. apply connects_tl. Qed.
Next Obligation.
  intros c command data sh b cur n t r good _ Hst Hx.
  apply (plays_request _ _ _ (λ st, ClientTL.exchange st command data c));
    [apply connects_tl|done|intros; apply exchange_uses_tl|done].
Qed.
Next Obligation. intros. by apply plays_disconnect. Qed.

#[export] Program Instance client_tls_api : ClientApi ClientTLS.t := {|
  set_keep_alive := ClientTLS.set_keep_alive;
  set_timeout_config := ClientTLS.set_timeout_config;
  connect := ClientTLS.connect;
  handle_message := ClientTLS.handle_message;
  disconnect _ := ClientTLS.disconnect;
  secured := true;
|}.
Next Obligation. intros enabled c sh b cur n Hst. eapply plays_keep_alive; [done|]. by intros. Qed.
Next Obligation.
  intros config c sh b cur n Hc Hst. eapply plays_set_timeout_config_tls; [done..|]. intros. by eexists.
Qed.
Next Obligation. intros c Hd%negb_true_iff. by apply connects_tls. Qed.
Next Obligation.
  intros c command data sh b cur n t r good Hd%negb_true_iff Hst Hx.
  apply (plays_request _ _ _ (λ st, ClientTLS.exchange st command data c));
    [by apply connects_tls|done|intros; apply exchange_uses_tls|done].
Qed.
Next Obligation. intros. by apply plays_disconnect. Qed.

(** The connection that a server makes of an accepted stream. *)
Definition connection_of {H} (s : Server.t H) (st : stream) : ConnectionHandler.t :=
  let c := ConnectionHandler.new st (Server.max_buffer_size s) in
  if Server.is_tls s && Server.tls_acceptor s then ConnectionHandler.set_tls_acceptor c else c.

Lemma accepted_connection {H} (s : Server.t H) factory st :
  Server.accepted s factory st = trigger (SpawnConnection (connection_of s st) (factory tt)).
Proof. done. Qed.

Lemma connection_of_stream {H} (s : Server.t H) st :
  ConnectionHandler.stream (connection_of s st) = Some st.
Proof. unfold connection_of. by case_match. Qed.

(** * Programs *)

Section session.
Context {C : Type} `{ClientApi C}.
Implicit Types (c : C).

(** The client's result of an answer. *)
Definition outcome_of (r : Result (ResponseStatus * list byte)) : Result (list byte) :=
  answered (C := C) (ProtocolHandler.reply_status r) (ProtocolHandler.reply_payload r).

(** One call after another, whatever they give. *)
Fixpoint attempts (reqs : list (N * list byte)) (c : C) :
    io clientE (C * list (Result (list byte))) :=
  match reqs with
  | [] => mret (c, [])
  | (command, data) :: reqs =>
    r ← handle_message command data c;
    rest ← attempts reqs r.1;
    mret (rest.1, r.2 :: rest.2)
  end.

(** A program that uses a client: its requests, then [disconnect]. *)
Definition client_program (reqs : list (N * list byte)) (c : C) :
    io clientE (C * list (Result (list byte)) * Result unit) :=
  '(c, rs) ← attempts reqs c; d ← disconnect c; mret (c, rs, d).

Lemma is_ok_outcome r : is_ok (outcome_of r) = bool_decide (ProtocolHandler.reply_status r = x01).
Proof using Type.
  unfold outcome_of. case_bool_decide as Hs; [by rewrite Hs, answered_ok|by apply answered_err].
Qed.

(** A call with a whole answer. *)
Lemma plays_message c command data r sh b cur n :
  waits_answer c = true → connectable c = true → standing sh b cur n → whole r →
  (len (ProtocolHandler.reply_payload r) < u32_modulus)%N →
  (len (ProtocolHandler.reply_payload r) <= response_limit c)%N →
  plays (handle_message command data c) sh b
    (opening (reusable c) cur n ++ on (line_of (reusable c) cur n)
      (view_client (ProtocolHandler.request_dialogue
        (RequestHeader.new command (as_u32 (len data))) data r) ++ closing (outcome_of r)))
    (λ a sh' b', ∃ c', a = (c', outcome_of r) ∧ (like c c' ∧ reusable c' = reusable c) ∧
       standing sh' b' (if is_ok (outcome_of r) then Some (line_of (reusable c) cur n) else None)
         (lines_after (reusable c) cur n)).
Proof using Type.
  intros Hans Hco Hst Hw Hlen Hle. apply handle_message_ok; [done..|]. intros st.
  destruct (call_replied st c command data r) as (c' & ? & ? & ? & ? & Hf); [done..|].
  exists c'. unfold like. split_and!; try congruence. exact Hf.
Qed.

(** * The specification *)

Context {U : Type → Type} {H' : Type} `{ProtocolCommandHandler U H'}.
Context (request_max response_max : N).

(** All that the client does on the [i]-th line from here on is the session of some of
    the requests with the handler [hd]. *)
Definition carries (k i : nat) (hd : H') (t : list move) : Prop :=
  ∃ reqs rs hd', local_runs request_max response_max hd reqs hd' rs ∧ length reqs ≤ k ∧
    only i t = view_client (session_dialogue reqs rs ++ closes Duet.Client).

Lemma carries_cons k s hd command data hd1 r t :
  admissible request_max command data → answers (run hd command data) (hd1, r) → whole r →
  (len (ProtocolHandler.reply_payload r) < u32_modulus)%N →
  (len (ProtocolHandler.reply_payload r) <= response_max)%N →
  (if is_ok (outcome_of r) then carries k (N.to_nat s) hd1 t else only (N.to_nat s) t = []) →
  carries (S k) (N.to_nat s) hd
    (on s (view_client (ProtocolHandler.request_dialogue
        (RequestHeader.new command (as_u32 (len data))) data r) ++ closing (outcome_of r)) ++ t).
Proof using Type.
  intros Hadm Hrun Hw Hlen Hle Ht.
  assert (∃ reqs rs hd', local_runs request_max response_max hd1 reqs hd' rs ∧ length reqs ≤ k ∧
    closing (outcome_of r) ++ only (N.to_nat s) t =
      view_client (session_dialogue reqs rs ++ closes Duet.Client)) as (reqs & rs & hd' & Hl & Hk & Heq).
  { unfold closing. destruct (is_ok _).
    - destruct Ht as (reqs & rs & hd' & ? & ? & ?). by exists reqs, rs, hd'.
    - exists [], [], hd1. split_and!; [constructor|simpl; lia|by rewrite Ht]. }
  exists ((command, data) :: reqs), (r :: rs), hd'. split_and!; [by econstructor|simpl; lia|].
  rewrite only_app, only_on, <-(assoc_L (++)), Heq. unfold session_dialogue at 2.
  cbn [zip_with concat fst snd]. by rewrite <-(assoc_L (++)), !view_client_app.
Qed.

Lemma carries_nothing k i hd t : only i t = [Out Eof] → carries k i hd t.
Proof using Type.
  intros Ht. exists [], [], hd. split_and!; [constructor|simpl; lia|by rewrite Ht].
Qed.

Lemma carries_le k k' i hd t : k ≤ k' → carries k i hd t → carries k' i hd t.
Proof using Type. intros Hk (reqs & rs & hd' & ? & ? & ?). exists reqs, rs, hd'. split_and!; [done|lia|done]. Qed.
Context (ka : bool) (handlers : nat → H').

(** What the requests are answered with when the handler of the [i]-th connection
    starts as [handlers i], from a connection in place and its handler, if there is
    one, and so many connections made.  Without keep-alive every request has its own
    connection; with keep-alive a new one is made after a refusal. *)
Inductive attended : option (stream * H') → nat → list (N * list byte) →
    list (Result (ResponseStatus * list byte)) → nat → Prop :=
| attended_nil cur n : attended cur n [] [] n
| attended_cons cur n command data hd1 r reqs rs m :
    let hd := match cur, ka with Some (_, hd), true => hd | _, _ => handlers n end in
    let s := line_of ka (fst <$> cur) n in
    admissible request_max command data → answers (run hd command data) (hd1, r) → whole r →
    (len (ProtocolHandler.reply_payload r) < u32_modulus)%N →
    (len (ProtocolHandler.reply_payload r) <= response_max)%N →
    attended (if bool_decide (ProtocolHandler.reply_status r = x01) then Some (s, hd1) else None)
      (lines_after ka (fst <$> cur) n) reqs rs m →
    attended cur n ((command, data) :: reqs) (r :: rs) m.

Lemma only_Dial i t : only i (Dial :: t) = only i t.
Proof using Type. done. Qed.

Lemma only_hangs_up i cur :
  only i (hangs_up cur) = if decide (N.to_nat <$> cur = Some i) then [Out Eof] else [].
Proof using Type.
  destruct cur as [s|]; [|done]. change (hangs_up (Some s)) with (on s [Out Eof]).
  cbn [fmap option_fmap option_map].
  case_decide as Hi; [injection Hi as <-; apply only_on|]. apply only_on_ne. congruence.
Qed.

Lemma carries_ext k i hd t t' : only i t = only i t' → carries k i hd t → carries k i hd t'.
Proof using Type. intros Ht (reqs & rs & hd' & ? & ? & ?). exists reqs, rs, hd'. split_and!; [done..|congruence]. Qed.

(** What there is on the lines from a state on: those to come, the one in place, and
    those that are over. *)
Definition lines_carry (k : nat) (cur : option (stream * H')) (n m : nat) (t : list move) : Prop :=
  (∀ i, n ≤ i < m → carries k i (handlers i) t) ∧
  (∀ s hd, cur = Some (s, hd) → carries k (N.to_nat s) hd t) ∧
  (∀ i, i < n → N.to_nat <$> (fst <$> cur) ≠ Some i → only i t = []).

(** The connection of a request, with its opening. *)
Lemma lines_carry_opening k cur n m t :
  let hd := match cur, ka with Some (_, hd), true => hd | _, _ => handlers n end in
  let s := line_of ka (fst <$> cur) n in
  (∀ s hd, cur = Some (s, hd) → N.to_nat s < n) →
  carries k (N.to_nat s) hd t →
  (∀ i, i < lines_after ka (fst <$> cur) n → i ≠ N.to_nat s → only i t = []) →
  (∀ i, lines_after ka (fst <$> cur) n ≤ i < m → carries k i (handlers i) t) →
  lines_carry k cur n m (opening ka (fst <$> cur) n ++ t).
Proof using Type.
  intros hd s Hcur Hline Hothers Hlater.
  assert (lines_after ka (fst <$> cur) n = S n ∧ N.to_nat s = n ∧ hd = handlers n ∧
      opening ka (fst <$> cur) n = Dial :: hangs_up (fst <$> cur) ∨
    (∃ s' hd', cur = Some (s', hd') ∧ s = s' ∧ hd = hd' ∧ lines_after ka (fst <$> cur) n = n ∧
      opening ka (fst <$> cur) n = [])) as [(Hn & Hs & Hhd & ->)|(s' & hd' & -> & Hs & Hhd & Hn & ->)].
  { unfold hd, s, line_of, lines_after, opening.
    destruct cur as [[s0 hd0]|], ka; simpl; [right; by exists s0, hd0|left..];
      (split_and!; [done|apply Nat2N.id|done|done]). }
  - rewrite Hs, Hhd in Hline. rewrite Hs in Hothers. rewrite Hn in Hothers, Hlater.
    assert (∀ i, only i ((Dial :: hangs_up (fst <$> cur)) ++ t) =
      (if decide (N.to_nat <$> (fst <$> cur) = Some i) then [Out Eof] else []) ++ only i t) as Ho.
    { intros i. cbn [app]. by rewrite only_Dial, only_app, only_hangs_up. }
    split_and!.
    + intros i Hi. apply (carries_ext _ _ _ t).
      { rewrite Ho, decide_False; [done|]. destruct cur as [[s0 hd0]|]; [|done].
        specialize (Hcur _ _ eq_refl). simpl. intros [= ?]. lia. }
      destruct (decide (i = n)) as [->|]; [done|]. apply Hlater. lia.
    + intros s0 hd0 ->. specialize (Hcur _ _ eq_refl). apply carries_nothing.
      by rewrite Ho, decide_True, Hothers by (done || lia).
    + intros i Hi Hne. by rewrite Ho, decide_False, Hothers by (done || lia).
  - rewrite Hs, Hhd in Hline. rewrite Hs in Hothers. rewrite Hn in Hothers, Hlater.
    split_and!; [done|by intros ? ? [= <- <-]|].
    intros i Hi Hne. apply Hothers; [done|]. simpl in Hne. congruence.
Qed.

(** The requests on the lines. *)
Lemma plays_attempts cur n reqs rs m :
  attended cur n reqs rs m → (∀ s hd, cur = Some (s, hd) → N.to_nat s < n) →
  ∃ t cur', n + dials t = m ∧ lines_carry (length reqs) cur n m (t ++ hangs_up cur') ∧
    ∀ c sh b,
      waits_answer c = true → connectable c = true → reusable c = ka → response_limit c = response_max →
      standing sh b (fst <$> cur) n →
      plays (attempts reqs c) sh b t (λ r sh' b', ∃ c', r = (c', map outcome_of rs) ∧
        standing sh' b' cur' m).
Proof using Type.
  induction 1 as [cur n|cur n command data hd1 r reqs rs m hd s Hadm Hrun Hw Hlen Hle _ IH];
    intros Hcur.
  - exists [], (fst <$> cur). split_and!; [simpl; lia| |].
    + split_and!; [intros i Hi; lia| |].
      * intros s hd ->. apply carries_nothing. cbn [app]. by rewrite only_hangs_up, decide_True.
      * intros i Hi Hne. cbn [app]. by rewrite only_hangs_up, decide_False.
    + intros c sh b _ _ _ _ Hst. apply plays_ret. by exists c.
  - rewrite <-is_ok_outcome in IH. set (cur1 := if is_ok _ then _ else _) in IH.
    assert (N.to_nat s < lines_after ka (fst <$> cur) n) as Hs.
    { unfold s, line_of, lines_after. destruct cur as [[s0 hd0]|], ka; simpl; [by eapply Hcur|lia..]. }
    destruct IH as (t & cur' & Hn & (Hnew & Hold & Hrest) & Hplays).
    { unfold cur1. intros s' hd' Hc. destruct (is_ok _); by simplify_eq. }
    set (mv := on s (view_client (ProtocolHandler.request_dialogue
        (RequestHeader.new command (as_u32 (len data))) data r) ++ closing (outcome_of r))).
    exists (opening ka (fst <$> cur) n ++ mv ++ t), cur'. rewrite <-!(assoc_L (++)). split_and!.
    + rewrite !dials_app. unfold mv. rewrite dials_on. rewrite <-Hn.
      unfold opening, lines_after. destruct (fst <$> cur), ka; simpl; rewrite ?dials_on; lia.
    + apply lines_carry_opening; [done|..].
      * simpl. eapply carries_cons; [done..|]. destruct (is_ok _); [by apply Hold|by apply Hrest].
      * intros i Hi Hne. unfold mv. rewrite only_app, only_on_ne by done. apply Hrest; [done|].
        unfold cur1. destruct (is_ok _); [|done]. intros Heq%(inj Some). by apply Hne.
      * intros i Hi. eapply (carries_le (length reqs)); [simpl; lia|].
        eapply carries_ext, Hnew, Hi. unfold mv. by rewrite (only_app i (on _ _)), only_on_ne by lia.
    + intros c sh b Hans Hco Hka Hlim Hst. rewrite (assoc_L (++)). cbn [attempts].
      apply plays_bind. unfold mv, s. rewrite <-Hka.
      eapply plays_impl; [|apply plays_message; try done; by rewrite Hlim].
      intros a sh' b' (c' & -> & ((Hans' & Hlim' & Hco') & Hka') & Hst'). cbn [fst snd].
      rewrite <-(app_nil_r t). apply (plays_bind (attempts reqs c')).
      eapply plays_impl; [|apply (Hplays c' sh' b'); try congruence].
      * intros a sh1 b1 (c1 & -> & Hst1). apply plays_ret. cbn [fst snd]. by exists c1.
      * unfold cur1, s. rewrite <-Hka. by destruct (is_ok _).
Qed.
End session.

(** * The whole system *)

Lemma connection_limit_of {H} `{Allocator} (s : Server.t H) st st' :
  connection_limit (connection_of s st) = connection_limit (connection_of s st') ∧
  (reserves (connection_of s st) → reserves (connection_of s st')).
Proof. unfold connection_of. by case_match. Qed.


#[local] Existing Instance generous.

(** A kept-alive client, as [set_keep_alive] leaves it, and a server for it. *)
Definition kept_client : ClientTLS.t :=
  ClientTLS.mk false "127.0.0.1:8443" "example.com" true (ClientTLS.buffer example_client_tls)
    DEFAULT_MAX_BUFFER_SIZE TimeoutConfig.default true.

Definition example_server : Server.t example_handler :=
  Server.set_protocol_command_handler_factory (λ _, 0%N : example_handler)
    (Server.set_secure (Ok tt) (Server.new "127.0.0.1:8443" 1048576)).1.

