(* ===== verification/Pinged.v ===== *)
(** Sessions with keep-alive pings, and the deadline that is meant to fire.

    A client that is idle between two calls has its task ping the server.  The task
    reads the status byte of the answer and then waits 10 ms for four more, which only
    a server of the old format sends: when all is well this deadline fires.  Here the
    client's part of a connection is any sequence of calls and pings, over the
    connection task of the server, with deadlines that fire when the client waits and
    nothing is on its way to it. *)
From stdpp Require Import relations options.
From S2P Require Import Prelude Errors ProtocolStructs Vec Headers TimeoutConfig IO Method Common.
From S2P Require Import Duet Follows Transport ServerTL ServerTLS ProtocolHandler Ping Runtime.
From S2P Require Import Capacity ConnectionHandler ClientTL ClientTLS EndToEnd EchoServers Serving Lines Parties.

(** * Programs whose deadlines are met *)

(** None of the deadlines that [p] may come to fires. *)
Fixpoint calm {D : Deadlines} {E A} (p : io E A) : Prop :=
  match p with
  | Ret _ => True
  | Vis e k => ∀ x, calm (k x)
  | Timeout d q k => fires d = false ∧ calm q ∧ ∀ o, calm (k o)
  end.

Lemma calm_bind {D : Deadlines} {E A B} (p : io E A) (f : A → io E B) :
  calm p → (∀ a, calm (f a)) → calm (io_bind p f).
Proof. induction p; simpl; [auto|eauto|]. intros (? & ? & ?) ?. eauto. Qed.

(** Such a program does what it does where no deadline fires. *)
Lemma acts_calm {D : Deadlines} {E L} `{!Party E L} {A} (p : io E A) l t (Q : A → L → Prop) :
  calm p → acts (D := never) p l t Q → acts p l t Q.
Proof.
  revert l t Q. induction p as [A a0|A X e k IH|A B d q IHq k IH]; intros l t Q; [done|..].
  - simpl. intros Hk. destruct (wire e) as [e'|].
    + destruct e'; simpl.
      * intros (Hn & [(bs & t' & -> & Hl & Ha)|(t' & -> & Ha)]); (split; [done|]);
          [left; exists bs, t'|right; exists t']; eauto 10.
      * intros [(bs & t' & -> & Hl & Ha)|(bs & t' & -> & Hl & Ha)]; [left|right]; exists bs, t'; auto.
      * intros (t' & -> & Ha). exists t'. auto.
      * auto.
      * intros (t' & -> & Ha). exists t'. auto.
    + intros [Hex Ha]. split; [done|]. auto.
  - intros (Hd & Hq & Hk) (t1 & t2 & -> & Ha). simpl in *. rewrite Hd. exists t1, t2.
    split; [done|]. apply IHq; [done|]. eapply acts_impl; [|exact Ha]. auto.
Qed.

Lemma calm_read_loop {D : Deadlines} fuel s n buf : calm (read_loop fuel s n buf : io netE _).
Proof.
  revert buf. induction fuel as [|fuel IH]; intros buf; simpl; [done|].
  case_decide; [|done]. intros [[|x bs]|e]; [done| |done]. apply IH.
Qed.

(** The deadlines of a configuration that a call comes to are met. *)
Record meets {D : Deadlines} (c : TimeoutConfig.t) : Prop := {
  meets_write : fires (TimeoutConfig.write c) = false;
  meets_read_header : fires (TimeoutConfig.read_header c) = false;
  meets_read_data : fires (TimeoutConfig.read_data c) = false;
}.

Ltac calms :=
  lazymatch goal with
  | |- calm (io_bind _ _) => apply calm_bind; [|intros]; calms
  | |- calm (mbind (M := io _) _ _) => apply calm_bind; [|intros]; calms
  | |- calm (fmap (M := io _) _ _) => apply calm_bind; [|intros]; calms
  | |- calm (Ret _) => exact I
  | |- calm (read_exact_or_closed _ _) => apply calm_read_loop
  | |- calm (Vis _ _) => intros ?; calms
  | |- calm (Timeout _ _ _) => split_and!; [solve [eauto using meets_write, meets_read_header, meets_read_data]| |intros]; calms
  | |- calm (if ?b then _ else _) => destruct b; calms
  | |- calm (match ?b with _ => _ end) => destruct b; calms
  | |- calm ((match ?b with _ => _ end) _) => destruct b; calms
  | |- calm (let _ := _ in _) => cbv zeta; calms
  | |- calm ?p => let p' := eval red in p in change p with p'; cbv beta; calms
  end.

(** A call begins with a look at its configuration. *)
Lemma calm_gets {D : Deadlines} {E S Er A B} (f : S → A) (m : A → method E S Er B) (s : S) :
  calm (m (f s) s) → calm ((a ← gets f; m a) s).
Proof. done. Qed.

Lemma calm_exchange_tl {D : Deadlines} st command data c :
  meets (ClientTL.timeout_config c) → calm (ClientTL.exchange st command data c).
Proof. intros Hm. apply calm_gets. cbn [snd fst id]. calms. Qed.

Lemma calm_exchange_tls {D : Deadlines} st command data c :
  meets (ClientTLS.timeout_config c) → calm (ClientTLS.exchange st command data c).
Proof. intros Hm. apply calm_gets. cbn [snd fst id]. calms. Qed.

(** What the two clients promise besides: a call whose deadlines are met is answered as
    it would be without any, and leaves the configuration as it was. *)
Class TimedClient (C : Type) `{Client C} := {
  deadlines : C → TimeoutConfig.t;
  call_timely {D : Deadlines} st c command data payload :
    waits_answer c = true → (len payload < u32_modulus)%N → (len payload <= response_limit c)%N →
    meets (deadlines c) →
    ∃ c', waits_answer c' = true ∧ response_limit c' = response_limit c ∧ deadlines c' = deadlines c ∧
      follows (call st command data c) (view_client (ProtocolHandler.request_dialogue
        (RequestHeader.new command (as_u32 (len data))) data (Ok (StatusOk, payload))))
        (c', Ok payload);
}.

#[export] Program Instance client_tl_timed : TimedClient ClientTL.t := {|
  deadlines := ClientTL.timeout_config;
|}.
Next Obligation.
  intros D st c command data payload Hans Hlen Hle Hm.
  destruct (ClientTL.tl_follows_exchange st command data x01 payload c) as (b & Hf); [done..|].
  exists (ClientTL.with_buffer b c). split_and!; [done..|]. apply acts_calm; [by apply calm_exchange_tl|].
  eapply follows_eq; [exact Hf|].
  apply (client_dialogue_whole _ data (Ok (StatusOk, payload))); [by split; [|left]|done].
Qed.

#[export] Program Instance client_tls_timed : TimedClient ClientTLS.t := {|
  deadlines := ClientTLS.timeout_config;
|}.
Next Obligation.
  intros D st c command data payload Hans Hlen Hle Hm.
  destruct (ClientTLS.tls_follows_exchange st command data x01 payload c) as (b & Hf); [done..|].
  exists (ClientTLS.with_buffer b c). split_and!; [done..|]. apply acts_calm; [by apply calm_exchange_tls|].
  eapply follows_eq; [exact Hf|].
  apply (client_dialogue_whole _ data (Ok (StatusOk, payload))); [by split; [|left]|done].
Qed.

(** * A ping *)

Definition ping_wire : list byte := RequestHeader.wire (RequestHeader.new 0 0).

(** Nothing comes after the status byte, and the deadline for more fires. *)
Lemma follows_ping {D : Deadlines} s read_header :
  fires read_header = false → fires PING_OLD_FORMAT_READ_TIMEOUT = true →
  follows (ping_exchange s read_header : io netE _) (outs ping_wire ++ ins [x01] ++ [Lapse]) (Ok tt).
Proof.
  intros Hrh Hold. apply acts_bind. eapply acts_impl; [|apply acts_calm; [calms|apply follows_ping_request]].
  intros _ [] ->. apply acts_bind, acts_in_time; [done|].
  left. exists [x01], []. split_and!; [done..|]. split; [done|].
  change (negb (bool_decide (hd x00 [x01] = x01))) with false. cbv beta iota zeta.
  rewrite <-(app_nil_r [Lapse]). apply acts_bind, acts_lapse; [done| |done].
  split; [done|]. intros p' l' q' o (x & (_ & [(c & _ & Hq & Hc)|(c & _ & Hq & _)]) & _);
    by destruct c.
Qed.

(** * Schedules *)

Lemma at_rest_ins bs t : bs ≠ [] → at_rest (ins bs ++ t).
Proof. destruct bs; [done|]. intros _. apply at_rest_in. Qed.

Lemma tsteps_dialogue G t u :
  rtc tstep (Traces (view_client G ++ t) (view_server G ++ u) [] []) (Traces t u [] []).
Proof.
  induction G as [|[[] m] G IH]; [done|..]; simpl; (eapply rtc_l; [constructor|]);
    (eapply rtc_l; [constructor|]); exact IH.
Qed.

(** A ping, of which the last deadline waits for the server to do what it can. *)
Lemma tsteps_ping t u :
  at_rest u →
  rtc tstep (Traces ((outs ping_wire ++ ins [x01] ++ [Lapse]) ++ t) (ins ping_wire ++ outs [x01] ++ u) [] [])
    (Traces t u [] []).
Proof.
  intros Hu. rewrite <-!(assoc_L (++)). etrans; [apply tsteps_to_server|]. etrans; [apply tsteps_sent|].
  etrans; [apply (tsteps_received [x01])|]. apply rtc_once, tstep_client_lapse.
  - intros m u' ->. by destruct (Hu _ _ eq_refl).
  - done.
Qed.

(** * Sessions *)

(** A call, or the ping of an idle connection. *)
Inductive visit := Calls (command : N) (data : list byte) | Idles.

Definition requests (vs : list visit) : list (N * list byte) :=
  omap (λ v, match v with Calls command data => Some (command, data) | Idles => None end) vs.

Section session.
Context {C : Type} `{TimedClient C}.

(** What happens on the connection of a client: the [in_flight] mutex has one after the
    other.  A ping that fails is the end of the connection. *)
Fixpoint visits (st : stream) (vs : list visit) : method netE C Error (list (list byte)) :=
  match vs with
  | [] => mret []
  | Calls command data :: vs =>
    payload ← call st command data; payloads ← visits st vs; mret (payload :: payloads)
  | Idles :: vs =>
    config ← gets deadlines;
    await_q (ping_exchange st (TimeoutConfig.read_header config));;
    visits st vs
  end.

(** [disconnect] at the end. *)
Definition visited (st : stream) (vs : list visit) (c : C) : io netE (Result (list (list byte))) :=
  r ← visits st vs c; Common.shutdown st;; mret r.2.

Context {U : Type → Type} {H' : Type} `{ProtocolCommandHandler U H'} `{Allocator}.
Implicit Types (tr : dyn_transport) (hd : H').
Abbreviation session_events := (watchE +' sessionE (ProtocolHandler.t dyn_transport H') +' netE +' U).

(** The two sides of such a session, and a schedule for it. *)
Lemma visits_follow {D : Deadlines} rmax pmax st vs hd hd' payloads :
  local_calls rmax pmax hd (requests vs) hd' payloads →
  fires PING_OLD_FORMAT_READ_TIMEOUT = true →
  ∀ c : C, waits_answer c = true → response_limit c = pmax → meets (deadlines c) →
  ∃ tc ts c',
    follows (visits st vs c) tc (c', Ok payloads) ∧
    (∀ tr fuel, limit tr = rmax → length vs < fuel → ∃ tr',
      follows (D := never) (ConnectionHandler.serve fuel (ProtocolHandler.new tr hd)) (ts ++ [In Eof])
        (ProtocolHandler.new tr' hd', true)) ∧
    at_rest (ts ++ [In Eof]) ∧
    ∀ t, rtc tstep (Traces (tc ++ t) (ts ++ [In Eof]) [] []) (Traces t [In Eof] [] []).
Proof using Type.
  intros Hl Hold. revert hd payloads Hl.
  induction vs as [|[command data|] vs IH]; intros hd payloads Hl c Hans Hlim Hm.
  - inversion Hl; subst. exists [], [], c. split_and!; [done| |apply at_rest_in|done].
    intros tr [|fuel] _ Hfuel; simpl in Hfuel; [lia|].
    destruct (follows_turn_closed (U := U) tr hd') as (tr' & Hf). exists tr'.
    eapply follows_eq; [by eapply (follows_bind (E := session_events)); [exact Hf|]|apply app_nil_r].
  - inversion Hl as [|? ? ? hd1 payload ? ? payloads' Hadm Hrun Hlen Hle Hl']; subst.
    destruct (call_timely st c command data payload) as (c1 & Hans1 & Hlim1 & Hd1 & Hc); [done..|].
    destruct (IH hd1 payloads' Hl' c1) as (tc & ts & c' & Hcs & Hss & Hw & Hsteps);
      [done|congruence|by rewrite Hd1|].
    set (G := ProtocolHandler.request_dialogue _ data _) in Hc.
    exists (view_client G ++ tc), (view_server G ++ ts), c'. split_and!.
    + apply acts_bind. eapply acts_impl; [|exact Hc]. intros ? [] ->. cbn [fst snd].
      rewrite <-(app_nil_r tc). apply acts_bind. eapply acts_impl; [|exact Hcs]. by intros ? [] ->.
    + intros tr [|fuel] Hrm Hfuel; simpl in Hfuel; [lia|]. rewrite <-Hrm in Hadm.
      destruct (handle_next_request (E := session_events) tr hd command data _ _ Hadm Hrun)
        as (tr1 & Hlim' & Hs%follows_turn).
      destruct (Hss tr1 fuel) as (tr' & Hrest); [congruence|lia|]. exists tr'. rewrite <-(assoc_L (++)).
      by eapply (follows_bind (E := session_events)).
    + unfold G. rewrite view_server_request, <-!(assoc_L (++)). by apply at_rest_ins.
    + intros t. rewrite <-!(assoc_L (++)). etrans; [apply tsteps_dialogue|apply Hsteps].
  - destruct (IH hd payloads Hl c) as (tc & ts & c' & Hcs & Hss & Hw & Hsteps); [done..|].
    exists ((outs ping_wire ++ ins [x01] ++ [Lapse]) ++ tc), ((ins ping_wire ++ outs [x01]) ++ ts), c'.
    split_and!.
    + apply (acts_bind (await_q _ c)). rewrite <-(app_nil_r (outs ping_wire ++ _)). apply acts_bind.
      eapply acts_impl; [|by apply follows_ping, Hold; apply Hm]. intros ? [] ->. by split.
    + intros tr [|fuel] Hrm Hfuel; simpl in Hfuel; [lia|].
      destruct (ProtocolHandler.follows_handle_next_ping (E := session_events) tr hd)
        as (tr1 & Hlim' & Hs%follows_turn).
      autorewrite with views in Hs.
      destruct (Hss tr1 fuel) as (tr' & Hrest); [congruence|lia|]. exists tr'. rewrite <-(assoc_L (++)).
      by eapply (follows_bind (E := session_events)).
    + rewrite <-!(assoc_L (++)). by apply at_rest_ins.
    + intros t. rewrite <-!(assoc_L (++)). rewrite (assoc_L (++) (ins [x01])).
      etrans; [by apply tsteps_ping|apply Hsteps].
Qed.
End session.

(** C3: keep-alive pings do not disturb a session.  A client calls and is idle in any
    order, over one connection to the connection task of the server; while it is idle
    its ping task pings.  Whatever the interleaving and the segmentation, every call is
    answered as a local call of the handler, every ping succeeds, and the task has
    answered [Ok] when the client disconnects.  The deadlines of the calls are met; the one
    for the bytes of the old response format fires, as soon as it is waited for or any
    time later. *)
Theorem pinged_session {D : Deadlines} {C U H} `{TimedClient C, ProtocolCommandHandler U H, Allocator}
    (st : stream) (c : C) (hd hd' : H) (conn : ConnectionHandler.t) st' vs payloads fuel :
  waits_answer c = true → meets (deadlines c) → fires PING_OLD_FORMAT_READ_TIMEOUT = true →
  ConnectionHandler.stream conn = Some st' → reserves conn →
  local_calls (connection_limit conn) (response_limit c) hd (requests vs) hd' payloads →
  length vs < fuel →
  converses (λ r _, r = Ok payloads) (λ r _, r.2 = Some (Ok tt)) [] []
    (start_with (visited st vs c) tt (ConnectionHandler.run fuel hd conn) tt).
Proof.
  intros Hans Hm Hold Hst Hres Hl Hfuel.
  destruct (visits_follow _ _ st vs hd hd' payloads Hl Hold c) as (tc & ts & c' & Hc & Hs & Hw & Hsteps);
    [done..|].
  apply (duet_completes _ _ _ _ _ _ _ _ (tc ++ [Out Eof]) (ts ++ [In Eof])).
  - apply acts_bind. eapply acts_impl; [|exact Hc]. intros ? [] ->. by exists [].
  - eapply acts_impl; [|eapply follows_task; [exact Hst|exact Hres|]].
    + by intros r [] ->.
    + intros tr Hrm. by apply (Hs tr fuel).
  - split; [|done]. etrans; [apply Hsteps|]. eapply rtc_l; [constructor|]. apply rtc_once. constructor.
Qed.

(** The deadline of the old format fires and all others are met. *)
Definition old_format : Deadlines := λ d, (d =? PING_OLD_FORMAT_READ_TIMEOUT)%N.

#[local] Existing Instance generous.

(** A request, two pings and another request, with the TLS client. *)
Lemma pinged_session_witness :
  converses (D := old_format) (λ r _, r = Ok [[x62; x61]; []]) (λ r _, r.2 = Some (Ok tt)) [] []
    (start_with (visited 0 [Calls 1 [x61; x62]; Idles; Idles; Calls 1 []] example_client_tls) tt
       (ConnectionHandler.run 5 (0%N : example_handler)
          (ConnectionHandler.mk (Some 0%N) true 1048576)) tt).
Proof.
  refine (pinged_session (D := old_format) 0 example_client_tls
    (0%N : example_handler) (2%N : example_handler) (ConnectionHandler.mk (Some 0%N) true 1048576) 0
    [Calls 1 [x61; x62]; Idles; Idles; Calls 1 []] [[x62; x61]; []] 5 _ _ _ _ _ _ _); try done.
  - repeat (eapply local_cons || apply local_nil || split || done).
  - simpl. lia.
Defined.
