(* ===== verification/ExampleClients.v ===== *)
(** The client programs of [src/examples/transport/], as whole programs: from [new]
    to the end of [main], against the example servers.

    A [main] is a method over its client and what it has printed: of a line that
    shows a response, its text.  The other lines are fixed texts and are left out. *)
From S2P Require Import Prelude Errors Text ProtocolStructs Headers TimeoutConfig IO Method Common.
From S2P Require Import Duet Follows Transport ServerTL ServerTLS ProtocolHandler Ping.
From S2P Require Import ClientTL ClientTLS ClientState EndToEnd EchoServers ExampleServers.
From S2P Require Import Lines Parties FullStack.
From stdpp Require Import options.

Record program (C : Type) := Program { program_client : C; printed : list (list byte) }.
Arguments Program {_} _ _.
Arguments program_client {_} _.
Arguments printed {_} _.

Section programs.
Context {C : Type} `{ClientApi C}.

Abbreviation main A := (method clientE (program C) BoxError A).

(** A call on [client]; its error is boxed by the [?] of [main]. *)
Definition on_client {A} (m : method clientE C Error A) : main A :=
  zoom program_client (λ c p, Program c (printed p)) (convert m).

Definition keep_alive_on : main unit :=
  on_client (λ c, c ← set_keep_alive true c; mret (c, Ok tt)).

Definition connect_now : main unit := on_client (λ c, r ← connect c; mret (c, r)).
Definition disconnect_now : main unit := on_client (λ c, r ← disconnect c; mret (c, r)).

Definition print (text : list byte) : main unit :=
  modify (λ p, Program (program_client p) (printed p ++ [text])).

(** A call of [handle_message] and the line that shows the response. *)
Definition request (command : N) (data : list byte) : main unit :=
  response ← on_client (handle_message command data);
  print (from_utf8_lossy response).

(** A [for] loop. *)
Fixpoint for_each {X} (xs : list X) (body : X → main unit) : main unit :=
  match xs with
  | [] => mret tt
  | x :: xs => body x;; for_each xs body
  end.

(** [TimeoutConfig] with the socket's keep-alive every 60 and 15 seconds. *)
Definition example_timeouts : TimeoutConfig.t :=
  let d := TimeoutConfig.default in {|
    TimeoutConfig.connect := TimeoutConfig.connect d;
    TimeoutConfig.read_header := TimeoutConfig.read_header d;
    TimeoutConfig.read_data := TimeoutConfig.read_data d;
    TimeoutConfig.write := TimeoutConfig.write d;
    TimeoutConfig.keep_alive := Some (KeepAliveConfig.mk (from_secs 60) (from_secs 15));
    TimeoutConfig.connect_total := TimeoutConfig.connect_total d;
    TimeoutConfig.ping_write := TimeoutConfig.ping_write d;
    TimeoutConfig.ping_interval := TimeoutConfig.ping_interval d;
  |}.

(** The part that [simple_client.rs] and [tls_client.rs] share: [n] messages with a
    pause after each. *)
Definition example_main (prefix : string) (n : nat) (pause : Duration) : main unit :=
  keep_alive_on;;
  on_client (set_timeout_config example_timeouts);;
  connect_now;;
  for_each (seq 1 n) (λ i,
    request 1 (bytes_of (prefix +:+ show (N.of_nat i)));;
    await (sleep pause));;
  disconnect_now.
End programs.

(** [main] of [simple_client.rs], with the client it makes at [t0] and its cells. *)
Definition simple_client (t0 : Instant) : program ClientTL.t * shared :=
  let '(client, sh) := ClientTL.new "127.0.0.1:8080" t0 in (Program client [], sh).

Definition simple_client_main : method clientE (program ClientTL.t) BoxError unit :=
  example_main "Message #" 5 (from_millis 100).

(** [main] of [tls_client.rs]. *)
Definition tls_client (t0 : Instant) : program ClientTLS.t * shared :=
  let '(client, sh) := ClientTLS.new "127.0.0.1:8443" t0 in
  (Program (ClientTLS.set_domain "localhost" client) [], sh).

Definition tls_client_main : method clientE (program ClientTLS.t) BoxError unit :=
  example_main "TLS Message #" 3 (from_millis 200).

(** [main] of [no_answer_mode.rs]; what it prints are the messages it has sent. *)
Definition no_answer_mode (t0 : Instant) : program ClientTL.t * shared :=
  let '(client, sh) := ClientTL.new "127.0.0.1:8080" t0 in
  (Program (ClientTL.set_command_has_answer false client) [], sh).

Definition event (i : nat) : list byte := bytes_of ("Event #" +:+ show (N.of_nat i)).

Definition no_answer_main : method clientE (program ClientTL.t) BoxError unit :=
  keep_alive_on;;
  on_client (set_timeout_config example_timeouts);;
  connect_now;;
  for_each (seq 1 10) (λ i,
    on_client (handle_message 42 (event i));;
    print (event i);;
    await (sleep (from_millis 10)));;
  disconnect_now.

(** * What the programs do *)

Section rules.
Context {E : Type → Type} {L : Type} `{!Caller E L} {S Er : Type}.

Lemma plays_mbind {A B} (m : method E S Er A) (f : A → method E S Er B) s l b t1 t2 Q :
  plays (m s) l b t1 (λ r l' b', ∃ s' a, r = (s', Ok a) ∧ plays (f a s') l' b' t2 Q) →
  plays ((m ≫= f) s) l b (t1 ++ t2) Q.
Proof.
  intros Hm. apply plays_bind. eapply plays_impl; [|exact Hm]. by intros r l' b' (s' & a & -> & Hf).
Qed.

Lemma plays_mbind_err {A B} (m : method E S Er A) (f : A → method E S Er B) s l b t Q :
  plays (m s) l b t (λ r l' b', ∃ s' e, r = (s', Err e) ∧ Q (s', Err e) l' b') →
  plays ((m ≫= f) s) l b t Q.
Proof.
  intros Hm. rewrite <-(app_nil_r t). apply plays_bind. eapply plays_impl; [|exact Hm].
  intros r l' b' (s' & e & -> & HQ). by apply plays_ret.
Qed.

(** A step after which nothing happens on the lines. *)
Lemma plays_mlast {A B} (m : method E S Er A) (f : A → method E S Er B) s l b t Q :
  plays (m s) l b t (λ r l' b', ∃ s' a, r = (s', Ok a) ∧ plays (f a s') l' b' [] Q) →
  plays ((m ≫= f) s) l b t Q.
Proof. intros Hm. rewrite <-(app_nil_r t). by apply plays_mbind. Qed.

(** A step that does nothing on the lines. *)
Lemma plays_mthen {A B} (m : method E S Er A) (f : A → method E S Er B) s l b t Q :
  plays (m s) l b [] (λ r l' b', ∃ s' a, r = (s', Ok a) ∧ plays (f a s') l' b' t Q) →
  plays ((m ≫= f) s) l b t Q.
Proof. apply (plays_mbind m f s l b [] t). Qed.
End rules.

Section programs_play.
Context {C : Type} `{ClientApi C}.
Implicit Types (p : program C) (c : C).

Lemma plays_on_client {A} (m : method clientE C Error A) p sh b t Q :
  plays (m (program_client p)) sh b t
    (λ r sh' b', Q (Program r.1 (printed p), result_map_err into r.2) sh' b') →
  plays (on_client m p) sh b t Q.
Proof.
  intros Hm. unfold on_client, zoom, convert. rewrite <-(app_nil_r t), <-(app_nil_r (t ++ [])).
  do 2 apply plays_bind. eapply plays_impl; [|exact Hm]. intros r sh' b' HQ. by do 2 apply plays_ret.
Qed.

(** A client that will use one connection for all its calls. *)
Definition usable c (limit : N) : Prop :=
  waits_answer c = true ∧ reusable c = true ∧ connectable c = true ∧ response_limit c = limit.

Lemma usable_like c c' limit : usable c limit → like c c' → reusable c' = reusable c → usable c' limit.
Proof. intros (? & ? & ? & ?) (? & ? & ?) ?. split_and!; congruence. Qed.

(** A call that is answered, over the connection in place. *)
Lemma plays_call {B} command data payload limit (rest : list byte → method clientE (program C) BoxError B)
    p sh b st n t Q :
  usable (program_client p) limit → standing sh b (Some st) n →
  (len payload < u32_modulus)%N → (len payload <= limit)%N →
  (∀ c' sh' b', usable c' limit → standing sh' b' (Some st) n →
     plays (rest payload (Program c' (printed p))) sh' b' t Q) →
  plays ((on_client (handle_message command data) ≫= rest) p) sh b
    (on st (view_client (ProtocolHandler.request_dialogue
      (RequestHeader.new command (as_u32 (len data))) data (Ok (StatusOk, payload)))) ++ t) Q.
Proof.
  intros Hu Hst Hlen Hle Hrest. pose proof Hu as (Hans & Hre & Hco & Hlim).
  apply plays_mbind, plays_on_client.
  pose proof (plays_message (program_client p) command data (Ok (StatusOk, payload)) sh b (Some st) n
    Hans Hco Hst) as Hp. rewrite Hre in Hp. unfold outcome_of in Hp.
  cbn [ProtocolHandler.reply_status ProtocolHandler.reply_payload u8_of_status opening line_of
    lines_after app] in Hp.
  rewrite answered_ok in Hp. cbn [is_ok closing] in Hp. rewrite app_nil_r in Hp.
  eapply plays_impl; [|apply Hp; [split; [done|by left]|done|by rewrite Hlim]].
  intros r sh' b' (c' & -> & (Hlike & Hre') & Hst'). do 2 eexists. split; [done|].
  apply Hrest; [|done]. cbn [fst]. apply (usable_like (program_client p)); [done..|by rewrite Hre', Hre].
Qed.

Lemma plays_request_ok command data payload limit p sh b st n :
  usable (program_client p) limit → standing sh b (Some st) n →
  (len payload < u32_modulus)%N → (len payload <= limit)%N →
  plays (request command data p) sh b (on st (view_client (ProtocolHandler.request_dialogue
      (RequestHeader.new command (as_u32 (len data))) data (Ok (StatusOk, payload)))))
    (λ r sh' b', ∃ c', r = (Program c' (printed p ++ [from_utf8_lossy payload]), Ok tt) ∧
       usable c' limit ∧ standing sh' b' (Some st) n).
Proof.
  intros Hu Hst Hlen Hle. unfold request. rewrite <-(app_nil_r (on _ _)).
  eapply plays_call; [done..|]. intros c' sh' b' Hu' Hst'. apply plays_ret. by exists c'.
Qed.

Lemma plays_print {B} text (rest : unit → method clientE (program C) BoxError B) p sh b t Q :
  plays (rest tt (Program (program_client p) (printed p ++ [text]))) sh b t Q →
  plays ((print text ≫= rest) p) sh b t Q.
Proof. done. Qed.

(** What [main] prints of the response to [data]. *)
Definition shown (prefix : string) (data : list byte) : list byte :=
  from_utf8_lossy (echo_reply prefix data).

(** A loop of requests with a pause after each, to a server that echoes. *)
Lemma plays_for_each prefix pause {X} (f : X → list byte) (xs : list X) limit p sh b st n :
  usable (program_client p) limit → standing sh b (Some st) n →
  Forall (λ x, len (echo_reply prefix (f x)) < u32_modulus ∧
               len (echo_reply prefix (f x)) <= limit)%N xs →
  plays (for_each xs (λ x, request 1 (f x);; await (sleep pause)) p) sh b
    (on st (view_client (concat (map (λ x, echo_dialogue prefix 1 (f x)) xs))))
    (λ r sh' b', ∃ c', r = (Program c' (printed p ++ map (λ x, shown prefix (f x)) xs), Ok tt) ∧
       usable c' limit ∧ standing sh' b' (Some st) n).
Proof.
  revert p sh b. induction xs as [|x xs IH]; intros p sh b Hu Hl Hxs.
  - apply plays_ret. exists (program_client p). simpl. rewrite app_nil_r. by destruct p.
  - apply Forall_cons_1 in Hxs as [[Hlen Hle] Hxs]. cbn [for_each map concat].
    rewrite view_client_app, on_app. apply plays_mbind.
    apply plays_mlast. eapply plays_impl; [|by apply plays_request_ok].
    intros r sh' b' (c' & -> & Hu' & Hl'). do 2 eexists. split; [done|].
    apply plays_then, plays_sleep. prun. do 2 eexists. split; [done|].
    eapply plays_impl; [|by apply (IH (Program c' _))].
    intros r sh'' b'' (c'' & -> & ? & ?). exists c''. cbn [printed]. by rewrite <-(assoc_L (++)).
Qed.

(** From the fresh client to the connection. *)
Lemma plays_keep_alive_on {B} (rest : unit → method clientE (program C) BoxError B) p sh b cur n t Q :
  standing sh b cur n →
  (∀ c' sh' b', like (program_client p) c' → reusable c' = true → standing sh' b' cur n →
     plays (rest tt (Program c' (printed p))) sh' b' t Q) →
  plays ((keep_alive_on ≫= rest) p) sh b t Q.
Proof.
  intros Hst Hrest. unfold keep_alive_on. apply plays_mthen, plays_on_client, plays_then.
  eapply plays_impl; [|by apply (set_keep_alive_ok true)]. cbn [negb andb].
  intros c sh' b' (? & ? & ?). apply plays_ret.
  do 2 eexists. split; [done|]. by apply Hrest.
Qed.

Lemma plays_set_timeouts {B} (rest : unit → method clientE (program C) BoxError B) config p sh b cur n t Q :
  accepted_config config → standing sh b cur n →
  (∀ c' sh' b', like (program_client p) c' → reusable c' = reusable (program_client p) →
     standing sh' b' cur n → plays (rest tt (Program c' (printed p))) sh' b' t Q) →
  plays ((on_client (set_timeout_config config) ≫= rest) p) sh b t Q.
Proof.
  intros Hc Hst Hrest. apply plays_mthen, plays_on_client.
  eapply plays_impl; [|by apply set_timeout_config_ok]. intros r sh' b' (c & -> & ? & ? & ?).
  do 2 eexists. split; [done|]. by apply Hrest.
Qed.

Lemma plays_connect_now {B} (rest : unit → method clientE (program C) BoxError B) p sh b n t Q :
  connectable (program_client p) = true → standing sh b None n →
  (∀ sh' b', standing sh' b' (Some (N.of_nat n)) (S n) → plays (rest tt p) sh' b' t Q) →
  plays ((connect_now ≫= rest) p) sh b (Dial :: t) Q.
Proof.
  intros Hco Hst Hrest. unfold connect_now. apply (plays_mbind _ _ _ _ _ [Dial]), plays_on_client.
  apply (plays_bind (connect (program_client p)) _ _ _ [Dial] []).
  eapply plays_impl; [|by apply (connect_ok _ Hco sh b None n)].
  intros r sh' b' [-> Hl']. apply plays_ret. do 2 eexists. split; [done|]. destruct p. by apply Hrest.
Qed.

Lemma plays_start (rest : unit → method clientE (program C) BoxError unit) p sh b t Q :
  connectable (program_client p) = true → standing sh b None 0 →
  (∀ c' sh' b', like (program_client p) c' → reusable c' = true → standing sh' b' (Some 0%N) 1 →
     plays (rest tt (Program c' (printed p))) sh' b' t Q) →
  plays ((keep_alive_on;; on_client (set_timeout_config example_timeouts);;
         u ← connect_now; rest u) p) sh b (Dial :: t) Q.
Proof.
  intros Hco Hst Hrest. eapply plays_keep_alive_on; [done|].
  intros c1 sh1 b1 (Ha1 & Hl1 & Hc1) Hr1 Hst1.
  eapply plays_set_timeouts; [done..|]. cbn [program_client printed].
  intros c2 sh2 b2 (Ha2 & Hl2 & Hc2) Hr2 Hst2.
  eapply plays_connect_now; cbn [program_client]; [congruence|done|]. intros sh3 b3 Hst3.
  apply Hrest; [unfold like; split_and!; congruence|congruence|done].
Qed.

(** The end of a program. *)
Lemma plays_last_disconnect (p : program C) sh b st n
    (Q : program C * result unit BoxError → shared → list bool → Prop) :
  standing sh b (Some st) n →
  (∀ sh' b', s_stream sh' = None → s_task_handle sh' = None → Q (p, Ok tt) sh' b') →
  plays (disconnect_now p) sh b (on st [Out Eof]) Q.
Proof.
  intros Hst HQ. unfold disconnect_now. apply plays_on_client. rewrite <-(app_nil_r (on _ _)).
  apply (plays_bind (disconnect (program_client p)) _ _ _ (hangs_up (Some st)) []).
  eapply plays_impl; [|by apply disconnect_ok]. intros d sh' b' (-> & _ & ->).
  apply plays_ret. destruct p. by apply HQ.
Qed.

Lemma plays_example_main prefix' prefix n pause p sh b :
  let msg i := bytes_of (prefix' +:+ show (N.of_nat i)) in
  waits_answer (program_client p) = true → connectable (program_client p) = true →
  standing sh b None 0 →
  Forall (λ i, len (echo_reply prefix (msg i)) < u32_modulus ∧
               len (echo_reply prefix (msg i)) <= response_limit (program_client p))%N (seq 1 n) →
  plays (example_main prefix' n pause p) sh b
    (Dial :: on 0%N (view_client (concat (map (λ i, echo_dialogue prefix 1 (msg i)) (seq 1 n)) ++
       closes Duet.Client)))
    (λ r sh' _, (∃ c', r = (Program c' (printed p ++ map (λ i, shown prefix (msg i)) (seq 1 n)), Ok tt)) ∧
       s_stream sh' = None ∧ s_task_handle sh' = None).
Proof.
  intros msg Hans Hco Hst Hmsg. unfold example_main. rewrite view_client_app, on_app.
  eapply plays_start; [done..|]. intros c1 sh1 b1 (Hans1 & Hlim1 & Hco1) Hre1 Hst1. apply plays_mbind.
  eapply plays_impl; [|apply (plays_for_each prefix pause msg); [|exact Hst1|exact Hmsg];
    cbn [program_client]; split_and!; congruence].
  intros r sh2 b2 (c2 & -> & _ & Hst2). do 2 eexists. split; [done|].
  eapply plays_last_disconnect; [done..|]. intros sh' b' Hs Ht. split; [by exists c2|done].
Qed.
End programs_play.

(** The server's side: an echo loop until its client has gone. *)
Lemma follows_echo_loop {T} `{Connection T} prefix loop command datas fuel (t : T) :
  echoes prefix loop → Forall (admissible (room t) command) datas → length datas < fuel →
  ∃ t', follows (loop fuel t)
    (view_server (concat (map (echo_dialogue prefix command) datas) ++ closes Duet.Client))
    (t', Err ConnectionClosed).
Proof.
  intros Hl. revert fuel t. induction datas as [|data datas IH]; intros [|fuel] t Hd Hf;
    simpl in Hf; try lia.
  - destruct (echoes_closed _ _ Hl fuel t) as (t' & _ & Hf'). by exists t'.
  - apply Forall_cons_1 in Hd as [Hadm Hd].
    destruct (echoes_turn _ _ Hl fuel t command data Hadm) as (t1 & Hr1 & Ht).
    destruct (IH fuel t1) as (t' & Hf'); [by rewrite Hr1|lia|]. exists t'.
    cbn [map concat]. rewrite <-(assoc_L (++)), view_server_app. by apply Ht.
Qed.

Lemma standing_start sh : s_stream sh = None → standing sh [] None 0.
Proof. by split. Qed.

(** A client program and a server that runs an echo loop for it, from the first
    connection to the end of both.  The server closes the connection too, which the
    client no longer sees. *)
Lemma example_pair {C T R} `{ClientApi C, Connection T} prefix' prefix loop n pause fuel limit
    (p : program C) (sh : shared) (server : nat → io blockE R) (r : R) :
  let msg i := bytes_of (prefix' +:+ show (N.of_nat i)) in
  echoes prefix loop →
  (∀ tr, (∀ t : T, room t = limit → ∃ t', follows (loop fuel t) tr (t', Err ConnectionClosed)) →
     ∀ i, follows (server i) (tr ++ [Out Eof]) r) →
  waits_answer (program_client p) = true → connectable (program_client p) = true →
  s_stream sh = None →
  Forall (λ i, admissible limit 1 (msg i) ∧
    (len (echo_reply prefix (msg i)) < u32_modulus)%N ∧
    (len (echo_reply prefix (msg i)) <= response_limit (program_client p))%N) (seq 1 n) → n < fuel →
  settles server tt
    (λ r sh', (∃ c', r = (Program c' (printed p ++ map (λ i, shown prefix (msg i)) (seq 1 n)), Ok tt)) ∧
       s_stream sh' = None ∧ s_task_handle sh' = None)
    (λ _ r' _, r' = r) (λ _, [Eof]) 1
    (calls_from (example_main prefix' n pause p) sh).
Proof.
  intros msg Hl Hserver Hans Hco Hsh Hmsg Hfuel.
  set (G := concat (map (λ i, echo_dialogue prefix 1 (msg i)) (seq 1 n)) ++ closes Duet.Client).
  assert (∀ i, follows (server i) (view_server G ++ [Out Eof]) r) as Hs.
  { apply Hserver. intros t Ht.
    destruct (follows_echo_loop prefix loop 1 (map msg (seq 1 n)) fuel t Hl) as (t' & Hs).
    - apply List.Forall_map. eapply List.Forall_impl; [|exact Hmsg]. intros i [? _]. by rewrite Ht.
    - by rewrite length_map, length_seq.
    - exists t'. by rewrite map_map in Hs. }
  eapply lines_dialogues.
  - apply (plays_example_main prefix' prefix); [done..|by apply standing_start|].
    eapply List.Forall_impl; [|exact Hmsg]. by intros i (_ & ? & ?).
  - simpl. by rewrite dials_on.
  - intros i Hi. replace i with (N.to_nat 0) by (simpl; lia).
    exists (G ++ closes Duet.Server). split; [by rewrite only_dial, only_on, (view_client_app G)|].
    rewrite view_server_app. apply Hs.
Qed.



(** * The example of the no-answer mode *)

(** One call over the connection in place, of a client that does not wait for answers,
    or that is refused. *)
Lemma plays_call_tl {B} (p : program ClientTL.t) command data t r
    (rest : list byte → method clientE (program ClientTL.t) BoxError B) sh b st n u Q :
  ClientTL.keep_alive (program_client p) = true → standing sh b (Some st) n →
  (∀ st, ∃ b, follows (ClientTL.exchange st command data (program_client p)) t
    (ClientTL.with_buffer b (program_client p), r)) →
  (∀ g sh' b', standing sh' b' (if is_ok r then Some st else None) n →
     let p' := Program (ClientTL.with_buffer g (program_client p)) (printed p) in
     match r with
     | Ok a => plays (rest a p') sh' b' u Q
     | Err e => u = [] ∧ Q (p', Err (into e)) sh' b'
     end) →
  plays ((on_client (handle_message command data) ≫= rest) p) sh b (on st (t ++ closing r) ++ u) Q.
Proof.
  intros Hka Hst Hx Hrest.
  assert (plays (handle_message command data (program_client p)) sh b (on st (t ++ closing r))
    (λ a sh' b', ∃ c', a = (c', r) ∧ (∃ g, c' = ClientTL.with_buffer g (program_client p)) ∧
       standing sh' b' (if is_ok r then Some st else None) n)) as Hp.
  { pose proof (handle_message_ok (program_client p) command data sh b (Some st) n t r
      (λ c', ∃ g, c' = ClientTL.with_buffer g (program_client p)) eq_refl Hst) as Hp.
    cbn [reusable client_tl] in Hp. rewrite Hka in Hp. apply Hp. intros st'.
    destruct (Hx st') as (g & Hf). eexists. split; [by exists g|exact Hf]. }
  apply plays_bind, plays_on_client. eapply plays_impl; [|exact Hp].
  intros a sh' b' (c' & -> & (g & ->) & Hst'). specialize (Hrest g sh' b' Hst').
  destruct r as [x|e]; cbn [fst snd result_map_err]; [exact Hrest|].
  destruct Hrest as [-> HQ]. by apply plays_ret.
Qed.

(** [no_answer_mode] does not get past its first message with the servers of this
    repository.  Its first event is answered with more than it reads; the second one
    fails with status 0, a byte of the length of the first answer, although the server
    has accepted it.  The client hangs up, which ends the server's loop while it waits
    for the payload.  (With bytes unread the operating system may reset the connection
    instead, which ends the loop just the same.) *)
Theorem no_answer_example_fails t0 fuel :
  2 < fuel →
  settles (λ _, simple_server fuel (ServerTL.new 0 1)) tt
    (λ r sh', (∃ c', r = (Program c' [bytes_of "Event #1"], Err (BoxedError (ResponseError x00)))) ∧
       s_stream sh' = None)
    (λ _ r _, ∃ t', r = (t', Ok true))
    (λ _, data ([x00; x00; x0e] ++ bytes_of "Echo: Event #1" ++ [x01])) 1
    (calls_from (no_answer_main (no_answer_mode t0).1) (no_answer_mode t0).2).
Proof.
  intros Hfuel. destruct fuel as [|[|fuel]]; [lia..|].
  destruct (echoes_turn _ _ (echo_loop_echoes "Echo: ") (S fuel) (ServerTL.new 0 1) 42 (event 1))
    as (t1 & Hr1 & Ht1); [by split|].
  destruct (echo_loop_cut "Echo: " fuel t1 42 (event 2)) as (t2 & Ht2);
    [by rewrite Hr1; split|done|].
  set (h i := RequestHeader.wire (RequestHeader.new 42 (as_u32 (len (event i))))).
  set (T1 := outs (h 1) ++ ins [x01] ++ outs (event 1) ++ ins [x01] ++ outs [x01]).
  set (T2 := outs (h 2) ++ ins [x00]).
  eapply (lines_complete _ _ _ _ _ _ _ _ (Dial :: on 0%N T1 ++ on 0%N (T2 ++ [Out Eof]))).
  - unfold no_answer_main. eapply plays_start; [done|by apply standing_start|].
    intros c sh b (Hans & _ & _) Hka Hst. cbn [for_each seq].
    apply plays_mbind_err, plays_mbind.
    assert (on 0%N T1 = on 0%N (T1 ++ closing (Ok (E := Error) (@nil byte))) ++ []) as ->
      by by rewrite !app_nil_r.
    eapply (plays_call_tl (Program c []) 42 (event 1) T1 (Ok [])); [exact Hka|exact Hst| |].
    { intros st. by apply ClientTL.tl_follows_exchange_no_answer. }
    intros g sh1 b1 Hst1 p1. cbv beta iota. apply plays_print, plays_then, plays_sleep. prun. do 2 eexists. split; [done|].
    apply plays_mbind_err.
    assert (on 0%N (T2 ++ [Out Eof]) = on 0%N (T2 ++ closing (Err (A := list byte) (ResponseError x00))) ++ [])
      as -> by by rewrite app_nil_r.
    eapply (plays_call_tl (Program _ _) 42 (event 2) T2 (Err (ResponseError x00)));
      [exact Hka|exact Hst1| |].
    { intros st. by apply ClientTL.tl_follows_exchange_rejected. }
    intros g2 sh2 b2 Hst2 p2. cbv beta iota. split; [done|]. do 2 (do 2 eexists; split; [done|]).
    split; [by eexists|]. apply Hst2.
  - done.
  - intros i Hi. replace i with (N.to_nat 0) by (simpl; lia). eexists. split.
    + specialize (Ht1 _ _ Ht2). revert Ht1. apply acts_impl. intros r l ->. by exists t2.
    + rewrite only_dial, only_app, !only_on. unfold T2. rewrite <-(assoc_L (++)).
      by apply no_answer_schedule_cut.
Qed.
