(* ===== verification/HighLevel.v ===== *)
(** The example on the framework ([src/examples/framework/high_level_server.rs] and
    [high_level_client.rs]): the two programs against each other, over the three
    connections that the client comes to make.

    The lines that [main] prints are modelled; of the debug form of a response and of
    an error, [{:?}], the quotes, the escapes and the name of the error are left out. *)
From S2P Require Import Prelude Errors Text ProtocolStructs Vec Headers TimeoutConfig IO Method Common.
From S2P Require Import Duet Follows Transport ServerTL ServerTLS ProtocolHandler Ping.
From S2P Require Import Capacity ConnectionHandler Server ClientTL ClientTLS ClientState EndToEnd.
From S2P Require Import Serving Lines Parties FullStack EchoHandler ExampleClients.
From stdpp Require Import options.

(** The server that [main] runs, for a connection that finds [total] in the shared
    counter. *)
Definition high_level_server (total : N) : Server.t (EchoHandler.t * N) :=
  Server.set_protocol_command_handler_factory (λ _, (EchoHandler.new, total))
    (Server.new "127.0.0.1:8080" (10 * 1024 * 1024)).

(** * The client *)

Abbreviation main A := (method clientE (program ClientTL.t) BoxError A).

(** A call with [?] and the line that shows the response. *)
Definition ask (label : string) (command : N) (data : string) : main unit :=
  response ← on_client (handle_message command (bytes_of data));
  print (bytes_of label ++ from_utf8_lossy response).

(** A call whose result is looked at. *)
Definition try_message (command : N) (data : string) : main (Result (list byte)) :=
  on_client (λ c, r ← handle_message command (bytes_of data) c; mret (r.1, Ok r.2)).

(** The three arms of the [match]. *)
Definition unknown_outcome (r : Result (list byte)) : list byte :=
  match r with
  | Ok _ => bytes_of "Unexpected success for unknown command"
  | Err (ResponseError status) =>
    bytes_of ("Expected error for unknown cmd: status=" +:+ show (Byte.to_N status))
  | Err _ => bytes_of "Unexpected error kind"
  end.

Definition keep_alive_off : main unit :=
  on_client (λ c, c ← set_keep_alive false c; mret (c, Ok tt)).

Definition high_level_client (t0 : Instant) : program ClientTL.t * shared :=
  let '(client, sh) := ClientTL.new "127.0.0.1:8080" t0 in
  (Program client [bytes_of "Connecting to 127.0.0.1:8080..."], sh).

(** The rest of [main]. *)
Definition high_level_main : main unit :=
  keep_alive_on;;
  connect_now;;
  print (bytes_of "Connected!" ++ [x0a]);;
  ask "Echo:     " EchoHandler.CMD_ECHO "Hello, wagonet!";;
  ask "Upper:    " EchoHandler.CMD_UPPERCASE "shout it";;
  ask "Stats:    " EchoHandler.CMD_STATS "";;
  r ← try_message 999 "nope";
  print (unknown_outcome r);;
  ask "After err: " EchoHandler.CMD_ECHO "still alive";;
  keep_alive_off;;
  ask "New conn:  " EchoHandler.CMD_STATS "";;
  disconnect_now;;
  print (x0a :: bytes_of "Disconnected.").

Abbreviation MAX := DEFAULT_MAX_BUFFER_SIZE.

Section client.
Implicit Types (p : program ClientTL.t).

Lemma plays_try {B} command data r (rest : Result (list byte) → main B) p sh b cur n t Q :
  let c := program_client p in
  let ka := reusable c in
  waits_answer c = true → connectable c = true → standing sh b cur n → whole r →
  (len (ProtocolHandler.reply_payload r) < u32_modulus)%N →
  (len (ProtocolHandler.reply_payload r) <= response_limit c)%N →
  (∀ c' sh' b', like c c' → reusable c' = ka →
     standing sh' b' (if is_ok (outcome_of (C := ClientTL.t) r) then Some (line_of ka cur n) else None)
       (lines_after ka cur n) →
     plays (rest (outcome_of (C := ClientTL.t) r) (Program c' (printed p))) sh' b' t Q) →
  plays ((try_message command data ≫= rest) p) sh b
    ((opening ka cur n ++ on (line_of ka cur n)
      (view_client (ProtocolHandler.request_dialogue
        (RequestHeader.new command (as_u32 (len (bytes_of data)))) (bytes_of data) r) ++
       closing (outcome_of (C := ClientTL.t) r))) ++ t) Q.
Proof.
  intros c ka Hans Hco Hst Hw Hlen Hle Hrest. unfold try_message.
  apply plays_mbind, plays_on_client. rewrite <-(app_nil_r (opening _ _ _ ++ _)).
  apply (plays_bind (handle_message command (bytes_of data) (program_client p))).
  eapply plays_impl; [|by apply plays_message].
  intros a sh' b' (c' & -> & (Hlike & Hre) & Hst'). apply plays_ret. do 2 eexists. split; [done|].
  by apply Hrest.
Qed.

(** A line of the client that is answered. *)
Lemma plays_ask {B} label command data payload (rest : unit → main B) p sh b cur n t Q :
  let c := program_client p in
  let ka := reusable c in
  let r := Ok (StatusOk, payload) in
  waits_answer c = true → connectable c = true → standing sh b cur n →
  (len payload < u32_modulus)%N → (len payload <= response_limit c)%N →
  (∀ c' sh' b', like c c' → reusable c' = ka →
     standing sh' b' (Some (line_of ka cur n)) (lines_after ka cur n) →
     plays (rest tt (Program c' (printed p ++ [bytes_of label ++ from_utf8_lossy payload]))) sh' b' t Q) →
  plays ((ask label command data ≫= rest) p) sh b
    ((opening ka cur n ++ on (line_of ka cur n)
      (view_client (ProtocolHandler.request_dialogue
        (RequestHeader.new command (as_u32 (len (bytes_of data)))) (bytes_of data) r))) ++ t) Q.
Proof.
  intros c ka r Hans Hco Hst Hlen Hle Hrest. unfold ask.
  apply plays_mbind. rewrite <-(app_nil_r (opening _ _ _ ++ _)). apply plays_mbind, plays_on_client.
  pose proof (plays_message c command (bytes_of data) r sh b cur n Hans Hco Hst) as Hp.
  assert (outcome_of (C := ClientTL.t) r = Ok payload) as Ho by done. rewrite Ho in Hp.
  cbn [is_ok closing] in Hp. rewrite app_nil_r in Hp.
  eapply plays_impl; [|apply Hp; [split; [done|by left]|done..]].
  intros a sh' b' (c' & -> & (Hlike & Hre) & Hst'). do 2 eexists. split; [done|].
  apply plays_ret. do 2 eexists. split; [done|]. by apply Hrest.
Qed.

(** The same on the connection in place, on a new one, and refused. *)
Abbreviation exchange command data r := (view_client (ProtocolHandler.request_dialogue
  (RequestHeader.new command (as_u32 (len (bytes_of data)))) (bytes_of data) r)).

Lemma plays_ask_kept {B} label command data payload (rest : unit → main B) p sh b st n t Q :
  usable (program_client p) MAX → standing sh b (Some st) n → (len payload <= MAX)%N →
  (∀ c' sh' b', usable c' MAX → standing sh' b' (Some st) n →
     plays (rest tt (Program c' (printed p ++ [bytes_of label ++ from_utf8_lossy payload]))) sh' b' t Q) →
  plays ((ask label command data ≫= rest) p) sh b
    (on st (exchange command data (Ok (StatusOk, payload))) ++ t) Q.
Proof.
  intros Hu Hst Hle Hrest. pose proof Hu as (Hans & Hre & Hco & Hlim).
  pose proof (plays_ask label command data payload rest p sh b (Some st) n t Q) as Hp.
  cbv zeta in Hp. rewrite Hre in Hp. apply Hp; [done..|unfold DEFAULT_MAX_BUFFER_SIZE in Hle; lia|by rewrite Hlim|].
  intros c' sh' b' Hlike Hre' Hst'. apply Hrest; [|done].
  apply (usable_like (program_client p)); [done..|by rewrite Hre', Hre].
Qed.

Lemma plays_ask_new {B} label command data payload (rest : unit → main B) p sh b n t Q :
  waits_answer (program_client p) = true → connectable (program_client p) = true →
  response_limit (program_client p) = MAX →
  standing sh b None n → (len payload <= MAX)%N →
  (∀ c' sh' b', like (program_client p) c' → reusable c' = reusable (program_client p) →
     standing sh' b' (Some (N.of_nat n)) (S n) →
     plays (rest tt (Program c' (printed p ++ [bytes_of label ++ from_utf8_lossy payload]))) sh' b' t Q) →
  plays ((ask label command data ≫= rest) p) sh b
    (Dial :: on (N.of_nat n) (exchange command data (Ok (StatusOk, payload))) ++ t) Q.
Proof.
  intros Hans Hco Hlim Hst Hle Hrest.
  pose proof (plays_ask label command data payload rest p sh b None n t Q) as Hp.
  cbv zeta in Hp. apply Hp; [done..|unfold DEFAULT_MAX_BUFFER_SIZE in Hle; lia|by rewrite Hlim|exact Hrest].
Qed.

Lemma plays_try_refused {B} command data e (rest : Result (list byte) → main B) p sh b st n t Q :
  usable (program_client p) MAX → standing sh b (Some st) n →
  (∀ c' sh' b', usable c' MAX → standing sh' b' None n →
     plays (rest (Err (ResponseError x03)) (Program c' (printed p))) sh' b' t Q) →
  plays ((try_message command data ≫= rest) p) sh b
    (on st (exchange command data (Err e)) ++ on st [Out Eof] ++ t) Q.
Proof.
  rewrite (assoc_L (++)), <-on_app. intros Hu Hst Hrest. pose proof Hu as (Hans & Hre & Hco & Hlim).
  pose proof (plays_try command data (Err e) rest p sh b (Some st) n t Q) as Hp.
  cbv zeta in Hp. rewrite Hre in Hp. apply Hp; [done..|by split; [|right]|done|by rewrite Hlim|].
  intros c' sh' b' Hlike Hre' Hst'. apply Hrest; [|done].
  apply (usable_like (program_client p)); [done..|by rewrite Hre', Hre].
Qed.

Lemma plays_keep_alive_off {B} (rest : unit → main B) p sh b cur n t Q :
  reusable (program_client p) = true → standing sh b cur n →
  (∀ c' sh' b', like (program_client p) c' → reusable c' = false → standing sh' b' None n →
     plays (rest tt (Program c' (printed p))) sh' b' t Q) →
  plays ((keep_alive_off ≫= rest) p) sh b (hangs_up cur ++ t) Q.
Proof.
  intros Hre Hst Hrest. unfold keep_alive_off. apply plays_mbind, plays_on_client.
  rewrite <-(app_nil_r (hangs_up cur)). apply (plays_bind (set_keep_alive false (program_client p))).
  pose proof (set_keep_alive_ok false (program_client p) sh b cur n Hst) as Hp.
  rewrite Hre in Hp. cbn [negb andb] in Hp. eapply plays_impl; [|exact Hp].
  intros c sh' b' (? & ? & ?). apply plays_ret. do 2 eexists. split; [done|]. by apply Hrest.
Qed.
End client.

(** * The two programs *)

Section pair.
Context `{Casing} (totals : nat → N).

(** The handler of the [i]-th connection, when it starts. *)
Definition handler_of (i : nat) : EchoHandler.t * N := (EchoHandler.new, totals i).

(** The shared counter after [k] requests of the [i]-th connection. *)
Definition count_after (i k : nat) : N := Nat.iter k (λ n, EchoHandler.wrapping_add n 1) (totals i).

Definition stats (i k : nat) : list byte := EchoHandler.stats_message (N.of_nat k) (count_after i k).

Definition first_requests : list (N * list byte) :=
  [(1, bytes_of "Hello, wagonet!"); (2, bytes_of "shout it"); (4, []); (999, bytes_of "nope")]%N.
Definition first_answers : list (Result (ResponseStatus * list byte)) :=
  [Ok (StatusOk, bytes_of "Hello, wagonet!"); Ok (StatusOk, bytes_of "SHOUT IT");
   Ok (StatusOk, stats 0 3); Err (Msg "unknown command: 999")].

(** What the client prints. *)
Definition high_level_output : list (list byte) :=
  [bytes_of "Connecting to 127.0.0.1:8080..."; bytes_of "Connected!" ++ [x0a];
   bytes_of "Echo:     Hello, wagonet!"; bytes_of "Upper:    SHOUT IT";
   bytes_of "Stats:    " ++ stats 0 3; bytes_of "Expected error for unknown cmd: status=3";
   bytes_of "After err: still alive"; bytes_of "New conn:  " ++ stats 2 1;
   x0a :: bytes_of "Disconnected."].

Lemma count_after_lt i k : (count_after i (S k) < 2 ^ 64)%N.
Proof using Type. by apply N.mod_lt. Qed.

Lemma shout : to_uppercase (from_utf8_lossy (bytes_of "shout it")) = bytes_of "SHOUT IT".
Proof using Type.
  rewrite from_utf8_lossy_text by (apply is_utf8_ascii; repeat constructor).
  by rewrite to_uppercase_ascii by repeat constructor.
Qed.

Lemma is_utf8_stats i k : is_utf8 (stats i k).
Proof using Type.
  unfold stats, EchoHandler.stats_message. rewrite !bytes_of_app.
  repeat apply is_utf8_app; try apply is_utf8_show; apply is_utf8_ascii; repeat constructor.
Qed.

Lemma stats_small i k : (0 < k < 100) → (len (stats i k) <= 100)%N.
Proof using Type.
  intros Hk. destruct k as [|k]; [lia|]. apply EchoHandler.len_stats; [|apply count_after_lt].
  change (2 ^ 64)%N with 18446744073709551616%N. lia.
Qed.

Abbreviation session := (local_runs MAX MAX).

(** One request of a session, when everything is short. *)
Lemma runs_short s command data s' r reqs hd rs :
  EchoHandler.run s command data = (s', r) → (0 < command < u32_modulus)%N → (len data <= 100)%N → whole r →
  (len (ProtocolHandler.reply_payload r) <= 100)%N → session s' reqs hd rs →
  session s ((command, data) :: reqs) hd (r :: rs).
Proof using Type.
  intros Hrun Hc Hdata Hw Hr Hs. assert (100 < MAX ∧ 100 < u32_modulus)%N as [Hm Hu] by done.
  eapply runs_cons; [split; lia| |done|lia..|exact Hs]. split; [done|]. by rewrite Hrun.
Qed.

(** The sessions of the three connections. *)
Lemma first_session : session (handler_of 0) first_requests (EchoHandler.mk 4, count_after 0 4) first_answers.
Proof using Type.
  pose proof (stats_small 0 3 ltac:(lia)).
  eapply (runs_short _ _ _ (EchoHandler.mk 1, count_after 0 1));
    [done|done|done|by split; [|left]|done|].
  eapply (runs_short _ _ _ (EchoHandler.mk 2, count_after 0 2));
    [|done|done|by split; [|left]|done|].
  { unfold EchoHandler.run, EchoHandler.answer. simpl. by rewrite shout. }
  eapply (runs_short _ _ _ (EchoHandler.mk 3, count_after 0 3));
    [done|done|done|by split; [|left]|done|].
  eapply (runs_short _ _ _ (EchoHandler.mk 4, count_after 0 4));
    [done|done|done|by split; [|right]|done|].
  apply runs_nil.
Qed.

Lemma second_session :
  session (handler_of 1) [(1%N, bytes_of "still alive")] (EchoHandler.mk 1, count_after 1 1)
    [Ok (StatusOk, bytes_of "still alive")].
Proof using Type.
  eapply (runs_short _ _ _ (EchoHandler.mk 1, count_after 1 1));
    [done|done|done|by split; [|left]|done|]. apply runs_nil.
Qed.

Lemma third_session :
  session (handler_of 2) [(4%N, [])] (EchoHandler.mk 1, count_after 2 1) [Ok (StatusOk, stats 2 1)].
Proof using Type.
  pose proof (stats_small 2 1 ltac:(lia)).
  eapply (runs_short _ _ _ (EchoHandler.mk 1, count_after 2 1));
    [done|done|done|by split; [|left]|done|]. apply runs_nil.
Qed.

(** What the client does, connection by connection. *)
Definition session_on (i : nat) : dialogue :=
  match i with
  | 0 => session_dialogue first_requests first_answers
  | 1 => session_dialogue [(1%N, bytes_of "still alive")] [Ok (StatusOk, bytes_of "still alive")]
  | _ => session_dialogue [(4%N, [])] [Ok (StatusOk, stats 2 1)]
  end ++ closes Duet.Client.

Definition high_level_moves : list move :=
  concat (map (λ i, Dial :: on (N.of_nat i) (view_client (session_on i))) (seq 0 3)).

Lemma plays_high_level t0 :
  plays (high_level_main (high_level_client t0).1) (high_level_client t0).2 [] high_level_moves
    (λ r sh _, (∃ c', r = (Program c' high_level_output, Ok tt)) ∧ s_stream sh = None ∧
       s_task_handle sh = None).
Proof using Type.
  pose proof (stats_small 0 3 ltac:(lia)) as Hs1. pose proof (stats_small 2 1 ltac:(lia)) as Hs2.
  assert (100 < MAX)%N as Hm by done.
  unfold high_level_moves, session_on, session_dialogue.
  cbn [map seq concat zip_with fst snd app first_requests first_answers].
  rewrite !app_nil_r, !view_client_app, <-!(assoc_L (++)), !on_app. cbn [app]. rewrite <-!(assoc_L (++)).
  unfold high_level_main. eapply plays_keep_alive_on; [by apply standing_start|].
  intros c1 sh1 b1 L1 R1 S1. assert (usable c1 MAX) as U1 by (by destruct L1 as (? & ? & ?)).
  eapply plays_connect_now; cbn [program_client]; [apply U1|done|]. intros sh2 b2 S2.
  apply plays_print.
  eapply plays_ask_kept; [done|done|done|]. intros c3 sh3 b3 U3 S3.
  eapply plays_ask_kept; [done|done|done|]. intros c4 sh4 b4 U4 S4.
  eapply plays_ask_kept; [done|done|lia|]. intros c5 sh5 b5 U5 S5.
  eapply plays_try_refused; [done|done|]. intros c6 sh6 b6 U6 S6. apply plays_print.
  eapply plays_ask_new; [apply U6..|done|done|]. intros c7 sh7 b7 L7 R7 S7.
  assert (usable c7 MAX) as U7 by (by apply (usable_like c6)).
  apply (plays_keep_alive_off _ _ _ _ (Some 1%N) 2); [apply U7|done|]. intros c8 sh8 b8 L8 R8 S8.
  pose proof U7 as (A7 & _ & C7 & M7). destruct L8 as (A8 & M8 & C8). cbn [program_client] in *.
  eapply plays_ask_new; cbn [program_client]; [congruence..|done|lia|]. intros c9 sh9 b9 _ _ S9.
  apply plays_mlast. eapply plays_last_disconnect; [done|]. intros sh b Hs Ht. do 2 eexists. split; [done|].
  apply plays_ret. split; [|done]. exists c9. cbn [program_client printed].
  by rewrite (from_utf8_lossy_text (stats 0 3)), (from_utf8_lossy_text (stats 2 1)) by apply is_utf8_stats.
Qed.

Lemma only_high_level i : i < 3 → only i high_level_moves = view_client (session_on i).
Proof using Type.
  intros Hi. unfold high_level_moves. cbn [map seq concat app].
  repeat (rewrite only_dial || rewrite only_app).
  destruct i as [|[|[|]]]; [..|lia];
    repeat first [rewrite only_on_nat | rewrite only_on_ne by (simpl; lia)]; by rewrite ?app_nil_r.
Qed.

Lemma dials_high_level : dials high_level_moves = 3.
Proof using Type.
  unfold high_level_moves. cbn [map seq concat app].
  by repeat (rewrite dials_dial || rewrite dials_app || rewrite dials_on).
Qed.

(** C37: the example works end to end, over three connections.  The client prints the
    answers that its text promises, but the connection does not survive the refusal of
    the unknown command: the client drops it and makes a second one, where the next
    answer comes from, and the request without keep-alive is answered over a third, whose
    handler counts from one.  The totals are those of the shared counter, whatever it
    was when each connection was made.  Every task of the server ends well, and the
    client is offline, in every interleaving and segmentation. *)
Theorem high_level_programs `{Allocator} t0 fuel :
  4 < fuel →
  settles (λ i, ConnectionHandler.run fuel (handler_of i)
      (connection_of (high_level_server (totals i)) (N.of_nat i))) tt
    (λ r sh, (∃ c', r = (Program c' high_level_output, Ok tt)) ∧ s_stream sh = None ∧
       s_task_handle sh = None)
    (λ _ r _, r.2 = Some (Ok tt)) (λ _, []) 3
    (calls_from (high_level_main (high_level_client t0).1) (high_level_client t0).2).
Proof.
  intros Hfuel. eapply lines_dialogues; [apply plays_high_level|apply dials_high_level|].
  intros i Hi. exists (session_on i). split; [by rewrite app_nil_r, only_high_level|].
  assert (∃ reqs rs hd, session_on i = session_dialogue reqs rs ++ closes Duet.Client ∧
    session (handler_of i) reqs hd rs ∧ length reqs < fuel) as (reqs & rs & hd & -> & Hl & Hlen).
  { destruct i as [|[|[|]]]; [..|lia]; do 3 eexists; (split; [reflexivity|]).
    - split; [apply first_session|simpl; lia].
    - split; [apply second_session|simpl; lia].
    - split; [apply third_session|simpl; lia]. }
  eapply acts_impl; [|eapply (follows_run _ _ _ _ _ (connection_of (high_level_server (totals i)) _));
    [apply connection_of_stream|done|exact Hl|done]]. by intros r l ->.
Qed.
End pair.

#[local] Existing Instance generous.
#[local] Existing Instance ascii_casing.

(** With nobody else at the server the totals go on from connection to connection. *)
Lemma high_level_programs_witness :
  settles (λ i, ConnectionHandler.run 5 (handler_of (λ i, [0; 4; 5]%N !!! i) i)
      (connection_of (high_level_server ([0; 4; 5]%N !!! i)) (N.of_nat i))) tt
    (λ r sh, (∃ c', r = (Program c' (
       [bytes_of "Connecting to 127.0.0.1:8080..."; bytes_of "Connected!" ++ [x0a]] ++
       map bytes_of ["Echo:     Hello, wagonet!"; "Upper:    SHOUT IT";
         "Stats:    This connection: 3 requests | Total across all connections: 3";
         "Expected error for unknown cmd: status=3"; "After err: still alive";
         "New conn:  This connection: 1 requests | Total across all connections: 6"] ++
       [x0a :: bytes_of "Disconnected."]), Ok tt)) ∧ s_stream sh = None ∧
       s_task_handle sh = None)
    (λ _ r _, r.2 = Some (Ok tt)) (λ _, []) 3
    (calls_from (high_level_main (high_level_client 0).1) (high_level_client 0).2).
Proof. refine (high_level_programs (λ i, [0; 4; 5]%N !!! i) 0 5 _). lia. Defined.
