(* ===== verification/Greeter.v ===== *)
(** The example on [prost] ([src/examples/prost/]): a typed call as the client and the
    handler make it, the handler with its two shared counters, and the two programs
    against each other.

    [prost] is third-party code: [Message] is its encoder and decoder for a message
    type, with what its documentation promises, that a message is decoded as it was
    encoded and that a decoded message is one of its type. *)
From S2P Require Import Prelude Errors Text ProtocolStructs Vec Headers TimeoutConfig IO Method Common.
From S2P Require Import Duet Follows Transport ServerTL ServerTLS ProtocolHandler Ping.
From S2P Require Import Capacity ConnectionHandler Server ClientTL ClientTLS ClientState EndToEnd.
From S2P Require Import Serving Lines Parties FullStack EchoHandler ExampleClients.
From stdpp Require Import options.

(** The values a Rust type has among those of its model. *)
Class Typed (M : Type) := typed : M → Prop.

(** [prost::Message]: [encode] into a new vector, and [decode]; errors as they are
    displayed. *)
Class Message (M : Type) `{Typed M} := {
  encode : M → result (list byte) string;
  decode : list byte → result M string;
  encode_decode m : typed m → ∃ buf, encode m = Ok buf ∧ decode buf = Ok m;
  decode_typed buf m : decode buf = Ok m → typed m;
}.

Module greet.

(** [struct GreetRequest], with a [String] and a [u32]. *)
Record GreetRequest := { name : list byte; times : N }.
(** [struct GreetResponse]. *)
Record GreetResponse := { greetings : list (list byte); total_greetings : N }.
(** [struct StatsRequest {}]. *)
Inductive StatsRequest := stats_request.
(** [struct StatsResponse]. *)
Record StatsResponse := { total_requests : N; active_connections : N }.

#[global] Instance GreetRequest_typed : Typed GreetRequest := λ m,
  is_utf8 (name m) ∧ (times m < u32_modulus)%N.
#[global] Instance GreetResponse_typed : Typed GreetResponse := λ m,
  Forall is_utf8 (greetings m) ∧ (total_greetings m < 2 ^ 64)%N.
#[global] Instance StatsRequest_typed : Typed StatsRequest := λ _, True.
#[global] Instance StatsResponse_typed : Typed StatsResponse := λ m,
  (total_requests m < 2 ^ 64)%N ∧ (active_connections m < 2 ^ 64)%N.

End greet.

(** The commands of the example. *)
Module prost.
Definition CMD_GREET : N := 1.
Definition CMD_STATS : N := 2.
End prost.
Import prost.

(** The [String] that [format!] makes of the [i]-th greeting. *)
Definition greeting (name : list byte) (i : nat) : list byte :=
  bytes_of "Hello, " ++ name ++ bytes_of ("! (greeting #" +:+ show (N.of_nat i + 1) +:+ ")").

Module GreeterHandler.

(** The two counters behind their [Arc]s. *)
Record t := mk { total_requests : N; total_greetings : N }.

Definition new : t := mk 0 0.

Section run.
Context `{!Message greet.GreetRequest, !Message greet.GreetResponse}.
Context `{!Message greet.StatsRequest, !Message greet.StatsResponse}.

(** [run], when no other connection is served meanwhile. *)
Definition run (s : t) (command : N) (data : list byte) : t * Result (ResponseStatus * list byte) :=
  let s := mk (EchoHandler.wrapping_add (total_requests s) 1) (total_greetings s) in
  if (command =? CMD_GREET)%N then
    match decode data : result greet.GreetRequest string with
    | Err e => (s, Err (Msg ("Failed to decode GreetRequest: " +:+ e)))
    | Ok request =>
      let times := if (greet.times request =? 0)%N then 1%N else greet.times request in
      let greetings := map (greeting (greet.name request)) (seq 0 (N.to_nat times)) in
      let total := EchoHandler.wrapping_add (total_greetings s) times in
      let s := mk (total_requests s) total in
      let response := {| greet.greetings := greetings; greet.total_greetings := total |} in
      match encode response with
      | Err e => (s, Err (Msg ("Failed to encode GreetResponse: " +:+ e)))
      | Ok buf => (s, Ok (StatusOk, buf))
      end
    end
  else if (command =? CMD_STATS)%N then
    match decode data : result greet.StatsRequest string with
    | Err e => (s, Err (Msg ("Failed to decode StatsRequest: " +:+ e)))
    | Ok _ =>
      let response :=
        {| greet.total_requests := total_requests s; greet.active_connections := 0 |} in
      match encode response with
      | Err e => (s, Err (Msg ("Failed to encode StatsResponse: " +:+ e)))
      | Ok buf => (s, Ok (StatusOk, buf))
      end
    end
  else (s, Err (Msg ("Unknown command: " +:+ show command))).

#[global] Instance handler : ProtocolCommandHandler voidE t := {|
  ProtocolHandler.run s command data := Ret (run s command data);
|}.
End run.

End GreeterHandler.

(** The server that [main] runs. *)
Definition prost_server : Server.t GreeterHandler.t :=
  Server.set_protocol_command_handler_factory (λ _, GreeterHandler.new)
    (Server.new "127.0.0.1:9090" (10 * 1024 * 1024)).

(** * The client *)

Section client.
Context `{!Message greet.GreetRequest, !Message greet.GreetResponse}.
Context `{!Message greet.StatsRequest, !Message greet.StatsResponse}.

Abbreviation main A := (method clientE (program ClientTL.t) BoxError A).

(** A typed call: encode, send, decode. *)
Definition rpc {Req Res} `{Message Req, Message Res} (command : N) (request : Req) : main Res :=
  buf ← question (encode request);
  response_bytes ← on_client (handle_message command buf);
  question (decode response_bytes).

(** [println!] of a line that ends in [\n] itself. *)
Definition print_nl (text : list byte) : main unit := print (text ++ [x0a]).

(** Show the greetings and the total. *)
Definition show_greetings (title : string) (response : greet.GreetResponse) : main unit :=
  print (bytes_of title);;
  for_each (greet.greetings response) (λ greeting, print (bytes_of "  - " ++ greeting));;
  print_nl (bytes_of ("  Total greetings so far: " +:+ show (greet.total_greetings response))).

Definition prost_client (t0 : Instant) : program ClientTL.t * shared :=
  let '(client, sh) := ClientTL.new "127.0.0.1:9090" t0 in
  (Program client [bytes_of "Connecting to 127.0.0.1:9090..."], sh).

(** The rest of [main]. *)
Definition prost_main : main unit :=
  keep_alive_on;;
  connect_now;;
  print_nl (bytes_of "Connected!");;
  response ← rpc CMD_GREET {| greet.name := bytes_of "Alice"; greet.times := 3 |};
  show_greetings "Greet Alice (3 times):" response;;
  response ← rpc CMD_GREET {| greet.name := bytes_of "Bob"; greet.times := 1 |};
  show_greetings "Greet Bob (1 time):" response;;
  response ← rpc CMD_STATS greet.stats_request;
  print (bytes_of "Server stats:");;
  print (bytes_of ("  Total requests: " +:+ show (greet.total_requests response)));;
  print (bytes_of ("  Active connections: " +:+ show (greet.active_connections response)));;
  disconnect_now;;
  print (x0a :: bytes_of "Disconnected.").
End client.

(** * Text and types *)

Lemma is_utf8_greeting name i : is_utf8 name → is_utf8 (greeting name i).
Proof.
  intros Hn. unfold greeting. rewrite !bytes_of_app.
  repeat apply is_utf8_app; try done; try apply is_utf8_show;
    apply is_utf8_ascii; repeat constructor.
Qed.

Lemma wrapping_add_lt a b : (EchoHandler.wrapping_add a b < 2 ^ 64)%N.
Proof. by apply N.mod_lt. Qed.

Section handler.
Context `{!Message greet.GreetRequest, !Message greet.GreetResponse}.
Context `{!Message greet.StatsRequest, !Message greet.StatsResponse}.
Implicit Types (s : GreeterHandler.t).

(** What a well-typed request to greet is to be answered with. *)
Definition greeted (total : N) (request : greet.GreetRequest) : greet.GreetResponse :=
  let times := N.max 1 (greet.times request) in
  {| greet.greetings := map (greeting (greet.name request)) (seq 0 (N.to_nat times));
     greet.total_greetings := EchoHandler.wrapping_add total times |}.

Lemma greeted_typed total request : typed request → typed (greeted total request).
Proof using Type.
  unfold typed, greet.GreetRequest_typed, greet.GreetResponse_typed.
  intros [Hn _]. split; [|apply wrapping_add_lt].
  apply List.Forall_map, Forall_true. intros i. by apply is_utf8_greeting.
Qed.

(** The two arms, on requests that decode. *)
Lemma run_greet s data request :
  decode data = Ok request → ∃ buf,
  let response := greeted (GreeterHandler.total_greetings s) request in
  GreeterHandler.run s CMD_GREET data =
    (GreeterHandler.mk (EchoHandler.wrapping_add (GreeterHandler.total_requests s) 1)
       (greet.total_greetings response), Ok (StatusOk, buf)) ∧
  encode response = Ok buf ∧ decode buf = Ok response ∧ typed response.
Proof using Type.
  intros Hd. pose proof (decode_typed _ _ Hd) as Ht.
  destruct (encode_decode _ (greeted_typed (GreeterHandler.total_greetings s) request Ht))
    as (buf & He & Hdb).
  exists buf. split_and!; [|done..|by apply greeted_typed].
  unfold GreeterHandler.run. cbn [N.eqb CMD_GREET Pos.eqb]. rewrite Hd.
  assert ((if (greet.times request =? 0)%N then 1%N else greet.times request) =
    N.max 1 (greet.times request)) as -> by breflect.
  unfold greeted in He. cbv zeta in He |- *.
  cbn [GreeterHandler.total_requests GreeterHandler.total_greetings]. by rewrite He.
Qed.

Lemma run_stats s data (request : greet.StatsRequest) :
  let requests := EchoHandler.wrapping_add (GreeterHandler.total_requests s) 1 in
  let response := {| greet.total_requests := requests; greet.active_connections := 0 |} in
  decode data = Ok request → ∃ buf,
  GreeterHandler.run s CMD_STATS data =
    (GreeterHandler.mk requests (GreeterHandler.total_greetings s), Ok (StatusOk, buf)) ∧
  encode response = Ok buf ∧ decode buf = Ok response.
Proof using Type.
  intros requests response Hd. destruct (encode_decode response) as (buf & He & Hdb).
  { split; [apply wrapping_add_lt|done]. }
  exists buf. split; [|done]. unfold GreeterHandler.run. simpl. rewrite Hd.
  fold requests. fold response. by rewrite He.
Qed.

End handler.

(** * The two programs *)

(** A message that fits the limits on both sides. *)
Definition short {M} `{Message M} (m : M) : Prop :=
  ∀ buf, encode m = Ok buf → (len buf <= DEFAULT_MAX_BUFFER_SIZE)%N.

(** A typed message as it travels. *)
Lemma travels {M} `{Message M} (m : M) :
  typed m → short m → ∃ buf, encode m = Ok buf ∧ decode buf = Ok m ∧
    (len buf <= DEFAULT_MAX_BUFFER_SIZE)%N.
Proof.
  intros Ht Hs. destruct (encode_decode m Ht) as (buf & He & Hd). exists buf.
  pose proof (Hs _ He) as Hle. by split_and!.
Qed.

Section client_plays.
Implicit Types (p : program ClientTL.t).

Lemma plays_rpc {Req Res} `{Message Req, Message Res} {B} command (request : Req) (response : Res)
    buf payload limit (rest : Res → method clientE (program ClientTL.t) BoxError B)
    p sh b st n t Q :
  encode request = Ok buf → decode payload = Ok response →
  usable (program_client p) limit → standing sh b (Some st) n →
  (len payload < u32_modulus)%N → (len payload <= limit)%N →
  (∀ c' sh' b', usable c' limit → standing sh' b' (Some st) n →
     plays (rest response (Program c' (printed p))) sh' b' t Q) →
  plays ((rpc command request ≫= rest) p) sh b
    (on st (view_client (ProtocolHandler.request_dialogue
      (RequestHeader.new command (as_u32 (len buf))) buf (Ok (StatusOk, payload)))) ++ t) Q.
Proof.
  intros He Hd Hu Hst Hlen Hle Hrest. unfold rpc. rewrite He.
  apply plays_mbind, plays_mthen. apply plays_ret. do 2 eexists. split; [done|].
  rewrite <-(app_nil_r (on _ _)). eapply plays_call; [done..|]. intros c' sh' b' Hu' Hst'.
  unfold question. rewrite Hd. apply plays_ret. do 2 eexists. split; [done|]. by apply Hrest.
Qed.

(** The lines of a response. *)
Definition greeting_lines (title : string) (response : greet.GreetResponse) : list (list byte) :=
  bytes_of title :: map (λ g, bytes_of "  - " ++ g) (greet.greetings response) ++
  [bytes_of ("  Total greetings so far: " +:+ show (greet.total_greetings response)) ++ [x0a]].

Lemma print_each lines p :
  for_each lines (λ g : list byte, print (bytes_of "  - " ++ g)) p =
  Ret (Program (program_client p) (printed p ++ map (λ g, bytes_of "  - " ++ g) lines), Ok tt).
Proof.
  revert p. induction lines as [|g lines IH]; intros p; simpl.
  - rewrite app_nil_r. by destruct p.
  - unfold mbind, method_mbind. simpl. rewrite IH. simpl. by rewrite <-(assoc_L (++)).
Qed.

Lemma plays_show_greetings {B} title response
    (rest : unit → method clientE (program ClientTL.t) BoxError B) p sh b t Q :
  plays (rest tt (Program (program_client p) (printed p ++ greeting_lines title response))) sh b t Q →
  plays ((show_greetings title response ≫= rest) p) sh b t Q.
Proof.
  intros Hrest. apply plays_mthen. unfold show_greetings. apply plays_print, plays_mthen.
  rewrite print_each. apply plays_ret. do 2 eexists. split; [done|]. apply plays_ret.
  do 2 eexists. split; [done|]. unfold greeting_lines in Hrest.
  cbn [program_client printed]. rewrite <-!(assoc_L (++)). exact Hrest.
Qed.
End client_plays.

Section pair.
Context `{!Message greet.GreetRequest, !Message greet.GreetResponse}.
Context `{!Message greet.StatsRequest, !Message greet.StatsResponse}.

Definition alice : greet.GreetRequest := {| greet.name := bytes_of "Alice"; greet.times := 3 |}.
Definition bob : greet.GreetRequest := {| greet.name := bytes_of "Bob"; greet.times := 1 |}.
Definition final_stats : greet.StatsResponse :=
  {| greet.total_requests := 3; greet.active_connections := 0 |}.

(** What the client prints. *)
Definition prost_output : list (list byte) :=
  [bytes_of "Connecting to 127.0.0.1:9090..."; bytes_of "Connected!" ++ [x0a]] ++
  map bytes_of ["Greet Alice (3 times):"; "  - Hello, Alice! (greeting #1)";
    "  - Hello, Alice! (greeting #2)"; "  - Hello, Alice! (greeting #3)"] ++
  [bytes_of "  Total greetings so far: 3" ++ [x0a]] ++
  map bytes_of ["Greet Bob (1 time):"; "  - Hello, Bob! (greeting #1)"] ++
  [bytes_of "  Total greetings so far: 4" ++ [x0a]] ++
  map bytes_of ["Server stats:"; "  Total requests: 3"; "  Active connections: 0"] ++
  [x0a :: bytes_of "Disconnected."].

(** The exchange of the example, once its messages are encoded. *)
Section encoded.
Context (a b q ra rb rs : list byte).

Abbreviation requests := [(CMD_GREET, a); (CMD_GREET, b); (CMD_STATS, q)].
Abbreviation responses := [Ok (StatusOk, ra); Ok (StatusOk, rb); Ok (StatusOk, rs)].

Definition fits (buf : list byte) : Prop := (len buf <= DEFAULT_MAX_BUFFER_SIZE)%N.

Lemma fits_u32 buf : fits buf → (len buf < u32_modulus)%N.
Proof using Type. unfold fits, DEFAULT_MAX_BUFFER_SIZE. lia. Qed.

Context (Hfit : Forall fits [a; b; q; ra; rb; rs]).
Context (Hra : encode (greeted 0 alice) = Ok ra) (Hrb : encode (greeted 3 bob) = Ok rb).
Context (Hrs : encode final_stats = Ok rs).

Lemma all_fit : fits a ∧ fits b ∧ fits q ∧ fits ra ∧ fits rb ∧ fits rs.
Proof using Hfit. by split_and!; eapply List.Forall_forall; try exact Hfit; simpl; tauto. Qed.

(** The server's side, as local calls of the handler. *)
Lemma prost_calls :
  decode a = Ok alice → decode b = Ok bob → decode q = Ok greet.stats_request →
  local_runs DEFAULT_MAX_BUFFER_SIZE DEFAULT_MAX_BUFFER_SIZE GreeterHandler.new requests
    (GreeterHandler.mk 3 4) responses.
Proof using All.
  intros Hda Hdb Hdq. destruct all_fit as (? & ? & ? & ? & ? & ?).
  destruct (run_greet GreeterHandler.new a alice Hda) as (ra' & Hr1 & He1 & _).
  destruct (run_greet (GreeterHandler.mk 1 3) b bob Hdb) as (rb' & Hr2 & He2 & _).
  destruct (run_stats (GreeterHandler.mk 2 4) q greet.stats_request Hdq) as (rs' & Hr3 & He3 & _).
  change (encode (greeted 0 alice) = Ok ra') in He1. rewrite Hra in He1.
  change (encode (greeted 3 bob) = Ok rb') in He2. rewrite Hrb in He2.
  change (encode final_stats = Ok rs') in He3. rewrite Hrs in He3. simplify_eq.
  eapply (runs_cons _ _ _ _ _ (GreeterHandler.mk 1 3));
    [split; auto using fits_u32; done|split; [done|by rewrite Hr1]|by split; [|left]|
     by auto using fits_u32..|].
  eapply (runs_cons _ _ _ _ _ (GreeterHandler.mk 2 4));
    [split; auto using fits_u32; done|split; [done|by rewrite Hr2]|by split; [|left]|
     by auto using fits_u32..|].
  eapply (runs_cons _ _ _ _ _ (GreeterHandler.mk 3 4));
    [split; auto using fits_u32; done|split; [done|by rewrite Hr3]|by split; [|left]|
     by auto using fits_u32..|].
  apply runs_nil.
Qed.

(** The client's side. *)
Lemma plays_prost_main t0 :
  encode alice = Ok a → encode bob = Ok b → encode greet.stats_request = Ok q →
  decode ra = Ok (greeted 0 alice) → decode rb = Ok (greeted 3 bob) → decode rs = Ok final_stats →
  plays (prost_main (prost_client t0).1) (prost_client t0).2 []
    (Dial :: on 0%N (view_client (session_dialogue requests responses ++ closes Duet.Client)))
    (λ r sh _, (∃ c', r = (Program c' prost_output, Ok tt)) ∧ s_stream sh = None ∧
       s_task_handle sh = None).
Proof using All.
  intros Ha Hb Hq Hda Hdb Hds.
  destruct all_fit as (? & ? & ? & ? & ? & ?).
  rewrite view_client_app. unfold session_dialogue. cbn [zip_with concat fst snd].
  rewrite app_nil_r, !view_client_app, <-!(assoc_L (++)), !on_app.
  unfold prost_main. eapply plays_keep_alive_on; [by apply standing_start|].
  intros c1 sh1 b1 Hlike Hre1 Hst1.
  assert (usable c1 DEFAULT_MAX_BUFFER_SIZE) as Hu1 by (by destruct Hlike as (? & ? & ?)).
  eapply plays_connect_now; cbn [program_client]; [apply Hu1|done|]. intros sh2 b2 Hst2.
  apply plays_print.
  eapply plays_rpc; [exact Ha|exact Hda|exact Hu1|exact Hst2|by apply fits_u32|done|].
  intros c3 sh3 b3 Hu3 Hst3. apply plays_show_greetings.
  eapply plays_rpc; [exact Hb|exact Hdb|exact Hu3|exact Hst3|by apply fits_u32|done|].
  intros c4 sh4 b4 Hu4 Hst4. apply plays_show_greetings.
  eapply plays_rpc; [exact Hq|exact Hds|exact Hu4|exact Hst4|by apply fits_u32|done|].
  intros c5 sh5 b5 Hu5 Hst5. do 3 apply plays_print. apply plays_mlast.
  eapply plays_last_disconnect; [done|]. intros sh6 b6 Hs Ht. do 2 eexists. split; [done|].
  apply plays_ret. split; [by exists c5|done].
Qed.
End encoded.

End pair.

(** * A codec *)

(** A codec that keeps the promise of [prost], to show that there is one: numbers in
    unary, texts after their length, lists after theirs. *)
Section unary.

Definition put_nat (n : nat) : list byte := repeat x01 n ++ [x00].

Fixpoint get_nat (bs : list byte) : option (nat * list byte) :=
  match bs with
  | x00 :: bs => Some (0, bs)
  | x01 :: bs => '(n, bs) ← get_nat bs; Some (S n, bs)
  | _ => None
  end.

Lemma get_put_nat n rest : get_nat (put_nat n ++ rest) = Some (n, rest).
Proof. induction n as [|n IH]; [done|]. change (get_nat (put_nat (S n) ++ rest)) with
  ('(n, bs) ← get_nat (put_nat n ++ rest); Some (S n, bs)). by rewrite IH. Qed.

Definition put_N (n : N) : list byte := put_nat (N.to_nat n).
Definition get_N (bs : list byte) : option (N * list byte) :=
  '(n, bs) ← get_nat bs; Some (N.of_nat n, bs).

Lemma get_put_N n rest : get_N (put_N n ++ rest) = Some (n, rest).
Proof. unfold get_N, put_N. rewrite get_put_nat. simpl. by rewrite N2Nat.id. Qed.

Definition put_text (bs : list byte) : list byte := put_nat (length bs) ++ bs.
Definition get_text (bs : list byte) : option (list byte * list byte) :=
  '(n, bs) ← get_nat bs; Some (take n bs, drop n bs).

Lemma get_put_text bs rest : get_text (put_text bs ++ rest) = Some (bs, rest).
Proof.
  unfold get_text, put_text. rewrite <-(assoc_L (++)), get_put_nat. simpl.
  by rewrite take_app_length, drop_app_length.
Qed.

Definition put_texts (ts : list (list byte)) : list byte :=
  put_nat (length ts) ++ concat (map put_text ts).
Fixpoint get_text_times (n : nat) (bs : list byte) : option (list (list byte) * list byte) :=
  match n with
  | O => Some ([], bs)
  | S n => '(t, bs) ← get_text bs; '(ts, bs) ← get_text_times n bs; Some (t :: ts, bs)
  end.
Definition get_texts (bs : list byte) : option (list (list byte) * list byte) :=
  '(n, bs) ← get_nat bs; get_text_times n bs.

Lemma get_put_texts ts rest : get_texts (put_texts ts ++ rest) = Some (ts, rest).
Proof.
  unfold get_texts, put_texts. rewrite <-(assoc_L (++)), get_put_nat. simpl.
  induction ts as [|t ts IH]; [done|]. simpl. by rewrite <-(assoc_L (++)), get_put_text; simpl; rewrite IH.
Qed.

Definition utf8b (bs : list byte) : bool := bool_decide (from_utf8_lossy bs = bs).

Lemma utf8b_spec bs : utf8b bs = true ↔ is_utf8 bs.
Proof.
  unfold utf8b. rewrite bool_decide_eq_true. split; [|apply from_utf8_lossy_text].
  intros <-. apply from_utf8_lossy_is_utf8.
Qed.

(** A decoder that checks the type of what it got. *)
Definition checked {M} (get : option (M * list byte)) (ok : M → bool) : result M string :=
  match get with
  | Some (m, _) => if ok m then Ok m else Err "invalid value"
  | None => Err "malformed"
  end.

Lemma checked_ok {M} (get : option (M * list byte)) ok m rest :
  get = Some (m, rest) → ok m = true → checked get ok = Ok m.
Proof. intros ->. unfold checked. by intros ->. Qed.

Lemma checked_typed {M} (get : option (M * list byte)) ok m : checked get ok = Ok m → ok m = true.
Proof. unfold checked. destruct get as [[m' ?]|]; [|done]. destruct (ok m') eqn:Hok; naive_solver. Qed.

#[local] Obligation Tactic := idtac.

#[local] Program Instance unary_greet_request : Message greet.GreetRequest := {|
  encode m := Ok (put_text (greet.name m) ++ put_N (greet.times m));
  decode bs := checked ('(name, bs) ← get_text bs; '(times, bs) ← get_N bs;
      Some (greet.Build_GreetRequest name times, bs))
    (λ m, utf8b (greet.name m) && (greet.times m <? u32_modulus)%N);
|}.
Next Obligation.
  intros [name times] [Hn Ht]. eexists. split; [done|]. eapply (checked_ok _ _ _ []).
  - simpl. rewrite get_put_text. simpl. by rewrite <-(app_nil_r (put_N times)), get_put_N.
  - apply andb_true_intro. split; [by apply utf8b_spec|by apply N.ltb_lt].
Qed.
Next Obligation.
  intros bs m [Hn Ht]%checked_typed%andb_prop. split; [by apply utf8b_spec|by apply N.ltb_lt].
Qed.

#[local] Program Instance unary_greet_response : Message greet.GreetResponse := {|
  encode m := Ok (put_texts (greet.greetings m) ++ put_N (greet.total_greetings m));
  decode bs := checked ('(greetings, bs) ← get_texts bs; '(total, bs) ← get_N bs;
      Some (greet.Build_GreetResponse greetings total, bs))
    (λ m, forallb utf8b (greet.greetings m) && (greet.total_greetings m <? 2 ^ 64)%N);
|}.
Next Obligation.
  intros [gs total] [Hg Ht]. eexists. split; [done|]. eapply (checked_ok _ _ _ []).
  - simpl. rewrite get_put_texts. simpl. by rewrite <-(app_nil_r (put_N total)), get_put_N.
  - apply andb_true_intro. split; [|by apply N.ltb_lt]. apply forallb_forall.
    intros g Hin. apply utf8b_spec. by eapply List.Forall_forall in Hg.
Qed.
Next Obligation.
  intros bs m [Hg Ht]%checked_typed%andb_prop. split; [|by apply N.ltb_lt].
  apply List.Forall_forall. intros g Hin. apply utf8b_spec. by eapply forallb_forall in Hg.
Qed.

#[local] Program Instance unary_stats_request : Message greet.StatsRequest := {|
  encode _ := Ok [];
  decode bs := Ok greet.stats_request;
|}.
Next Obligation. intros [] _. by eexists. Qed.
Next Obligation. done. Qed.

#[local] Program Instance unary_stats_response : Message greet.StatsResponse := {|
  encode m := Ok (put_N (greet.total_requests m) ++ put_N (greet.active_connections m));
  decode bs := checked ('(requests, bs) ← get_N bs; '(active, bs) ← get_N bs;
      Some (greet.Build_StatsResponse requests active, bs))
    (λ m, (greet.total_requests m <? 2 ^ 64)%N && (greet.active_connections m <? 2 ^ 64)%N);
|}.
Next Obligation.
  intros [r a] [Hr Ha]. eexists. split; [done|]. eapply (checked_ok _ _ _ []).
  - simpl. rewrite get_put_N. simpl. by rewrite <-(app_nil_r (put_N a)), get_put_N.
  - apply andb_true_intro. split; by apply N.ltb_lt.
Qed.
Next Obligation.
  intros bs m [Hr Ha]%checked_typed%andb_prop. split; by apply N.ltb_lt.
Qed.


#[local] Existing Instance generous.

End unary.
